(** * Parson (parson.c): a shallow embedding and its verified properties

    The development follows the layout of [parson.c]:

    - C strings and the helpers of the "Various" block ([hash_string],
      [hex_char_to_int], [parse_utf16_hex], ...);
    - the object hash table ([json_object_get_cell_ix], [json_object_add],
      [json_object_grow_and_rehash], [json_object_set_value],
      [json_object_remove_internal]) over an arbitrary type of stored values;
    - the value tree, the serializer and [json_value_equals];
    - the recursive-descent parser;
    - a pointer-level model (module [Heap]) for the parent links that the
      attach operations test.

    Modelling conventions.

    - A [char] is an [ascii]; a C string is the [list ascii] found at the
      pointer.  Reading at the end of the list yields the terminating NUL
      ([peek]); advancing a pointer is taking the tail.
    - [size_t] and [unsigned int] indices and counters are [nat]: the two agree
      as long as the table has fewer than 2^32 cells.  [unsigned long] hashes
      are [Z] reduced modulo 2^64 after every operation.  The [int] counters
      of the serializer ([written], [written_total], [level]) are numbers
      that stay within [INT_MAX]: an addition that passes it is signed
      overflow, which C leaves undefined, and is an error of the model.
    - The scratch buffer [num_buf] of the measuring pass is kept by its
      size, [PARSON_NUM_BUF_SIZE] bytes: a number whose text and NUL do not
      fit overruns it, which is an error of the model as well.
    - An array allocated with [malloc] is the list of its initialised
      elements.  An access out of bounds is an error of the model: the
      table functions live in the [option] monad and yield [None] there.
    - The allocator is an external collaborator; every allocation succeeds.
    - [double], [strtod] and [sprintf] are external as well: they are the
      fields of the class [FloatOps]. *)

From Stdlib Require Import ZArith Lia List Ascii String Bool.
From stdpp Require Import base tactics option list numbers strings gmap.

Local Open Scope char_scope.
Local Open Scope nat_scope.

(** ** Constants of parson.c *)

Definition STARTING_CAPACITY : nat := 16.
Definition MAX_NESTING : nat := 2048.
Definition PARSON_INDENT_STR : list ascii := [" "; " "; " "; " "].
Definition PARSON_NUM_BUF_SIZE : nat := 64.
Definition INT_MAX : Z := 2147483647%Z.
Definition ULONG_MODULUS : Z := (2 ^ 64)%Z.

Inductive JSON_Status := JSONSuccess | JSONFailure.

Inductive JSON_Value_Type :=
  | JSONError | JSONNull | JSONString | JSONNumber
  | JSONObject | JSONArray | JSONBoolean.

#[global] Instance JSON_Status_eq_dec : EqDecision JSON_Status.
Proof. solve_decision. Defined.

#[global] Instance JSON_Value_Type_eq_dec : EqDecision JSON_Value_Type.
Proof. solve_decision. Defined.

(** ** C strings *)

Definition NUL : ascii := "000".

(** [*s]: the character at the pointer, NUL at the end of the buffer. *)
Definition peek (s : list ascii) : ascii := hd NUL s.

(** [s[i]]. *)
Definition char_at (s : list ascii) (i : nat) : ascii := nth i s NUL.

(** The code of a character as an [unsigned char]. *)
Definition uchar (c : ascii) : Z := Z.of_nat (nat_of_ascii c).

Fixpoint strlen (s : list ascii) : nat :=
  match s with
  | [] => 0
  | c :: s' => if Ascii.eqb c NUL then 0 else S (strlen s')
  end.

(** [strncmp(a, b, n) == 0]. *)
Fixpoint strncmp_eq (a b : list ascii) (n : nat) : bool :=
  match n with
  | 0 => true
  | S n' =>
      if negb (Ascii.eqb (peek a) (peek b)) then false
      else if Ascii.eqb (peek a) NUL then true
      else strncmp_eq (tl a) (tl b) n'
  end.

(** [parson_strndup]: the first [n] bytes; [parson_strdup] copies [strlen]
    bytes. *)
Definition parson_strndup (s : list ascii) (n : nat) : list ascii := take n s.
Definition parson_strdup (s : list ascii) : list ascii :=
  parson_strndup s (strlen s).

(** A buffer that holds a C string and nothing else. *)
Definition cstring (s : list ascii) : Prop := Forall (λ c, c ≠ NUL) s.

(** ** hash_string *)

Fixpoint hash_string_loop (s : list ascii) (n : nat) (hash : Z) : Z :=
  match n with
  | 0 => hash
  | S n' =>
      let c := peek s in
      if Ascii.eqb c NUL then hash
      else
        hash_string_loop (tl s) n'
          ((((Z.shiftl hash 5 mod ULONG_MODULUS) + hash) mod ULONG_MODULUS
            + uchar c) mod ULONG_MODULUS)%Z
  end.

Definition hash_string (s : list ascii) (n : nat) : Z :=
  hash_string_loop s n 5381%Z.

(** ** The object table *)

(** A [size_t] that is either an index or [OBJECT_INVALID_IX = (size_t)-1]. *)
Inductive cell_ref :=
  | OBJECT_INVALID_IX
  | Ix (i : nat).

#[global] Instance cell_ref_eq_dec : EqDecision cell_ref.
Proof. solve_decision. Defined.

(** [struct json_object_t], without the back link [wrapping_value] (the
    parent links are the matter of module [Heap]).  [names], [values],
    [cell_ixs] and [hashes] hold the [count] initialised entries of arrays of
    [item_capacity] elements. *)
Record JSON_Object (V : Type) := mkObject {
  cells : list cell_ref;
  hashes : list Z;
  names : list (list ascii);
  values : list V;
  cell_ixs : list nat;
  count : nat;
  item_capacity : nat;
  cell_capacity : nat
}.
Arguments mkObject {V}.
Arguments cells {V}.
Arguments hashes {V}.
Arguments names {V}.
Arguments values {V}.
Arguments cell_ixs {V}.
Arguments count {V}.
Arguments item_capacity {V}.
Arguments cell_capacity {V}.

(** [x & (cell_capacity - 1)]: for capacity 0 the mask is all ones, on
    [size_t] as on [Z]. *)
Definition mask (capacity : nat) (x : Z) : nat :=
  Z.to_nat (Z.land x (Z.of_nat capacity - 1)).

Section Table.
Context {V : Type}.

Definition json_object_init (capacity : nat) : JSON_Object V :=
  {| cells := replicate capacity OBJECT_INVALID_IX;
     hashes := []; names := []; values := []; cell_ixs := [];
     count := 0;
     item_capacity := capacity * 7 / 10;
     cell_capacity := capacity |}.

(** The loop of [json_object_get_cell_ix]: [i] is the loop counter and [n]
    the number of iterations left. *)
Fixpoint json_object_get_cell_ix_loop (object : JSON_Object V)
    (key : list ascii) (key_len : nat) (hash : Z) (cell_ix : nat)
    (i n : nat) : option (cell_ref * bool) :=
  match n with
  | 0 => Some (OBJECT_INVALID_IX, false)
  | S n' =>
      let ix := mask (cell_capacity object) (Z.of_nat (cell_ix + i)) in
      cell ← cells object !! ix;
      match cell with
      | OBJECT_INVALID_IX => Some (Ix ix, false)
      | Ix cell =>
          hash_to_check ← hashes object !! cell;
          if negb (hash =? hash_to_check)%Z then
            json_object_get_cell_ix_loop object key key_len hash cell_ix (S i) n'
          else
            key_to_check ← names object !! cell;
            if (strlen key_to_check =? key_len) && strncmp_eq key key_to_check key_len
            then Some (Ix ix, true)
            else json_object_get_cell_ix_loop object key key_len hash cell_ix (S i) n'
      end
  end.

(** Returns the cell and [*out_found]. *)
Definition json_object_get_cell_ix (object : JSON_Object V)
    (key : list ascii) (key_len : nat) (hash : Z) : option (cell_ref * bool) :=
  let cell_ix := mask (cell_capacity object) hash in
  json_object_get_cell_ix_loop object key key_len hash cell_ix 0
    (cell_capacity object).

(** The six stores that end both [json_object_add] and
    [json_object_set_value]: entry [count] is written and [cells[cell_ix]]
    points to it. *)
Definition json_object_store (object : JSON_Object V) (name : list ascii)
    (value : V) (cell_ix : cell_ref) (hash : Z) : option (JSON_Object V) :=
  match cell_ix with
  | OBJECT_INVALID_IX => None
  | Ix c =>
      if (c <? length (cells object)) && (count object <? item_capacity object)
      then
        Some {| cells := <[c := Ix (count object)]> (cells object);
                hashes := hashes object ++ [hash];
                names := names object ++ [name];
                values := values object ++ [value];
                cell_ixs := cell_ixs object ++ [c];
                count := S (count object);
                item_capacity := item_capacity object;
                cell_capacity := cell_capacity object |}
      else None
  end.

(** [json_object_grow_and_rehash], parameterised by the insertion it calls:
    a table of capacity [MAX(2 * cell_capacity, STARTING_CAPACITY)] receives
    the entries in index order and replaces the old one; on failure the old
    table is kept. *)
Fixpoint json_object_rehash_loop
    (add : JSON_Object V → list ascii → V → option (JSON_Status * JSON_Object V))
    (keys : list (list ascii)) (vals : list V) (new_object : JSON_Object V)
    : option (JSON_Status * JSON_Object V) :=
  match keys, vals with
  | key :: keys', value :: vals' =>
      '(res, new_object') ← add new_object key value;
      match res with
      | JSONSuccess => json_object_rehash_loop add keys' vals' new_object'
      | JSONFailure => Some (JSONFailure, new_object')
      end
  | [], [] => Some (JSONSuccess, new_object)
  | _, _ => None
  end.

Definition json_object_grow_and_rehash_with
    (add : JSON_Object V → list ascii → V → option (JSON_Status * JSON_Object V))
    (object : JSON_Object V) : option (JSON_Status * JSON_Object V) :=
  let new_capacity := Nat.max (cell_capacity object * 2) STARTING_CAPACITY in
  '(res, new_object) ←
    json_object_rehash_loop add (names object) (values object)
      (json_object_init new_capacity);
  match res with
  | JSONSuccess => Some (JSONSuccess, new_object)
  | JSONFailure => Some (JSONFailure, object)
  end.

(** [json_object_add] and [json_object_grow_and_rehash] call each other.  The
    insertions made while rehashing go into a table with room for them, so
    the recursion is two calls deep; [depth] counts the rehashes that may
    still be nested, and needing one more is an error of the model. *)
Fixpoint json_object_add_at (depth : nat) (object : JSON_Object V)
    (name : list ascii) (value : V) : option (JSON_Status * JSON_Object V) :=
  let hash := hash_string name (strlen name) in
  '(cell_ix, found) ← json_object_get_cell_ix object name (strlen name) hash;
  if found : bool then Some (JSONFailure, object)
  else if item_capacity object <=? count object then
    match depth with
    | 0 => None
    | S depth' =>
        '(res, object') ←
          json_object_grow_and_rehash_with (json_object_add_at depth') object;
        match res with
        | JSONFailure => Some (JSONFailure, object')
        | JSONSuccess =>
            '(cell_ix, _) ←
              json_object_get_cell_ix object' name (strlen name) hash;
            object'' ← json_object_store object' name value cell_ix hash;
            Some (JSONSuccess, object'')
        end
    end
  else
    object' ← json_object_store object name value cell_ix hash;
    Some (JSONSuccess, object').

Definition json_object_add := json_object_add_at 1.

Definition json_object_grow_and_rehash :=
  json_object_grow_and_rehash_with (json_object_add_at 0).

(** [json_object_getn_value] in two steps: the index [item_ix] of the entry
    (no index when the key is not found), then [object->values[item_ix]].
    In the results, the inner [None] is the NULL pointer. *)
Definition json_object_getn_item (object : JSON_Object V)
    (name : list ascii) (name_len : nat) : option (option nat) :=
  let hash := hash_string name name_len in
  '(cell_ix, found) ← json_object_get_cell_ix object name name_len hash;
  if found : bool then
    match cell_ix with
    | OBJECT_INVALID_IX => None
    | Ix c =>
        item_ix ← cells object !! c;
        match item_ix with
        | OBJECT_INVALID_IX => None
        | Ix item_ix => Some (Some item_ix)
        end
    end
  else Some None.

Definition json_object_getn_value (object : JSON_Object V)
    (name : list ascii) (name_len : nat) : option (option V) :=
  item ← json_object_getn_item object name name_len;
  match item with
  | None => Some None
  | Some item_ix => value ← values object !! item_ix; Some (Some value)
  end.

Definition json_object_get_value (object : JSON_Object V) (name : list ascii)
    : option (option V) :=
  json_object_getn_value object name (strlen name).

Definition json_object_get_count (object : JSON_Object V) : nat := count object.

Definition json_object_get_name (object : JSON_Object V) (index : nat)
    : option (list ascii) :=
  if count object <=? index then None else names object !! index.

Definition json_object_get_value_at (object : JSON_Object V) (index : nat)
    : option V :=
  if count object <=? index then None else values object !! index.

(** The table part of [json_object_set_value] (the test of the parent link
    and its update are in [Heap.json_object_set_value]).  On an existing key
    the value is replaced in place; a new key is copied with
    [parson_strdup]. *)
Definition json_object_set_value (object : JSON_Object V) (name : list ascii)
    (value : V) : option (JSON_Status * JSON_Object V) :=
  let hash := hash_string name (strlen name) in
  '(cell_ix, found) ← json_object_get_cell_ix object name (strlen name) hash;
  if found : bool then
    match cell_ix with
    | OBJECT_INVALID_IX => None
    | Ix c =>
        item_ix ← cells object !! c;
        match item_ix with
        | OBJECT_INVALID_IX => None
        | Ix item_ix =>
            if item_ix <? length (values object) then
              Some (JSONSuccess,
                    {| cells := cells object; hashes := hashes object;
                       names := names object;
                       values := <[item_ix := value]> (values object);
                       cell_ixs := cell_ixs object; count := count object;
                       item_capacity := item_capacity object;
                       cell_capacity := cell_capacity object |})
            else None
        end
    end
  else if item_capacity object <=? count object then
    '(res, object') ← json_object_grow_and_rehash object;
    match res with
    | JSONFailure => Some (JSONFailure, object')
    | JSONSuccess =>
        '(cell_ix, _) ← json_object_get_cell_ix object' name (strlen name) hash;
        object'' ←
          json_object_store object' (parson_strdup name) value cell_ix hash;
        Some (JSONSuccess, object'')
    end
  else
    object' ← json_object_store object (parson_strdup name) value cell_ix hash;
    Some (JSONSuccess, object').

(** The backward shift that ends [json_object_remove_internal]: [i] is the
    freed cell, [j] the scanned one and [x] the number of iterations left.
    Returns the table and the final [i]. *)
Fixpoint json_object_remove_shift (object : JSON_Object V) (i j x : nat)
    : option (JSON_Object V * nat) :=
  match x with
  | 0 => Some (object, i)
  | S x' =>
      let j := mask (cell_capacity object) (Z.of_nat (j + 1)) in
      cell ← cells object !! j;
      match cell with
      | OBJECT_INVALID_IX => Some (object, i)
      | Ix item =>
          hash ← hashes object !! item;
          let k := mask (cell_capacity object) hash in
          if ((i <? j) && ((k <=? i) || (j <? k)))
             || ((j <? i) && ((k <=? i) && (j <? k)))
          then
            if (item <? length (cell_ixs object)) && (i <? length (cells object))
            then
              json_object_remove_shift
                {| cells := <[i := Ix item]> (cells object);
                   hashes := hashes object; names := names object;
                   values := values object;
                   cell_ixs := <[item := i]> (cell_ixs object);
                   count := count object;
                   item_capacity := item_capacity object;
                   cell_capacity := cell_capacity object |}
                j j x'
            else None
          else json_object_remove_shift object i j x'
      end
  end.

(** The stores of [json_object_remove_internal] that move the last entry to
    [item_ix], when [item_ix < last_item_ix]. *)
Definition json_object_move_last (object : JSON_Object V)
    (item_ix last_item_ix : nat) : option (JSON_Object V) :=
  last_name ← names object !! last_item_ix;
  last_value ← values object !! last_item_ix;
  last_cell_ix ← cell_ixs object !! last_item_ix;
  last_hash ← hashes object !! last_item_ix;
  if (item_ix <? count object) && (last_cell_ix <? length (cells object)) then
    Some {| cells := <[last_cell_ix := Ix item_ix]> (cells object);
            hashes := <[item_ix := last_hash]> (hashes object);
            names := <[item_ix := last_name]> (names object);
            values := <[item_ix := last_value]> (values object);
            cell_ixs := <[item_ix := last_cell_ix]> (cell_ixs object);
            count := count object;
            item_capacity := item_capacity object;
            cell_capacity := cell_capacity object |}
  else None.

(** [object->count--]: the last entry is no longer part of the arrays. *)
Definition json_object_drop_last (object : JSON_Object V) : JSON_Object V :=
  {| cells := cells object;
     hashes := take (count object - 1) (hashes object);
     names := take (count object - 1) (names object);
     values := take (count object - 1) (values object);
     cell_ixs := take (count object - 1) (cell_ixs object);
     count := count object - 1;
     item_capacity := item_capacity object;
     cell_capacity := cell_capacity object |}.

(** [object->cells[i] = OBJECT_INVALID_IX]. *)
Definition json_object_free_cell (object : JSON_Object V) (i : nat)
    : JSON_Object V :=
  {| cells := <[i := OBJECT_INVALID_IX]> (cells object);
     hashes := hashes object; names := names object; values := values object;
     cell_ixs := cell_ixs object; count := count object;
     item_capacity := item_capacity object;
     cell_capacity := cell_capacity object |}.

(** The table part of [json_object_remove_internal] (the frees of the name
    and of the value leave no trace here).  The last entry moves into the
    place of the removed one, then the cells are repaired. *)
Definition json_object_remove_internal (object : JSON_Object V)
    (name : list ascii) : option (JSON_Status * JSON_Object V) :=
  let hash := hash_string name (strlen name) in
  '(cell, found) ← json_object_get_cell_ix object name (strlen name) hash;
  if negb found then Some (JSONFailure, object)
  else
    match cell with
    | OBJECT_INVALID_IX => None
    | Ix cell =>
        item ← cells object !! cell;
        match item with
        | OBJECT_INVALID_IX => None
        | Ix item_ix =>
            let last_item_ix := count object - 1 in
            object ←
              (if item_ix <? last_item_ix
               then json_object_move_last object item_ix last_item_ix
               else Some object);
            let object := json_object_drop_last object in
            '(object, i) ←
              json_object_remove_shift object cell cell
                (cell_capacity object - 1);
            if i <? length (cells object)
            then Some (JSONSuccess, json_object_free_cell object i)
            else None
        end
    end.

Definition json_object_remove := json_object_remove_internal.

End Table.

Arguments json_object_store : simpl never.
Arguments json_object_get_cell_ix : simpl never.
Arguments json_object_grow_and_rehash_with : simpl never.
Arguments json_object_move_last : simpl never.
Arguments json_object_drop_last : simpl never.
Arguments json_object_free_cell : simpl never.

(** * Specification of the object table *)

(** ** Cyclic arithmetic on the cells *)

(** The cell [d] steps after [a], and the number of steps from [a] to [b]. *)
Definition probe (cap a d : nat) : nat :=
  if a + d <? cap then a + d else a + d - cap.
Definition dist (cap a b : nat) : nat :=
  if a <=? b then b - a else b + cap - a.

Ltac cyc :=
  unfold probe, dist in *;
  repeat match goal with
    | |- context [?a <? ?b] => destruct (Nat.ltb_spec a b)
    | |- context [?a <=? ?b] => destruct (Nat.leb_spec a b)
    | H : context [?a <? ?b] |- _ => destruct (Nat.ltb_spec a b)
    | H : context [?a <=? ?b] |- _ => destruct (Nat.leb_spec a b)
    end;
  try lia.

(** What a removal does to the arrays of names and values: see
    [json_object_remove_internal]. *)
Definition swap_remove {A} (i : nat) (l : list A) : list A :=
  match l !! (length l - 1) with
  | Some x => take (length l - 1) (<[i := x]> l)
  | None => l
  end.

(** ** The invariant of the table *)

Section TableSpec.
Context {V : Type}.
Implicit Types (o object : JSON_Object V) (key name : list ascii).

(** The home cell of a hash. *)
Definition home o (h : Z) : nat := mask (cell_capacity o) h.

Definition occupied o (c : nat) : Prop := ∃ m, cells o !! c = Some (Ix m).

(** Entry [i] is reachable: every cell from the home of its hash up to its
    own cell is occupied, so that the scan of [json_object_get_cell_ix]
    reaches it. *)
Definition reachable o (i : nat) : Prop :=
  ∀ c h, cell_ixs o !! i = Some c → hashes o !! i = Some h →
    cells o !! c = Some (Ix i) ∧
    ∀ d, d < dist (cell_capacity o) (home o h) c →
      occupied o (probe (cell_capacity o) (home o h) d).

Record table_inv o : Prop := {
  inv_capacity : cell_capacity o = 0 ∨ ∃ k, cell_capacity o = 2 ^ k;
  inv_item_capacity : item_capacity o = cell_capacity o * 7 / 10;
  inv_count : count o ≤ item_capacity o;
  inv_cells_len : length (cells o) = cell_capacity o;
  inv_names_len : length (names o) = count o;
  inv_values_len : length (values o) = count o;
  inv_cell_ixs_len : length (cell_ixs o) = count o;
  inv_hashes_len : length (hashes o) = count o;
  inv_bwd : ∀ c i, cells o !! c = Some (Ix i) → cell_ixs o !! i = Some c;
  inv_hash : ∀ i nm, names o !! i = Some nm →
    hashes o !! i = Some (hash_string nm (strlen nm));
  inv_cstring : Forall cstring (names o);
  inv_nodup : NoDup (names o);
  inv_reachable : ∀ i, reachable o i
}.

(** What [json_object_get_cell_ix] returns on a table with cells: the cell of
    the key, or the first free cell after the home of its hash. *)
Definition lookup_result o key (r : cell_ref * bool) : Prop :=
  let hm := home o (hash_string key (strlen key)) in
  match r with
  | (Ix c, true) => ∃ i, cells o !! c = Some (Ix i) ∧ names o !! i = Some key
  | (Ix c, false) =>
      (key ∉ names o) ∧ cells o !! c = Some OBJECT_INVALID_IX ∧
      ∀ d, d < dist (cell_capacity o) hm c →
        occupied o (probe (cell_capacity o) hm d)
  | (OBJECT_INVALID_IX, _) => False
  end.

(** The invariant in the middle of a removal: cell [hole] is to be freed and
    still holds the index it had.  No entry lives there; the cells that
    lead to an entry are occupied, the hole counting as such. *)
Record hole_inv o (hole : nat) : Prop := {
  hinv_capacity : ∃ k, cell_capacity o = 2 ^ k;
  hinv_item_capacity : item_capacity o = cell_capacity o * 7 / 10;
  hinv_count : count o ≤ item_capacity o;
  hinv_cells_len : length (cells o) = cell_capacity o;
  hinv_names_len : length (names o) = count o;
  hinv_values_len : length (values o) = count o;
  hinv_cell_ixs_len : length (cell_ixs o) = count o;
  hinv_hashes_len : length (hashes o) = count o;
  hinv_hole : occupied o hole;
  hinv_bwd : ∀ c i, c ≠ hole → cells o !! c = Some (Ix i) →
    cell_ixs o !! i = Some c;
  hinv_hash : ∀ i nm, names o !! i = Some nm →
    hashes o !! i = Some (hash_string nm (strlen nm));
  hinv_cstring : Forall cstring (names o);
  hinv_nodup : NoDup (names o);
  hinv_reachable : ∀ i c h, cell_ixs o !! i = Some c → hashes o !! i = Some h →
    cells o !! c = Some (Ix i) ∧ c ≠ hole ∧
    ∀ d, d < dist (cell_capacity o) (home o h) c →
      occupied o (probe (cell_capacity o) (home o h) d)
}.

End TableSpec.

(** ** Sequences of operations on a table *)

(** The operations that change the keys of a table: the public
    [json_object_set_value] and [json_object_remove], and the insertion
    [json_object_add] of the parser and of [json_value_deep_copy]. *)
Inductive table_op (V : Type) :=
  | OpSet (name : list ascii) (value : V)
  | OpAdd (name : list ascii) (value : V)
  | OpRemove (name : list ascii).
Arguments OpSet {V}.
Arguments OpAdd {V}.
Arguments OpRemove {V}.

Section TableOps.
Context {V : Type}.

Definition op_name (op : table_op V) : list ascii :=
  match op with
  | OpSet name _ | OpAdd name _ | OpRemove name => name
  end.

(** The value that an operation inserts. *)
Definition op_value (op : table_op V) : option V :=
  match op with
  | OpSet _ value | OpAdd _ value => Some value
  | OpRemove _ => None
  end.

Definition is_insert (op : table_op V) : bool :=
  match op with
  | OpSet _ _ | OpAdd _ _ => true
  | OpRemove _ => false
  end.

Definition run_op (o : JSON_Object V) (op : table_op V)
    : option (JSON_Status * JSON_Object V) :=
  match op with
  | OpSet name value => json_object_set_value o name value
  | OpAdd name value => json_object_add o name value
  | OpRemove name => json_object_remove o name
  end.

(** The table after the operations, whatever their status. *)
Fixpoint run_ops (ops : list (table_op V)) (o : JSON_Object V)
    : option (JSON_Object V) :=
  match ops with
  | [] => Some o
  | op :: ops' => '(_, o') ← run_op o op; run_ops ops' o'
  end.

(** What the operations mean: a finite map from keys to values. *)
Definition model_op (m : gmap (list ascii) V) (op : table_op V)
    : gmap (list ascii) V :=
  match op with
  | OpSet name value => <[name := value]> m
  | OpAdd name value =>
      match m !! name with
      | Some _ => m
      | None => <[name := value]> m
      end
  | OpRemove name => delete name m
  end.

Definition model_ops (ops : list (table_op V)) : gmap (list ascii) V :=
  foldl model_op ∅ ops.

(** The keys in the order of their insertion: a key that is set again keeps
    its place. *)
Definition insert_key (keys : list (list ascii)) (name : list ascii)
    : list (list ascii) :=
  if decide (name ∈ keys) then keys else keys ++ [name].

Definition insertion_order_op (keys : list (list ascii)) (op : table_op V)
    : list (list ascii) :=
  match op with
  | OpSet name _ | OpAdd name _ => insert_key keys name
  | OpRemove name => filter (λ key, key ≠ name) keys
  end.

Definition insertion_order (ops : list (table_op V)) : list (list ascii) :=
  foldl insertion_order_op [] ops.

(** The keys in the order of the entries: a new key is appended, a key
    that is set again keeps its place, and a removal moves the last entry
    to the place of the entry removed. *)
Definition entry_order_op (keys : list (list ascii)) (op : table_op V)
    : list (list ascii) :=
  match op with
  | OpSet name _ | OpAdd name _ => insert_key keys name
  | OpRemove name =>
      match list_find (λ key, key = name) keys with
      | Some (i, _) => swap_remove i keys
      | None => keys
      end
  end.

Definition entry_order (ops : list (table_op V)) : list (list ascii) :=
  foldl entry_order_op [] ops.

(** Iteration by index: [json_object_get_name] for 0 .. count - 1. *)
Definition json_object_iterate (o : JSON_Object V) : list (option (list ascii)) :=
  map (json_object_get_name o) (seq 0 (json_object_get_count o)).

(** The same with [json_object_get_value_at]. *)
Definition json_object_iterate_values (o : JSON_Object V) : list (option V) :=
  map (json_object_get_value_at o) (seq 0 (json_object_get_count o)).

(** The table represents the map [m]. *)
Definition represents (o : JSON_Object V) (m : gmap (list ascii) V) : Prop :=
  ∀ key value,
    m !! key = Some value ↔
    ∃ i, names o !! i = Some key ∧ values o !! i = Some value.

End TableOps.

(** * Values *)

(** ** The C library and the parser record *)

(** [errno] after a call of [strtod] that was entered with [errno = 0]. *)
Inductive errno_t := ENONE | ERANGE | EOTHER.

#[global] Instance errno_t_eq_dec : EqDecision errno_t.
Proof. solve_decision. Defined.

(** The floating-point side of the C library, as far as parson.c uses it.
    - [strtod s]: the number read, the length [end - s] of the text that was
      consumed, and [errno];
    - [is_huge x]: [x <= -HUGE_VAL || x >= HUGE_VAL];
    - [IS_NUMBER_INVALID x]: [isnan(x) || isinf(x)];
    - [fabs_lt_epsilon a b]: [fabs(a - b) < 0.000001];
    - [sprintf_double fmt x]: the text written by [sprintf(buf, fmt, x)],
      [None] when it returns a negative count;
    - [double_zero]: the constant 0. *)
Class FloatOps := {
  double : Type;
  strtod : list ascii → double * nat * errno_t;
  is_huge : double → bool;
  IS_NUMBER_INVALID : double → bool;
  fabs_lt_epsilon : double → double → bool;
  sprintf_double : list ascii → double → option (list ascii);
  double_zero : double
}.

(** [JSON_Parser], without the allocator.  A number serialization function
    is modelled by the text it writes, [None] when it returns a negative
    count. *)
Record JSON_Parser `{FloatOps} := {
  float_fmt_str : option (list ascii);
  number_serialization_func : option (double → option (list ascii));
  escape_slashes : bool
}.

Definition PARSON_DEFAULT_FLOAT_FORMAT : list ascii :=
  ["%"; "1"; "."; "1"; "7"; "g"].

Definition json_get_default_parser `{FloatOps} : JSON_Parser :=
  {| float_fmt_str := Some PARSON_DEFAULT_FLOAT_FORMAT;
     number_serialization_func := None;
     escape_slashes := true |}.

(** ** The value tree *)

(** [struct json_array_t], without [wrapping_value]: [items] holds the
    [count] initialised elements, so that [count] is its length. *)
Record JSON_Array (V : Type) := mkArray {
  items : list V;
  capacity : nat
}.
Arguments mkArray {V}.
Arguments items {V}.
Arguments capacity {V}.

(** ** Arrays *)

Section Array.
Context {V : Type}.

Definition json_array_get_count (array : JSON_Array V) : nat :=
  length (items array).

Definition json_array_get_value (array : JSON_Array V) (index : nat)
    : option V :=
  if json_array_get_count array <=? index then None else items array !! index.

(** [None]: [memcpy] of [count] elements into a shorter array. *)
Definition json_array_resize (array : JSON_Array V)
    (new_capacity : nat) : option (JSON_Status * JSON_Array V) :=
  if new_capacity =? 0 then Some (JSONFailure, array)
  else if new_capacity <? json_array_get_count array then None
  else Some (JSONSuccess, {| items := items array; capacity := new_capacity |}).

(** The array part of [json_array_add] (the update of the parent link is in
    [Heap.json_array_append_value]). *)
Definition json_array_add (array : JSON_Array V) (value : V)
    : option (JSON_Status * JSON_Array V) :=
  '(res, array) ←
    (if capacity array <=? json_array_get_count array then
       json_array_resize array (Nat.max (capacity array * 2) STARTING_CAPACITY)
     else Some (JSONSuccess, array));
  match res with
  | JSONFailure => Some (JSONFailure, array)
  | JSONSuccess =>
      Some (JSONSuccess,
            {| items := items array ++ [value]; capacity := capacity array |})
  end.

End Array.

Section Values.
Context `{FloatOps}.

(** [struct json_value_t], without [parent]: the payload selected by the
    type tag.  A string is its [length] bytes [chars].  The induction
    principle that reaches the values inside objects and arrays is
    [JSON_Value_ind] below. *)
Unset Elimination Schemes.
Inductive JSON_Value :=
  | Value_String (chars : list ascii)
  | Value_Number (number : double)
  | Value_Object (object : JSON_Object JSON_Value)
  | Value_Array (array : JSON_Array JSON_Value)
  | Value_Boolean (boolean : Z)
  | Value_Null.
Set Elimination Schemes.

(** A [JSON_Value *] is an [option JSON_Value]; [None] is NULL. *)
Definition json_value_get_type (value : option JSON_Value) : JSON_Value_Type :=
  match value with
  | None => JSONError
  | Some (Value_String _) => JSONString
  | Some (Value_Number _) => JSONNumber
  | Some (Value_Object _) => JSONObject
  | Some (Value_Array _) => JSONArray
  | Some (Value_Boolean _) => JSONBoolean
  | Some Value_Null => JSONNull
  end.

Definition json_value_get_object (value : option JSON_Value)
    : option (JSON_Object JSON_Value) :=
  match value with Some (Value_Object object) => Some object | _ => None end.

Definition json_value_get_array (value : option JSON_Value)
    : option (JSON_Array JSON_Value) :=
  match value with Some (Value_Array array) => Some array | _ => None end.

Definition json_value_get_string_desc (value : option JSON_Value)
    : option (list ascii) :=
  match value with Some (Value_String chars) => Some chars | _ => None end.

Definition json_value_get_string (value : option JSON_Value)
    : option (list ascii) :=
  json_value_get_string_desc value.

Definition json_value_get_string_len (value : option JSON_Value) : nat :=
  match json_value_get_string_desc value with
  | Some chars => length chars
  | None => 0
  end.

Definition json_value_get_number (value : option JSON_Value) : double :=
  match value with Some (Value_Number number) => number | _ => double_zero end.

Definition json_value_get_boolean (value : option JSON_Value) : Z :=
  match value with Some (Value_Boolean boolean) => boolean | _ => (-1)%Z end.

(** ** UTF-8 validation *)

(** [IS_CONT(b)]. *)
Definition IS_CONT (b : ascii) : bool := (Z.land (uchar b) 192 =? 128)%Z.

Definition num_bytes_in_utf8_sequence (c : ascii) : nat :=
  let c' := uchar c in
  if (c' =? 192)%Z || (c' =? 193)%Z || (244 <? c')%Z || IS_CONT c then 0
  else if (Z.land c' 128 =? 0)%Z then 1
  else if (Z.land c' 224 =? 192)%Z then 2
  else if (Z.land c' 240 =? 224)%Z then 3
  else if (Z.land c' 248 =? 240)%Z then 4
  else 0.

(** Returns the status and [*len]; code points are [unsigned int]. *)
Definition verify_utf8_sequence (s : list ascii) : JSON_Status * nat :=
  let len := num_bytes_in_utf8_sequence (char_at s 0) in
  let b i := uchar (char_at s i) in
  let cont i := IS_CONT (char_at s i) in
  let step cp i := Z.lor (Z.shiftl cp 6) (Z.land (b i) 63) in
  let cp :=
    if len =? 1 then Some (b 0)
    else if (len =? 2) && cont 1 then Some (step (Z.land (b 0) 31) 1)
    else if (len =? 3) && cont 1 && cont 2 then
      Some (step (step (Z.land (b 0) 15) 1) 2)
    else if (len =? 4) && cont 1 && cont 2 && cont 3 then
      Some (step (step (step (Z.land (b 0) 7) 1) 2) 3)
    else None in
  match cp with
  | None => (JSONFailure, len)
  | Some cp =>
      if ((cp <? 128)%Z && (1 <? len))
         || ((cp <? 2048)%Z && (2 <? len))
         || ((cp <? 65536)%Z && (3 <? len))
      then (JSONFailure, len)
      else if (1114111 <? cp)%Z then (JSONFailure, len)
      else if (55296 <=? cp)%Z && (cp <=? 57343)%Z then (JSONFailure, len)
      else (JSONSuccess, len)
  end.

(** The loop of [is_valid_utf8] over the [n] bytes that remain; every
    sequence that is accepted has at least one byte. *)
Fixpoint is_valid_utf8_loop (fuel : nat) (s : list ascii) (n : nat) : bool :=
  match n, fuel with
  | 0, _ => true
  | _, 0 => true
  | _, S fuel' =>
      match verify_utf8_sequence s with
      | (JSONSuccess, len) => is_valid_utf8_loop fuel' (drop len s) (n - len)
      | (JSONFailure, _) => false
      end
  end.

Definition is_valid_utf8 (s : list ascii) (string_len : nat) : bool :=
  is_valid_utf8_loop string_len s string_len.

(** ** Constructors *)

Definition json_value_init_object : option JSON_Value :=
  Some (Value_Object (json_object_init 0)).

Definition json_value_init_array : option JSON_Value :=
  Some (Value_Array {| items := []; capacity := 0 |}).

Definition json_value_init_string_no_copy (chars : list ascii) (length : nat)
    : option JSON_Value :=
  Some (Value_String chars).

Definition json_value_init_string_with_len (s : list ascii) (length : nat)
    : option JSON_Value :=
  if is_valid_utf8 s length
  then json_value_init_string_no_copy (parson_strndup s length) length
  else None.

Definition json_value_init_string (s : list ascii) : option JSON_Value :=
  json_value_init_string_with_len s (strlen s).

Definition json_value_init_number (number : double) : option JSON_Value :=
  if IS_NUMBER_INVALID number then None else Some (Value_Number number).

Definition json_value_init_boolean (boolean : Z) : option JSON_Value :=
  Some (Value_Boolean (if (boolean =? 0)%Z then 0 else 1)%Z).

Definition json_value_init_null : option JSON_Value := Some Value_Null.

End Values.

(** ** json_value_equals *)

Section Equals.
Context `{FloatOps}.

(** [json_value_equals] when [a] is NULL: its type is [JSONError], and the
    [JSONError] case of the switch returns true. *)
Definition json_value_equals_null (b : option JSON_Value) : option bool :=
  Some (bool_decide (JSONError = json_value_get_type b)).

(** A recursive call of [json_value_equals] on child [index] of [a], NULL
    when there is no index.  [calls] holds the call for each child of [a]
    (see [json_value_equals_value]). *)
Definition json_value_equals_child
    (calls : list (option JSON_Value → option bool)) (index : option nat)
    (b : option JSON_Value) : option bool :=
  match index with
  | None => json_value_equals_null b
  | Some i => call ← calls !! i; call b
  end.

(** The loops of [json_value_equals] over [i < a_count], with [n]
    iterations left. *)
Fixpoint json_value_equals_array_loop
    (calls : list (option JSON_Value → option bool))
    (a_array b_array : JSON_Array JSON_Value) (i n : nat) : option bool :=
  match n with
  | 0 => Some true
  | S n' =>
      let a_index :=
        if json_array_get_count a_array <=? i then None else Some i in
      eq ← json_value_equals_child calls a_index (json_array_get_value b_array i);
      if eq : bool
      then json_value_equals_array_loop calls a_array b_array (S i) n'
      else Some false
  end.

Fixpoint json_value_equals_object_loop
    (calls : list (option JSON_Value → option bool))
    (a_object b_object : JSON_Object JSON_Value) (i n : nat) : option bool :=
  match n with
  | 0 => Some true
  | S n' =>
      '(a_index, b_value) ←
        match json_object_get_name a_object i with
        | None => Some (None, None)
        | Some key =>
            a_index ← json_object_getn_item a_object key (strlen key);
            b_value ← json_object_get_value b_object key;
            Some (a_index, b_value)
        end;
      eq ← json_value_equals_child calls a_index b_value;
      if eq : bool
      then json_value_equals_object_loop calls a_object b_object (S i) n'
      else Some false
  end.

(** [memcmp(a, b, n) == 0]. *)
Definition memcmp_eq (a b : list ascii) (n : nat) : bool :=
  bool_decide (take n a = take n b).

(** [json_value_equals] for a value [a] that is not NULL.  The recursive
    calls are made on the children of [a]: they are tabulated first, child
    by child, and the loops pick the call of the child they compare. *)
Fixpoint json_value_equals_value (a : JSON_Value) (b : option JSON_Value)
    : option bool :=
  if negb (bool_decide (json_value_get_type (Some a) = json_value_get_type b))
  then Some false
  else
    match a with
    | Value_Array a_array =>
        b_array ← json_value_get_array b;
        let a_count := json_array_get_count a_array in
        let b_count := json_array_get_count b_array in
        if negb (a_count =? b_count) then Some false
        else
          json_value_equals_array_loop
            (map json_value_equals_value (items a_array))
            a_array b_array 0 a_count
    | Value_Object a_object =>
        b_object ← json_value_get_object b;
        let a_count := json_object_get_count a_object in
        let b_count := json_object_get_count b_object in
        if negb (a_count =? b_count) then Some false
        else
          json_value_equals_object_loop
            (map json_value_equals_value (values a_object))
            a_object b_object 0 a_count
    | Value_String a_string =>
        match json_value_get_string_desc b with
        | None => Some false
        | Some b_string =>
            Some ((length a_string =? length b_string)
                  && memcmp_eq a_string b_string (length a_string))
        end
    | Value_Boolean _ =>
        Some (json_value_get_boolean (Some a) =? json_value_get_boolean b)%Z
    | Value_Number _ =>
        Some (fabs_lt_epsilon (json_value_get_number (Some a))
                (json_value_get_number b))
    | Value_Null => Some true
    end.

(** [json_value_equals]; [None] stands for an access out of bounds in a
    table. *)
Definition json_value_equals (a b : option JSON_Value) : option bool :=
  match a with
  | None => json_value_equals_null b
  | Some a => json_value_equals_value a b
  end.

End Equals.

(** ** Serialization *)

Definition QUOTE : ascii := "034".

(** The output buffer is a block of bytes; pointers into it are offsets.
    [store block pos bytes] writes [bytes] at offset [pos]; a write outside
    the block is an error. *)
Definition store (block : list ascii) (pos : nat) (bytes : list ascii)
    : option (list ascii) :=
  if pos + length bytes <=? length block
  then Some (take pos block ++ bytes ++ drop (pos + length bytes) block)
  else None.

(** The locals [buf] and [written_total] of a serialization function, and
    the block; [buf = None] is the NULL pointer of the measuring pass. *)
Record ser_state := mkSer {
  buf : option nat;
  written_total : Z;
  block : list ascii
}.

(** [a + b] on the type [int], for operands that are not negative, as the
    counts of the serializer are.  Signed overflow is undefined in C: beyond
    [INT_MAX] the sum has no value. *)
Definition int_add (a b : Z) : option Z :=
  if (a + b <=? INT_MAX)%Z then Some (a + b)%Z else None.

(** [level+1] on the [int] [level]. *)
Definition int_succ (level : nat) : option nat :=
  if (Z.of_nat level + 1 <=? INT_MAX)%Z then Some (level + 1) else None.

(** [APPEND_STRING(str)]: the string and a NUL are written at [buf], [buf]
    moves behind the string, and [written_total += written]. *)
Definition APPEND_STRING (str : list ascii) (st : ser_state)
    : option ser_state :=
  let written := length str in
  match buf st with
  | Some b =>
      block' ← store (block st) b (str ++ [NUL]);
      total ← int_add (written_total st) (Z.of_nat written);
      Some {| buf := Some (b + written);
              written_total := total;
              block := block' |}
  | None =>
      total ← int_add (written_total st) (Z.of_nat written);
      Some {| buf := None;
              written_total := total;
              block := block st |}
  end.

Fixpoint APPEND_INDENT (level : nat) (st : ser_state) : option ser_state :=
  match level with
  | 0 => Some st
  | S level' => st' ← APPEND_STRING PARSON_INDENT_STR st; APPEND_INDENT level' st'
  end.

(** The state after a call that left the block [mem]. *)
Definition with_block (mem : list ascii) (st : ser_state) : ser_state :=
  {| buf := buf st; written_total := written_total st; block := mem |}.

(** [if (buf != NULL) buf += written; written_total += written], after a
    call that left the block [mem]. *)
Definition advance (written : Z) (mem : list ascii) (st : ser_state)
    : option ser_state :=
  total ← int_add (written_total st) written;
  Some {| buf := (λ b, b + Z.to_nat written) <$> buf st;
          written_total := total;
          block := mem |}.

Section Serialization.
Context `{FloatOps}.

(** The cases of the switch of [json_serialize_string] that call
    [APPEND_STRING], with the string they append. *)
Definition escape_sequence (parser : JSON_Parser) (c : ascii)
    : option (list ascii) :=
  match c with
  | "034" => Some ["\"; QUOTE]
  | "\" => Some ["\"; "\"]
  | "008" => Some ["\"; "b"]
  | "012" => Some ["\"; "f"]
  | "010" => Some ["\"; "n"]
  | "013" => Some ["\"; "r"]
  | "009" => Some ["\"; "t"]
  | "000" => Some (list_ascii_of_string "\u0000")
  | "001" => Some (list_ascii_of_string "\u0001")
  | "002" => Some (list_ascii_of_string "\u0002")
  | "003" => Some (list_ascii_of_string "\u0003")
  | "004" => Some (list_ascii_of_string "\u0004")
  | "005" => Some (list_ascii_of_string "\u0005")
  | "006" => Some (list_ascii_of_string "\u0006")
  | "007" => Some (list_ascii_of_string "\u0007")
  | "011" => Some (list_ascii_of_string "\u000b")
  | "014" => Some (list_ascii_of_string "\u000e")
  | "015" => Some (list_ascii_of_string "\u000f")
  | "016" => Some (list_ascii_of_string "\u0010")
  | "017" => Some (list_ascii_of_string "\u0011")
  | "018" => Some (list_ascii_of_string "\u0012")
  | "019" => Some (list_ascii_of_string "\u0013")
  | "020" => Some (list_ascii_of_string "\u0014")
  | "021" => Some (list_ascii_of_string "\u0015")
  | "022" => Some (list_ascii_of_string "\u0016")
  | "023" => Some (list_ascii_of_string "\u0017")
  | "024" => Some (list_ascii_of_string "\u0018")
  | "025" => Some (list_ascii_of_string "\u0019")
  | "026" => Some (list_ascii_of_string "\u001a")
  | "027" => Some (list_ascii_of_string "\u001b")
  | "028" => Some (list_ascii_of_string "\u001c")
  | "029" => Some (list_ascii_of_string "\u001d")
  | "030" => Some (list_ascii_of_string "\u001e")
  | "031" => Some (list_ascii_of_string "\u001f")
  | "/" => if escape_slashes parser then Some ["\"; "/"] else Some ["/"]
  | _ => None
  end.

(** The loop of [json_serialize_string] over [i < len]; the default case of
    the switch writes the character itself, without a NUL behind it. *)
Fixpoint json_serialize_string_loop (parser : JSON_Parser)
    (string : list ascii) (i n : nat) (st : ser_state) : option ser_state :=
  match n with
  | 0 => Some st
  | S n' =>
      let c := char_at string i in
      st' ←
        match escape_sequence parser c with
        | Some str => APPEND_STRING str st
        | None =>
            match buf st with
            | Some b =>
                block' ← store (block st) b [c];
                total ← int_add (written_total st) 1;
                Some {| buf := Some (b + 1);
                        written_total := total;
                        block := block' |}
            | None =>
                total ← int_add (written_total st) 1;
                Some {| buf := None;
                        written_total := total;
                        block := block st |}
            end
        end;
      json_serialize_string_loop parser string (S i) n' st'
  end.

(** Returns [written_total] and the block. *)
Definition json_serialize_string (parser : JSON_Parser) (string : list ascii)
    (len : nat) (buf : option nat) (mem : list ascii)
    : option (Z * list ascii) :=
  st ← APPEND_STRING [QUOTE] {| buf := buf; written_total := 0; block := mem |};
  st ← json_serialize_string_loop parser string 0 len st;
  st ← APPEND_STRING [QUOTE] st;
  Some (written_total st, block st).

(** The number case of [json_serialize_to_buffer_r]: the text written by
    the serialization function or by [sprintf], whose length is the count
    they return; [None] for a negative count. *)
Definition serialize_number (parser : JSON_Parser) (num : double)
    : option (list ascii) :=
  match number_serialization_func parser with
  | Some f => f num
  | None =>
      match float_fmt_str parser with
      | Some fmt => sprintf_double fmt num
      | None => sprintf_double PARSON_DEFAULT_FLOAT_FORMAT num
      end
  end.

(** A recursive call of [json_serialize_to_buffer_r] on a child, with the
    arguments [buf], [level], [is_pretty] and the block; [num_buf] is the
    one of the caller. *)
Definition ser_call : Type :=
  option nat → nat → bool → list ascii → option (Z * list ascii).

(** The call on child [i] of a container with [count] children; on NULL
    the function returns -1. *)
Definition serialize_child (calls : list ser_call) (count i : nat) : ser_call :=
  λ buf level is_pretty mem,
    match (if count <=? i then None else calls !! i) with
    | Some call => call buf level is_pretty mem
    | None => Some ((-1)%Z, mem)
    end.

(** The loops of [json_serialize_to_buffer_r] over [i < count], with [n]
    iterations left.  The status [JSONFailure] stands for [return -1]. *)
Fixpoint serialize_array_loop (calls : list ser_call) (count i n : nat)
    (level : nat) (is_pretty : bool) (st : ser_state)
    : option (JSON_Status * ser_state) :=
  match n with
  | 0 => Some (JSONSuccess, st)
  | S n' =>
      level1 ← int_succ level;
      st ← (if is_pretty then APPEND_INDENT level1 st else Some st);
      '(written, mem) ←
        serialize_child calls count i (buf st) level1 is_pretty (block st);
      if (written <? 0)%Z then Some (JSONFailure, with_block mem st)
      else
        st ← advance written mem st;
        st ← (if i <? count - 1 then APPEND_STRING [","] st else Some st);
        st ← (if is_pretty then APPEND_STRING ["010"] st else Some st);
        serialize_array_loop calls count (S i) n' level is_pretty st
  end.

Fixpoint serialize_object_loop (parser : JSON_Parser) (calls : list ser_call)
    (object : JSON_Object JSON_Value) (count i n : nat)
    (level : nat) (is_pretty : bool) (st : ser_state)
    : option (JSON_Status * ser_state) :=
  match n with
  | 0 => Some (JSONSuccess, st)
  | S n' =>
      match json_object_get_name object i with
      | None => Some (JSONFailure, st)
      | Some key =>
          level1 ← int_succ level;
          st ← (if is_pretty then APPEND_INDENT level1 st else Some st);
          '(written, mem) ←
            json_serialize_string parser key (strlen key) (buf st) (block st);
          if (written <? 0)%Z then Some (JSONFailure, with_block mem st)
          else
            st ← advance written mem st;
            st ← APPEND_STRING [":"] st;
            st ← (if is_pretty then APPEND_STRING [" "] st else Some st);
            '(written, mem) ←
              serialize_child calls count i (buf st) level1 is_pretty
                (block st);
            if (written <? 0)%Z then Some (JSONFailure, with_block mem st)
            else
              st ← advance written mem st;
              st ← (if i <? count - 1 then APPEND_STRING [","] st else Some st);
              st ← (if is_pretty then APPEND_STRING ["010"] st else Some st);
              serialize_object_loop parser calls object count (S i) n'
                level is_pretty st
      end
  end.

(** The end of the array and object cases: -1 after a [return -1] in the
    loop, else the indentation, the closing bracket and [written_total]. *)
Definition serialize_close (close : list ascii) (count level : nat)
    (is_pretty : bool) (res : JSON_Status * ser_state)
    : option (Z * list ascii) :=
  match res with
  | (JSONFailure, st) => Some ((-1)%Z, block st)
  | (JSONSuccess, st) =>
      st ← (if (0 <? count) && is_pretty then APPEND_INDENT level st else Some st);
      st ← APPEND_STRING close st;
      Some (written_total st, block st)
  end.

(** Where [sprintf] (or the serialization function of the parser) writes
    the [written] characters of a number and their NUL: at [buf] in the
    block when [buf] is not NULL, else into [num_buf], of which the model
    keeps the size, [None] for NULL.  A write outside the block or outside
    [num_buf] is an error. *)
Definition write_number (text : list ascii) (buf num_buf : option nat)
    (mem : list ascii) : option (list ascii) :=
  match buf with
  | Some b => store mem b (text ++ [NUL])
  | None =>
      match num_buf with
      | Some size => if length text + 1 <=? size then Some mem else None
      | None => None
      end
  end.

(** [json_serialize_to_buffer_r] on a value that is not NULL: returns the
    [int] result and the block.  The recursive calls are tabulated child by
    child, as in [json_value_equals_value]. *)
Fixpoint json_serialize_to_buffer_r (parser : JSON_Parser) (value : JSON_Value)
    (buf : option nat) (level : nat) (is_pretty : bool) (num_buf : option nat)
    (mem : list ascii) : option (Z * list ascii) :=
  let st := {| buf := buf; written_total := 0; block := mem |} in
  match value with
  | Value_Array array =>
      let count := json_array_get_count array in
      st ← APPEND_STRING ["["] st;
      st ← (if (0 <? count) && is_pretty then APPEND_STRING ["010"] st else Some st);
      res ←
        serialize_array_loop
          (map (λ temp_value buf level is_pretty mem,
                  json_serialize_to_buffer_r parser temp_value buf level
                    is_pretty num_buf mem)
             (items array))
          count 0 count level is_pretty st;
      serialize_close ["]"] count level is_pretty res
  | Value_Object object =>
      let count := json_object_get_count object in
      st ← APPEND_STRING ["{"] st;
      st ← (if (0 <? count) && is_pretty then APPEND_STRING ["010"] st else Some st);
      res ←
        serialize_object_loop parser
          (map (λ temp_value buf level is_pretty mem,
                  json_serialize_to_buffer_r parser temp_value buf level
                    is_pretty num_buf mem)
             (values object))
          object count 0 count level is_pretty st;
      serialize_close ["}"] count level is_pretty res
  | Value_String chars =>
      json_serialize_string parser chars (length chars) buf mem
  | Value_Boolean boolean =>
      st ← (if negb (boolean =? 0)%Z
            then APPEND_STRING (list_ascii_of_string "true") st
            else APPEND_STRING (list_ascii_of_string "false") st);
      Some (written_total st, block st)
  | Value_Number num =>
      match serialize_number parser num with
      | None => Some ((-1)%Z, mem)
      | Some text =>
          let written := Z.of_nat (length text) in
          mem' ← write_number text buf num_buf mem;
          written_total ← int_add 0 written;
          Some (written_total, mem')
      end
  | Value_Null =>
      st ← APPEND_STRING (list_ascii_of_string "null") st;
      Some (written_total st, block st)
  end.

(** [res < 0 ? 0 : (size_t)(res) + 1]. *)
Definition serialization_size_of (res : Z) : nat :=
  if (res <? 0)%Z then 0 else Z.to_nat res + 1.

(** [json_serialization_size] and [json_serialization_size_pretty], with
    either value of [is_pretty]: the measuring pass has no block, and the
    numbers are written into the local [num_buf] of
    [PARSON_NUM_BUF_SIZE] bytes. *)
Definition serialization_size_with (is_pretty : bool) (parser : JSON_Parser)
    (value : JSON_Value) : option nat :=
  '(res, _) ←
    json_serialize_to_buffer_r parser value None 0 is_pretty
      (Some PARSON_NUM_BUF_SIZE) [];
  Some (serialization_size_of res).

Definition json_serialization_size := serialization_size_with false.
Definition json_serialization_size_pretty := serialization_size_with true.

(** [json_serialize_to_buffer] and [json_serialize_to_buffer_pretty]: [buf]
    is the start of a block of [buf_size_in_bytes] bytes. *)
Definition serialize_to_buffer_with (is_pretty : bool) (parser : JSON_Parser)
    (value : JSON_Value) (mem : list ascii)
    : option (JSON_Status * list ascii) :=
  let buf_size_in_bytes := length mem in
  needed_size_in_bytes ← serialization_size_with is_pretty parser value;
  if (needed_size_in_bytes =? 0) || (buf_size_in_bytes <? needed_size_in_bytes)
  then Some (JSONFailure, mem)
  else
    '(written, mem') ←
      json_serialize_to_buffer_r parser value (Some 0) 0 is_pretty None mem;
    if (written <? 0)%Z then Some (JSONFailure, mem')
    else Some (JSONSuccess, mem').

Definition json_serialize_to_buffer := serialize_to_buffer_with false.
Definition json_serialize_to_buffer_pretty := serialize_to_buffer_with true.

(** [json_serialize_to_string] and [json_serialize_to_string_pretty].
    [fresh] gives the content of the block that [malloc] returns for a size;
    a block of another size is an error.  The result is the whole block:
    the string and its NUL. *)
Definition serialize_to_string_with (is_pretty : bool) (parser : JSON_Parser)
    (value : JSON_Value) (fresh : nat → list ascii)
    : option (option (list ascii)) :=
  buf_size_bytes ← serialization_size_with is_pretty parser value;
  if buf_size_bytes =? 0 then Some None
  else
    let mem := fresh buf_size_bytes in
    if negb (length mem =? buf_size_bytes) then None
    else
      '(serialization_result, mem') ←
        serialize_to_buffer_with is_pretty parser value mem;
      match serialization_result with
      | JSONSuccess => Some (Some mem')
      | JSONFailure => Some None
      end.

Definition json_serialize_to_string := serialize_to_string_with false.
Definition json_serialize_to_string_pretty := serialize_to_string_with true.

End Serialization.

(** ** The parser *)

(** [isspace] in the C locale. *)
Definition isspace (c : ascii) : bool :=
  match c with
  | " " | "009" | "010" | "011" | "012" | "013" => true
  | _ => false
  end.

(** [SKIP_WHITESPACES]. *)
Fixpoint skip_whitespaces (s : list ascii) : list ascii :=
  match s with
  | c :: s' => if isspace c then skip_whitespaces s' else s
  | [] => []
  end.

Definition hex_char_to_int (c : ascii) : Z :=
  let c' := uchar c in
  if (uchar "0" <=? c')%Z && (c' <=? uchar "9")%Z then (c' - uchar "0")%Z
  else if (uchar "a" <=? c')%Z && (c' <=? uchar "f")%Z then (c' - uchar "a" + 10)%Z
  else if (uchar "A" <=? c')%Z && (c' <=? uchar "F")%Z then (c' - uchar "A" + 10)%Z
  else (-1)%Z.

(** Returns [*result], [None] for [JSONFailure]. *)
Definition parse_utf16_hex (s : list ascii) : option Z :=
  if Ascii.eqb (char_at s 0) NUL || Ascii.eqb (char_at s 1) NUL
     || Ascii.eqb (char_at s 2) NUL || Ascii.eqb (char_at s 3) NUL
  then None
  else
    let x1 := hex_char_to_int (char_at s 0) in
    let x2 := hex_char_to_int (char_at s 1) in
    let x3 := hex_char_to_int (char_at s 2) in
    let x4 := hex_char_to_int (char_at s 3) in
    if (x1 =? -1)%Z || (x2 =? -1)%Z || (x3 =? -1)%Z || (x4 =? -1)%Z then None
    else
      Some (Z.lor (Z.lor (Z.lor (Z.shiftl x1 12) (Z.shiftl x2 8))
                     (Z.shiftl x3 4)) x4).

(** The conversion of an [unsigned int] to [char]. *)
Definition char_of (x : Z) : ascii := ascii_of_nat (Z.to_nat (x mod 256)).

(** [parse_utf16]: [unprocessed] points to the [u] of an escape.  Returns the
    bytes stored from [*processed] on and the new [*unprocessed], which
    points to the last digit of the escape; [*processed] is left on the last
    byte stored.  [None] for [JSONFailure]. *)
Definition parse_utf16 (unprocessed : list ascii)
    : option (list ascii * list ascii) :=
  let unprocessed_ptr := tl unprocessed in
  match parse_utf16_hex unprocessed_ptr with
  | None => None
  | Some cp =>
      if (cp <? 128)%Z then
        Some ([char_of cp], drop 3 unprocessed_ptr)
      else if (cp <? 2048)%Z then
        Some ([char_of (Z.lor (Z.land (Z.shiftr cp 6) 31) 192);
               char_of (Z.lor (Z.land cp 63) 128)],
              drop 3 unprocessed_ptr)
      else if (cp <? 55296)%Z || (57343 <? cp)%Z then
        Some ([char_of (Z.lor (Z.land (Z.shiftr cp 12) 15) 224);
               char_of (Z.lor (Z.land (Z.shiftr cp 6) 63) 128);
               char_of (Z.lor (Z.land cp 63) 128)],
              drop 3 unprocessed_ptr)
      else if (55296 <=? cp)%Z && (cp <=? 56319)%Z then
        let lead := cp in
        let unprocessed_ptr := drop 4 unprocessed_ptr in
        if negb (Ascii.eqb (peek unprocessed_ptr) "\") then None
        else if negb (Ascii.eqb (peek (tl unprocessed_ptr)) "u") then None
        else
          let unprocessed_ptr := tl (tl unprocessed_ptr) in
          match parse_utf16_hex unprocessed_ptr with
          | None => None
          | Some trail =>
              if (trail <? 56320)%Z || (57343 <? trail)%Z then None
              else
                let cp :=
                  (Z.lor (Z.shiftl (Z.land (lead - 55296) 1023) 10)
                     (Z.land (trail - 56320) 1023) + 65536)%Z in
                Some ([char_of (Z.lor (Z.land (Z.shiftr cp 18) 7) 240);
                       char_of (Z.lor (Z.land (Z.shiftr cp 12) 63) 128);
                       char_of (Z.lor (Z.land (Z.shiftr cp 6) 63) 128);
                       char_of (Z.lor (Z.land cp 63) 128)],
                      drop 3 unprocessed_ptr)
          end
      else None
  end.

(** The loop of [process_string]: [input_ptr] is the text that remains,
    [consumed] is [input_ptr - input] and [output] holds the bytes stored
    so far.  Every iteration consumes a character, so that [fuel] iterations
    suffice when [fuel] is the length of [input_ptr]; running out of fuel is
    an error of the model (the outer [None]).  The inner [None] is
    [goto error]. *)
Fixpoint process_string_loop (fuel : nat) (input_ptr : list ascii)
    (consumed input_len : nat) (output : list ascii)
    : option (option (list ascii)) :=
  if negb (Ascii.eqb (peek input_ptr) NUL) && (consumed <? input_len) then
    match fuel with
    | 0 => None
    | S fuel' =>
        if Ascii.eqb (peek input_ptr) "\" then
          let input_ptr' := tl input_ptr in
          let continue bytes rest :=
            process_string_loop fuel' (tl rest)
              (consumed + (length input_ptr - length (tl rest))) input_len
              (output ++ bytes) in
          match peek input_ptr' with
          | "034" => continue [QUOTE] input_ptr'
          | "\" => continue ["\"] input_ptr'
          | "/" => continue ["/"] input_ptr'
          | "b" => continue ["008"] input_ptr'
          | "f" => continue ["012"] input_ptr'
          | "n" => continue ["010"] input_ptr'
          | "r" => continue ["013"] input_ptr'
          | "t" => continue ["009"] input_ptr'
          | "u" =>
              match parse_utf16 input_ptr' with
              | None => Some None
              | Some (bytes, rest) => continue bytes rest
              end
          | _ => Some None
          end
        else if (uchar (peek input_ptr) <? 32)%Z then Some None
        else
          process_string_loop fuel' (tl input_ptr) (consumed + 1) input_len
            (output ++ [peek input_ptr])
    end
  else Some (Some output).

(** Returns the processed string, whose length is [*output_len]. *)
Definition process_string (input : list ascii) (input_len : nat)
    : option (option (list ascii)) :=
  process_string_loop (length input) input 0 input_len [].

(** [skip_quotes]: returns the new [*string], [None] for [JSONFailure]. *)
Fixpoint skip_quotes_loop (s : list ascii) : option (list ascii) :=
  match s with
  | [] => None
  | c :: s' =>
      if Ascii.eqb c QUOTE then Some s'
      else if Ascii.eqb c NUL then None
      else if Ascii.eqb c "\" then
        match s' with
        | [] => None
        | c' :: s'' => if Ascii.eqb c' NUL then None else skip_quotes_loop s''
        end
      else skip_quotes_loop s'
  end.

Definition skip_quotes (s : list ascii) : option (list ascii) :=
  if negb (Ascii.eqb (peek s) QUOTE) then None else skip_quotes_loop (tl s).

(** Returns the processed string and the new [*string]. *)
Definition get_quoted_string (s : list ascii)
    : option (option (list ascii * list ascii)) :=
  let string_start := s in
  match skip_quotes s with
  | None => Some None
  | Some s =>
      let input_string_len := length string_start - length s - 2 in
      match process_string (tl string_start) input_string_len with
      | None => None
      | Some None => Some None
      | Some (Some output) => Some (Some (output, s))
      end
  end.

Definition is_decimal (s : list ascii) (length : nat) : bool :=
  if (1 <? length) && Ascii.eqb (char_at s 0) "0"
     && negb (Ascii.eqb (char_at s 1) ".") then false
  else if (2 <? length) && strncmp_eq s ["-"; "0"] 2
          && negb (Ascii.eqb (char_at s 2) ".") then false
  else
    forallb (λ i, negb (Ascii.eqb (char_at s i) "x" || Ascii.eqb (char_at s i) "X"
                         || Ascii.eqb (char_at s i) NUL))
      (seq 0 length).

Section Parser.
Context `{FloatOps}.

(** The result of a parsing function: the value and the new [*string],
    [None] for NULL.  The functions below wrap it in one more [option],
    whose [None] is an error of the model. *)
Definition parsed (A : Type) : Type := option (A * list ascii).

(** The result of a function that returns the value of a constructor and
    leaves [*string] at [s]. *)
Definition parsed_value (value : option JSON_Value) (s : list ascii)
    : option (parsed JSON_Value) :=
  match value with
  | None => Some None
  | Some value => Some (Some (value, s))
  end.

Definition parse_string_value (s : list ascii) : option (parsed JSON_Value) :=
  new_string ← get_quoted_string s;
  match new_string with
  | None => Some None
  | Some (new_string, s) =>
      parsed_value
        (json_value_init_string_no_copy new_string (length new_string)) s
  end.

Definition parse_boolean_value (s : list ascii) : option (parsed JSON_Value) :=
  if strncmp_eq (list_ascii_of_string "true") s 4 then
    parsed_value (json_value_init_boolean 1) (drop 4 s)
  else if strncmp_eq (list_ascii_of_string "false") s 5 then
    parsed_value (json_value_init_boolean 0) (drop 5 s)
  else Some None.

Definition parse_number_value (s : list ascii) : option (parsed JSON_Value) :=
  let '(number, consumed, errno) := strtod s in
  if bool_decide (errno = ERANGE) && is_huge number then Some None
  else if (negb (bool_decide (errno = ENONE))
           && negb (bool_decide (errno = ERANGE)))
          || negb (is_decimal s consumed)
  then Some None
  else parsed_value (json_value_init_number number) (drop consumed s).

Definition parse_null_value (s : list ascii) : option (parsed JSON_Value) :=
  if strncmp_eq (list_ascii_of_string "null") s 4 then
    parsed_value json_value_init_null (drop 4 s)
  else Some None.

(** [parse_object_value] and [parse_array_value], parameterised by the
    [parse_value] they call. *)
Section Containers.
Variable parse_value_rec : list ascii → nat → option (parsed JSON_Value).

(** The [while] loop of [parse_array_value].  An iteration that does not
    leave the loop consumes a comma, so that [fuel] iterations suffice when
    [fuel] is the length of [s]. *)
Fixpoint parse_array_loop (fuel : nat) (s : list ascii) (nesting : nat)
    (output_array : JSON_Array JSON_Value)
    : option (parsed (JSON_Array JSON_Value)) :=
  if Ascii.eqb (peek s) NUL then Some (Some (output_array, s))
  else
    match fuel with
    | 0 => None
    | S fuel' =>
        new_array_value ← parse_value_rec s nesting;
        match new_array_value with
        | None => Some None
        | Some (new_array_value, s) =>
            '(status, output_array) ← json_array_add output_array new_array_value;
            match status with
            | JSONFailure => Some None
            | JSONSuccess =>
                let s := skip_whitespaces s in
                if negb (Ascii.eqb (peek s) ",") then Some (Some (output_array, s))
                else
                  let s := skip_whitespaces (tl s) in
                  if Ascii.eqb (peek s) "]" then Some (Some (output_array, s))
                  else parse_array_loop fuel' s nesting output_array
            end
        end
    end.

Definition parse_array_value (s : list ascii) (nesting : nat)
    : option (parsed JSON_Value) :=
  let output_array := {| items := []; capacity := 0 |} in
  if negb (Ascii.eqb (peek s) "[") then Some None
  else
    let s := skip_whitespaces (tl s) in
    if Ascii.eqb (peek s) "]" then Some (Some (Value_Array output_array, tl s))
    else
      res ← parse_array_loop (length s) s nesting output_array;
      match res with
      | None => Some None
      | Some (output_array, s) =>
          let s := skip_whitespaces s in
          if negb (Ascii.eqb (peek s) "]") then Some None
          else
            '(status, output_array) ←
              json_array_resize output_array (json_array_get_count output_array);
            match status with
            | JSONFailure => Some None
            | JSONSuccess => Some (Some (Value_Array output_array, tl s))
            end
      end.

(** The [while] loop of [parse_object_value]. *)
Fixpoint parse_object_loop (fuel : nat) (s : list ascii) (nesting : nat)
    (output_object : JSON_Object JSON_Value)
    : option (parsed (JSON_Object JSON_Value)) :=
  if Ascii.eqb (peek s) NUL then Some (Some (output_object, s))
  else
    match fuel with
    | 0 => None
    | S fuel' =>
        new_key ← get_quoted_string s;
        match new_key with
        | None => Some None
        | Some (new_key, s) =>
            if negb (length new_key =? strlen new_key) then Some None
            else
              let s := skip_whitespaces s in
              if negb (Ascii.eqb (peek s) ":") then Some None
              else
                new_value ← parse_value_rec (tl s) nesting;
                match new_value with
                | None => Some None
                | Some (new_value, s) =>
                    '(status, output_object) ←
                      json_object_add output_object new_key new_value;
                    match status with
                    | JSONFailure => Some None
                    | JSONSuccess =>
                        let s := skip_whitespaces s in
                        if negb (Ascii.eqb (peek s) ",")
                        then Some (Some (output_object, s))
                        else
                          let s := skip_whitespaces (tl s) in
                          if Ascii.eqb (peek s) "}"
                          then Some (Some (output_object, s))
                          else parse_object_loop fuel' s nesting output_object
                    end
                end
        end
    end.

Definition parse_object_value (s : list ascii) (nesting : nat)
    : option (parsed JSON_Value) :=
  let output_object := json_object_init 0 in
  if negb (Ascii.eqb (peek s) "{") then Some None
  else
    let s := skip_whitespaces (tl s) in
    if Ascii.eqb (peek s) "}" then Some (Some (Value_Object output_object, tl s))
    else
      res ← parse_object_loop (length s) s nesting output_object;
      match res with
      | None => Some None
      | Some (output_object, s) =>
          let s := skip_whitespaces s in
          if negb (Ascii.eqb (peek s) "}") then Some None
          else Some (Some (Value_Object output_object, tl s))
      end.

End Containers.

(** [parse_value].  The recursion is on [depth], the number of nested calls
    that can still be made: the test of [nesting] stops the recursion after
    [MAX_NESTING + 1] nested calls, so that a call at nesting 0 with
    [depth = MAX_NESTING + 1] never runs out of depth (the outer [None]). *)
Fixpoint parse_value (depth : nat) (s : list ascii) (nesting : nat)
    : option (parsed JSON_Value) :=
  if MAX_NESTING <? nesting then Some None
  else
    match depth with
    | 0 => None
    | S depth' =>
        let s := skip_whitespaces s in
        match peek s with
        | "{" => parse_object_value (parse_value depth') s (nesting + 1)
        | "[" => parse_array_value (parse_value depth') s (nesting + 1)
        | "034" => parse_string_value s
        | "f" | "t" => parse_boolean_value s
        | "-" | "0" | "1" | "2" | "3" | "4" | "5" | "6" | "7" | "8" | "9" =>
            parse_number_value s
        | "n" => parse_null_value s
        | _ => Some None
        end
    end.

(** [json_parse_string]: a UTF-8 byte order mark is skipped; whatever
    follows the value is left unread. *)
Definition json_parse_string (s : list ascii) : option (option JSON_Value) :=
  let s :=
    if Ascii.eqb (char_at s 0) "239" && Ascii.eqb (char_at s 1) "187"
       && Ascii.eqb (char_at s 2) "191"
    then drop 3 s else s in
  match parse_value (MAX_NESTING + 1) s 0 with
  | None => None
  | Some None => Some None
  | Some (Some (value, _)) => Some (Some value)
  end.

End Parser.

(** ** A C library for integers *)

(** An instance of [FloatOps] in which the numbers are the integers, read
    and written in decimal.  It serves to run the parser and the serializer
    on examples. *)
Fixpoint uint_chars (u : Decimal.uint) : list ascii :=
  match u with
  | Decimal.Nil => []
  | Decimal.D0 u => "0" :: uint_chars u
  | Decimal.D1 u => "1" :: uint_chars u
  | Decimal.D2 u => "2" :: uint_chars u
  | Decimal.D3 u => "3" :: uint_chars u
  | Decimal.D4 u => "4" :: uint_chars u
  | Decimal.D5 u => "5" :: uint_chars u
  | Decimal.D6 u => "6" :: uint_chars u
  | Decimal.D7 u => "7" :: uint_chars u
  | Decimal.D8 u => "8" :: uint_chars u
  | Decimal.D9 u => "9" :: uint_chars u
  end.

Definition digit_of (c : ascii) : option (Decimal.uint → Decimal.uint) :=
  match c with
  | "0" => Some Decimal.D0
  | "1" => Some Decimal.D1
  | "2" => Some Decimal.D2
  | "3" => Some Decimal.D3
  | "4" => Some Decimal.D4
  | "5" => Some Decimal.D5
  | "6" => Some Decimal.D6
  | "7" => Some Decimal.D7
  | "8" => Some Decimal.D8
  | "9" => Some Decimal.D9
  | _ => None
  end.

(** The digits at the start of [s] and their number. *)
Fixpoint read_uint (s : list ascii) : Decimal.uint * nat :=
  match s with
  | [] => (Decimal.Nil, 0)
  | c :: s' =>
      match digit_of c with
      | Some d => let '(u, n) := read_uint s' in (d u, S n)
      | None => (Decimal.Nil, 0)
      end
  end.

Definition integer_strtod (s : list ascii) : Z * nat * errno_t :=
  match s with
  | "-" :: s' =>
      let '(u, n) := read_uint s' in
      if n =? 0 then (0%Z, 0, ENONE)
      else (Z.of_int (Decimal.Neg u), S n, ENONE)
  | _ =>
      let '(u, n) := read_uint s in (Z.of_int (Decimal.Pos u), n, ENONE)
  end.

Definition integer_sprintf (fmt : list ascii) (x : Z) : option (list ascii) :=
  match Z.to_int x with
  | Decimal.Pos u => Some (uint_chars u)
  | Decimal.Neg u => Some ("-" :: uint_chars u)
  end.

Definition integer_ops : FloatOps :=
  {| double := Z;
     strtod := integer_strtod;
     is_huge := λ _, false;
     IS_NUMBER_INVALID := λ _, false;
     fabs_lt_epsilon := Z.eqb;
     sprintf_double := integer_sprintf;
     double_zero := 0%Z |}.

(** * Specification of the values *)

Section ValueSpec.
Context `{FloatOps}.

(** The value trees that the constructors build: the typed init functions,
    [json_array_append_value] (whose table part is [json_array_add]) and
    [json_object_set_value].  The strings passed to the constructors are
    buffers that hold the bytes announced. *)
Inductive built : JSON_Value → Prop :=
  | built_object v : json_value_init_object = Some v → built v
  | built_array v : json_value_init_array = Some v → built v
  | built_string s v :
      cstring s → json_value_init_string s = Some v → built v
  | built_string_with_len s n v :
      n ≤ length s → json_value_init_string_with_len s n = Some v → built v
  | built_number x v : json_value_init_number x = Some v → built v
  | built_boolean b v : json_value_init_boolean b = Some v → built v
  | built_null v : json_value_init_null = Some v → built v
  | built_append array value array' :
      built (Value_Array array) → built value →
      json_array_add array value = Some (JSONSuccess, array') →
      built (Value_Array array')
  | built_set object name value object' :
      built (Value_Object object) → built value → cstring name →
      json_object_set_value object name value = Some (JSONSuccess, object') →
      built (Value_Object object').

(** The invariants of a value tree: the tables of its objects, its numbers
    and its booleans. *)
Fixpoint value_wf (v : JSON_Value) : Prop :=
  match v with
  | Value_String _ | Value_Null => True
  | Value_Number x => IS_NUMBER_INVALID x = false
  | Value_Boolean b => b = 0%Z ∨ b = 1%Z
  | Value_Object o => table_inv o ∧ Forall id (map value_wf (values o))
  | Value_Array a => Forall id (map value_wf (items a))
  end.

(** [nesting_fits v nesting]: the value [v], found inside [nesting]
    containers, holds no value inside more than [MAX_NESTING] containers. *)
Fixpoint nesting_fits (v : JSON_Value) (nesting : nat) : bool :=
  (nesting <=? MAX_NESTING) &&
  match v with
  | Value_Object o => forallb id (map (λ x, nesting_fits x (S nesting)) (values o))
  | Value_Array a => forallb id (map (λ x, nesting_fits x (S nesting)) (items a))
  | _ => true
  end.

(** ** The serialized text *)

(** What the serializer writes for a character of a string. *)
Definition escaped_char (parser : JSON_Parser) (c : ascii) : list ascii :=
  match escape_sequence parser c with
  | Some str => str
  | None => [c]
  end.

(** A string between quotes, its characters escaped. *)
Definition string_text (parser : JSON_Parser) (s : list ascii) : list ascii :=
  QUOTE :: concat (map (escaped_char parser) s) ++ [QUOTE].

Definition indent_text (level : nat) : list ascii :=
  concat (replicate level PARSON_INDENT_STR).

(** What the loops of the serializer write for an element. *)
Definition element_text (is_pretty : bool) (level count : nat) (i : nat)
    (element : list ascii) : list ascii :=
  (if is_pretty then indent_text (level + 1) else [])
  ++ element
  ++ (if i <? count - 1 then [","] else [])
  ++ (if is_pretty then ["010"] else []).


Definition entry_text (parser : JSON_Parser) (is_pretty : bool)
    (key text : list ascii) : list ascii :=
  string_text parser key ++ [":"] ++ (if is_pretty then [" "] else []) ++ text.

(** The elements of a container between its brackets: in pretty mode every
    element is on a line of its own, indented one unit more than the
    container; elements are separated by commas. *)
Definition container_text (open close : ascii) (is_pretty : bool)
    (level : nat) (elements : list (list ascii)) : list ascii :=
  let count := length elements in
  [open]
  ++ (if (0 <? count) && is_pretty then ["010"] else [])
  ++ concat (imap (element_text is_pretty level count) elements)
  ++ (if (0 <? count) && is_pretty then indent_text level else [])
  ++ [close].

(** All the texts, when there are all. *)
Fixpoint all_texts (texts : list (option (list ascii)))
    : option (list (list ascii)) :=
  match texts with
  | [] => Some []
  | text :: texts' =>
      text ← text; texts' ← all_texts texts'; Some (text :: texts')
  end.

(** The text of a value at a nesting level, [None] when a number of the
    value cannot be written. *)
Fixpoint value_text (parser : JSON_Parser) (is_pretty : bool) (v : JSON_Value)
    (level : nat) : option (list ascii) :=
  match v with
  | Value_String chars => Some (string_text parser chars)
  | Value_Number x => serialize_number parser x
  | Value_Boolean b =>
      Some (list_ascii_of_string (if (b =? 0)%Z then "false" else "true"))
  | Value_Null => Some (list_ascii_of_string "null")
  | Value_Array a =>
      texts ←
        all_texts (map (λ x, value_text parser is_pretty x (level + 1)) (items a));
      Some (container_text "[" "]" is_pretty level texts)
  | Value_Object o =>
      texts ←
        all_texts (map (λ x, value_text parser is_pretty x (level + 1)) (values o));
      Some (container_text "{" "}" is_pretty level
              (zip_with (entry_text parser is_pretty) (names o) texts))
  end.

End ValueSpec.

(** * Specification of the parser *)

(** The UTF-8 encoding of a code point (RFC 3629). *)
Definition utf8_encode (cp : Z) : list ascii :=
  if (cp <? 128)%Z then [char_of cp]
  else if (cp <? 2048)%Z then
    [char_of (192 + cp / 64); char_of (128 + cp mod 64)]
  else if (cp <? 65536)%Z then
    [char_of (224 + cp / 4096); char_of (128 + (cp / 64) mod 64);
     char_of (128 + cp mod 64)]
  else
    [char_of (240 + cp / 262144); char_of (128 + (cp / 4096) mod 64);
     char_of (128 + (cp / 64) mod 64); char_of (128 + cp mod 64)].

(** [n] opening brackets and their [n] closing brackets. *)
Definition nested_arrays (n : nat) : list ascii :=
  repeat "[" n ++ repeat "]" n.

(** The value of [nested_arrays (S n)]: arrays are trimmed to their count
    when their closing bracket is read. *)
Fixpoint nested_arrays_value `{FloatOps} (n : nat) : JSON_Value :=
  match n with
  | 0 => Value_Array {| items := []; capacity := 0 |}
  | S n' => Value_Array {| items := [nested_arrays_value n']; capacity := 1 |}
  end.

(** ** Numbers that are read back *)

(** The characters that can be part of a number for [strtod]. *)
Definition number_char (c : ascii) : bool :=
  match c with
  | "0" | "1" | "2" | "3" | "4" | "5" | "6" | "7" | "8" | "9"
  | "+" | "-" | "." => true
  | _ =>
      let n := nat_of_ascii c in
      ((65 <=? n) && (n <=? 90)) || ((97 <=? n) && (n <=? 122))
  end.

(** What follows a value does not continue a number. *)
Definition value_end (rest : list ascii) : bool :=
  negb (number_char (peek rest)).

(** The characters on which [parse_value] calls [parse_number_value]. *)
Definition number_start (c : ascii) : bool :=
  match c with
  | "-" | "0" | "1" | "2" | "3" | "4" | "5" | "6" | "7" | "8" | "9" => true
  | _ => false
  end.

(** The characters with which the text of a value starts. *)
Definition value_start (c : ascii) : bool :=
  match c with
  | "{" | "[" | "034" | "t" | "f" | "n" => true
  | _ => number_start c
  end.

(** Texts separated by commas. *)
Fixpoint elements_text (texts : list (list ascii)) : list ascii :=
  match texts with
  | [] => []
  | [text] => text
  | text :: texts' => text ++ "," :: elements_text texts'
  end.

Section NumberSpec.
Context `{FloatOps}.

(** The text of the number [x] starts as a number does and, whatever
    follows it, [parse_number_value] reads it back as a number that
    [json_value_equals] does not tell from [x]. *)
Definition number_reads_back (parser : JSON_Parser) (x : double) : Prop :=
  ∃ c text,
    serialize_number parser x = Some (c :: text) ∧ number_start c = true ∧
    ∀ rest, value_end rest = true →
      ∃ x', parse_number_value (c :: text ++ rest)
            = Some (Some (Value_Number x', rest)) ∧
            fabs_lt_epsilon x' x = true.

Fixpoint numbers_read_back (parser : JSON_Parser) (v : JSON_Value) : Prop :=
  match v with
  | Value_Number x => number_reads_back parser x
  | Value_Object o => Forall id (map (numbers_read_back parser) (values o))
  | Value_Array a => Forall id (map (numbers_read_back parser) (items a))
  | _ => True
  end.

(** What follows the text of [v]: anything, unless [v] is a number. *)
Definition ends_value (v : JSON_Value) (rest : list ascii) : Prop :=
  match v with
  | Value_Number _ => value_end rest = true
  | _ => True
  end.

(** The text [text] of [v] is read back: it starts as a value does and,
    whatever follows it, [parse_value] returns a value that
    [json_value_equals] finds equal to [v], and leaves [*string] behind
    the text. *)
Definition parses_back (depth nesting : nat) (v : JSON_Value)
    (text : list ascii) : Prop :=
  (∃ c text', text = c :: text' ∧ value_start c = true) ∧
  ∀ rest, ends_value v rest →
    ∃ p, parse_value depth (text ++ rest) nesting = Some (Some (p, rest)) ∧
         json_value_equals_value p (Some v) = Some true.

End NumberSpec.

(** * Specification of the serializer *)

(** The state of a serialization function that was entered with the
    pointer [buf0], the block [mem] and [written_total = w0], and has
    written [text] since; [tail] is what it left behind the text: the NUL
    of [APPEND_STRING], or nothing. *)
Definition sink (buf0 : option nat) (mem : list ascii) (w0 : Z)
    (text tail : list ascii) : option ser_state :=
  total ← int_add w0 (Z.of_nat (length text));
  match buf0 with
  | None =>
      Some {| buf := None; written_total := total; block := mem |}
  | Some pos =>
      mem' ← store mem pos (text ++ tail);
      Some {| buf := Some (pos + length text);
              written_total := total;
              block := mem' |}
  end.

(** The result of a serialization function that writes [text]: its length,
    and the block with the text and a NUL at [buf0]. *)
Definition ser_result (buf0 : option nat) (mem : list ascii)
    (text : list ascii) : option (Z * list ascii) :=
  total ← int_add 0 (Z.of_nat (length text));
  match buf0 with
  | None => Some (total, mem)
  | Some pos =>
      mem' ← store mem pos (text ++ [NUL]);
      Some (total, mem')
  end.

(** In the measuring pass [buf] is NULL, the block is left as it is, and
    [written_total] is at most [bound]. *)
Definition measuring (mem : list ascii) (bound : Z) (st : ser_state) : Prop :=
  buf st = None ∧ block st = mem ∧ (written_total st ≤ bound)%Z.

(** A loop of the measuring pass that ends in [return -1]. *)
Definition loop_fails (mem : list ascii)
    (r : option (JSON_Status * ser_state)) : Prop :=
  ∃ st, r = Some (JSONFailure, st) ∧ block st = mem.

(** What a call on a child returns in the measuring pass: the length of
    its text, or -1 when it has none. *)
Definition measures (call : ser_call) (level : nat) (pretty : bool)
    (text : option (list ascii)) : Prop :=
  ∀ m, call None level pretty m
       = Some (from_option (λ t, Z.of_nat (length t)) (-1)%Z text, m).

Section SerializerSpec.
Context `{FloatOps}.

(** The numbers of the value fit into [num_buf]: the text that [sprintf]
    (or the serialization function of the parser) writes for each of them
    is shorter than [PARSON_NUM_BUF_SIZE], which leaves room for its NUL. *)
Fixpoint numbers_fit (parser : JSON_Parser) (v : JSON_Value) : Prop :=
  match v with
  | Value_Number x =>
      match serialize_number parser x with
      | Some text => length text < PARSON_NUM_BUF_SIZE
      | None => True
      end
  | Value_Object o => Forall id (map (numbers_fit parser) (values o))
  | Value_Array a => Forall id (map (numbers_fit parser) (items a))
  | _ => True
  end.

(** The characters that the serializer goes through for a value: its text,
    in which a number that cannot be written counts for nothing. *)
Fixpoint value_layout (parser : JSON_Parser) (is_pretty : bool)
    (v : JSON_Value) (level : nat) : list ascii :=
  match v with
  | Value_String chars => string_text parser chars
  | Value_Number x => default [] (serialize_number parser x)
  | Value_Boolean b =>
      list_ascii_of_string (if (b =? 0)%Z then "false" else "true")
  | Value_Null => list_ascii_of_string "null"
  | Value_Array a =>
      container_text "[" "]" is_pretty level
        (map (λ x, value_layout parser is_pretty x (level + 1)) (items a))
  | Value_Object o =>
      container_text "{" "}" is_pretty level
        (zip_with (entry_text parser is_pretty) (names o)
           (map (λ x, value_layout parser is_pretty x (level + 1)) (values o)))
  end.

(** The text of an object whose entries are enumerated in the order
    [keys], with the values that the map [m] gives to the keys. *)
Definition entries_text (parser : JSON_Parser) (is_pretty : bool)
    (keys : list (list ascii)) (m : gmap (list ascii) JSON_Value)
    (level : nat) : option (list ascii) :=
  texts ←
    all_texts (map (λ key, m !! key ≫=
                           λ v, value_text parser is_pretty v (level + 1))
                 keys);
  Some (container_text "{" "}" is_pretty level
          (zip_with (entry_text parser is_pretty) keys texts)).

(** The serialization of the value at [level] stays within the type [int]:
    neither the count of the characters nor the level passes [INT_MAX]. *)
Definition counts_fit (parser : JSON_Parser) (is_pretty : bool)
    (v : JSON_Value) (level : nat) : Prop :=
  (Z.of_nat level + Z.of_nat (length (value_layout parser is_pretty v level))
   ≤ INT_MAX)%Z.

(** What the serialization functions need of a value: numbers that fit
    into [num_buf] and a text of at most [INT_MAX] characters. *)
Definition serialization_fits (parser : JSON_Parser) (is_pretty : bool)
    (v : JSON_Value) : Prop :=
  numbers_fit parser v ∧ counts_fit parser is_pretty v 0.

End SerializerSpec.

(** * Values in memory: the parent links *)

(** The value trees above leave out the pointers between the values.  Here
    a [JSON_Value *] is an address in a heap of values, and the containers
    hold the addresses of their children; a [JSON_Array *] or a
    [JSON_Object *] is given by the address of its wrapping value.  The
    allocator succeeds and never returns an address again. *)
Module Heap.
Section Heap.
Context `{FloatOps}.

Definition addr : Type := nat.

Inductive node_value :=
  | NString (chars : list ascii)
  | NNumber (number : double)
  | NObject (object : JSON_Object addr)
  | NArray (array : JSON_Array addr)
  | NBoolean (boolean : Z)
  | NNull.

(** [struct json_value_t]. *)
Record node := mkNode {
  parent : option addr;
  value : node_value
}.

Record heap := mkHeap {
  nodes : gmap addr node;
  next : addr
}.

Definition empty : heap := mkHeap ∅ 0.

(** The values that a container points to. *)
Definition children (n : node) : list addr :=
  match value n with
  | NObject object => values object
  | NArray array => items array
  | _ => []
  end.

(** [malloc] of a value and the stores of an init function, which leave
    [parent] NULL. *)
Definition alloc (h : heap) (v : node_value) : option addr * heap :=
  (Some (next h),
   mkHeap (<[next h := mkNode None v]> (nodes h)) (S (next h))).

Definition json_value_init_object (h : heap) : option addr * heap :=
  alloc h (NObject (json_object_init 0)).

Definition json_value_init_array (h : heap) : option addr * heap :=
  alloc h (NArray {| items := []; capacity := 0 |}).

Definition json_value_init_string (h : heap) (s : list ascii)
    : option addr * heap :=
  if is_valid_utf8 s (strlen s)
  then alloc h (NString (parson_strndup s (strlen s)))
  else (None, h).

Definition json_value_init_number (h : heap) (number : double)
    : option addr * heap :=
  if IS_NUMBER_INVALID number then (None, h) else alloc h (NNumber number).

Definition json_value_init_boolean (h : heap) (boolean : Z)
    : option addr * heap :=
  alloc h (NBoolean (if (boolean =? 0)%Z then 0 else 1)%Z).

Definition json_value_init_null (h : heap) : option addr * heap :=
  alloc h NNull.

(** [json_value_get_parent]; the outer [None] is a pointer to no value. *)
Definition json_value_get_parent (h : heap) (v : option addr)
    : option (option addr) :=
  match v with
  | None => Some None
  | Some v => n ← nodes h !! v; Some (parent n)
  end.

(** [value->parent = p]. *)
Definition set_parent (h : heap) (v : addr) (p : option addr) : option heap :=
  n ← nodes h !! v;
  Some (mkHeap (<[v := mkNode p (value n)]> (nodes h)) (next h)).

(** A store in the container that [c] wraps. *)
Definition set_value (h : heap) (c : addr) (v : node_value) : option heap :=
  n ← nodes h !! c;
  Some (mkHeap (<[c := mkNode (parent n) v]> (nodes h)) (next h)).

(** [json_value_free]: the children, then the value.  [fuel] bounds the
    depth of the recursion. *)
Fixpoint json_value_free (fuel : nat) (h : heap) (v : addr) : option heap :=
  match fuel with
  | 0 => None
  | S fuel' =>
      n ← nodes h !! v;
      h' ← foldl (λ acc child, h ← acc; json_value_free fuel' h child)
             (Some h) (children n);
      _ ← nodes h' !! v;
      Some (mkHeap (delete v (nodes h')) (next h'))
  end.

(** The depth of a tree is at most the number of its values. *)
Definition free_fuel (h : heap) : nat := S (size (nodes h)).

(** [json_array_append_value], with [json_array_add]. *)
Definition json_array_append_value (h : heap) (array value : option addr)
    : option (JSON_Status * heap) :=
  match array, value with
  | Some a, Some v =>
      nv ← nodes h !! v;
      if bool_decide (parent nv ≠ None) then Some (JSONFailure, h)
      else
        na ← nodes h !! a;
        match Heap.value na with
        | NArray arr =>
            '(status, arr') ← json_array_add arr v;
            match status with
            | JSONFailure => Some (JSONFailure, h)
            | JSONSuccess =>
                h ← set_parent h v (Some a);
                h ← set_value h a (NArray arr');
                Some (JSONSuccess, h)
            end
        | _ => None
        end
  | _, _ => Some (JSONFailure, h)
  end.

(** [json_array_replace_value]. *)
Definition json_array_replace_value (h : heap) (array : option addr)
    (ix : nat) (value : option addr) : option (JSON_Status * heap) :=
  match array, value with
  | Some a, Some v =>
      nv ← nodes h !! v;
      if bool_decide (parent nv ≠ None) then Some (JSONFailure, h)
      else
        na ← nodes h !! a;
        match Heap.value na with
        | NArray arr =>
            if json_array_get_count arr <=? ix then Some (JSONFailure, h)
            else
              old ← json_array_get_value arr ix;
              h ← json_value_free (free_fuel h) h old;
              h ← set_parent h v (Some a);
              h ← set_value h a
                    (NArray {| items := <[ix := v]> (items arr);
                               capacity := capacity arr |});
              Some (JSONSuccess, h)
        | _ => None
        end
  | _, _ => Some (JSONFailure, h)
  end.

(** [json_array_remove]. *)
Definition json_array_remove (h : heap) (array : option addr) (ix : nat)
    : option (JSON_Status * heap) :=
  match array with
  | Some a =>
      na ← nodes h !! a;
      match Heap.value na with
      | NArray arr =>
          if json_array_get_count arr <=? ix then Some (JSONFailure, h)
          else
            old ← json_array_get_value arr ix;
            h ← json_value_free (free_fuel h) h old;
            h ← set_value h a
                  (NArray {| items := delete ix (items arr);
                             capacity := capacity arr |});
            Some (JSONSuccess, h)
      | _ => None
      end
  | None => Some (JSONFailure, h)
  end.

(** [value->parent = wrapping_value] for the values of a table that
    [json_object_grow_and_rehash] rebuilds. *)
Definition set_parents (h : heap) (vs : list addr) (p : option addr)
    : option heap :=
  foldl (λ acc v, h ← acc; set_parent h v p) (Some h) vs.

(** [json_object_set_value]: the test of the parent link, the release of
    the value that the key had, the table, and the parent link. *)
Definition json_object_set_value (h : heap) (object : option addr)
    (name : option (list ascii)) (value : option addr)
    : option (JSON_Status * heap) :=
  match object, name, value with
  | Some ob, Some name, Some v =>
      nv ← nodes h !! v;
      if bool_decide (parent nv ≠ None) then Some (JSONFailure, h)
      else
        no ← nodes h !! ob;
        match Heap.value no with
        | NObject o =>
            old_value ← json_object_get_value o name;
            h ← match old_value with
                | Some old_value => json_value_free (free_fuel h) h old_value
                | None =>
                    if item_capacity o <=? count o
                    then set_parents h (values o) (Some ob)
                    else Some h
                end;
            '(status, o') ← json_object_set_value o name v;
            match status with
            | JSONFailure => Some (JSONFailure, h)
            | JSONSuccess =>
                h ← set_parent h v (Some ob);
                h ← set_value h ob (NObject o');
                Some (JSONSuccess, h)
            end
        | _ => None
        end
  | _, _, _ => Some (JSONFailure, h)
  end.

(** [json_object_remove]. *)
Definition json_object_remove (h : heap) (object : option addr)
    (name : list ascii) : option (JSON_Status * heap) :=
  match object with
  | Some ob =>
      no ← nodes h !! ob;
      match Heap.value no with
      | NObject o =>
          old_value ← json_object_get_value o name;
          match old_value with
          | None => Some (JSONFailure, h)
          | Some old_value =>
              h ← json_value_free (free_fuel h) h old_value;
              '(status, o') ← json_object_remove_internal o name;
              h ← set_value h ob (NObject o');
              Some (status, h)
          end
      | _ => None
      end
  | None => Some (JSONFailure, h)
  end.

(** ** Programs that use the interface *)

(** A call of a function of the interface; the pointers it takes are
    results of earlier calls. *)
Inductive api_call :=
  | InitObject
  | InitArray
  | InitString (s : list ascii)
  | InitNumber (number : double)
  | InitBoolean (boolean : Z)
  | InitNull
  | ArrayAppend (array value : option addr)
  | ArrayReplace (array : option addr) (ix : nat) (value : option addr)
  | ArrayRemove (array : option addr) (ix : nat)
  | ObjectSet (object : option addr) (name : list ascii) (value : option addr)
  | ObjectRemove (object : option addr) (name : list ascii).

Definition run_call (h : heap) (call : api_call) : option heap :=
  match call with
  | InitObject => Some (json_value_init_object h).2
  | InitArray => Some (json_value_init_array h).2
  | InitString s => Some (json_value_init_string h s).2
  | InitNumber number => Some (json_value_init_number h number).2
  | InitBoolean boolean => Some (json_value_init_boolean h boolean).2
  | InitNull => Some (json_value_init_null h).2
  | ArrayAppend array value => snd <$> json_array_append_value h array value
  | ArrayReplace array ix value =>
      snd <$> json_array_replace_value h array ix value
  | ArrayRemove array ix => snd <$> json_array_remove h array ix
  | ObjectSet object name value =>
      snd <$> json_object_set_value h object (Some name) value
  | ObjectRemove object name => snd <$> json_object_remove h object name
  end.

Fixpoint run_calls (calls : list api_call) (h : heap) : option heap :=
  match calls with
  | [] => Some h
  | call :: calls' => h' ← run_call h call; run_calls calls' h'
  end.

(** The names passed to the interface are C strings. *)
Definition call_ok (call : api_call) : Prop :=
  match call with
  | ObjectSet _ name _ | ObjectRemove _ name => cstring name
  | _ => True
  end.

(** ** The invariant of the parent links *)

(** [v] is one of the values that container [c] points to. *)
Definition child_of (h : heap) (v c : addr) : Prop :=
  ∃ n, nodes h !! c = Some n ∧ v ∈ children n.

Record heap_wf (h : heap) : Prop := {
  wf_parent : ∀ v c n, child_of h v c → nodes h !! v = Some n →
    parent n = Some c;
  wf_child_next : ∀ v c, child_of h v c → v < next h;
  wf_next : ∀ a, is_Some (nodes h !! a) → a < next h;
  wf_table : ∀ c n o, nodes h !! c = Some n → Heap.value n = NObject o →
    table_inv o
}.

End Heap.
End Heap.

(** * json_value_deep_copy *)

Section DeepCopy.
Context `{FloatOps}.

(** The result of the recursive call of [json_value_deep_copy] on child
    [index] of the value, NULL when there is no index; [copies] holds the
    result of the call for each child (see [json_value_deep_copy_value]). *)
Definition deep_copy_child (copies : list (option (option JSON_Value)))
    (index : option nat) : option (option JSON_Value) :=
  match index with
  | None => Some None
  | Some i => copy ← copies !! i; copy
  end.

(** The loops of [json_value_deep_copy] over [i < count], with [n]
    iterations left; NULL when a copy fails. *)
Fixpoint deep_copy_array_loop (copies : list (option (option JSON_Value)))
    (temp_array : JSON_Array JSON_Value) (i n : nat)
    (temp_array_copy : JSON_Array JSON_Value)
    : option (option (JSON_Array JSON_Value)) :=
  match n with
  | 0 => Some (Some temp_array_copy)
  | S n' =>
      let index :=
        if json_array_get_count temp_array <=? i then None else Some i in
      temp_value_copy ← deep_copy_child copies index;
      match temp_value_copy with
      | None => Some None
      | Some temp_value_copy =>
          '(status, temp_array_copy) ←
            json_array_add temp_array_copy temp_value_copy;
          match status with
          | JSONFailure => Some None
          | JSONSuccess =>
              deep_copy_array_loop copies temp_array (S i) n' temp_array_copy
          end
      end
  end.

Fixpoint deep_copy_object_loop (copies : list (option (option JSON_Value)))
    (temp_object : JSON_Object JSON_Value) (i n : nat)
    (temp_object_copy : JSON_Object JSON_Value)
    : option (option (JSON_Object JSON_Value)) :=
  match n with
  | 0 => Some (Some temp_object_copy)
  | S n' =>
      match json_object_get_name temp_object i with
      | None => Some None
      | Some temp_key =>
          index ← json_object_getn_item temp_object temp_key (strlen temp_key);
          temp_value_copy ← deep_copy_child copies index;
          match temp_value_copy with
          | None => Some None
          | Some temp_value_copy =>
              let key_copy := parson_strdup temp_key in
              '(res, temp_object_copy) ←
                json_object_add temp_object_copy key_copy temp_value_copy;
              match res with
              | JSONFailure => Some None
              | JSONSuccess =>
                  deep_copy_object_loop copies temp_object (S i) n'
                    temp_object_copy
              end
          end
      end
  end.

(** [json_value_deep_copy] on a value that is not NULL.  The recursive
    calls are tabulated child by child, as in [json_value_equals_value]. *)
Fixpoint json_value_deep_copy_value (value : JSON_Value)
    : option (option JSON_Value) :=
  match value with
  | Value_Array temp_array =>
      temp_array_copy ←
        deep_copy_array_loop
          (map json_value_deep_copy_value (items temp_array))
          temp_array 0 (json_array_get_count temp_array)
          {| items := []; capacity := 0 |};
      Some (option_map Value_Array temp_array_copy)
  | Value_Object temp_object =>
      temp_object_copy ←
        deep_copy_object_loop
          (map json_value_deep_copy_value (values temp_object))
          temp_object 0 (json_object_get_count temp_object)
          (json_object_init 0);
      Some (option_map Value_Object temp_object_copy)
  | Value_Boolean _ =>
      Some (json_value_init_boolean (json_value_get_boolean (Some value)))
  | Value_Number _ =>
      Some (json_value_init_number (json_value_get_number (Some value)))
  | Value_String chars =>
      Some (json_value_init_string_no_copy
              (parson_strndup chars (length chars)) (length chars))
  | Value_Null => Some json_value_init_null
  end.

(** [json_value_deep_copy]; the type of NULL is [JSONError], for which
    NULL is returned. *)
Definition json_value_deep_copy (value : option JSON_Value)
    : option (option JSON_Value) :=
  match value with
  | None => Some None
  | Some value => json_value_deep_copy_value value
  end.

(** What a value tree holds, the capacities of its arrays and the cells
    of its tables left out: the elements of an array in their order, the
    keys and the values of an object in the order of its entries. *)
Inductive content :=
  | CString (chars : list ascii)
  | CNumber (number : double)
  | CBoolean (boolean : Z)
  | CNull
  | CArray (elements : list content)
  | CObject (entries : list (list ascii * content)).

Fixpoint content_of (value : JSON_Value) : content :=
  match value with
  | Value_String chars => CString chars
  | Value_Number number => CNumber number
  | Value_Boolean boolean => CBoolean boolean
  | Value_Null => CNull
  | Value_Array array => CArray (map content_of (items array))
  | Value_Object object =>
      CObject (zip (names object) (map content_of (values object)))
  end.

(** [fabs(x - x) < 0.000001] holds for a number that is neither NaN nor
    infinite. *)
Definition number_equals_itself : Prop :=
  ∀ x, IS_NUMBER_INVALID x = false → fabs_lt_epsilon x x = true.

(** [fabs(x - y) < 0.000001] does not depend on the order of [x] and
    [y]. *)
Definition number_equality_symmetric : Prop :=
  ∀ x y, fabs_lt_epsilon x y = fabs_lt_epsilon y x.

End DeepCopy.

(** * json_object_clear *)

Section Clear.
Context {V : Type}.

(** The table part of [json_object_clear] (the values are released by
    [json_value_free]): the entries are dropped and every cell is marked
    free.  [None]: a store outside [cells]. *)
Definition json_object_clear (object : JSON_Object V)
    : option (JSON_Status * JSON_Object V) :=
  if length (cells object) <? cell_capacity object then None
  else
    Some (JSONSuccess,
          {| cells := replicate (cell_capacity object) OBJECT_INVALID_IX
                      ++ drop (cell_capacity object) (cells object);
             hashes := []; names := []; values := []; cell_ixs := [];
             count := 0;
             item_capacity := item_capacity object;
             cell_capacity := cell_capacity object |}).

End Clear.

(** * Specification of UTF-8 *)

(** The Unicode scalar values: the code points up to U+10FFFF that are not
    surrogates. *)
Definition scalar_value (cp : Z) : Prop :=
  (0 ≤ cp ≤ 1114111)%Z ∧ ¬ (55296 ≤ cp ≤ 57343)%Z.

(** The UTF-8 encoding of a sequence of code points. *)
Definition utf8_text (cps : list Z) : list ascii :=
  concat (map utf8_encode cps).

(** The code point of a surrogate pair. *)
Definition surrogate_pair (lead trail : Z) : Z :=
  (65536 + (lead - 55296) * 1024 + (trail - 56320))%Z.

(** The text [s] starts with the escape of a low surrogate: a backslash,
    [u] and four hexadecimal digits of a number in 0xDC00 .. 0xDFFF. *)
Definition low_surrogate_escape (s : list ascii) : Prop :=
  peek s = "\" ∧ peek (tl s) = "u" ∧
  ∃ trail, parse_utf16_hex (tl (tl s)) = Some trail ∧
           (56320 ≤ trail ≤ 57343)%Z.

(** The digits of the escape [\uD800], the escape [\u0041] and a quote. *)
Definition example_lone_surrogate : list ascii :=
  ["D"; "8"; "0"; "0"; "\"; "u"; "0"; "0"; "4"; "1"; QUOTE; NUL].

(** * Specification of the parser: results and layout *)

Section ParserSpec.
Context `{FloatOps}.

(** What is asked of the result [r] of a parsing function entered with the
    text [s] at nesting [nesting]: the value is well-formed, it fits the
    limit of nesting, and [*string] has not moved backwards. *)
Definition parse_result_ok (nesting : nat) (s : list ascii)
    (r : parsed JSON_Value) : Prop :=
  ∀ v rest, r = Some (v, rest) →
    value_wf v ∧ nesting_fits v nesting = true ∧ length rest ≤ length s.

End ParserSpec.

(** Texts separated by commas, with the white space [sep] behind every
    comma and [last] behind the last text. *)
Fixpoint separated_text (sep last : list ascii) (texts : list (list ascii))
    : list ascii :=
  match texts with
  | [] => []
  | [text] => text ++ last
  | text :: texts' => text ++ "," :: sep ++ separated_text sep last texts'
  end.

(** * Comments *)

(** [strstr(s, t) - s], [None] for NULL; [t] is not empty. *)
Fixpoint strstr (s t : list ascii) : option nat :=
  if strncmp_eq s t (strlen t) then Some 0
  else
    match s with
    | [] => None
    | c :: s' => if Ascii.eqb c NUL then None else S <$> strstr s' t
    end.

(** The loop of [remove_comments]: returns the buffer from [string] on as
    the loop leaves it.  Every iteration moves [string] forward, so that
    [fuel] iterations suffice when [fuel] is the length of [string]. *)
Fixpoint remove_comments_loop (fuel : nat) (string : list ascii)
    (start_token end_token : list ascii) (in_string escaped : bool)
    : list ascii :=
  match fuel with
  | 0 => string
  | S fuel' =>
      let current_char := peek string in
      let start_token_len := strlen start_token in
      let end_token_len := strlen end_token in
      if Ascii.eqb current_char NUL then string
      else if Ascii.eqb current_char "\" && negb escaped then
        current_char
        :: remove_comments_loop fuel' (tl string) start_token end_token
             in_string true
      else if Ascii.eqb current_char QUOTE && negb escaped then
        current_char
        :: remove_comments_loop fuel' (tl string) start_token end_token
             (negb in_string) false
      else if negb in_string && strncmp_eq string start_token start_token_len
      then
        let string := drop start_token_len string in
        match strstr string end_token with
        | None => replicate start_token_len " " ++ string
        | Some offset =>
            replicate start_token_len " "
            ++ replicate (offset + end_token_len) " "
            ++ remove_comments_loop fuel' (drop (offset + end_token_len) string)
                 start_token end_token in_string false
        end
      else
        current_char
        :: remove_comments_loop fuel' (tl string) start_token end_token
             in_string false
  end.

(** [remove_comments]: the buffer after the comments have been overwritten
    with spaces. *)
Definition remove_comments (string start_token end_token : list ascii)
    : list ascii :=
  if (strlen start_token =? 0) || (strlen end_token =? 0) then string
  else
    remove_comments_loop (length string) string start_token end_token
      false false.

(** [json_parse_string_with_comments]; no byte order mark is skipped. *)
Definition json_parse_string_with_comments `{FloatOps} (s : list ascii)
    : option (option JSON_Value) :=
  let string_mutable_copy := parson_strdup s in
  let string_mutable_copy :=
    remove_comments string_mutable_copy ["/"; "*"] ["*"; "/"] in
  let string_mutable_copy :=
    remove_comments string_mutable_copy ["/"; "/"] ["010"] in
  match parse_value (MAX_NESTING + 1) string_mutable_copy 0 with
  | None => None
  | Some None => Some None
  | Some (Some (value, _)) => Some (Some value)
  end.

(** * Examples *)

(** The block that [malloc] returns: [n] bytes of any content. *)
Definition fresh_block (n : nat) : list ascii := replicate n "x".

(** The array [[null,12,"a",true]], as [json_array_append_value] fills it. *)
Definition example_array : @JSON_Value integer_ops :=
  Value_Array
    {| items := [Value_Null; Value_Number (12%Z : @double integer_ops); Value_String ["a"];
                 Value_Boolean 1%Z];
       capacity := STARTING_CAPACITY |}.

(** Operations on a table of numbers. *)
Definition table_example_ops : list (table_op nat) :=
  [OpSet ["a"] 1; OpSet ["b"] 2; OpAdd ["q"] 3; OpSet ["c"] 4;
   OpRemove ["a"]; OpSet ["b"] 5; OpRemove ["z"]].

(** Three insertions and the removal of the first key. *)
Definition remove_first_ops : list (table_op (@JSON_Value integer_ops)) :=
  [OpSet ["a"] Value_Null;
   OpSet ["b"] (Value_Number (12%Z : @double integer_ops));
   OpSet ["c"] (Value_Boolean 1); OpRemove ["a"]].

(** Two arrays and [null]; [null] is appended to the first array. *)
Definition attach_example_calls : list (@Heap.api_call integer_ops) :=
  [Heap.InitArray; Heap.InitArray; Heap.InitNull;
   Heap.ArrayAppend (Some 0) (Some 2)].

(** The heap after these calls. *)
Definition attach_example_heap : @Heap.heap integer_ops :=
  Heap.mkHeap
    (<[0 := Heap.mkNode None
              (Heap.NArray {| items := [2]; capacity := STARTING_CAPACITY |})]>
       (<[1 := Heap.mkNode None (Heap.NArray {| items := []; capacity := 0 |})]>
          (<[2 := Heap.mkNode (Some 0) Heap.NNull]> ∅)))
    3.

(** Insertions only; [a] is set twice. *)
Definition insert_only_ops : list (table_op nat) :=
  [OpSet ["a"] 1; OpSet ["b"] 2; OpSet ["a"] 3; OpAdd ["c"] 4].

(** The object [{"k":[null,12,"a",true]}], as [json_object_set_value]
    fills it. *)
Definition example_object : JSON_Object (@JSON_Value integer_ops) :=
  match json_object_set_value (json_object_init 0) ["k"] example_array with
  | Some (_, object) => object
  | None => json_object_init 0
  end.

Definition example_tree : @JSON_Value integer_ops := Value_Object example_object.

(** [n + 1] arrays, each one the only element of the one around it, as
    [json_array_append_value] nests them. *)
Fixpoint deep_array `{FloatOps} (n : nat) : JSON_Value :=
  match n with
  | 0 => Value_Array {| items := []; capacity := 0 |}
  | S n' =>
      Value_Array {| items := [deep_array n']; capacity := STARTING_CAPACITY |}
  end.

(** The array [[null,12,"a",true]], as [parse_array_value] leaves it. *)
Definition example_array_parsed : @JSON_Value integer_ops :=
  Value_Array
    {| items := [Value_Null; Value_Number (12%Z : @double integer_ops);
                 Value_String ["a"]; Value_Boolean 1%Z];
       capacity := 4 |}.

(** Two ways to the object [{"a":null,"b":12}]. *)
Definition example_ops_ab : list (table_op (@JSON_Value integer_ops)) :=
  [OpSet ["a"] Value_Null; OpSet ["b"] (Value_Number (12%Z : @double integer_ops))].

Definition example_ops_ba : list (table_op (@JSON_Value integer_ops)) :=
  [OpSet ["c"] (Value_Boolean 1); OpSet ["b"] (Value_Number (12%Z : @double integer_ops));
   OpRemove ["c"]; OpSet ["a"] Value_Null].

(** The object that [example_ops_ba] leave. *)
Definition example_object_ba : JSON_Object (@JSON_Value integer_ops) :=
  match run_ops example_ops_ba (json_object_init 0) with
  | Some o => o
  | None => json_object_init 0
  end.

(** The text [[ null , 12,"a" ,true ]]. *)
Definition example_array_source : list ascii :=
  ["["; " "; "n"; "u"; "l"; "l"; " "; ","; " "; "1"; "2"; ","; QUOTE; "a";
   QUOTE; " "; ","; "t"; "r"; "u"; "e"; " "; "]"; NUL].

(** The digits of the escapes [\uD83D\uDE00], behind the first [u]. *)
Definition example_surrogate_escapes : list ascii :=
  ["D"; "8"; "3"; "D"; "\"; "u"; "D"; "E"; "0"; "0"; QUOTE].

(** The table that [table_example_ops] leave. *)
Definition example_table : JSON_Object nat :=
  match run_ops table_example_ops (json_object_init 0) with
  | Some o => o
  | None => json_object_init 0
  end.

(** * Properties of the object table *)

(** ** C strings *)

Lemma strlen_cstring s : cstring s → strlen s = length s.
Proof.
  induction 1 as [|c s Hc _ IH]; simpl; [done|].
  destruct (Ascii.eqb_spec c NUL); [done|]. by rewrite IH.
Qed.

Lemma parson_strdup_cstring s : cstring s → parson_strdup s = s.
Proof.
  intros Hs. unfold parson_strdup, parson_strndup.
  rewrite strlen_cstring by done. apply firstn_all.
Qed.

Lemma strncmp_eq_cstring a b :
  cstring a → cstring b → length a = length b →
  strncmp_eq a b (length a) = true ↔ a = b.
Proof.
  intros Ha. revert b. induction Ha as [|c a Hc Ha IH]; intros b Hb Hlen.
  - destruct b; [done|discriminate].
  - destruct Hb as [|c' b Hc' Hb]; [discriminate|]. simpl in *.
    destruct (Ascii.eqb_spec c c') as [->|Hne]; simpl.
    + destruct (Ascii.eqb_spec c' NUL); [done|].
      rewrite IH by (done || lia). split; congruence.
    + split; [done|congruence].
Qed.

(** The test of [json_object_get_cell_ix] on the keys is equality of C
    strings. *)
Lemma key_test_cstring a b :
  cstring a → cstring b →
  (strlen b =? strlen a) && strncmp_eq a b (strlen a) = true ↔ a = b.
Proof.
  intros Ha Hb. rewrite !strlen_cstring by done.
  rewrite andb_true_iff, Nat.eqb_eq. split.
  - intros [Hlen Hcmp]. by apply strncmp_eq_cstring.
  - intros ->. split; [done|]. by apply strncmp_eq_cstring.
Qed.

(** ** Cyclic arithmetic on the cells *)


Lemma mask_pow2 k x : mask (2 ^ k) x = Z.to_nat (x mod 2 ^ Z.of_nat k).
Proof.
  unfold mask. f_equal.
  replace (Z.of_nat (2 ^ k) - 1)%Z with (Z.ones (Z.of_nat k)).
  - apply Z.land_ones. lia.
  - rewrite Z.ones_equiv, Nat2Z.inj_pow. simpl. lia.
Qed.

Lemma mask_lt k x : mask (2 ^ k) x < 2 ^ k.
Proof.
  rewrite mask_pow2.
  assert (0 ≤ x mod 2 ^ Z.of_nat k < 2 ^ Z.of_nat k)%Z as H
    by (apply Z.mod_pos_bound; lia).
  assert (Z.of_nat (2 ^ k) = 2 ^ Z.of_nat k)%Z as Hp
    by (rewrite Nat2Z.inj_pow; done).
  lia.
Qed.

Lemma mask_probe k a d :
  a < 2 ^ k → d ≤ 2 ^ k → mask (2 ^ k) (Z.of_nat (a + d)) = probe (2 ^ k) a d.
Proof.
  intros Ha Hd. rewrite mask_pow2.
  assert (Z.of_nat (2 ^ k) = 2 ^ Z.of_nat k)%Z as Hp
    by (rewrite Nat2Z.inj_pow; done).
  rewrite <- Hp. unfold probe.
  destruct (Nat.ltb_spec (a + d) (2 ^ k)).
  - rewrite Z.mod_small by lia. lia.
  - replace (Z.of_nat (a + d)) with (Z.of_nat (a + d - 2 ^ k) + 1 * Z.of_nat (2 ^ k))%Z
      by lia.
    rewrite Z.mod_add by lia. rewrite Z.mod_small by lia. lia.
Qed.

#[local] Arguments Nat.div : simpl never.
#[local] Arguments Nat.modulo : simpl never.

Section TableInvariant.
Context {V : Type}.
Implicit Types (o object : JSON_Object V) (key name : list ascii).


Lemma inv_fwd o i c :
  table_inv o → cell_ixs o !! i = Some c → cells o !! c = Some (Ix i).
Proof.
  intros Hinv Hc.
  assert (i < length (hashes o)) as Hi.
  { rewrite (inv_hashes_len _ Hinv), <- (inv_cell_ixs_len _ Hinv).
    by eapply lookup_lt_Some. }
  destruct (lookup_lt_is_Some_2 _ _ Hi) as [h Hh].
  by destruct (inv_reachable _ Hinv i c h).
Qed.

Lemma inv_home_lt o h : table_inv o → 0 < cell_capacity o → home o h < cell_capacity o.
Proof.
  intros Hinv Hpos. unfold home.
  destruct (inv_capacity _ Hinv) as [?|[k Hk]]; [lia|].
  rewrite Hk. apply mask_lt.
Qed.

Lemma inv_count_lt o : table_inv o → 0 < cell_capacity o → count o < cell_capacity o.
Proof.
  intros Hinv Hpos.
  pose proof (inv_count _ Hinv). pose proof (inv_item_capacity _ Hinv).
  assert (cell_capacity o * 7 / 10 < cell_capacity o)
    by (apply Nat.Div0.div_lt_upper_bound; lia).
  lia.
Qed.

Lemma inv_cell_lt o i c : table_inv o → cell_ixs o !! i = Some c → c < cell_capacity o.
Proof.
  intros Hinv Hc. rewrite <- (inv_cells_len _ Hinv).
  eapply lookup_lt_Some. by eapply inv_fwd.
Qed.

Lemma inv_item_lt o c i : table_inv o → cells o !! c = Some (Ix i) → i < count o.
Proof.
  intros Hinv Hc. rewrite <- (inv_cell_ixs_len _ Hinv).
  eapply lookup_lt_Some. by eapply inv_bwd.
Qed.

(** A table that respects its load factor has a free cell. *)
Lemma inv_not_full o :
  table_inv o → 0 < cell_capacity o →
  ¬ ∀ c, c < cell_capacity o → occupied o c.
Proof.
  intros Hinv Hpos Hfull.
  assert (seq 0 (cell_capacity o) ⊆+ cell_ixs o) as Hsub.
  { apply NoDup_submseteq; [apply NoDup_seq|].
    intros c Hc. apply elem_of_seq in Hc.
    destruct (Hfull c) as [m Hm]; [lia|].
    apply list_elem_of_lookup. exists m. by eapply inv_bwd. }
  apply submseteq_length in Hsub.
  rewrite length_seq, (inv_cell_ixs_len _ Hinv) in Hsub.
  pose proof (inv_count_lt _ Hinv Hpos). lia.
Qed.

Lemma probe_lt cap a d : a < cap → d ≤ cap → probe cap a d < cap.
Proof. cyc. Qed.

Lemma probe_dist cap a b : a < cap → b < cap → probe cap a (dist cap a b) = b.
Proof. cyc. Qed.

Lemma dist_lt cap a b : a < cap → b < cap → dist cap a b < cap.
Proof. cyc. Qed.

Lemma dist_probe cap a d : a < cap → d < cap → dist cap a (probe cap a d) = d.
Proof. cyc. Qed.

(** ** Lookup *)


Lemma json_object_get_cell_ix_loop_spec o key i n :
  table_inv o → cstring key → 0 < cell_capacity o → i + n = cell_capacity o →
  (∀ d, d < i →
     ∃ m, cells o !! probe (cell_capacity o)
                       (home o (hash_string key (strlen key))) d = Some (Ix m) ∧
          names o !! m ≠ Some key) →
  ∃ r, json_object_get_cell_ix_loop o key (strlen key)
         (hash_string key (strlen key))
         (home o (hash_string key (strlen key))) i n = Some r ∧
       lookup_result o key r.
Proof.
  set (hash := hash_string key (strlen key)). set (cap := cell_capacity o).
  intros Hinv Hkey Hpos. revert i.
  assert (home o hash < cap) as Hhm by by apply inv_home_lt.
  destruct (inv_capacity _ Hinv) as [?|[k Hk]]; [lia|].
  induction n as [|n IH]; intros i Hin Hseen.
  - exfalso. apply (inv_not_full o Hinv Hpos). intros c Hc.
    destruct (Hseen (dist cap (home o hash) c)) as (m & Hm & _).
    { pose proof (dist_lt cap (home o hash) c). lia. }
    rewrite probe_dist in Hm by done. by exists m.
  - simpl. fold cap hash.
    assert (mask cap (Z.of_nat (home o hash + i)) = probe cap (home o hash) i) as ->.
    { unfold cap in *. rewrite Hk in *. apply mask_probe; lia. }
    set (ix := probe cap (home o hash) i).
    assert (ix < cap) as Hix by (apply probe_lt; lia).
    destruct (lookup_lt_is_Some_2 (cells o) ix) as [cell Hcell].
    { by rewrite (inv_cells_len _ Hinv). }
    rewrite Hcell. simpl.
    (* a key of the table is met before any free cell *)
    assert (∀ m, names o !! m = Some key →
              ∃ c, cell_ixs o !! m = Some c ∧ cells o !! c = Some (Ix m) ∧
                   c = probe cap (home o hash) (dist cap (home o hash) c) ∧
                   c < cap ∧
                   ∀ d, d < dist cap (home o hash) c →
                        occupied o (probe cap (home o hash) d)) as Hpath.
    { intros m Hm.
      assert (m < length (cell_ixs o)) as Hlt.
      { rewrite (inv_cell_ixs_len _ Hinv), <- (inv_names_len _ Hinv).
        by eapply lookup_lt_Some. }
      destruct (lookup_lt_is_Some_2 _ _ Hlt) as [c Hc].
      pose proof (inv_hash _ Hinv _ _ Hm) as Hh.
      destruct (inv_reachable _ Hinv m c _ Hc Hh) as [Hcm Hd].
      pose proof (inv_cell_lt _ _ _ Hinv Hc).
      exists c. split_and!; try done. by rewrite probe_dist. }
    destruct cell as [|m].
    + eexists. split; [done|]. simpl. fold hash cap. split_and!; [|done|].
      * intros Hin'. apply list_elem_of_lookup in Hin' as [m Hm].
        destruct (Hpath m Hm) as (c & Hc & Hcm & Hceq & Hclt & Hd).
        destruct (lt_eq_lt_dec (dist cap (home o hash) c) i) as [[Hlt|Heq]|Hgt].
        -- destruct (Hseen _ Hlt) as (m' & Hm' & Hne).
           rewrite <- Hceq in Hm'. congruence.
        -- subst i. fold ix in Hceq. congruence.
        -- destruct (Hd _ Hgt) as [m' Hm']. fold ix in Hm'. congruence.
      * intros d Hd. unfold ix in Hd. rewrite dist_probe in Hd by lia.
        destruct (Hseen d Hd) as (m & Hm & _). by exists m.
    + pose proof (inv_item_lt _ _ _ Hinv Hcell) as Hm.
      destruct (lookup_lt_is_Some_2 (hashes o) m) as [hm Hhm'].
      { by rewrite (inv_hashes_len _ Hinv). }
      destruct (lookup_lt_is_Some_2 (names o) m) as [nm Hnm].
      { by rewrite (inv_names_len _ Hinv). }
      rewrite Hhm'. simpl.
      pose proof (inv_hash _ Hinv _ _ Hnm) as Hh.
      assert (cstring nm) as Hcs.
      { eapply Forall_lookup_1; [apply (inv_cstring _ Hinv)|done]. }
      assert (nm ≠ key → ∃ r,
        json_object_get_cell_ix_loop o key (strlen key) hash (home o hash) (S i) n
          = Some r ∧ lookup_result o key r) as Hnext.
      { intros Hne. apply IH; [lia|]. intros d Hd.
        destruct (decide (d = i)) as [->|].
        - exists m. split; [done|]. congruence.
        - apply Hseen. lia. }
      destruct (Z.eqb_spec hash hm) as [Heq|Hne]; simpl.
      * rewrite Hnm. simpl.
        destruct ((strlen nm =? strlen key) && strncmp_eq key nm (strlen key))
          eqn:Htest.
        -- apply key_test_cstring in Htest; [|done..]. subst nm.
           eexists. split; [done|]. simpl. by exists m.
        -- apply Hnext. intros ->.
           assert ((strlen key =? strlen key) && strncmp_eq key key (strlen key)
                   = true) by by apply key_test_cstring.
           congruence.
      * apply Hnext. intros ->. rewrite Hh in Hhm'. injection Hhm' as <-.
        by apply Hne.
Qed.

Lemma json_object_get_cell_ix_spec o key :
  table_inv o → cstring key → 0 < cell_capacity o →
  ∃ r, json_object_get_cell_ix o key (strlen key) (hash_string key (strlen key))
         = Some r ∧ lookup_result o key r.
Proof.
  intros Hinv Hkey Hpos. unfold json_object_get_cell_ix.
  apply (json_object_get_cell_ix_loop_spec o key 0); try done. lia.
Qed.

Lemma json_object_get_cell_ix_empty o key key_len hash :
  cell_capacity o = 0 →
  json_object_get_cell_ix o key key_len hash = Some (OBJECT_INVALID_IX, false).
Proof. intros H. unfold json_object_get_cell_ix. by rewrite H. Qed.

(** ** Insertion *)

Lemma json_object_init_inv capacity :
  (capacity = 0 ∨ ∃ k, capacity = 2 ^ k) → table_inv (json_object_init (V:=V) capacity).
Proof.
  intros Hcap. split; simpl; try done.
  - lia.
  - by rewrite length_replicate.
  - intros c i Hc. apply lookup_replicate in Hc as [? _]. done.
  - constructor.
Qed.

Lemma json_object_store_spec o key value c :
  table_inv o → cstring key → lookup_result o key (Ix c, false) →
  count o < item_capacity o →
  ∃ o', json_object_store o key value (Ix c) (hash_string key (strlen key))
          = Some o' ∧
        table_inv o' ∧
        names o' = names o ++ [key] ∧ values o' = values o ++ [value] ∧
        count o' = S (count o) ∧ cell_capacity o' = cell_capacity o.
Proof.
  intros Hinv Hkey (Hnotin & Hfree & Hpath) Hroom.
  assert (c < length (cells o)) as Hc by by eapply lookup_lt_Some.
  unfold json_object_store.
  destruct (Nat.ltb_spec c (length (cells o))); [|lia].
  destruct (Nat.ltb_spec (count o) (item_capacity o)); [|lia]. simpl.
  eexists. split; [done|]. split_and!; try done.
  assert (∀ x, occupied o x →
            ∃ m, <[c:=Ix (count o)]> (cells o) !! x = Some (Ix m)) as Hocc.
  { intros x [m Hm]. destruct (decide (x = c)) as [->|]; [congruence|].
    exists m. by rewrite list_lookup_insert_ne. }
  split; simpl.
  - apply (inv_capacity _ Hinv).
  - apply (inv_item_capacity _ Hinv).
  - lia.
  - rewrite length_insert. apply (inv_cells_len _ Hinv).
  - rewrite length_app; simpl. rewrite (inv_names_len _ Hinv). lia.
  - rewrite length_app; simpl. rewrite (inv_values_len _ Hinv). lia.
  - rewrite length_app; simpl. rewrite (inv_cell_ixs_len _ Hinv). lia.
  - rewrite length_app; simpl. rewrite (inv_hashes_len _ Hinv). lia.
  - intros c' i Hc'. destruct (decide (c' = c)) as [->|Hne].
    + rewrite list_lookup_insert_eq in Hc' by done. injection Hc' as <-.
      rewrite <- (inv_cell_ixs_len _ Hinv). by rewrite list_lookup_middle.
    + rewrite list_lookup_insert_ne in Hc' by done.
      apply lookup_app_l_Some. by apply (inv_bwd _ Hinv).
  - intros i nm Hi. apply lookup_app_Some in Hi as [Hi|[Hlen Hi]].
    + apply lookup_app_l_Some. by apply (inv_hash _ Hinv).
    + apply list_lookup_singleton_Some in Hi as [Hi <-].
      assert (i = length (hashes o)) as ->.
      { rewrite (inv_hashes_len _ Hinv), <- (inv_names_len _ Hinv). lia. }
      by rewrite list_lookup_middle.
  - apply Forall_app. split; [apply (inv_cstring _ Hinv)|]. by constructor.
  - apply NoDup_app. split_and!; [apply (inv_nodup _ Hinv)| |apply NoDup_singleton].
    intros x Hx Hx'. apply list_elem_of_singleton in Hx'. by subst.
  - intros i c0 h Hc0 Hh. unfold home, occupied. simpl in *.
    apply lookup_app_Some in Hc0 as [Hc0|[Hlen Hc0]].
    + assert (hashes o !! i = Some h) as Hh'.
      { apply lookup_app_Some in Hh as [Hh|[Hlen _]]; [done|].
        apply lookup_lt_Some in Hc0.
        rewrite (inv_cell_ixs_len _ Hinv) in Hc0.
        rewrite (inv_hashes_len _ Hinv) in Hlen. lia. }
      destruct (inv_reachable _ Hinv i c0 h Hc0 Hh') as [Hcell Hd].
      split.
      * rewrite list_lookup_insert_ne; [done|]. congruence.
      * intros d Hlt. apply Hocc. by apply Hd.
    + apply list_lookup_singleton_Some in Hc0 as [Hi <-].
      assert (i = count o) as ->.
      { rewrite (inv_cell_ixs_len _ Hinv) in *. lia. }
      rewrite list_lookup_middle in Hh by (by rewrite (inv_hashes_len _ Hinv)).
      injection Hh as <-. split.
      * by rewrite list_lookup_insert_eq.
      * intros d Hlt. apply Hocc. by apply Hpath.
Qed.

Lemma lookup_result_absent o key r :
  (key ∉ names o) → lookup_result o key r → ∃ c, r = (Ix c, false).
Proof.
  intros Hnotin Hr. destruct r as [[|c] [|]]; simpl in Hr; try done.
  - destruct Hr as (i & _ & Hi). destruct Hnotin.
    apply list_elem_of_lookup. by exists i.
  - by exists c.
Qed.

Lemma lookup_result_present o key r :
  key ∈ names o → lookup_result o key r → ∃ c, r = (Ix c, true).
Proof.
  intros Hin Hr. destruct r as [[|c] [|]]; simpl in Hr; try done.
  - by exists c.
  - by destruct Hr as [? _].
Qed.

Lemma inv_room_capacity_pos o :
  table_inv o → 0 < item_capacity o → 0 < cell_capacity o.
Proof.
  intros Hinv Hroom. pose proof (inv_item_capacity _ Hinv).
  assert (cell_capacity o * 7 / 10 ≤ cell_capacity o)
    by (apply Nat.Div0.div_le_upper_bound; lia).
  lia.
Qed.

Lemma inv_capacity_pos o : table_inv o → 0 < count o → 0 < cell_capacity o.
Proof.
  intros Hinv Hcount. pose proof (inv_count _ Hinv).
  apply inv_room_capacity_pos; [done|lia].
Qed.

Lemma inv_elem_capacity_pos o key : table_inv o → key ∈ names o → 0 < cell_capacity o.
Proof.
  intros Hinv Hin. apply inv_capacity_pos; [done|].
  rewrite <- (inv_names_len _ Hinv). destruct (names o); [|simpl; lia].
  by apply elem_of_nil in Hin.
Qed.

Lemma json_object_add_at_unfold depth o name value :
  json_object_add_at depth o name value =
  let hash := hash_string name (strlen name) in
  '(cell_ix, found) ← json_object_get_cell_ix o name (strlen name) hash;
  if found : bool then Some (JSONFailure, o)
  else if item_capacity o <=? count o then
    match depth with
    | 0 => None
    | S depth' =>
        '(res, object') ←
          json_object_grow_and_rehash_with (json_object_add_at depth') o;
        match res with
        | JSONFailure => Some (JSONFailure, object')
        | JSONSuccess =>
            '(cell_ix, _) ←
              json_object_get_cell_ix object' name (strlen name) hash;
            object'' ← json_object_store object' name value cell_ix hash;
            Some (JSONSuccess, object'')
        end
    end
  else
    object' ← json_object_store o name value cell_ix hash;
    Some (JSONSuccess, object').
Proof. by destruct depth. Qed.

#[local] Arguments json_object_add_at : simpl never.

(** An insertion into a table with room for it. *)
Lemma json_object_add_at_room depth o key value :
  table_inv o → cstring key → (key ∉ names o) → count o < item_capacity o →
  ∃ o', json_object_add_at depth o key value = Some (JSONSuccess, o') ∧
        table_inv o' ∧
        names o' = names o ++ [key] ∧ values o' = values o ++ [value] ∧
        count o' = S (count o) ∧ cell_capacity o' = cell_capacity o.
Proof.
  intros Hinv Hkey Hnotin Hroom.
  assert (0 < cell_capacity o) as Hpos
    by (apply inv_room_capacity_pos; [done|lia]).
  destruct (json_object_get_cell_ix_spec o key Hinv Hkey Hpos) as (r & Hget & Hr).
  destruct (lookup_result_absent _ _ _ Hnotin Hr) as [c ->].
  destruct (json_object_store_spec o key value c Hinv Hkey Hr Hroom)
    as (o' & Hstore & Ho').
  exists o'. split; [|done].
  rewrite json_object_add_at_unfold. simpl. rewrite Hget. simpl.
  destruct (Nat.leb_spec (item_capacity o) (count o)); [lia|].
  by rewrite Hstore.
Qed.

(** A key of the table is not inserted again. *)
Lemma json_object_add_at_present depth o key value :
  table_inv o → cstring key → key ∈ names o →
  json_object_add_at depth o key value = Some (JSONFailure, o).
Proof.
  intros Hinv Hkey Hin.
  pose proof (inv_elem_capacity_pos _ _ Hinv Hin) as Hpos.
  destruct (json_object_get_cell_ix_spec o key Hinv Hkey Hpos) as (r & Hget & Hr).
  destruct (lookup_result_present _ _ _ Hin Hr) as [c ->].
  rewrite json_object_add_at_unfold. simpl. by rewrite Hget.
Qed.

Lemma json_object_rehash_loop_spec depth keys vals o :
  table_inv o → length keys = length vals → Forall cstring keys →
  NoDup (names o ++ keys) → count o + length keys ≤ item_capacity o →
  ∃ o', json_object_rehash_loop (json_object_add_at depth) keys vals o
          = Some (JSONSuccess, o') ∧
        table_inv o' ∧
        names o' = names o ++ keys ∧ values o' = values o ++ vals ∧
        count o' = count o + length keys ∧
        cell_capacity o' = cell_capacity o ∧ item_capacity o' = item_capacity o.
Proof.
  revert vals o. induction keys as [|key keys IH]; intros vals o Hinv Hlen Hcs Hnd Hroom.
  - destruct vals; [|done]. exists o. simpl. rewrite !app_nil_r.
    split_and!; done || lia.
  - destruct vals as [|value vals]; [done|]. simpl in *.
    apply Forall_cons in Hcs as [Hkey Hcs].
    assert (key ∉ names o) as Hnotin.
    { apply NoDup_app in Hnd as (_ & Hnd & _). intros Hin.
      apply (Hnd _ Hin). by left. }
    destruct (json_object_add_at_room depth o key value) as (o1 & -> & Hinv1 & Hn1 & Hv1 & Hc1 & Hcap1);
      [done|done|done|lia|].
    simpl.
    destruct (IH vals o1) as (o' & -> & Hinv' & Hn' & Hv' & Hc' & Hcap' & Hic').
    + done.
    + lia.
    + done.
    + rewrite Hn1, <- app_assoc. done.
    + rewrite Hc1, (inv_item_capacity _ Hinv1), Hcap1, <- (inv_item_capacity _ Hinv).
      lia.
    + exists o'. split_and!; try done.
      * by rewrite Hn', Hn1, <- app_assoc.
      * by rewrite Hv', Hv1, <- app_assoc.
      * lia.
      * congruence.
      * rewrite Hic', (inv_item_capacity _ Hinv1), Hcap1.
        by rewrite (inv_item_capacity _ Hinv).
Qed.

Lemma new_capacity_pow2 cap :
  (cap = 0 ∨ ∃ k, cap = 2 ^ k) →
  ∃ k, Nat.max (cap * 2) STARTING_CAPACITY = 2 ^ k.
Proof.
  unfold STARTING_CAPACITY. intros [->|[k ->]].
  - by exists 4.
  - destruct (Nat.max_spec (2 ^ k * 2) 16) as [[_ ->]|[_ ->]].
    + by exists 4.
    + exists (S k). rewrite Nat.pow_succ_r'. lia.
Qed.

Lemma json_object_grow_and_rehash_with_spec depth o :
  table_inv o →
  ∃ o', json_object_grow_and_rehash_with (json_object_add_at depth) o
          = Some (JSONSuccess, o') ∧
        table_inv o' ∧ names o' = names o ∧ values o' = values o ∧
        count o' = count o ∧ count o' < item_capacity o' ∧
        0 < cell_capacity o'.
Proof.
  intros Hinv. unfold json_object_grow_and_rehash_with.
  set (new_capacity := Nat.max (cell_capacity o * 2) STARTING_CAPACITY).
  assert (count o < new_capacity * 7 / 10 ∧ 0 < new_capacity) as [Hroom Hpos].
  { pose proof (inv_count _ Hinv). pose proof (inv_item_capacity _ Hinv).
    unfold new_capacity, STARTING_CAPACITY.
    assert (cell_capacity o * 7 / 10 <
            Nat.max (cell_capacity o * 2) 16 * 7 / 10); [|lia].
    apply Nat.Div0.div_lt_upper_bound.
    pose proof (Nat.div_mod_eq (cell_capacity o * 7) 10).
    pose proof (Nat.mod_upper_bound (cell_capacity o * 7) 10).
    pose proof (Nat.div_mod_eq (Nat.max (cell_capacity o * 2) 16 * 7) 10).
    pose proof (Nat.mod_upper_bound (Nat.max (cell_capacity o * 2) 16 * 7) 10).
    lia. }
  destruct (json_object_rehash_loop_spec depth (names o) (values o)
              (json_object_init new_capacity))
    as (o' & -> & Hinv' & Hn' & Hv' & Hc' & Hcap' & Hic').
  - apply json_object_init_inv. right. apply new_capacity_pow2.
    apply (inv_capacity _ Hinv).
  - by rewrite (inv_names_len _ Hinv), (inv_values_len _ Hinv).
  - apply (inv_cstring _ Hinv).
  - simpl. apply (inv_nodup _ Hinv).
  - simpl. rewrite (inv_names_len _ Hinv). lia.
  - simpl in *. exists o'. split_and!; try done.
    + by rewrite (inv_names_len _ Hinv) in Hc'.
    + rewrite Hc', Hic', (inv_names_len _ Hinv). done.
    + by rewrite Hcap'.
Qed.

Lemma json_object_get_cell_ix_absent o key :
  table_inv o → cstring key → (key ∉ names o) →
  ∃ cell, json_object_get_cell_ix o key (strlen key)
            (hash_string key (strlen key)) = Some (cell, false) ∧
          (0 < cell_capacity o →
           ∃ c, cell = Ix c ∧ lookup_result o key (Ix c, false)).
Proof.
  intros Hinv Hkey Hnotin.
  destruct (Nat.eq_dec (cell_capacity o) 0) as [Hz|Hnz].
  - exists OBJECT_INVALID_IX. split; [|lia].
    by apply json_object_get_cell_ix_empty.
  - destruct (json_object_get_cell_ix_spec o key Hinv Hkey) as (r & Hget & Hr);
      [lia|].
    destruct (lookup_result_absent _ _ _ Hnotin Hr) as [c ->].
    exists (Ix c). split; [done|]. intros _. by exists c.
Qed.

Lemma json_object_get_cell_ix_present o key i :
  table_inv o → cstring key → names o !! i = Some key →
  ∃ c, json_object_get_cell_ix o key (strlen key)
         (hash_string key (strlen key)) = Some (Ix c, true) ∧
       cells o !! c = Some (Ix i).
Proof.
  intros Hinv Hkey Hi.
  assert (key ∈ names o) as Hin by (apply list_elem_of_lookup; by exists i).
  pose proof (inv_elem_capacity_pos _ _ Hinv Hin) as Hpos.
  destruct (json_object_get_cell_ix_spec o key Hinv Hkey Hpos) as (r & Hget & Hr).
  destruct (lookup_result_present _ _ _ Hin Hr) as [c ->].
  destruct Hr as (i' & Hc & Hi').
  assert (i' = i) as ->
    by (eapply NoDup_lookup; [apply (inv_nodup _ Hinv)|done..]).
  by exists c.
Qed.

(** [json_object_add] appends a new key and refuses a key of the table. *)
Lemma json_object_add_absent o key value :
  table_inv o → cstring key → (key ∉ names o) →
  ∃ o', json_object_add o key value = Some (JSONSuccess, o') ∧
        table_inv o' ∧
        names o' = names o ++ [key] ∧ values o' = values o ++ [value].
Proof.
  intros Hinv Hkey Hnotin.
  destruct (Nat.leb_spec (item_capacity o) (count o)) as [Hfull|Hroom].
  - destruct (json_object_get_cell_ix_absent o key) as (cell & Hget & _);
      [done..|].
    destruct (json_object_grow_and_rehash_with_spec 0 o Hinv)
      as (o1 & Hgrow & Hinv1 & Hn1 & Hv1 & Hc1 & Hroom1 & Hpos1).
    destruct (json_object_get_cell_ix_absent o1 key) as (cell1 & Hget1 & Hcell1);
      [done|done|by rewrite Hn1|].
    destruct (Hcell1 Hpos1) as (c & -> & Hr).
    destruct (json_object_store_spec o1 key value c Hinv1 Hkey Hr Hroom1)
      as (o' & Hstore & Hinv' & Hn' & Hv' & _).
    exists o'. split_and!; [|done|congruence..].
    unfold json_object_add. rewrite json_object_add_at_unfold. simpl.
    rewrite Hget. simpl.
    destruct (Nat.leb_spec (item_capacity o) (count o)); [|lia].
    rewrite Hgrow. simpl. rewrite Hget1. simpl. by rewrite Hstore.
  - destruct (json_object_add_at_room 1 o key value)
      as (o' & ? & ? & ? & ? & _); [done..|].
    by exists o'.
Qed.

Lemma json_object_add_present o key value :
  table_inv o → cstring key → key ∈ names o →
  json_object_add o key value = Some (JSONFailure, o).
Proof. apply json_object_add_at_present. Qed.

(** [json_object_set_value] replaces the value of a key of the table in
    place and appends a new key. *)
Lemma json_object_set_value_present o key value i :
  table_inv o → cstring key → names o !! i = Some key →
  ∃ o', json_object_set_value o key value = Some (JSONSuccess, o') ∧
        table_inv o' ∧
        names o' = names o ∧ values o' = <[i := value]> (values o).
Proof.
  intros Hinv Hkey Hi.
  destruct (json_object_get_cell_ix_present o key i) as (c & Hget & Hc);
    [done..|].
  assert (i < length (values o)) as Hlt.
  { rewrite (inv_values_len _ Hinv), <- (inv_names_len _ Hinv).
    by eapply lookup_lt_Some. }
  unfold json_object_set_value. rewrite Hget. simpl. rewrite Hc. simpl.
  destruct (Nat.ltb_spec i (length (values o))); [|lia].
  eexists. split; [done|]. split_and!; try done.
  destruct Hinv. split; simpl; try done.
  by rewrite length_insert.
Qed.

Lemma json_object_set_value_absent o key value :
  table_inv o → cstring key → (key ∉ names o) →
  ∃ o', json_object_set_value o key value = Some (JSONSuccess, o') ∧
        table_inv o' ∧
        names o' = names o ++ [key] ∧ values o' = values o ++ [value].
Proof.
  intros Hinv Hkey Hnotin.
  destruct (json_object_get_cell_ix_absent o key) as (cell & Hget & Hcell);
    [done..|].
  unfold json_object_set_value. rewrite Hget. simpl.
  rewrite parson_strdup_cstring by done.
  destruct (Nat.leb_spec (item_capacity o) (count o)) as [Hfull|Hroom].
  - destruct (json_object_grow_and_rehash_with_spec 0 o Hinv)
      as (o1 & Hgrow & Hinv1 & Hn1 & Hv1 & Hc1 & Hroom1 & Hpos1).
    destruct (json_object_get_cell_ix_absent o1 key) as (cell1 & Hget1 & Hcell1);
      [done|done|by rewrite Hn1|].
    destruct (Hcell1 Hpos1) as (c & -> & Hr).
    destruct (json_object_store_spec o1 key value c Hinv1 Hkey Hr Hroom1)
      as (o' & Hstore & Hinv' & Hn' & Hv' & _).
    exists o'. split_and!; [|done|congruence..].
    unfold json_object_grow_and_rehash. rewrite Hgrow. simpl.
    rewrite Hget1. simpl. by rewrite Hstore.
  - destruct Hcell as (c & -> & Hr).
    { apply inv_room_capacity_pos; [done|lia]. }
    destruct (json_object_store_spec o key value c Hinv Hkey Hr Hroom)
      as (o' & Hstore & Hinv' & Hn' & Hv' & _).
    exists o'. split_and!; [|done..]. by rewrite Hstore.
Qed.

(** [json_object_get_value] finds the value stored with a key of the table
    and returns NULL for any other key. *)
Lemma json_object_getn_item_present o key i :
  table_inv o → cstring key → names o !! i = Some key →
  json_object_getn_item o key (strlen key) = Some (Some i).
Proof.
  intros Hinv Hkey Hi.
  destruct (json_object_get_cell_ix_present o key i) as (c & Hget & Hc);
    [done..|].
  unfold json_object_getn_item. rewrite Hget. simpl. by rewrite Hc.
Qed.

Lemma json_object_getn_item_absent o key :
  table_inv o → cstring key → (key ∉ names o) →
  json_object_getn_item o key (strlen key) = Some None.
Proof.
  intros Hinv Hkey Hnotin.
  destruct (json_object_get_cell_ix_absent o key) as (cell & Hget & _);
    [done..|].
  unfold json_object_getn_item. by rewrite Hget.
Qed.

Lemma json_object_get_value_present o key i :
  table_inv o → cstring key → names o !! i = Some key →
  ∃ value, values o !! i = Some value ∧
           json_object_get_value o key = Some (Some value).
Proof.
  intros Hinv Hkey Hi.
  destruct (lookup_lt_is_Some_2 (values o) i) as [value Hv].
  { rewrite (inv_values_len _ Hinv), <- (inv_names_len _ Hinv).
    by eapply lookup_lt_Some. }
  exists value. split; [done|].
  unfold json_object_get_value, json_object_getn_value.
  rewrite (json_object_getn_item_present o key i) by done. simpl.
  by rewrite Hv.
Qed.

Lemma json_object_get_value_absent o key :
  table_inv o → cstring key → (key ∉ names o) →
  json_object_get_value o key = Some None.
Proof.
  intros Hinv Hkey Hnotin.
  unfold json_object_get_value, json_object_getn_value.
  by rewrite json_object_getn_item_absent.
Qed.

(** ** Removal *)

Lemma cyc_move cap k i t :
  k < cap → i < cap → 0 < t < cap → ¬ (0 < dist cap i k ≤ t) →
  dist cap k i ≤ dist cap k (probe cap i t).
Proof. intros. cyc. Qed.

Lemma probe_succ cap i t :
  i < cap → S t < cap → probe cap (probe cap i t) 1 = probe cap i (S t).
Proof. intros. cyc. Qed.

Lemma probe_0 cap i : i < cap → probe cap i 0 = i.
Proof. intros. cyc. Qed.

Lemma probe_ne cap i t : i < cap → 0 < t < cap → probe cap i t ≠ i.
Proof. intros. cyc. Qed.

Lemma probe_add cap i t d :
  i < cap → t + d < cap → probe cap (probe cap i t) d = probe cap i (t + d).
Proof. intros. cyc. Qed.

Lemma cyc_through cap k i c d0 :
  k < cap → i < cap → c < cap → d0 < dist cap k c → probe cap k d0 = i →
  dist cap k c = d0 + dist cap i c ∧
  ¬ (0 < dist cap i k ≤ dist cap i c).
Proof. intros. split; cyc. Qed.

Lemma cyc_shift cap k i d0 t :
  k < cap → i < cap → probe cap k d0 = i → d0 + t < cap →
  probe cap k (d0 + t) = probe cap i t.
Proof. intros. cyc. Qed.


(** The test of the backward shift: the entry in cell [j], [t] steps after
    the hole [i], moves unless its home lies after [i] and up to [j]. *)
Lemma shift_test cap i j k t :
  i < cap → k < cap → 0 < t < cap → j = probe cap i t →
  ((i <? j) && ((k <=? i) || (j <? k))) || ((j <? i) && ((k <=? i) && (j <? k)))
  = true ↔ ¬ (0 < dist cap i k ≤ t).
Proof.
  intros Hi Hk Ht ->. unfold probe, dist.
  destruct (Nat.ltb_spec (i + t) cap);
  repeat match goal with
    | |- context [?a <? ?b] => destruct (Nat.ltb_spec a b)
    | |- context [?a <=? ?b] => destruct (Nat.leb_spec a b)
    end; simpl;
    (split; [intros ?; done || lia|intros Hn; first [done|exfalso; apply Hn; lia]]).
Qed.

Lemma hole_inv_lt o hole : hole_inv o hole → hole < cell_capacity o.
Proof.
  intros Hinv. destruct (hinv_hole _ _ Hinv) as [m Hm].
  rewrite <- (hinv_cells_len _ _ Hinv). by eapply lookup_lt_Some.
Qed.

Lemma hole_inv_home_lt o hole h : hole_inv o hole → home o h < cell_capacity o.
Proof.
  intros Hinv. destruct (hinv_capacity _ _ Hinv) as [k Hk].
  unfold home. rewrite Hk. apply mask_lt.
Qed.

(** When the scan meets a free cell, no entry is reached through the hole,
    and the hole can be freed. *)
Lemma json_object_free_cell_inv o i t :
  hole_inv o i → S t < cell_capacity o →
  cells o !! probe (cell_capacity o) i (S t) = Some OBJECT_INVALID_IX →
  (∀ d, 0 < d ≤ t →
     ∃ m h, cells o !! probe (cell_capacity o) i d = Some (Ix m) ∧
            hashes o !! m = Some h ∧
            0 < dist (cell_capacity o) i (home o h) ≤ d) →
  table_inv (json_object_free_cell o i).
Proof.
  intros Hinv Ht Hfree Hsafe.
  pose proof (hole_inv_lt _ _ Hinv) as Hi.
  assert (∀ x, x ≠ i → occupied o x → occupied (json_object_free_cell o i) x) as Hocc.
  { intros x Hne [m Hm]. exists m. simpl. by rewrite list_lookup_insert_ne. }
  split; simpl.
  - right. apply (hinv_capacity _ _ Hinv).
  - apply (hinv_item_capacity _ _ Hinv).
  - apply (hinv_count _ _ Hinv).
  - rewrite length_insert. apply (hinv_cells_len _ _ Hinv).
  - apply (hinv_names_len _ _ Hinv).
  - apply (hinv_values_len _ _ Hinv).
  - apply (hinv_cell_ixs_len _ _ Hinv).
  - apply (hinv_hashes_len _ _ Hinv).
  - intros c m Hc. destruct (decide (c = i)) as [->|Hne].
    + rewrite list_lookup_insert_eq in Hc; [done|].
      by rewrite (hinv_cells_len _ _ Hinv).
    + rewrite list_lookup_insert_ne in Hc by done.
      by apply (hinv_bwd _ _ Hinv).
  - apply (hinv_hash _ _ Hinv).
  - apply (hinv_cstring _ _ Hinv).
  - apply (hinv_nodup _ _ Hinv).
  - intros m c h Hc Hh. simpl in *.
    destruct (hinv_reachable _ _ Hinv m c h Hc Hh) as (Hcell & Hne & Hpath).
    split; [by rewrite list_lookup_insert_ne|].
    unfold home. simpl. fold (home o h).
    pose proof (hole_inv_home_lt _ _ h Hinv) as Hk.
    assert (c < cell_capacity o) as Hclt.
    { rewrite <- (hinv_cells_len _ _ Hinv). by eapply lookup_lt_Some. }
    intros d0 Hd0. apply Hocc; [|by apply Hpath].
    intros Hthrough.
    (* the hole lies on the way from the home of [m] to its cell [c] *)
    pose proof (cyc_through (cell_capacity o) (home o h) i c d0 Hk Hi Hclt Hd0 Hthrough)
      as (Hsum & Hback).
    pose proof (probe_dist (cell_capacity o) i c Hi Hclt) as Hcdc.
    assert (0 < dist (cell_capacity o) i c) as Hdc by (clear -Hne Hi Hclt; cyc).
    destruct (le_lt_dec (dist (cell_capacity o) i c) t) as [Hle|Hgt].
    + destruct (Hsafe (dist (cell_capacity o) i c)) as (m' & h' & Hm' & Hh' & Hsafe'); [lia|].
      rewrite Hcdc in Hm'. assert (m' = m) as -> by congruence.
      assert (h' = h) as -> by congruence.
      apply Hback in Hsafe'. done.
    + destruct (decide (dist (cell_capacity o) i c = S t)) as [Heq|Hne'].
      * rewrite <- Heq, Hcdc in Hfree. congruence.
      * destruct (Hpath (d0 + S t)) as [m' Hm']; [lia|].
        pose proof (dist_lt (cell_capacity o) (home o h) c Hk Hclt).
        rewrite (cyc_shift (cell_capacity o) (home o h) i d0 (S t)) in Hm' by (done || lia).
        congruence.
Qed.

(** One move of the backward shift: the entry of cell [j] goes to the hole
    [i], and [j] becomes the hole. *)
Lemma shift_move_inv o i j m h t :
  hole_inv o i → j = probe (cell_capacity o) i t → 0 < t < cell_capacity o →
  cells o !! j = Some (Ix m) → hashes o !! m = Some h →
  ¬ (0 < dist (cell_capacity o) i (home o h) ≤ t) →
  hole_inv
    {| cells := <[i := Ix m]> (cells o);
       hashes := hashes o; names := names o; values := values o;
       cell_ixs := <[m := i]> (cell_ixs o);
       count := count o; item_capacity := item_capacity o;
       cell_capacity := cell_capacity o |} j.
Proof.
  intros Hinv Hj Ht Hcell Hh Htest.
  pose proof (hole_inv_lt _ _ Hinv) as Hi.
  pose proof (hole_inv_home_lt _ _ h Hinv) as Hk.
  assert (j ≠ i) as Hji by (subst j; by apply probe_ne).
  pose proof (hinv_bwd _ _ Hinv j m Hji Hcell) as Hm.
  assert (i < length (cells o)) as Hi' by by rewrite (hinv_cells_len _ _ Hinv).
  assert (m < length (cell_ixs o)) as Hm' by by eapply lookup_lt_Some.
  assert (∀ x, occupied o x → ∃ m', <[i:=Ix m]> (cells o) !! x = Some (Ix m'))
    as Hocc.
  { intros x [m' Hx]. destruct (decide (x = i)) as [->|].
    - exists m. by rewrite list_lookup_insert_eq.
    - exists m'. by rewrite list_lookup_insert_ne. }
  split; simpl.
  - apply (hinv_capacity _ _ Hinv).
  - apply (hinv_item_capacity _ _ Hinv).
  - apply (hinv_count _ _ Hinv).
  - rewrite length_insert. apply (hinv_cells_len _ _ Hinv).
  - apply (hinv_names_len _ _ Hinv).
  - apply (hinv_values_len _ _ Hinv).
  - rewrite length_insert. apply (hinv_cell_ixs_len _ _ Hinv).
  - apply (hinv_hashes_len _ _ Hinv).
  - unfold occupied. simpl. exists m. by rewrite list_lookup_insert_ne.
  - intros c m' Hc Hcm'. destruct (decide (c = i)) as [->|Hci].
    + rewrite list_lookup_insert_eq in Hcm' by done. injection Hcm' as <-.
      by rewrite list_lookup_insert_eq.
    + rewrite list_lookup_insert_ne in Hcm' by done.
      pose proof (hinv_bwd _ _ Hinv c m' Hci Hcm') as Hm''.
      rewrite list_lookup_insert_ne; [done|]. intros <-. congruence.
  - apply (hinv_hash _ _ Hinv).
  - apply (hinv_cstring _ _ Hinv).
  - apply (hinv_nodup _ _ Hinv).
  - intros m' c h' Hc Hh'. unfold home, occupied. simpl in *.
    fold (home o h').
    destruct (decide (m' = m)) as [->|Hmm].
    + rewrite list_lookup_insert_eq in Hc by done. injection Hc as <-.
      assert (h' = h) as -> by congruence.
      split_and!; [by rewrite list_lookup_insert_eq|done|].
      intros d Hd. apply Hocc.
      destruct (hinv_reachable _ _ Hinv m j h Hm Hh) as (_ & _ & Hpath).
      apply Hpath.
      pose proof (cyc_move (cell_capacity o) (home o h) i t Hk Hi Ht Htest).
      subst j. lia.
    + rewrite list_lookup_insert_ne in Hc by done.
      destruct (hinv_reachable _ _ Hinv m' c h' Hc Hh') as (Hcell' & Hci & Hpath).
      split_and!.
      * by rewrite list_lookup_insert_ne.
      * intros ->. congruence.
      * intros d Hd. apply Hocc. by apply Hpath.
Qed.

Lemma json_object_remove_shift_spec x : ∀ o i t te,
  hole_inv o i → t < te → te < cell_capacity o →
  cells o !! probe (cell_capacity o) i te = Some OBJECT_INVALID_IX →
  te - t ≤ x →
  (∀ d, 0 < d ≤ t →
     ∃ m h, cells o !! probe (cell_capacity o) i d = Some (Ix m) ∧
            hashes o !! m = Some h ∧
            0 < dist (cell_capacity o) i (home o h) ≤ d) →
  ∃ o' i',
    json_object_remove_shift o i (probe (cell_capacity o) i t) x = Some (o', i') ∧
    i' < length (cells o') ∧ table_inv (json_object_free_cell o' i') ∧
    names o' = names o ∧ values o' = values o.
Proof.
  induction x as [|x IH]; intros o i t te Hinv Ht Hte Hfree Hx Hsafe; [lia|].
  pose proof (hole_inv_lt _ _ Hinv) as Hi.
  destruct (hinv_capacity _ _ Hinv) as [k Hk].
  simpl.
  assert (mask (cell_capacity o)
            (Z.of_nat (probe (cell_capacity o) i t + 1))
          = probe (cell_capacity o) i (S t)) as ->.
  { rewrite <- probe_succ by lia. rewrite Hk. apply mask_probe.
    - rewrite <- Hk. apply probe_lt; lia.
    - pose proof (Nat.pow_nonzero 2 k). lia. }
  set (j := probe (cell_capacity o) i (S t)).
  assert (j < cell_capacity o) as Hj by (apply probe_lt; lia).
  destruct (lookup_lt_is_Some_2 (cells o) j) as [cell Hcell].
  { by rewrite (hinv_cells_len _ _ Hinv). }
  rewrite Hcell. simpl. destruct cell as [|m].
  - exists o, i. split_and!; try done.
    + by rewrite (hinv_cells_len _ _ Hinv).
    + apply (json_object_free_cell_inv o i t); try done. lia.
  - assert (S t ≠ te) as Hne by (intros <-; fold j in Hfree; congruence).
    assert (j ≠ i) as Hji by (apply probe_ne; lia).
    pose proof (hinv_bwd _ _ Hinv j m Hji Hcell) as Hm.
    destruct (lookup_lt_is_Some_2 (hashes o) m) as [h Hh].
    { rewrite (hinv_hashes_len _ _ Hinv), <- (hinv_cell_ixs_len _ _ Hinv).
      by eapply lookup_lt_Some. }
    rewrite Hh. simpl. fold (home o h).
    pose proof (hole_inv_home_lt _ _ h Hinv) as Hhome.
    pose proof (shift_test (cell_capacity o) i j (home o h) (S t)) as Htest.
    destruct (((i <? j) && ((home o h <=? i) || (j <? home o h)))
              || ((j <? i) && ((home o h <=? i) && (j <? home o h)))).
    + assert (¬ (0 < dist (cell_capacity o) i (home o h) ≤ S t)) as Hmove
        by (apply Htest; done || lia).
      assert (m < length (cell_ixs o)) as Hm' by by eapply lookup_lt_Some.
      destruct (Nat.ltb_spec m (length (cell_ixs o))); [|lia].
      destruct (Nat.ltb_spec i (length (cells o))) as [Hi'|Hi'];
        [|rewrite (hinv_cells_len _ _ Hinv) in Hi'; lia].
      simpl.
      pose proof (shift_move_inv o i j m h (S t) Hinv eq_refl
                    ltac:(lia) Hcell Hh Hmove) as Hinv1.
      edestruct (IH _ j 0 (te - S t) Hinv1) as (o' & i' & Hrun & Hres);
        simpl; try lia.
      * unfold j. rewrite probe_add by lia.
        replace (S t + (te - S t)) with te by lia.
        rewrite list_lookup_insert_ne; [done|].
        intros Heq. symmetry in Heq. revert Heq. apply probe_ne; lia.
      * simpl in Hrun. rewrite probe_0 in Hrun by done.
        exists o', i'. split; [done|]. simpl in Hres. done.
    + assert (0 < dist (cell_capacity o) i (home o h) ≤ S t) as Hstay.
      { destruct (decide (0 < dist (cell_capacity o) i (home o h) ≤ S t));
          [done|]. exfalso. assert (false = true); [|done].
        apply Htest; done || lia. }
      destruct (IH o i (S t) te Hinv) as (o' & i' & Hrun & Hres); try done; try lia.
      * intros d Hd. destruct (decide (d = S t)) as [->|].
        -- exists m, h. done.
        -- apply Hsafe. lia.
      * exists o', i'. done.
Qed.


Lemma swap_remove_lookup {A} (l : list A) i j :
  i < length l → j < length l - 1 →
  swap_remove i l !! j = if decide (j = i) then l !! (length l - 1) else l !! j.
Proof.
  intros Hi Hj. unfold swap_remove.
  destruct (lookup_lt_is_Some_2 l (length l - 1)) as [x Hx]; [lia|].
  rewrite Hx, lookup_take_lt by done.
  case_decide as Hji.
  - subst. by rewrite list_lookup_insert_eq.
  - by rewrite list_lookup_insert_ne.
Qed.

Lemma swap_remove_length {A} (l : list A) i :
  i < length l → length (swap_remove i l) = length l - 1.
Proof.
  intros Hi. unfold swap_remove.
  destruct (lookup_lt_is_Some_2 l (length l - 1)) as [x ->]; [lia|].
  rewrite length_take, length_insert. lia.
Qed.

Lemma swap_remove_NoDup {A} (l : list A) i :
  i < length l → NoDup l → NoDup (swap_remove i l).
Proof.
  intros Hi Hnd. apply NoDup_alt. intros a b x Ha Hb.
  assert (a < length l - 1 ∧ b < length l - 1) as [Hla Hlb].
  { apply lookup_lt_Some in Ha, Hb. rewrite swap_remove_length in Ha, Hb by done.
    done. }
  rewrite swap_remove_lookup in Ha, Hb by done.
  repeat case_decide; subst; try done.
  - pose proof (NoDup_lookup _ _ _ _ Hnd Ha Hb). lia.
  - pose proof (NoDup_lookup _ _ _ _ Hnd Ha Hb). lia.
  - by eapply NoDup_lookup.
Qed.

Lemma swap_remove_elem_of {A} (l : list A) i x y :
  l !! i = Some x → NoDup l → y ∈ swap_remove i l ↔ y ∈ l ∧ y ≠ x.
Proof.
  intros Hx Hnd. pose proof (lookup_lt_Some _ _ _ Hx) as Hi.
  rewrite !list_elem_of_lookup. split.
  - intros [j Hj].
    assert (j < length l - 1) as Hlj.
    { apply lookup_lt_Some in Hj. by rewrite swap_remove_length in Hj. }
    rewrite swap_remove_lookup in Hj by done. case_decide; subst.
    + split; [by eexists|]. intros ->.
      pose proof (NoDup_lookup _ _ _ _ Hnd Hx Hj). lia.
    + split; [by eexists|]. intros ->.
      pose proof (NoDup_lookup _ _ _ _ Hnd Hx Hj). lia.
  - intros [[j Hj] Hne].
    assert (j ≠ i) by (intros ->; congruence).
    pose proof (lookup_lt_Some _ _ _ Hj) as Hlj.
    destruct (decide (j = length l - 1)) as [->|].
    + exists i. rewrite swap_remove_lookup by lia. by rewrite decide_True.
    + exists j. rewrite swap_remove_lookup by lia. by rewrite decide_False.
Qed.

(** The first half of a removal leaves a table with a hole. *)
Lemma json_object_remove_entry_inv o i cell :
  table_inv o → cell_ixs o !! i = Some cell →
  ∃ o1,
    (if i <? count o - 1 then json_object_move_last o i (count o - 1)
     else Some o) = Some o1 ∧
    hole_inv (json_object_drop_last o1) cell ∧
    names (json_object_drop_last o1) = swap_remove i (names o) ∧
    values (json_object_drop_last o1) = swap_remove i (values o) ∧
    cell_capacity (json_object_drop_last o1) = cell_capacity o ∧
    ∀ e, cells o !! e = Some OBJECT_INVALID_IX →
         cells (json_object_drop_last o1) !! e = Some OBJECT_INVALID_IX.
Proof.
  intros Hinv Hcell.
  pose proof (inv_fwd _ _ _ Hinv Hcell) as Hcelli.
  pose proof (inv_item_lt _ _ _ Hinv Hcelli) as Hi.
  pose proof (inv_names_len _ Hinv) as Hln.
  pose proof (inv_values_len _ Hinv) as Hlv.
  pose proof (inv_cell_ixs_len _ Hinv) as Hlc.
  pose proof (inv_hashes_len _ Hinv) as Hlh.
  assert (∃ k, cell_capacity o = 2 ^ k) as Hcap.
  { destruct (inv_capacity _ Hinv) as [Hz|Hk]; [|done].
    pose proof (inv_capacity_pos _ Hinv). lia. }
  destruct (Nat.ltb_spec i (count o - 1)) as [Hlt|Hge].
  - (* the last entry moves to [i] *)
    destruct (lookup_lt_is_Some_2 (names o) (count o - 1)) as [ln Hn]; [lia|].
    destruct (lookup_lt_is_Some_2 (values o) (count o - 1)) as [lv Hv]; [lia|].
    destruct (lookup_lt_is_Some_2 (cell_ixs o) (count o - 1)) as [lc Hc]; [lia|].
    destruct (lookup_lt_is_Some_2 (hashes o) (count o - 1)) as [lh Hh]; [lia|].
    pose proof (inv_fwd _ _ _ Hinv Hc) as Hlast.
    assert (lc < length (cells o)) as Hlc' by by eapply lookup_lt_Some.
    assert (lc ≠ cell) as Hne by (intros ->; assert (i = count o - 1) by congruence; lia).
    unfold json_object_move_last. rewrite Hn, Hv, Hc, Hh. simpl.
    destruct (Nat.ltb_spec i (count o)); [|lia].
    destruct (Nat.ltb_spec lc (length (cells o))); [|lia]. simpl.
    eexists. split; [done|].
    unfold json_object_drop_last. simpl.
    assert (∀ x, occupied o x →
              ∃ m', <[lc:=Ix i]> (cells o) !! x = Some (Ix m')) as Hocc.
    { intros x [m' Hx]. destruct (decide (x = lc)) as [->|].
      - exists i. by rewrite list_lookup_insert_eq.
      - exists m'. by rewrite list_lookup_insert_ne. }
    split_and!.
    + split; simpl.
      * done.
      * apply (inv_item_capacity _ Hinv).
      * pose proof (inv_count _ Hinv). lia.
      * rewrite length_insert. apply (inv_cells_len _ Hinv).
      * rewrite length_take, length_insert. lia.
      * rewrite length_take, length_insert. lia.
      * rewrite length_take, length_insert. lia.
      * rewrite length_take, length_insert. lia.
      * exists i. simpl. by rewrite list_lookup_insert_ne.
      * intros c m Hcne Hcm.
        destruct (decide (c = lc)) as [->|Hclc].
        -- rewrite list_lookup_insert_eq in Hcm by done. injection Hcm as <-.
           rewrite lookup_take_lt by done. by rewrite list_lookup_insert_eq by lia.
        -- rewrite list_lookup_insert_ne in Hcm by done.
           pose proof (inv_bwd _ Hinv _ _ Hcm) as Hm.
           pose proof (lookup_lt_Some _ _ _ Hm).
           assert (m ≠ i) by (intros ->; congruence).
           assert (m ≠ count o - 1) by (intros ->; congruence).
           rewrite lookup_take_lt by lia. by rewrite list_lookup_insert_ne.
      * intros m nm Hm.
        pose proof (lookup_lt_Some _ _ _ Hm) as Hml.
        rewrite length_take, length_insert in Hml.
        rewrite lookup_take_lt in Hm by lia. rewrite lookup_take_lt by lia.
        destruct (decide (m = i)) as [->|].
        -- rewrite list_lookup_insert_eq in Hm by lia. injection Hm as <-.
           rewrite list_lookup_insert_eq by lia.
           pose proof (inv_hash _ Hinv _ _ Hn). congruence.
        -- rewrite list_lookup_insert_ne in Hm by done.
           rewrite list_lookup_insert_ne by done. by apply (inv_hash _ Hinv).
      * apply Forall_take, Forall_insert; [apply (inv_cstring _ Hinv)|].
        eapply Forall_lookup_1; [apply (inv_cstring _ Hinv)|done].
      * pose proof (swap_remove_NoDup (names o) i ltac:(lia) (inv_nodup _ Hinv))
          as Hnd.
        unfold swap_remove in Hnd. by rewrite Hln, Hn in Hnd.
      * intros m c h Hmc Hmh. unfold home, occupied. simpl in Hmc, Hmh |- *.
        fold (home o h).
        pose proof (lookup_lt_Some _ _ _ Hmc) as Hml.
        rewrite length_take, length_insert in Hml.
        rewrite lookup_take_lt in Hmc by lia.
        rewrite lookup_take_lt in Hmh by lia.
        destruct (decide (m = i)) as [->|].
        -- rewrite list_lookup_insert_eq in Hmc by lia.
           rewrite list_lookup_insert_eq in Hmh by lia.
           injection Hmc as <-. injection Hmh as <-.
           destruct (inv_reachable _ Hinv _ _ _ Hc Hh) as [_ Hpath].
           split_and!; [by rewrite list_lookup_insert_eq|done|].
           intros d Hd. apply Hocc. by apply Hpath.
        -- rewrite list_lookup_insert_ne in Hmc by done.
           rewrite list_lookup_insert_ne in Hmh by done.
           destruct (inv_reachable _ Hinv _ _ _ Hmc Hmh) as [Hcm Hpath].
           split_and!.
           ++ rewrite list_lookup_insert_ne; [done|]. intros <-.
              assert (m = count o - 1) by congruence. lia.
           ++ intros ->. congruence.
           ++ intros d Hd. apply Hocc. by apply Hpath.
    + unfold swap_remove. by rewrite Hln, Hn.
    + unfold swap_remove. by rewrite Hlv, Hv.
    + done.
    + intros e He. rewrite list_lookup_insert_ne; [done|]. intros <-. congruence.
  - (* the removed entry is the last one *)
    assert (i = count o - 1) as Hlast by lia.
    eexists. split; [done|]. unfold json_object_drop_last. simpl.
    split_and!.
    + split; simpl.
      * done.
      * apply (inv_item_capacity _ Hinv).
      * pose proof (inv_count _ Hinv). lia.
      * apply (inv_cells_len _ Hinv).
      * rewrite length_take. lia.
      * rewrite length_take. lia.
      * rewrite length_take. lia.
      * rewrite length_take. lia.
      * by exists i.
      * intros c m Hcne Hcm.
        pose proof (inv_bwd _ Hinv _ _ Hcm) as Hm.
        pose proof (lookup_lt_Some _ _ _ Hm).
        assert (m ≠ i) by (intros ->; congruence).
        by rewrite lookup_take_lt by lia.
      * intros m nm Hm. apply lookup_take_Some in Hm as [Hm Hml].
        rewrite lookup_take_lt by done. by apply (inv_hash _ Hinv).
      * apply Forall_take, (inv_cstring _ Hinv).
      * apply (sublist_NoDup _ (names o)); [apply (inv_nodup _ Hinv)|apply sublist_take].
      * intros m c h Hmc Hmh. unfold home, occupied. simpl in Hmc, Hmh |- *.
        fold (home o h).
        apply lookup_take_Some in Hmc as [Hmc Hml].
        apply lookup_take_Some in Hmh as [Hmh _].
        destruct (inv_reachable _ Hinv _ _ _ Hmc Hmh) as [Hcm Hpath].
        split_and!; [done| |done]. intros ->.
        assert (m = i) by congruence. lia.
    + unfold swap_remove.
      destruct (lookup_lt_is_Some_2 (names o) (length (names o) - 1)) as [x ->];
        [lia|].
      rewrite take_insert_ge by lia. by rewrite Hln.
    + unfold swap_remove.
      destruct (lookup_lt_is_Some_2 (values o) (length (values o) - 1)) as [x ->];
        [lia|].
      rewrite take_insert_ge by lia. by rewrite Hlv.
    + done.
    + done.
Qed.

Lemma inv_free_cell_exists o :
  table_inv o → 0 < cell_capacity o →
  ∃ e, cells o !! e = Some OBJECT_INVALID_IX.
Proof.
  intros Hinv Hpos.
  destruct (decide (Forall (λ cell, cell ≠ OBJECT_INVALID_IX) (cells o)))
    as [Hall|Hex].
  - destruct (inv_not_full o Hinv Hpos). intros c Hc.
    destruct (lookup_lt_is_Some_2 (cells o) c) as [cell Hcell].
    { by rewrite (inv_cells_len _ Hinv). }
    pose proof (Forall_lookup_1 _ _ _ _ Hall Hcell) as Hne.
    destruct cell as [|m]; [done|]. by exists m.
  - apply not_Forall_Exists in Hex; [|apply _].
    apply Exists_exists in Hex as (cell & Hin & Hcell).
    apply list_elem_of_lookup in Hin as [e He]. exists e.
    destruct cell; [done|]. by destruct Hcell.
Qed.

(** [json_object_remove_internal] removes a key of the table and fails on
    any other key. *)
Lemma json_object_remove_present o key i :
  table_inv o → cstring key → names o !! i = Some key →
  ∃ o', json_object_remove_internal o key = Some (JSONSuccess, o') ∧
        table_inv o' ∧
        names o' = swap_remove i (names o) ∧
        values o' = swap_remove i (values o).
Proof.
  intros Hinv Hkey Hi.
  destruct (json_object_get_cell_ix_present o key i) as (c & Hget & Hc);
    [done..|].
  pose proof (inv_bwd _ Hinv _ _ Hc) as Hci.
  destruct (json_object_remove_entry_inv o i c Hinv Hci)
    as (o1 & Hmove & Hinv1 & Hn1 & Hv1 & Hcap1 & Hfree1).
  assert (0 < cell_capacity o) as Hpos.
  { apply inv_capacity_pos; [done|]. pose proof (inv_item_lt _ _ _ Hinv Hc). lia. }
  destruct (inv_free_cell_exists o Hinv Hpos) as [e He].
  assert (e < cell_capacity o) as Helt.
  { rewrite <- (inv_cells_len _ Hinv). by eapply lookup_lt_Some. }
  assert (c < cell_capacity o) as Hclt by by eapply inv_cell_lt.
  assert (e ≠ c) as Hec by (intros ->; congruence).
  set (o2 := json_object_drop_last o1) in *.
  destruct (json_object_remove_shift_spec (cell_capacity o2 - 1) o2 c 0
              (dist (cell_capacity o2) c e) Hinv1)
    as (o3 & i' & Hshift & Hi' & Hinv3 & Hn3 & Hv3).
  - rewrite Hcap1. clear -Helt Hclt Hec. cyc.
  - rewrite Hcap1. by apply dist_lt.
  - rewrite Hcap1, probe_dist by done. by apply Hfree1.
  - rewrite Hcap1. pose proof (dist_lt (cell_capacity o) c e Hclt Helt). lia.
  - intros d Hd. lia.
  - rewrite probe_0 in Hshift by (by rewrite Hcap1).
    exists (json_object_free_cell o3 i'). split_and!.
    + unfold json_object_remove_internal. rewrite Hget. simpl.
      rewrite Hc. simpl. rewrite Hmove. simpl. fold o2.
      change (cell_capacity o1) with (cell_capacity o2). rewrite Hshift. simpl.
      by destruct (Nat.ltb_spec i' (length (cells o3))); [|lia].
    + done.
    + simpl. congruence.
    + simpl. congruence.
Qed.

Lemma json_object_remove_absent o key :
  table_inv o → cstring key → (key ∉ names o) →
  json_object_remove_internal o key = Some (JSONFailure, o).
Proof.
  intros Hinv Hkey Hnotin.
  destruct (json_object_get_cell_ix_absent o key) as (cell & Hget & _);
    [done..|].
  unfold json_object_remove_internal. by rewrite Hget.
Qed.

End TableInvariant.

(** ** Sequences of operations *)

Section TableOpsProofs.
Context {V : Type}.
Implicit Types (o : JSON_Object V) (m : gmap (list ascii) V).
Implicit Types (key name : list ascii) (ops : list (table_op V)).

Lemma represents_init : represents (json_object_init (V:=V) 0) ∅.
Proof.
  intros key value. rewrite lookup_empty. split; [done|].
  by intros (i & Hi & _).
Qed.

Lemma represents_elem_of o m key :
  table_inv o → represents o m → key ∈ names o ↔ is_Some (m !! key).
Proof.
  intros Hinv Hrep. split.
  - intros Hin. apply list_elem_of_lookup in Hin as [i Hi].
    destruct (lookup_lt_is_Some_2 (values o) i) as [value Hv].
    { rewrite (inv_values_len _ Hinv), <- (inv_names_len _ Hinv).
      by eapply lookup_lt_Some. }
    exists value. apply Hrep. by exists i.
  - intros [value Hm]. apply Hrep in Hm as (i & Hi & _).
    apply list_elem_of_lookup. by exists i.
Qed.

Lemma represents_replace o o' m key value i :
  table_inv o → represents o m → names o !! i = Some key →
  names o' = names o → values o' = <[i := value]> (values o) →
  represents o' (<[key := value]> m).
Proof.
  intros Hinv Hrep Hi Hn Hv key' value'. rewrite Hn, Hv.
  assert (i < length (values o)) as Hlt.
  { rewrite (inv_values_len _ Hinv), <- (inv_names_len _ Hinv).
    by eapply lookup_lt_Some. }
  destruct (decide (key' = key)) as [->|Hne].
  - rewrite lookup_insert_eq. split.
    + intros [= <-]. exists i. by rewrite list_lookup_insert_eq.
    + intros (j & Hj & Hvj).
      assert (j = i) as -> by (eapply NoDup_lookup; [apply (inv_nodup _ Hinv)|done..]).
      rewrite list_lookup_insert_eq in Hvj by done. congruence.
  - rewrite lookup_insert_ne by done. rewrite (Hrep key' value').
    split; intros (j & Hj & Hvj); exists j; split; try done.
    + rewrite list_lookup_insert_ne; [done|]. intros <-. congruence.
    + rewrite list_lookup_insert_ne in Hvj; [done|]. intros <-. congruence.
Qed.

Lemma represents_append o o' m key value :
  table_inv o → represents o m → (key ∉ names o) →
  names o' = names o ++ [key] → values o' = values o ++ [value] →
  represents o' (<[key := value]> m).
Proof.
  intros Hinv Hrep Hnotin Hn Hv key' value'. rewrite Hn, Hv.
  pose proof (inv_names_len _ Hinv) as Hln.
  pose proof (inv_values_len _ Hinv) as Hlv.
  destruct (decide (key' = key)) as [->|Hne].
  - rewrite lookup_insert_eq. split.
    + intros [= <-]. exists (length (names o)).
      rewrite list_lookup_middle by done.
      by rewrite list_lookup_middle by lia.
    + intros (j & Hj & Hvj).
      apply lookup_app_Some in Hj as [Hj|[Hlen Hj]].
      { destruct Hnotin. apply list_elem_of_lookup. by exists j. }
      apply list_lookup_singleton_Some in Hj as [Hj0 _].
      assert (j = length (values o)) as -> by lia.
      rewrite list_lookup_middle in Hvj by done. congruence.
  - rewrite lookup_insert_ne by done. rewrite (Hrep key' value').
    split; intros (j & Hj & Hvj).
    + exists j. split; by apply lookup_app_l_Some.
    + apply lookup_app_Some in Hj as [Hj|[Hlen Hj]].
      * exists j. split; [done|].
        apply lookup_app_Some in Hvj as [Hvj|[Hlen _]]; [done|].
        apply lookup_lt_Some in Hj. lia.
      * apply list_lookup_singleton_Some in Hj as [_ Hj]. congruence.
Qed.

Lemma represents_swap_remove o o' m key i :
  table_inv o → represents o m → names o !! i = Some key →
  names o' = swap_remove i (names o) → values o' = swap_remove i (values o) →
  represents o' (delete key m).
Proof.
  intros Hinv Hrep Hi Hn Hv key' value'. rewrite Hn, Hv.
  pose proof (inv_names_len _ Hinv) as Hln.
  pose proof (inv_values_len _ Hinv) as Hlv.
  pose proof (inv_nodup _ Hinv) as Hnd.
  pose proof (lookup_lt_Some _ _ _ Hi) as Hlt.
  assert (∀ j, swap_remove i (names o) !! j = Some key' →
               j < length (names o) - 1) as Hbound.
  { intros j Hj. apply lookup_lt_Some in Hj.
    by rewrite swap_remove_length in Hj. }
  destruct (decide (key' = key)) as [->|Hne].
  - rewrite lookup_delete_eq. split; [done|]. intros (j & Hj & _).
    assert (key ∈ swap_remove i (names o)) as Hin
      by (apply list_elem_of_lookup; by exists j).
    apply (swap_remove_elem_of _ _ _ _ Hi Hnd) in Hin as [_ ?]. done.
  - rewrite lookup_delete_ne by done. rewrite (Hrep key' value').
    split; intros (j & Hj & Hvj).
    + assert (j ≠ i) by (intros ->; congruence).
      pose proof (lookup_lt_Some _ _ _ Hj) as Hjl.
      destruct (decide (j = length (names o) - 1)) as [->|].
      * exists i. rewrite !swap_remove_lookup by lia.
        rewrite !decide_True by done. split; [done|]. by rewrite Hlv, <- Hln.
      * exists j. rewrite !swap_remove_lookup by lia.
        by rewrite !decide_False by done.
    + pose proof (Hbound _ Hj) as Hjl.
      rewrite swap_remove_lookup in Hj by lia.
      rewrite swap_remove_lookup in Hvj by lia.
      case_decide; subst.
      * exists (length (names o) - 1). split; [done|]. by rewrite Hln, <- Hlv.
      * by exists j.
Qed.

(** One operation on a table that represents [m] yields a table that
    represents [model_op m op]. *)
Lemma run_op_spec o m (op : table_op V) :
  table_inv o → represents o m → cstring (op_name op) →
  ∃ res o', run_op o op = Some (res, o') ∧ table_inv o' ∧
            represents o' (model_op m op).
Proof.
  intros Hinv Hrep Hcs.
  destruct op as [name value|name value|name];
    cbn [run_op op_name model_op] in *.
  - destruct (decide (name ∈ names o)) as [Hin|Hnotin].
    + apply list_elem_of_lookup in Hin as [i Hi].
      destruct (json_object_set_value_present o name value i)
        as (o' & Hrun & Hinv' & Hn & Hv); [done..|].
      exists JSONSuccess, o'. split_and!; [done..|].
      by apply (represents_replace o o' m name value i).
    + destruct (json_object_set_value_absent o name value)
        as (o' & Hrun & Hinv' & Hn & Hv); [done..|].
      exists JSONSuccess, o'. split_and!; [done..|].
      by apply (represents_append o o' m name value).
  - destruct (decide (name ∈ names o)) as [Hin|Hnotin].
    + rewrite json_object_add_present by done.
      exists JSONFailure, o. split_and!; [done..|].
      apply (represents_elem_of _ _ _ Hinv Hrep) in Hin as [value' ->]. done.
    + destruct (json_object_add_absent o name value)
        as (o' & Hrun & Hinv' & Hn & Hv); [done..|].
      exists JSONSuccess, o'. split_and!; [done..|].
      assert (m !! name = None) as ->.
      { apply eq_None_not_Some. intros Hsome. apply Hnotin.
        by apply (represents_elem_of _ _ _ Hinv Hrep). }
      by apply (represents_append o o' m name value).
  - destruct (decide (name ∈ names o)) as [Hin|Hnotin].
    + apply list_elem_of_lookup in Hin as [i Hi].
      destruct (json_object_remove_present o name i)
        as (o' & Hrun & Hinv' & Hn & Hv); [done..|].
      exists JSONSuccess, o'. split_and!; [done..|].
      by apply (represents_swap_remove o o' m name i).
    + unfold json_object_remove. rewrite json_object_remove_absent by done.
      exists JSONFailure, o. split_and!; [done..|].
      rewrite delete_id; [done|].
      apply eq_None_not_Some. intros Hsome. apply Hnotin.
      by apply (represents_elem_of _ _ _ Hinv Hrep).
Qed.

Lemma run_ops_spec ops : ∀ o m,
  table_inv o → represents o m → Forall (λ op, cstring (op_name op)) ops →
  ∃ o', run_ops ops o = Some o' ∧ table_inv o' ∧
        represents o' (foldl model_op m ops).
Proof.
  induction ops as [|op ops IH]; intros o m Hinv Hrep Hcs.
  - by exists o.
  - apply Forall_cons in Hcs as [Hc Hcs].
    destruct (run_op_spec o m op Hinv Hrep Hc) as (res & o1 & Hrun & Hinv1 & Hrep1).
    destruct (IH o1 _ Hinv1 Hrep1 Hcs) as (o' & Hrun' & Hres).
    exists o'. split; [|done]. simpl. by rewrite Hrun.
Qed.

(** Lookup on a table that represents [m] is lookup in [m]. *)
Lemma json_object_get_value_represents o m key :
  table_inv o → represents o m → cstring key →
  json_object_get_value o key = Some (m !! key).
Proof.
  intros Hinv Hrep Hcs.
  destruct (decide (key ∈ names o)) as [Hin|Hnotin].
  - apply list_elem_of_lookup in Hin as [i Hi].
    destruct (json_object_get_value_present o key i) as (value & Hv & ->);
      [done..|].
    f_equal. symmetry. apply Hrep. by exists i.
  - rewrite json_object_get_value_absent by done. f_equal. symmetry.
    apply eq_None_not_Some. intros Hsome. apply Hnotin.
    by apply (represents_elem_of _ _ _ Hinv Hrep).
Qed.

(** C2.  After any sequence of insertions and removals on an empty object,
    every remaining entry is reachable by linear probing from the home cell
    of its hash (all the cells from there to its own cell are occupied), and
    lookup returns the value of every key present and NULL for every key
    that was removed or never inserted. *)
Theorem table_invariant_after_mutation ops :
  Forall (λ op, cstring (op_name op)) ops →
  ∃ o, run_ops ops (json_object_init 0) = Some o ∧
       (∀ i, i < count o → reachable o i) ∧
       (count o < cell_capacity o ∨ cell_capacity o = 0) ∧
       ∀ key, cstring key →
         json_object_get_value o key = Some (model_ops ops !! key).
Proof.
  intros Hcs.
  destruct (run_ops_spec ops (json_object_init 0) ∅) as (o & Hrun & Hinv & Hrep).
  - apply json_object_init_inv. by left.
  - apply represents_init.
  - done.
  - exists o. split_and!; [done| | |].
    + intros i _. apply (inv_reachable _ Hinv).
    + destruct (Nat.eq_dec (cell_capacity o) 0); [by right|].
      left. apply inv_count_lt; [done|lia].
    + intros key Hkey. by apply json_object_get_value_represents.
Qed.

End TableOpsProofs.

Lemma table_invariant_after_mutation_witness :
  Forall (λ op, cstring (op_name op)) table_example_ops ∧
  ∃ o, run_ops table_example_ops (json_object_init 0) = Some o ∧
       (∀ i, i < count o → reachable o i) ∧
       (count o < cell_capacity o ∨ cell_capacity o = 0) ∧
       ∀ key, cstring key →
         json_object_get_value o key = Some (model_ops table_example_ops !! key).
Proof.
  assert (Forall (λ op, cstring (op_name op)) table_example_ops) as H.
  { repeat constructor; simpl; discriminate. }
  split; [exact H|]. exact (table_invariant_after_mutation table_example_ops H).
Defined.

(** * Properties of the values *)

Section ValueProofs.
Context `{FloatOps}.

(** Induction on a value tree, with the property at hand for the values
    stored in an object and for the items of an array. *)
Lemma JSON_Value_ind (P : JSON_Value → Prop) :
  (∀ chars, P (Value_String chars)) →
  (∀ number, P (Value_Number number)) →
  (∀ object, Forall P (values object) → P (Value_Object object)) →
  (∀ array, Forall P (items array) → P (Value_Array array)) →
  (∀ boolean, P (Value_Boolean boolean)) →
  P Value_Null →
  ∀ value, P value.
Proof.
  intros Hstring Hnumber Hobject Harray Hboolean Hnull.
  fix IH 1. intros [chars|number|object|array|boolean|].
  - apply Hstring.
  - apply Hnumber.
  - apply Hobject. destruct object as [? ? ? vals ? ? ? ?]. simpl.
    induction vals as [|value vals IHvals]; constructor; [apply IH|apply IHvals].
  - apply Harray. destruct array as [vals ?]. simpl.
    induction vals as [|value vals IHvals]; constructor; [apply IH|apply IHvals].
  - apply Hboolean.
  - apply Hnull.
Qed.

Lemma json_value_get_type_not_error (v : JSON_Value) :
  json_value_get_type (Some v) ≠ JSONError.
Proof. by destruct v. Qed.

(** C9.  Two NULL pointers are equal for [json_value_equals]: both have the
    type [JSONError], whose case returns true.  A NULL pointer and a value
    (whose type is never [JSONError]) are different, in either order. *)
Theorem json_value_equals_null_pointers :
  json_value_get_type None = JSONError ∧
  json_value_equals None None = Some true ∧
  ∀ v : JSON_Value,
    json_value_get_type (Some v) ≠ JSONError ∧
    json_value_equals None (Some v) = Some false ∧
    json_value_equals (Some v) None = Some false.
Proof.
  split_and!; [done..|]. intros v. split_and!.
  - apply json_value_get_type_not_error.
  - by destruct v.
  - by destruct v.
Qed.

Lemma built_boolean_normal b : built (Value_Boolean b) → b = 0%Z ∨ b = 1%Z.
Proof.
  inversion 1 as [v Hv|v Hv|s v _ Hv|s n v _ Hv|x v Hv|b' v Hv|v Hv| |];
    subst; try done.
  - unfold json_value_init_string, json_value_init_string_with_len in Hv.
    by destruct (is_valid_utf8 _ _).
  - unfold json_value_init_string_with_len in Hv.
    by destruct (is_valid_utf8 _ _).
  - unfold json_value_init_number in Hv. by destruct (IS_NUMBER_INVALID x).
  - injection Hv as <-. destruct (b' =? 0)%Z; auto.
Qed.

(** C10.  [json_value_init_boolean] stores 1 for a nonzero argument and 0
    for zero, so that [json_value_get_boolean] returns 0 or 1 on the value;
    it returns -1 on every value that is not a boolean, and on no boolean
    that the constructors built. *)
Theorem json_value_init_boolean_normalizes :
  (∀ b : Z, ∃ v,
     json_value_init_boolean b = Some v ∧
     json_value_get_type (Some v) = JSONBoolean ∧
     json_value_get_boolean (Some v) = (if (b =? 0)%Z then 0 else 1)%Z) ∧
  (∀ value : option JSON_Value,
     json_value_get_type value ≠ JSONBoolean →
     json_value_get_boolean value = (-1)%Z) ∧
  (∀ v : JSON_Value,
     built v → json_value_get_type (Some v) = JSONBoolean →
     json_value_get_boolean (Some v) = 0%Z ∨
     json_value_get_boolean (Some v) = 1%Z).
Proof.
  split_and!.
  - intros b. eexists. split_and!; done.
  - intros [[]|]; done.
  - intros v Hv Htype. destruct v; try done. simpl.
    by apply built_boolean_normal.
Qed.

End ValueProofs.

(** * Properties of the parser *)

Section ParserProofs.
Context `{FloatOps}.

Lemma nested_arrays_S n :
  nested_arrays (S n) = "[" :: nested_arrays n ++ ["]"].
Proof.
  unfold nested_arrays. simpl. f_equal. rewrite <- app_assoc. f_equal.
  induction n as [|n IH]; [done|]. simpl. by rewrite IH.
Qed.

Lemma parse_value_unfold depth s nesting :
  parse_value (S depth) s nesting =
  if MAX_NESTING <? nesting then Some None
  else
    let s := skip_whitespaces s in
    match peek s with
    | "{" => parse_object_value (parse_value depth) s (nesting + 1)
    | "[" => parse_array_value (parse_value depth) s (nesting + 1)
    | "034" => parse_string_value s
    | "f" | "t" => parse_boolean_value s
    | "-" | "0" | "1" | "2" | "3" | "4" | "5" | "6" | "7" | "8" | "9" =>
        parse_number_value s
    | "n" => parse_null_value s
    | _ => Some None
    end.
Proof. reflexivity. Qed.

(** [parse_value] returns NULL as soon as it is entered with a nesting
    above the ceiling. *)
Lemma parse_value_too_deep depth s nesting :
  MAX_NESTING < nesting → parse_value depth s nesting = Some None.
Proof.
  intros Hdeep. destruct depth; simpl;
    by destruct (Nat.ltb_spec MAX_NESTING nesting); [|lia].
Qed.

(** Brackets nested within the ceiling are read as nested arrays. *)
Lemma parse_nested_arrays k : ∀ depth nesting rest,
  nesting + k ≤ MAX_NESTING → MAX_NESTING < depth + nesting →
  parse_value depth (nested_arrays (S k) ++ rest) nesting
  = Some (Some (nested_arrays_value k, rest)).
Proof.
  induction k as [|k IH]; intros depth nesting rest Hfit Hdepth.
  - destruct depth as [|depth]; [lia|]. rewrite parse_value_unfold.
    destruct (Nat.ltb_spec MAX_NESTING nesting); [lia|]. done.
  - destruct depth as [|depth]; [lia|]. rewrite parse_value_unfold.
    destruct (Nat.ltb_spec MAX_NESTING nesting); [lia|].
    rewrite nested_arrays_S. cbn [app skip_whitespaces isspace peek hd].
    unfold parse_array_value. cbn [peek hd tl Ascii.eqb negb].
    set (inner := nested_arrays (S k) ++ ["]"] ++ rest).
    replace ((nested_arrays (S k) ++ ["]"]) ++ rest) with inner
      by (unfold inner; by rewrite <- app_assoc).
    assert (∃ tail, inner = "[" :: tail) as [tail Hinner].
    { unfold inner. rewrite nested_arrays_S. by eexists. }
    assert (skip_whitespaces inner = inner) as -> by by rewrite Hinner.
    assert (Ascii.eqb (peek inner) "]" = false) as -> by by rewrite Hinner.
    assert (parse_array_loop (parse_value depth) (length inner) inner
              (nesting + 1) {| items := []; capacity := 0 |}
            = Some (Some ({| items := [nested_arrays_value k]; capacity := 16 |},
                          "]" :: rest))) as ->.
    { rewrite Hinner at 1 2. cbn [length parse_array_loop peek hd Ascii.eqb].
      rewrite <- Hinner. unfold inner.
      rewrite (IH depth (nesting + 1) (["]"] ++ rest)) by lia. done. }
    done.
Qed.

(** Brackets nested beyond the ceiling make the parser fail. *)
Lemma parse_nested_arrays_too_deep k : ∀ depth nesting rest,
  MAX_NESTING < nesting + k → MAX_NESTING < depth + nesting →
  parse_value depth (nested_arrays (S k) ++ rest) nesting = Some None.
Proof.
  induction k as [|k IH]; intros depth nesting rest Hdeep Hdepth.
  - apply parse_value_too_deep. lia.
  - destruct (Nat.ltb_spec MAX_NESTING nesting) as [Hlt|Hle].
    { by apply parse_value_too_deep. }
    destruct depth as [|depth]; [lia|]. rewrite parse_value_unfold.
    destruct (Nat.ltb_spec MAX_NESTING nesting); [lia|].
    rewrite nested_arrays_S. cbn [app skip_whitespaces isspace peek hd].
    unfold parse_array_value. cbn [peek hd tl Ascii.eqb negb].
    set (inner := nested_arrays (S k) ++ ["]"] ++ rest).
    replace ((nested_arrays (S k) ++ ["]"]) ++ rest) with inner
      by (unfold inner; by rewrite <- app_assoc).
    assert (∃ tail, inner = "[" :: tail) as [tail Hinner].
    { unfold inner. rewrite nested_arrays_S. by eexists. }
    assert (skip_whitespaces inner = inner) as -> by by rewrite Hinner.
    assert (Ascii.eqb (peek inner) "]" = false) as -> by by rewrite Hinner.
    assert (parse_array_loop (parse_value depth) (length inner) inner
              (nesting + 1) {| items := []; capacity := 0 |}
            = Some None) as ->.
    { rewrite Hinner at 1 2. cbn [length parse_array_loop peek hd Ascii.eqb].
      rewrite <- Hinner. unfold inner.
      rewrite (IH depth (nesting + 1) (["]"] ++ rest)) by lia. done. }
    done.
Qed.

(** Without a byte order mark, [json_parse_string] is [parse_value] at
    nesting 0. *)
Lemma json_parse_string_no_bom s :
  peek s ≠ "239" →
  json_parse_string s =
  match parse_value (MAX_NESTING + 1) s 0 with
  | None => None
  | Some None => Some None
  | Some (Some (value, _)) => Some (Some value)
  end.
Proof.
  intros Hbom. unfold json_parse_string.
  replace (char_at s 0) with (peek s) by by destruct s.
  by destruct (Ascii.eqb_spec (peek s) "239").
Qed.

(** C6, as the code has it.  [n] nested brackets with their closing
    brackets are parsed when [n] is at most [MAX_NESTING + 1 = 2049] and make
    the parser fail when [n] is larger: the innermost array of 2049 is inside
    2048 arrays, and [parse_value] returns NULL exactly when it is entered
    with a nesting above 2048. *)
Theorem nesting_ceiling :
  (∀ n, 1 ≤ n ≤ MAX_NESTING + 1 →
     json_parse_string (nested_arrays n)
       = Some (Some (nested_arrays_value (n - 1)))) ∧
  (∀ n, MAX_NESTING + 1 < n → json_parse_string (nested_arrays n) = Some None) ∧
  (∀ depth s nesting,
     MAX_NESTING < nesting → parse_value depth s nesting = Some None).
Proof.
  split_and!.
  - intros n Hn. destruct n as [|k]; [lia|].
    rewrite json_parse_string_no_bom by by rewrite nested_arrays_S.
    pose proof (parse_nested_arrays k (MAX_NESTING + 1) 0 []) as Hparse.
    rewrite app_nil_r in Hparse. rewrite Hparse by lia.
    by replace (S k - 1) with k by lia.
  - intros n Hn. destruct n as [|k]; [lia|].
    rewrite json_parse_string_no_bom by by rewrite nested_arrays_S.
    pose proof (parse_nested_arrays_too_deep k (MAX_NESTING + 1) 0 []) as Hparse.
    rewrite app_nil_r in Hparse. by rewrite Hparse by lia.
  - apply parse_value_too_deep.
Qed.

End ParserProofs.

(** * Properties of the serializer *)

(** ** Writes in the block *)

Lemma store_length mem pos bytes mem' :
  store mem pos bytes = Some mem' → length mem' = length mem.
Proof.
  unfold store. destruct (Nat.leb_spec (pos + length bytes) (length mem)); [|done].
  intros [= <-]. rewrite !length_app, length_take, length_drop. lia.
Qed.

Lemma store_is_Some mem pos bytes :
  pos + length bytes ≤ length mem → is_Some (store mem pos bytes).
Proof.
  intros Hroom. unfold store.
  by destruct (Nat.leb_spec (pos + length bytes) (length mem)); [|lia].
Qed.

Lemma store_Some mem pos bytes mem' :
  store mem pos bytes = Some mem' ↔
  pos + length bytes ≤ length mem ∧
  mem' = take pos mem ++ bytes ++ drop (pos + length bytes) mem.
Proof.
  unfold store.
  destruct (Nat.leb_spec (pos + length bytes) (length mem)); split.
  - intros [= <-]. done.
  - intros [_ ->]. done.
  - done.
  - lia.
Qed.

Lemma store_None mem pos bytes :
  store mem pos bytes = None ↔ length mem < pos + length bytes.
Proof.
  unfold store.
  destruct (Nat.leb_spec (pos + length bytes) (length mem)); split;
    done || lia.
Qed.

(** A write over the end of an earlier one: the text [t] stays, [b]
    replaces [tail]. *)
Lemma store_store mem pos t tail b mem1 :
  store mem pos (t ++ tail) = Some mem1 → length tail ≤ length b →
  store mem1 (pos + length t) b = store mem pos (t ++ b).
Proof.
  intros Hstore Htail. pose proof (store_length _ _ _ _ Hstore) as Hlen.
  apply store_Some in Hstore as [Hroom Heq]. rewrite length_app in Hroom.
  destruct (store mem pos (t ++ b)) as [mem2|] eqn:Hstore2.
  - apply store_Some in Hstore2 as [Hroom2 ->]. rewrite length_app in Hroom2.
    apply store_Some. split; [lia|].
    set (P := take pos mem) in *.
    assert (length P = pos) as HP by (unfold P; rewrite length_take; lia).
    set (D := drop (pos + length (t ++ tail)) mem) in Heq.
    assert (take (pos + length t) mem1 = P ++ t) as ->.
    { rewrite Heq.
      replace (P ++ (t ++ tail) ++ D) with ((P ++ t) ++ (tail ++ D))
        by (by rewrite <- !app_assoc).
      apply take_app_length'. rewrite length_app. lia. }
    assert (drop (pos + length t + length b) mem1
            = drop (pos + length (t ++ b)) mem) as ->.
    { rewrite Heq.
      replace (P ++ (t ++ tail) ++ D) with ((P ++ t ++ tail) ++ D)
        by (by rewrite <- !app_assoc).
      rewrite drop_app_ge by (rewrite !length_app; lia).
      unfold D. rewrite drop_drop. f_equal. rewrite !length_app. lia. }
    by rewrite <- !app_assoc.
  - apply store_None in Hstore2. rewrite length_app in Hstore2.
    apply store_None. lia.
Qed.

Lemma store_more_None mem pos t tail b :
  store mem pos (t ++ tail) = None → length tail ≤ length b →
  store mem pos (t ++ b) = None.
Proof.
  rewrite !store_None, !length_app. lia.
Qed.

Lemma Forall_id_map_lookup {A} (P : A → Prop) (l : list A) i x :
  Forall id (map P l) → l !! i = Some x → P x.
Proof.
  intros Hall Hx. rewrite Forall_lookup in Hall. apply (Hall i (P x)).
  by rewrite list_lookup_fmap, Hx.
Qed.

(** ** Counts within [int] *)

Lemma int_add_Some a b : (a + b ≤ INT_MAX)%Z → int_add a b = Some (a + b)%Z.
Proof. intros Hle. unfold int_add. by destruct (Z.leb_spec (a + b) INT_MAX); [|lia]. Qed.

Lemma int_add_None a b : (INT_MAX < a + b)%Z → int_add a b = None.
Proof. intros Hlt. unfold int_add. by destruct (Z.leb_spec (a + b) INT_MAX); [lia|]. Qed.

Lemma int_add_0 b : (b ≤ INT_MAX)%Z → int_add 0 b = Some b.
Proof. intros Hle. by rewrite int_add_Some by lia. Qed.

Lemma int_add_assoc a b c : int_add (a + b) c = int_add a (b + c).
Proof. unfold int_add. by rewrite Z.add_assoc. Qed.

Lemma int_succ_Some level :
  (Z.of_nat level + 1 ≤ INT_MAX)%Z → int_succ level = Some (level + 1).
Proof.
  intros Hle. unfold int_succ.
  by destruct (Z.leb_spec (Z.of_nat level + 1) INT_MAX); [|lia].
Qed.

(** A count that passes [INT_MAX] passes it for good. *)
Lemma sink_overflow buf0 mem w0 t tail :
  (INT_MAX < w0 + Z.of_nat (length t))%Z → sink buf0 mem w0 t tail = None.
Proof. intros Hlt. unfold sink. by rewrite int_add_None. Qed.

Lemma sink_app buf0 mem w0 t u tail :
  sink buf0 mem w0 (t ++ u) tail
  = total ← int_add (w0 + Z.of_nat (length t)) (Z.of_nat (length u));
    match buf0 with
    | None => Some {| buf := None; written_total := total; block := mem |}
    | Some pos =>
        mem' ← store mem pos ((t ++ u) ++ tail);
        Some {| buf := Some (pos + length t + length u);
                written_total := total;
                block := mem' |}
    end.
Proof.
  unfold sink. rewrite length_app, Nat2Z.inj_add, int_add_assoc.
  destruct buf0 as [pos|]; [|done]. by rewrite Nat.add_assoc.
Qed.

(** ** The states of a serialization function *)

Lemma APPEND_STRING_init str buf0 w0 mem :
  APPEND_STRING str {| buf := buf0; written_total := w0; block := mem |}
  = sink buf0 mem w0 str [NUL].
Proof.
  unfold APPEND_STRING, sink. destruct buf0 as [pos|]; simpl; [|done].
  by destruct (store mem pos (str ++ [NUL])), (int_add w0 _).
Qed.

Lemma sink_bind_APPEND_STRING buf0 mem w0 t tail str :
  length tail ≤ 1 →
  sink buf0 mem w0 t tail ≫= APPEND_STRING str
  = sink buf0 mem w0 (t ++ str) [NUL].
Proof.
  intros Htail.
  destruct (Z.leb_spec (w0 + Z.of_nat (length t)) INT_MAX) as [Hle|Hgt].
  2:{ rewrite !sink_overflow; [done| |done]. rewrite length_app. lia. }
  rewrite sink_app. unfold sink. rewrite (int_add_Some _ _ Hle). simpl.
  destruct buf0 as [pos|]; simpl.
  - destruct (store mem pos (t ++ tail)) as [mem1|] eqn:Hstore; simpl.
    + unfold APPEND_STRING. simpl.
      rewrite (store_store mem pos t tail (str ++ [NUL]) mem1 Hstore)
        by (rewrite length_app; simpl; lia).
      rewrite <- app_assoc.
      by destruct (store mem pos (t ++ str ++ [NUL])), (int_add _ _).
    + rewrite <- app_assoc.
      rewrite (store_more_None mem pos t tail (str ++ [NUL]) Hstore)
        by (rewrite length_app; simpl; lia).
      by destruct (int_add _ _).
  - unfold APPEND_STRING. simpl. by destruct (int_add _ _).
Qed.

Lemma indent_text_S level :
  indent_text (S level) = PARSON_INDENT_STR ++ indent_text level.
Proof. done. Qed.

Lemma sink_bind_APPEND_INDENT buf0 mem w0 t level :
  sink buf0 mem w0 t [NUL] ≫= APPEND_INDENT level
  = sink buf0 mem w0 (t ++ indent_text level) [NUL].
Proof.
  revert t. induction level as [|level IH]; intros t.
  - unfold indent_text. simpl. rewrite app_nil_r.
    by destruct (sink buf0 mem w0 t [NUL]).
  - transitivity ((sink buf0 mem w0 t [NUL] ≫= APPEND_STRING PARSON_INDENT_STR)
                    ≫= APPEND_INDENT level).
    { by destruct (sink buf0 mem w0 t [NUL]). }
    rewrite sink_bind_APPEND_STRING by (simpl; lia). rewrite IH.
    by rewrite indent_text_S, <- !app_assoc.
Qed.

(** The default case of the switch of [json_serialize_string]. *)
Lemma sink_bind_char buf0 mem w0 t tail c :
  length tail ≤ 1 →
  sink buf0 mem w0 t tail ≫=
    (λ st,
       match buf st with
       | Some b =>
           block' ← store (block st) b [c];
           total ← int_add (written_total st) 1;
           Some {| buf := Some (b + 1);
                   written_total := total;
                   block := block' |}
       | None =>
           total ← int_add (written_total st) 1;
           Some {| buf := None;
                   written_total := total;
                   block := block st |}
       end)
  = sink buf0 mem w0 (t ++ [c]) [].
Proof.
  intros Htail.
  destruct (Z.leb_spec (w0 + Z.of_nat (length t)) INT_MAX) as [Hle|Hgt].
  2:{ rewrite !sink_overflow; [done| |done]. rewrite length_app. lia. }
  rewrite sink_app. unfold sink. rewrite (int_add_Some _ _ Hle). simpl.
  destruct buf0 as [pos|]; simpl.
  - destruct (store mem pos (t ++ tail)) as [mem1|] eqn:Hstore; simpl.
    + rewrite (store_store mem pos t tail [c] mem1 Hstore) by (simpl; lia).
      rewrite app_nil_r.
      by destruct (store mem pos (t ++ [c])), (int_add _ _).
    + rewrite app_nil_r.
      rewrite (store_more_None mem pos t tail [c] Hstore) by (simpl; lia).
      by destruct (int_add _ _).
  - by destruct (int_add _ _).
Qed.

Lemma bind_assoc_option {A B C} (m : option A) (f : A → option B)
    (k : B → option C) :
  (m ≫= f) ≫= k = m ≫= (λ x, f x ≫= k).
Proof. by destruct m. Qed.

Lemma sink_APPEND_STRING {B} buf0 mem w0 t tail str (k : ser_state → option B) :
  length tail ≤ 1 →
  sink buf0 mem w0 t tail ≫= (λ st, APPEND_STRING str st ≫= k)
  = sink buf0 mem w0 (t ++ str) [NUL] ≫= k.
Proof.
  intros Htail. by rewrite <- bind_assoc_option, sink_bind_APPEND_STRING.
Qed.

Lemma sink_APPEND_STRING_if {B} buf0 mem w0 t (b : bool) str
    (k : ser_state → option B) :
  sink buf0 mem w0 t [NUL] ≫=
    (λ st, (if b then APPEND_STRING str st else Some st) ≫= k)
  = sink buf0 mem w0 (t ++ (if b then str else [])) [NUL] ≫= k.
Proof.
  destruct b.
  - apply sink_APPEND_STRING. simpl. lia.
  - by rewrite app_nil_r.
Qed.

Lemma sink_APPEND_INDENT_if {B} buf0 mem w0 t (b : bool) level
    (k : ser_state → option B) :
  sink buf0 mem w0 t [NUL] ≫=
    (λ st, (if b then APPEND_INDENT level st else Some st) ≫= k)
  = sink buf0 mem w0 (t ++ (if b then indent_text level else [])) [NUL] ≫= k.
Proof.
  destruct b.
  - by rewrite <- bind_assoc_option, sink_bind_APPEND_INDENT.
  - by rewrite app_nil_r.
Qed.

(** A call that writes [text] at the pointer of the state, and the update
    of the pointer and of the total that follows it.  The pointer of the
    call is NULL only when the function was entered with NULL. *)
Lemma sink_call {B} buf0 mem w0 t text
    (call : option nat → list ascii → option (Z * list ascii))
    (F : Z → list ascii → ser_state → option B) (K : ser_state → option B) :
  (0 ≤ w0)%Z →
  (∀ b m, (b = None → buf0 = None) → call b m = ser_result b m text) →
  sink buf0 mem w0 t [NUL] ≫=
    (λ st, call (buf st) (block st) ≫=
       (λ '(written, mem'),
          if (written <? 0)%Z then F written mem' st
          else advance written mem' st ≫= K))
  = sink buf0 mem w0 (t ++ text) [NUL] ≫= K.
Proof.
  intros Hw0 Hcall.
  destruct (Z.leb_spec (w0 + Z.of_nat (length t)) INT_MAX) as [Hle|Hgt].
  2:{ rewrite !sink_overflow; [done| |done]. rewrite length_app. lia. }
  rewrite sink_app. unfold sink. rewrite (int_add_Some _ _ Hle). simpl.
  destruct buf0 as [pos|]; simpl.
  - destruct (store mem pos (t ++ [NUL])) as [mem1|] eqn:Hstore; simpl.
    + rewrite Hcall by done. unfold ser_result.
      destruct (Z.leb_spec (Z.of_nat (length text)) INT_MAX) as [Hle'|Hgt'].
      2:{ rewrite !int_add_None by lia. done. }
      rewrite int_add_0 by lia. simpl.
      rewrite (store_store mem pos t [NUL] (text ++ [NUL]) mem1 Hstore)
        by (rewrite length_app; simpl; lia).
      rewrite <- !app_assoc.
      destruct (store mem pos (t ++ text ++ [NUL])); simpl.
      2:{ by destruct (int_add _ _). }
      destruct (Z.ltb_spec (Z.of_nat (length text)) 0); [lia|].
      unfold advance. simpl. rewrite Nat2Z.id.
      by destruct (int_add _ _).
    + rewrite <- !app_assoc.
      rewrite (store_more_None mem pos t [NUL] (text ++ [NUL]) Hstore)
        by (rewrite length_app; simpl; lia).
      by destruct (int_add _ _).
  - rewrite Hcall by done. unfold ser_result.
    destruct (Z.leb_spec (Z.of_nat (length text)) INT_MAX) as [Hle'|Hgt'].
    2:{ rewrite !int_add_None by lia. done. }
    rewrite int_add_0 by lia. simpl.
    destruct (Z.ltb_spec (Z.of_nat (length text)) 0); [lia|].
    unfold advance. simpl. by destruct (int_add _ _).
Qed.

Lemma sink_result buf0 mem text :
  sink buf0 mem 0 text [NUL] ≫= (λ st, Some (written_total st, block st))
  = ser_result buf0 mem text.
Proof.
  unfold sink, ser_result. destruct (int_add 0 _); simpl; [|done].
  destruct buf0 as [pos|]; simpl; [|done].
  by destruct (store mem pos (text ++ [NUL])).
Qed.

(** The result of a function whose text fits. *)
Lemma ser_result_None_fits mem (text : list ascii) :
  (Z.of_nat (length text) ≤ INT_MAX)%Z →
  ser_result None mem text = Some (Z.of_nat (length text), mem).
Proof. intros Hle. unfold ser_result. by rewrite int_add_0 by lia. Qed.

Section SerializerProofs.
Context `{FloatOps}.

(** ** Strings *)

Lemma json_serialize_string_loop_spec parser s n :
  ∀ i buf0 mem w0 t tail,
    length tail ≤ 1 → i + n ≤ length s →
    ∃ tail', length tail' ≤ 1 ∧
      sink buf0 mem w0 t tail ≫= json_serialize_string_loop parser s i n
      = sink buf0 mem w0
          (t ++ concat (map (escaped_char parser) (take n (drop i s)))) tail'.
Proof.
  induction n as [|n IH]; intros i buf0 mem w0 t tail Htail Hlen.
  - exists tail. split; [done|]. simpl. rewrite app_nil_r.
    by destruct (sink buf0 mem w0 t tail).
  - assert (is_Some (s !! i)) as [c Hc] by (apply lookup_lt_is_Some; lia).
    rewrite (drop_S _ _ _ Hc). simpl.
    assert (char_at s i = c) as ->.
    { unfold char_at. by apply nth_lookup_Some with (d := NUL) in Hc. }
    unfold escaped_char at 1.
    destruct (escape_sequence parser c) as [str|] eqn:Hesc.
    + rewrite sink_APPEND_STRING by done.
      destruct (IH (S i) buf0 mem w0 (t ++ str) [NUL]) as (tail' & ? & Heq);
        [simpl; lia|lia|].
      exists tail'. split; [done|]. rewrite app_assoc. exact Heq.
    + rewrite <- bind_assoc_option, (sink_bind_char _ _ _ _ _ c Htail).
      destruct (IH (S i) buf0 mem w0 (t ++ [c]) []) as (tail' & ? & Heq);
        [simpl; lia|lia|].
      exists tail'. split; [done|].
      rewrite (app_assoc t [c]). exact Heq.
Qed.

Lemma json_serialize_string_spec parser s len buf0 mem :
  len ≤ length s →
  json_serialize_string parser s len buf0 mem
  = ser_result buf0 mem (string_text parser (take len s)).
Proof.
  intros Hlen. unfold json_serialize_string.
  rewrite APPEND_STRING_init.
  rewrite <- bind_assoc_option.
  destruct (json_serialize_string_loop_spec parser s len 0 buf0 mem 0
              [QUOTE] [NUL]) as (tail' & Htail' & ->); [simpl; lia|lia|].
  rewrite sink_APPEND_STRING by done.
  rewrite sink_result. unfold string_text. rewrite drop_0.
  by rewrite <- app_assoc.
Qed.

(** ** Containers *)

Lemma all_texts_length texts ts :
  all_texts texts = Some ts → length ts = length texts.
Proof.
  revert ts. induction texts as [|text texts IH]; intros ts; simpl.
  - by intros [= <-].
  - destruct text as [text|]; [|done]. simpl.
    destruct (all_texts texts) as [ts'|]; [|done]. simpl.
    intros [= <-]. simpl. f_equal. by apply IH.
Qed.

Lemma all_texts_lookup texts ts i :
  all_texts texts = Some ts → texts !! i = Some <$> ts !! i.
Proof.
  revert ts i. induction texts as [|text texts IH]; intros ts i; simpl.
  - by intros [= <-].
  - destruct text as [text|]; [|done]. simpl.
    destruct (all_texts texts) as [ts'|] eqn:Hts; [|done]. simpl.
    intros [= <-]. destruct i as [|i]; [done|]. simpl. by apply IH.
Qed.

(** The length of a container and of the texts in it. *)
Lemma concat_lookup_length {A} (l : list (list A)) i x :
  l !! i = Some x → length x ≤ length (concat l).
Proof.
  revert i. induction l as [|y l IH]; intros i Hi; [done|].
  simpl. rewrite length_app. destruct i as [|i].
  - injection Hi as ->. lia.
  - specialize (IH i Hi). lia.
Qed.

Lemma container_text_length open close pretty level elements :
  length (container_text open close pretty level elements)
  = 1 + length (if (0 <? length elements) && pretty then ["010"] else [])
    + length (concat (imap (element_text pretty level (length elements))
                        elements))
    + length (if (0 <? length elements) && pretty then indent_text level
              else [])
    + 1.
Proof. unfold container_text. rewrite !length_app. simpl. lia. Qed.

Lemma elements_length_ge pretty level count (elements : list (list ascii))
    i e :
  elements !! i = Some e →
  length e
  ≤ length (concat (imap (element_text pretty level count) elements)).
Proof.
  intros He.
  etrans; [|apply (concat_lookup_length _ i
                     (element_text pretty level count i e))].
  - unfold element_text. rewrite !length_app. lia.
  - by rewrite list_lookup_imap, He.
Qed.

Lemma container_text_length_ge open close pretty level elements i e :
  elements !! i = Some e →
  length e + 2 ≤ length (container_text open close pretty level elements).
Proof.
  intros He. rewrite container_text_length.
  pose proof (elements_length_ge pretty level (length elements) _ i e He).
  lia.
Qed.

Lemma entry_text_length parser pretty key text :
  length text ≤ length (entry_text parser pretty key text).
Proof. unfold entry_text. rewrite !length_app. lia. Qed.

Lemma serialize_child_spec (calls : list ser_call) count i call text level
    pretty (buf0 : option nat) :
  i < count → calls !! i = Some call →
  (∀ b m, (b = None → buf0 = None) →
     call b level pretty m = ser_result b m text) →
  ∀ b m, (b = None → buf0 = None) →
    serialize_child calls count i b level pretty m = ser_result b m text.
Proof.
  intros Hi Hcall Hspec b m Hb. unfold serialize_child.
  destruct (Nat.leb_spec count i); [lia|]. rewrite Hcall. by apply Hspec.
Qed.

Lemma serialize_array_loop_spec (calls : list ser_call) texts level pretty
    buf0 mem w0 :
  (0 ≤ w0)%Z → (Z.of_nat level + 1 ≤ INT_MAX)%Z →
  length calls = length texts →
  (∀ i call text, calls !! i = Some call → texts !! i = Some text →
     ∀ b m, (b = None → buf0 = None) →
       call b (level + 1) pretty m = ser_result b m text) →
  ∀ n i t, i + n = length texts →
    sink buf0 mem w0 t [NUL] ≫=
      serialize_array_loop calls (length texts) i n level pretty
    = sink buf0 mem w0
        (t ++ concat (drop i (imap (element_text pretty level (length texts))
                                texts))) [NUL]
      ≫= (λ st, Some (JSONSuccess, st)).
Proof.
  intros Hw0 Hlevel Hlen Hcalls. induction n as [|n IH]; intros i t Hi.
  - rewrite drop_ge by (rewrite length_imap; lia). simpl.
    by rewrite app_nil_r.
  - assert (is_Some (texts !! i)) as [text Htext]
      by (apply lookup_lt_is_Some; lia).
    assert (is_Some (calls !! i)) as [call Hcall]
      by (apply lookup_lt_is_Some; lia).
    rewrite (drop_S _ (element_text pretty level (length texts) i text))
      by (by rewrite list_lookup_imap, Htext).
    cbn [serialize_array_loop]. rewrite (int_succ_Some level Hlevel).
    cbn [mbind option_bind].
    rewrite sink_APPEND_INDENT_if.
    etrans.
    { apply (sink_call _ _ _ _ text
               (λ b m, serialize_child calls (length texts) i b (level + 1)
                         pretty m)
               (λ _ m st, Some (JSONFailure, with_block m st))
               (λ st : ser_state,
                  (if i <? length texts - 1 then APPEND_STRING [","] st
                   else Some st) ≫= λ st : ser_state,
                  (if pretty then APPEND_STRING ["010"] st else Some st)
                  ≫= serialize_array_loop calls (length texts) (S i) n
                       level pretty)); [done|].
      apply (serialize_child_spec _ _ _ call); [lia|done|].
      by apply (Hcalls i). }
    rewrite sink_APPEND_STRING_if, sink_APPEND_STRING_if.
    rewrite IH by lia. unfold element_text. simpl.
    by rewrite <- !app_assoc.
Qed.

Lemma serialize_object_loop_spec parser (calls : list ser_call)
    (o : JSON_Object JSON_Value) texts level pretty buf0 mem w0 :
  (0 ≤ w0)%Z → (Z.of_nat level + 1 ≤ INT_MAX)%Z →
  count o = length texts → length (names o) = length texts →
  Forall cstring (names o) → length calls = length texts →
  (∀ i call text, calls !! i = Some call → texts !! i = Some text →
     ∀ b m, (b = None → buf0 = None) →
       call b (level + 1) pretty m = ser_result b m text) →
  ∀ n i t, i + n = length texts →
    sink buf0 mem w0 t [NUL] ≫=
      serialize_object_loop parser calls o (length texts) i n level pretty
    = sink buf0 mem w0
        (t ++ concat (drop i (imap (element_text pretty level (length texts))
                                (zip_with (entry_text parser pretty)
                                   (names o) texts)))) [NUL]
      ≫= (λ st, Some (JSONSuccess, st)).
Proof.
  intros Hw0 Hlevel Hcount Hnames Hcstr Hlen Hcalls.
  induction n as [|n IH]; intros i t Hi.
  - rewrite drop_ge by (rewrite length_imap, length_zip_with; lia). simpl.
    by rewrite app_nil_r.
  - assert (is_Some (texts !! i)) as [text Htext]
      by (apply lookup_lt_is_Some; lia).
    assert (is_Some (calls !! i)) as [call Hcall]
      by (apply lookup_lt_is_Some; lia).
    assert (is_Some (names o !! i)) as [key Hkey]
      by (apply lookup_lt_is_Some; lia).
    assert (cstring key) as Hkey_cstr.
    { rewrite Forall_lookup in Hcstr. by apply (Hcstr i). }
    rewrite (drop_S _ (element_text pretty level (length texts) i
                         (entry_text parser pretty key text))).
    2:{ rewrite list_lookup_imap, lookup_zip_with, Hkey. simpl.
        by rewrite Htext. }
    cbn [serialize_object_loop].
    assert (json_object_get_name o i = Some key) as ->.
    { unfold json_object_get_name.
      destruct (Nat.leb_spec (count o) i); [lia|done]. }
    rewrite (int_succ_Some level Hlevel). cbn [mbind option_bind].
    rewrite sink_APPEND_INDENT_if.
    etrans.
    { apply (sink_call _ _ _ _ (string_text parser key)
               (λ b m, json_serialize_string parser key (strlen key) b m)
               (λ _ m st, Some (JSONFailure, with_block m st))
               (λ st : ser_state,
                  APPEND_STRING [":"] st ≫= λ st : ser_state,
                  (if pretty then APPEND_STRING [" "] st else Some st)
                  ≫= λ st : ser_state,
                  serialize_child calls (length texts) i (buf st) (level + 1)
                    pretty (block st)
                  ≫= λ '(written, mem'),
                  if (written <? 0)%Z
                  then Some (JSONFailure, with_block mem' st)
                  else
                    advance written mem' st ≫= λ st : ser_state,
                    (if i <? length texts - 1
                     then APPEND_STRING [","] st
                     else Some st)
                    ≫= λ st : ser_state,
                    (if pretty then APPEND_STRING ["010"] st else Some st)
                    ≫= serialize_object_loop parser calls o (length texts)
                         (S i) n level pretty)); [done|].
      intros b m _. rewrite json_serialize_string_spec
        by (rewrite strlen_cstring by done; lia).
      by rewrite strlen_cstring, firstn_all by done. }
    rewrite sink_APPEND_STRING by (simpl; lia).
    rewrite sink_APPEND_STRING_if.
    etrans.
    { apply (sink_call _ _ _ _ text
               (λ b m, serialize_child calls (length texts) i b (level + 1)
                         pretty m)
               (λ _ m st, Some (JSONFailure, with_block m st))
               (λ st : ser_state,
                  (if i <? length texts - 1 then APPEND_STRING [","] st
                   else Some st) ≫= λ st : ser_state,
                  (if pretty then APPEND_STRING ["010"] st else Some st)
                  ≫= serialize_object_loop parser calls o (length texts)
                       (S i) n level pretty)); [done|].
      apply (serialize_child_spec _ _ _ call); [lia|done|].
      by apply (Hcalls i). }
    rewrite sink_APPEND_STRING_if, sink_APPEND_STRING_if.
    rewrite IH by lia. unfold element_text, entry_text. cbn [concat].
    rewrite <- !app_assoc. reflexivity.
Qed.

Lemma serialize_close_spec close count level pretty buf0 mem t :
  (sink buf0 mem 0 t [NUL] ≫= (λ st, Some (JSONSuccess, st)))
    ≫= serialize_close close count level pretty
  = ser_result buf0 mem
      (t ++ (if (0 <? count) && pretty then indent_text level else [])
         ++ close).
Proof.
  rewrite bind_assoc_option. simpl.
  rewrite sink_APPEND_INDENT_if, sink_APPEND_STRING by (simpl; lia).
  by rewrite sink_result, <- app_assoc.
Qed.

(** ** The serialization function writes the text of the value *)

(** The text of a child, and the room that the text of its container
    leaves for it. *)
Lemma child_text_fits parser pretty (children : list JSON_Value) texts level
    open close (wrap : list (list ascii) → list (list ascii)) i v text :
  all_texts (map (λ x, value_text parser pretty x (level + 1)) children)
  = Some texts →
  (∀ j t, texts !! j = Some t → ∃ e, wrap texts !! j = Some e ∧
                                     length t ≤ length e) →
  (Z.of_nat level
   + Z.of_nat (length (container_text open close pretty level (wrap texts)))
   ≤ INT_MAX)%Z →
  children !! i = Some v → texts !! i = Some text →
  value_text parser pretty v (level + 1) = Some text ∧
  (Z.of_nat (level + 1) + Z.of_nat (length text) ≤ INT_MAX)%Z.
Proof.
  intros Htexts Hwrap Hfit Hv Htext. split.
  - apply (all_texts_lookup _ _ i) in Htexts.
    rewrite list_lookup_fmap, Hv, Htext in Htexts. simpl in Htexts.
    by injection Htexts.
  - destruct (Hwrap i text Htext) as (e & He & Hle).
    pose proof (container_text_length_ge open close pretty level _ i e He).
    lia.
Qed.

Lemma json_serialize_to_buffer_r_spec parser pretty value :
  value_wf value → numbers_fit parser value →
  ∀ level text buf0 num_buf mem,
    (buf0 = None → num_buf = Some PARSON_NUM_BUF_SIZE) →
    value_text parser pretty value level = Some text →
    (Z.of_nat level + Z.of_nat (length text) ≤ INT_MAX)%Z →
    json_serialize_to_buffer_r parser value buf0 level pretty num_buf mem
    = ser_result buf0 mem text.
Proof.
  induction value as [chars|number|object IH|array IH|boolean|]
    using JSON_Value_ind;
    intros Hwf Hnum level text buf0 num_buf mem Hbuf Htext Hfit.
  - simpl in *. injection Htext as <-.
    rewrite json_serialize_string_spec by done. by rewrite firstn_all.
  - simpl in *. rewrite Htext in *. unfold ser_result, write_number.
    destruct buf0 as [pos|].
    + by destruct (store mem pos (text ++ [NUL])), (int_add 0 _).
    + rewrite Hbuf by done.
      destruct (Nat.leb_spec (length text + 1) PARSON_NUM_BUF_SIZE); [|lia].
      simpl. by destruct (int_add 0 _).
  - simpl in Htext, Hwf, Hnum. destruct Hwf as [Hinv Hwf].
    destruct (all_texts _) as [texts|] eqn:Htexts; [|done].
    simpl in Htext. injection Htext as <-.
    pose proof (all_texts_length _ _ Htexts) as Hlen.
    rewrite length_map in Hlen.
    cbn [json_serialize_to_buffer_r]. unfold json_object_get_count.
    assert (count object = length texts) as Hcount
      by (rewrite Hlen; symmetry; apply Hinv).
    rewrite Hcount.
    pose proof (container_text_length "{" "}" pretty level
                  (zip_with (entry_text parser pretty) (names object) texts))
      as Hclen.
    rewrite APPEND_STRING_init, sink_APPEND_STRING_if.
    rewrite <- bind_assoc_option.
    rewrite (serialize_object_loop_spec parser _ object texts level pretty);
      [|done|lia|done|rewrite <- Hcount; apply Hinv|apply Hinv
       |by rewrite length_map|..|done].
    + rewrite serialize_close_spec. unfold container_text.
      assert (length (zip_with (entry_text parser pretty) (names object) texts)
              = length texts) as ->.
      { rewrite length_zip_with. pose proof (inv_names_len _ Hinv). lia. }
      rewrite drop_0. simpl. by rewrite <- !app_assoc.
    + intros i call text Hcall Htext b m Hb.
      rewrite list_lookup_fmap in Hcall.
      destruct (values object !! i) as [v|] eqn:Hv; [|done].
      simpl in Hcall. injection Hcall as <-.
      destruct (child_text_fits parser pretty (values object) texts level
                  "{" "}" (zip_with (entry_text parser pretty) (names object))
                  i v text) as [Hvtext Hvfit]; try done.
      { intros j t Ht.
        destruct (lookup_lt_is_Some_2 (names object) j) as [key Hkey].
        { apply lookup_lt_Some in Ht. pose proof (inv_names_len _ Hinv). lia. }
        exists (entry_text parser pretty key t). split.
        - by rewrite lookup_zip_with, Hkey; simpl; rewrite Ht.
        - apply entry_text_length. }
      rewrite Forall_lookup in IH. apply (IH i v Hv); try done.
      * by apply (Forall_id_map_lookup value_wf (values object) i).
      * by apply (Forall_id_map_lookup (numbers_fit parser) (values object) i).
      * intros ->. by apply Hbuf, Hb.
  - simpl in Htext, Hwf, Hnum.
    destruct (all_texts _) as [texts|] eqn:Htexts; [|done].
    simpl in Htext. injection Htext as <-.
    pose proof (all_texts_length _ _ Htexts) as Hlen.
    rewrite length_map in Hlen.
    cbn [json_serialize_to_buffer_r]. unfold json_array_get_count.
    rewrite <- Hlen.
    pose proof (container_text_length "[" "]" pretty level texts) as Hclen.
    rewrite APPEND_STRING_init, sink_APPEND_STRING_if.
    rewrite <- bind_assoc_option.
    rewrite (serialize_array_loop_spec _ texts level pretty);
      [|done|lia|by rewrite length_map|..|done].
    + rewrite serialize_close_spec. unfold container_text.
      rewrite drop_0. simpl. by rewrite <- !app_assoc.
    + intros i call text Hcall Htext b m Hb.
      rewrite list_lookup_fmap in Hcall.
      destruct (items array !! i) as [v|] eqn:Hv; [|done].
      simpl in Hcall. injection Hcall as <-.
      destruct (child_text_fits parser pretty (items array) texts level
                  "[" "]" id i v text) as [Hvtext Hvfit]; try done.
      { intros j t Ht. exists t. by split. }
      rewrite Forall_lookup in IH. apply (IH i v Hv); try done.
      * by apply (Forall_id_map_lookup value_wf (items array) i).
      * by apply (Forall_id_map_lookup (numbers_fit parser) (items array) i).
      * intros ->. by apply Hbuf, Hb.
  - simpl in *. injection Htext as <-.
    destruct (boolean =? 0)%Z; simpl negb; cbv iota;
      by rewrite APPEND_STRING_init, sink_result.
  - simpl in *. injection Htext as <-.
    by rewrite APPEND_STRING_init, sink_result.
Qed.

(** ** The layout of a value *)

Lemma value_text_layout parser pretty value :
  ∀ level text,
    value_text parser pretty value level = Some text →
    value_layout parser pretty value level = text.
Proof.
  induction value as [chars|number|object IH|array IH|boolean|]
    using JSON_Value_ind; intros level text Htext; simpl in *.
  - by injection Htext.
  - by rewrite Htext.
  - destruct (all_texts _) as [texts|] eqn:Htexts; [|done].
    injection Htext as <-. f_equal. f_equal.
    apply list_eq. intros i. rewrite list_lookup_fmap.
    apply (all_texts_lookup _ _ i) in Htexts.
    rewrite list_lookup_fmap in Htexts.
    destruct (values object !! i) as [v|] eqn:Hv; simpl in *.
    + destruct (texts !! i) as [t|]; [|done]. injection Htexts as Ht.
      f_equal. rewrite Forall_lookup in IH. by apply (IH i v Hv).
    + by destruct (texts !! i).
  - destruct (all_texts _) as [texts|] eqn:Htexts; [|done].
    injection Htext as <-. f_equal.
    apply list_eq. intros i. rewrite list_lookup_fmap.
    apply (all_texts_lookup _ _ i) in Htexts.
    rewrite list_lookup_fmap in Htexts.
    destruct (items array !! i) as [v|] eqn:Hv; simpl in *.
    + destruct (texts !! i) as [t|]; [|done]. injection Htexts as Ht.
      f_equal. rewrite Forall_lookup in IH. by apply (IH i v Hv).
    + by destruct (texts !! i).
  - by injection Htext.
  - by injection Htext.
Qed.

(** ** A number that cannot be written *)

Lemma measuring_APPEND_STRING mem bound str st
    (k : ser_state → option (JSON_Status * ser_state)) :
  measuring mem bound st →
  (bound + Z.of_nat (length str) ≤ INT_MAX)%Z →
  (∀ st', measuring mem (bound + Z.of_nat (length str)) st' →
          loop_fails mem (k st')) →
  loop_fails mem (APPEND_STRING str st ≫= k).
Proof.
  intros (Hbuf & Hblock & Hw) Hfit Hk. unfold APPEND_STRING. rewrite Hbuf.
  rewrite int_add_Some by lia. simpl.
  apply Hk. split_and!; simpl; [done|done|lia].
Qed.

Lemma measuring_APPEND_STRING_if mem bound (b : bool) str st
    (k : ser_state → option (JSON_Status * ser_state)) :
  measuring mem bound st →
  (bound + Z.of_nat (length (if b then str else [])) ≤ INT_MAX)%Z →
  (∀ st', measuring mem (bound + Z.of_nat (length (if b then str else []))) st' →
          loop_fails mem (k st')) →
  loop_fails mem ((if b then APPEND_STRING str st else Some st) ≫= k).
Proof.
  intros Hst Hfit Hk. destruct b; [by apply (measuring_APPEND_STRING mem bound)|].
  apply Hk. destruct Hst as (? & ? & ?). split_and!; simpl; [done|done|lia].
Qed.

Lemma measuring_APPEND_INDENT mem level : ∀ bound st,
  measuring mem bound st →
  (bound + Z.of_nat (length (indent_text level)) ≤ INT_MAX)%Z →
  ∃ st', APPEND_INDENT level st = Some st' ∧
         measuring mem (bound + Z.of_nat (length (indent_text level))) st'.
Proof.
  induction level as [|level IH]; intros bound st Hst Hfit.
  - exists st. split; [done|]. destruct Hst as (? & ? & ?).
    split_and!; simpl; [done|done|lia].
  - rewrite indent_text_S, length_app in *.
    destruct Hst as (Hbuf & Hblock & Hw).
    simpl. unfold APPEND_STRING. rewrite Hbuf.
    rewrite int_add_Some by lia. simpl.
    destruct (IH (bound + Z.of_nat (length PARSON_INDENT_STR))%Z
                {| buf := None;
                   written_total :=
                     written_total st + Z.of_nat (length PARSON_INDENT_STR);
                   block := block st |}) as (st' & Hst' & Hm).
    + split_and!; simpl; [done|done|lia].
    + lia.
    + exists st'. split; [done|]. destruct Hm as (? & ? & ?).
      split_and!; [done|done|simpl length in *; lia].
Qed.

Lemma measuring_APPEND_INDENT_if mem bound (b : bool) level st
    (k : ser_state → option (JSON_Status * ser_state)) :
  measuring mem bound st →
  (bound + Z.of_nat (length (if b then indent_text level else [])) ≤ INT_MAX)%Z →
  (∀ st', measuring mem
            (bound + Z.of_nat (length (if b then indent_text level else [])))
            st' →
          loop_fails mem (k st')) →
  loop_fails mem ((if b then APPEND_INDENT level st else Some st) ≫= k).
Proof.
  intros Hst Hfit Hk. destruct b.
  - destruct (measuring_APPEND_INDENT mem level bound st Hst Hfit)
      as (st' & -> & Hst').
    by apply Hk.
  - apply Hk. destruct Hst as (? & ? & ?). split_and!; simpl; [done|done|lia].
Qed.

Lemma measuring_advance mem bound (text : list ascii) st
    (k : ser_state → option (JSON_Status * ser_state)) :
  measuring mem bound st →
  (bound + Z.of_nat (length text) ≤ INT_MAX)%Z →
  (∀ st', measuring mem (bound + Z.of_nat (length text)) st' →
          loop_fails mem (k st')) →
  loop_fails mem (advance (Z.of_nat (length text)) mem st ≫= k).
Proof.
  intros (Hbuf & Hblock & Hw) Hfit Hk. unfold advance.
  rewrite int_add_Some by lia. simpl.
  apply Hk. split_and!; simpl; [by rewrite Hbuf|done|lia].
Qed.

Lemma all_texts_None texts :
  all_texts texts = None → ∃ j, texts !! j = Some None.
Proof.
  induction texts as [|text texts IH]; [done|]. simpl.
  destruct text as [text|]; [|by exists 0]. simpl.
  destruct (all_texts texts); [done|]. intros _.
  destruct IH as [j Hj]; [done|]. by exists (S j).
Qed.

Lemma serialize_child_measures (calls : list ser_call) count i call text
    level pretty :
  i < count → calls !! i = Some call →
  measures call level pretty text →
  measures (serialize_child calls count i) level pretty text.
Proof.
  intros Hi Hcall Hm m. unfold serialize_child.
  destruct (Nat.leb_spec count i); [lia|].
  unfold ser_call in *. rewrite Hcall. apply Hm.
Qed.

Lemma serialize_array_loop_fails (calls : list ser_call)
    (texts : list (option (list ascii))) (layouts : list (list ascii))
    level pretty mem :
  length calls = length texts → length layouts = length texts →
  (Z.of_nat level + 1 ≤ INT_MAX)%Z →
  (∀ i t, texts !! i = Some (Some t) → layouts !! i = Some t) →
  (∀ i call text, calls !! i = Some call → texts !! i = Some text →
     measures call (level + 1) pretty text) →
  ∀ n i st j bound, i + n = length texts → measuring mem bound st →
    (bound
     + Z.of_nat (length (concat (drop i (imap (element_text pretty level
                                                 (length texts)) layouts))))
     ≤ INT_MAX)%Z →
    i ≤ j → texts !! j = Some None →
    loop_fails mem
      (serialize_array_loop calls (length texts) i n level pretty st).
Proof.
  intros Hlen Hlay Hlevel Hlayouts Hcalls.
  induction n as [|n IH]; intros i st j bound Hi Hst Hfit Hj Hnone.
  - apply lookup_lt_Some in Hnone. lia.
  - assert (is_Some (texts !! i)) as [text Htext]
      by (apply lookup_lt_is_Some; lia).
    assert (is_Some (calls !! i)) as [call Hcall]
      by (apply lookup_lt_is_Some; lia).
    assert (is_Some (layouts !! i)) as [layout Hlayout]
      by (apply lookup_lt_is_Some; lia).
    pose proof (serialize_child_measures calls (length texts) i call text
                  (level + 1) pretty ltac:(lia) Hcall
                  (Hcalls i call text Hcall Htext)) as Hchild.
    unfold measures in Hchild.
    rewrite (drop_S _ (element_text pretty level (length texts) i layout))
      in Hfit by (by rewrite list_lookup_imap, Hlayout).
    cbn [concat] in Hfit. unfold element_text at 1 in Hfit.
    rewrite !length_app in Hfit.
    cbn [serialize_array_loop]. rewrite (int_succ_Some level Hlevel).
    cbn [mbind option_bind].
    apply (measuring_APPEND_INDENT_if mem bound); [done|lia|].
    intros st1 Hst1. pose proof Hst1 as (Hbuf1 & Hblock1 & _).
    rewrite Hbuf1, Hchild. cbn [mbind option_bind].
    destruct text as [text|]; cbn [from_option].
    + assert (layout = text) as ->.
      { specialize (Hlayouts i text Htext). congruence. }
      destruct (Z.ltb_spec (Z.of_nat (length text)) 0); [lia|].
      rewrite Hblock1.
      apply (measuring_advance mem _ text st1 _ Hst1); [lia|].
      intros st2 Hst2.
      apply (measuring_APPEND_STRING_if mem _ _ _ _ _ Hst2); [lia|].
      intros st3 Hst3.
      apply (measuring_APPEND_STRING_if mem _ _ _ _ _ Hst3); [lia|].
      intros st4 Hst4.
      apply (IH (S i) st4 j _ ltac:(lia) Hst4); [lia| |done].
      destruct (decide (i = j)) as [->|]; [congruence|lia].
    + eexists. split; [done|]. simpl. done.
Qed.

Lemma json_serialize_string_measures parser key m :
  cstring key →
  json_serialize_string parser key (strlen key) None m
  = ser_result None m (string_text parser key).
Proof.
  intros Hkey. rewrite json_serialize_string_spec
    by (rewrite strlen_cstring by done; lia).
  by rewrite strlen_cstring, firstn_all by done.
Qed.

Lemma serialize_object_loop_fails parser (calls : list ser_call)
    (o : JSON_Object JSON_Value) (texts : list (option (list ascii)))
    (layouts : list (list ascii)) level pretty mem :
  count o = length texts → length (names o) = length texts →
  Forall cstring (names o) → length calls = length texts →
  length layouts = length texts →
  (Z.of_nat level + 1 ≤ INT_MAX)%Z →
  (∀ i t, texts !! i = Some (Some t) → layouts !! i = Some t) →
  (∀ i call text, calls !! i = Some call → texts !! i = Some text →
     measures call (level + 1) pretty text) →
  ∀ n i st j bound, i + n = length texts → measuring mem bound st →
    (0 ≤ bound)%Z →
    (bound
     + Z.of_nat (length (concat (drop i (imap (element_text pretty level
                                                 (length texts))
                                           (zip_with (entry_text parser pretty)
                                              (names o) layouts)))))
     ≤ INT_MAX)%Z →
    i ≤ j → texts !! j = Some None →
    loop_fails mem
      (serialize_object_loop parser calls o (length texts) i n level pretty st).
Proof.
  intros Hcount Hnames Hcstr Hlen Hlay Hlevel Hlayouts Hcalls.
  induction n as [|n IH]; intros i st j bound Hi Hst Hpos Hfit Hj Hnone.
  - apply lookup_lt_Some in Hnone. lia.
  - assert (is_Some (texts !! i)) as [text Htext]
      by (apply lookup_lt_is_Some; lia).
    assert (is_Some (calls !! i)) as [call Hcall]
      by (apply lookup_lt_is_Some; lia).
    assert (is_Some (names o !! i)) as [key Hkey]
      by (apply lookup_lt_is_Some; lia).
    assert (is_Some (layouts !! i)) as [layout Hlayout]
      by (apply lookup_lt_is_Some; lia).
    assert (cstring key) as Hkey_cstr.
    { rewrite Forall_lookup in Hcstr. by apply (Hcstr i). }
    pose proof (serialize_child_measures calls (length texts) i call text
                  (level + 1) pretty ltac:(lia) Hcall
                  (Hcalls i call text Hcall Htext)) as Hchild.
    unfold measures in Hchild.
    rewrite (drop_S _ (element_text pretty level (length texts) i
                         (entry_text parser pretty key layout))) in Hfit.
    2:{ rewrite list_lookup_imap, lookup_zip_with, Hkey. simpl.
        by rewrite Hlayout. }
    cbn [concat] in Hfit. unfold element_text at 1 in Hfit.
    unfold entry_text at 1 in Hfit.
    rewrite !length_app in Hfit.
    cbn [serialize_object_loop].
    assert (json_object_get_name o i = Some key) as ->.
    { unfold json_object_get_name.
      destruct (Nat.leb_spec (count o) i); [lia|done]. }
    rewrite (int_succ_Some level Hlevel). cbn [mbind option_bind].
    apply (measuring_APPEND_INDENT_if mem bound); [done|lia|].
    intros st1 Hst1. pose proof Hst1 as (Hbuf1 & Hblock1 & _).
    rewrite Hbuf1, json_serialize_string_measures by done.
    rewrite ser_result_None_fits by lia. cbn [mbind option_bind].
    destruct (Z.ltb_spec (Z.of_nat (length (string_text parser key))) 0);
      [lia|].
    rewrite Hblock1.
    apply (measuring_advance mem _ _ st1 _ Hst1); [lia|].
    intros st2 Hst2.
    apply (measuring_APPEND_STRING mem _ _ _ _ Hst2); [simpl length in *; lia|].
    intros st3 Hst3.
    apply (measuring_APPEND_STRING_if mem _ _ _ _ _ Hst3);
      [simpl length in *; lia|].
    intros st4 Hst4. pose proof Hst4 as (Hbuf4 & Hblock4 & _).
    rewrite Hbuf4, Hchild. cbn [mbind option_bind].
    destruct text as [text|]; cbn [from_option].
    + assert (layout = text) as ->.
      { specialize (Hlayouts i text Htext). congruence. }
      destruct (Z.ltb_spec (Z.of_nat (length text)) 0); [lia|].
      rewrite Hblock4.
      apply (measuring_advance mem _ text st4 _ Hst4);
        [simpl length in *; lia|].
      intros st5 Hst5.
      apply (measuring_APPEND_STRING_if mem _ _ _ _ _ Hst5);
        [simpl length in *; lia|].
      intros st6 Hst6.
      apply (measuring_APPEND_STRING_if mem _ _ _ _ _ Hst6);
        [simpl length in *; lia|].
      intros st7 Hst7.
      apply (IH (S i) st7 j _ ltac:(lia) Hst7); [lia|simpl length in *; lia| |done].
      destruct (decide (i = j)) as [->|]; [congruence|lia].
    + eexists. split; [done|]. simpl. done.
Qed.

(** The texts and the layouts of the children of a container. *)
Lemma children_layouts parser pretty (children : list JSON_Value) level :
  ∀ i t,
    map (λ x, value_text parser pretty x (level + 1)) children !! i
    = Some (Some t) →
    map (λ x, value_layout parser pretty x (level + 1)) children !! i
    = Some t.
Proof.
  intros i t. rewrite !list_lookup_fmap.
  destruct (children !! i) as [v|]; [|done]. simpl.
  intros [= Ht]. by rewrite (value_text_layout _ _ _ _ _ Ht).
Qed.

Lemma json_serialize_to_buffer_r_measures parser pretty value :
  value_wf value → numbers_fit parser value →
  ∀ level, counts_fit parser pretty value level →
    measures
      (λ buf level is_pretty mem,
         json_serialize_to_buffer_r parser value buf level is_pretty
           (Some PARSON_NUM_BUF_SIZE) mem)
      level pretty (value_text parser pretty value level).
Proof.
  induction value as [chars|number|object IH|array IH|boolean|]
    using JSON_Value_ind; intros Hwf Hnum level Hfit;
    (destruct (value_text parser pretty _ level) as [text|] eqn:Htext;
     [intros m;
      rewrite (json_serialize_to_buffer_r_spec _ _ _ Hwf Hnum _ text);
      [apply ser_result_None_fits|done|done|];
      unfold counts_fit in Hfit;
      rewrite (value_text_layout _ _ _ _ _ Htext) in Hfit; lia|]);
    try done; intros m.
  - simpl in *. by rewrite Htext.
  - simpl in Htext, Hwf, Hnum. destruct Hwf as [Hinv Hwf].
    destruct (all_texts _) as [texts0|] eqn:Htexts; [done|]. clear Htext.
    apply all_texts_None in Htexts as [j Hj].
    unfold counts_fit in Hfit. cbn [value_layout] in Hfit.
    set (texts := map (λ x, value_text parser pretty x (level + 1))
                    (values object)) in *.
    set (layouts := map (λ x, value_layout parser pretty x (level + 1))
                      (values object)) in *.
    assert (length texts = count object) as Hlen.
    { unfold texts. rewrite length_map. apply Hinv. }
    assert (length layouts = length texts) as Hlay.
    { unfold layouts, texts. by rewrite !length_map. }
    assert (length (zip_with (entry_text parser pretty) (names object) layouts)
            = length texts) as Hzip.
    { rewrite length_zip_with. pose proof (inv_names_len _ Hinv). lia. }
    rewrite container_text_length, Hzip in Hfit.
    assert (∀ i call text,
              map (λ temp_value buf level is_pretty mem,
                     json_serialize_to_buffer_r parser temp_value buf level
                       is_pretty (Some PARSON_NUM_BUF_SIZE) mem)
                (values object) !! i
              = Some call →
              texts !! i = Some text →
              measures call (level + 1) pretty text) as Hcalls.
    { intros i call text Hcall Hi. unfold texts in Hi.
      rewrite list_lookup_fmap in Hcall. rewrite list_lookup_fmap in Hi.
      destruct (values object !! i) as [v|] eqn:Hv; [|done].
      simpl in *. injection Hcall as <-. injection Hi as <-.
      rewrite Forall_lookup in IH. apply (IH i v Hv).
      - by apply (Forall_id_map_lookup value_wf (values object) i).
      - by apply (Forall_id_map_lookup (numbers_fit parser) (values object) i).
      - unfold counts_fit.
        destruct (lookup_lt_is_Some_2 (names object) i) as [key Hkey].
        { apply lookup_lt_Some in Hv. pose proof (inv_names_len _ Hinv).
          pose proof (inv_values_len _ Hinv). lia. }
        assert (zip_with (entry_text parser pretty) (names object) layouts
                !! i
                = Some (entry_text parser pretty key
                          (value_layout parser pretty v (level + 1)))) as Hzi.
        { rewrite lookup_zip_with, Hkey. unfold layouts.
          by rewrite list_lookup_fmap, Hv. }
        pose proof (elements_length_ge pretty level (length texts) _ i _ Hzi).
        pose proof (entry_text_length parser pretty key
                      (value_layout parser pretty v (level + 1))).
        lia. }
    assert (∀ st bound, measuring m bound st → (0 ≤ bound)%Z →
              (bound
               + Z.of_nat (length (concat (imap (element_text pretty level
                                                   (length texts))
                                             (zip_with (entry_text parser pretty)
                                                (names object) layouts))))
               ≤ INT_MAX)%Z →
              loop_fails m
                (serialize_object_loop parser
                   (map (λ temp_value buf level is_pretty mem,
                           json_serialize_to_buffer_r parser temp_value buf
                             level is_pretty (Some PARSON_NUM_BUF_SIZE) mem)
                      (values object))
                   object (length texts) 0 (length texts) level pretty st))
      as Hloop.
    { intros st bound Hst Hpos Hbound.
      apply (serialize_object_loop_fails parser _ object texts layouts level
               pretty m) with (j := j) (bound := bound); try done.
      - rewrite Hlen. apply Hinv.
      - apply Hinv.
      - unfold texts. by rewrite !length_map.
      - lia.
      - apply children_layouts.
      - lia. }
    cbn [json_serialize_to_buffer_r]. unfold json_object_get_count.
    rewrite <- Hlen. rewrite APPEND_STRING_init, sink_APPEND_STRING_if.
    unfold sink.
    rewrite int_add_0 by (rewrite length_app; simpl length in *; lia).
    cbn [mbind option_bind].
    match goal with
    | |- context [serialize_object_loop _ _ _ _ _ _ _ _ ?st] =>
        destruct (Hloop st (written_total st)) as (st' & Hst' & Hblock);
          [split_and!; simpl; [done|done|lia]
          |simpl; lia
          |simpl written_total; rewrite ?length_app; simpl length in *; lia|]
    end.
    rewrite Hst'. simpl. by rewrite Hblock.
  - simpl in Htext, Hwf, Hnum.
    destruct (all_texts _) as [texts0|] eqn:Htexts; [done|]. clear Htext.
    apply all_texts_None in Htexts as [j Hj].
    unfold counts_fit in Hfit. cbn [value_layout] in Hfit.
    set (texts := map (λ x, value_text parser pretty x (level + 1))
                    (items array)) in *.
    set (layouts := map (λ x, value_layout parser pretty x (level + 1))
                      (items array)) in *.
    assert (length texts = length (items array)) as Hlen.
    { unfold texts. by rewrite length_map. }
    assert (length layouts = length texts) as Hlay.
    { unfold layouts, texts. by rewrite !length_map. }
    rewrite container_text_length, Hlay in Hfit.
    assert (∀ i call text,
              map (λ temp_value buf level is_pretty mem,
                     json_serialize_to_buffer_r parser temp_value buf level
                       is_pretty (Some PARSON_NUM_BUF_SIZE) mem)
                (items array) !! i
              = Some call →
              texts !! i = Some text →
              measures call (level + 1) pretty text) as Hcalls.
    { intros i call text Hcall Hi. unfold texts in Hi.
      rewrite list_lookup_fmap in Hcall. rewrite list_lookup_fmap in Hi.
      destruct (items array !! i) as [v|] eqn:Hv; [|done].
      simpl in *. injection Hcall as <-. injection Hi as <-.
      rewrite Forall_lookup in IH. apply (IH i v Hv).
      - by apply (Forall_id_map_lookup value_wf (items array) i).
      - by apply (Forall_id_map_lookup (numbers_fit parser) (items array) i).
      - unfold counts_fit.
        assert (layouts !! i
                = Some (value_layout parser pretty v (level + 1))) as Hli.
        { unfold layouts. by rewrite list_lookup_fmap, Hv. }
        pose proof (elements_length_ge pretty level (length texts) _ i _ Hli).
        lia. }
    assert (∀ st bound, measuring m bound st →
              (bound
               + Z.of_nat (length (concat (imap (element_text pretty level
                                                   (length texts)) layouts)))
               ≤ INT_MAX)%Z →
              loop_fails m
                (serialize_array_loop
                   (map (λ temp_value buf level is_pretty mem,
                           json_serialize_to_buffer_r parser temp_value buf
                             level is_pretty (Some PARSON_NUM_BUF_SIZE) mem)
                      (items array))
                   (length texts) 0 (length texts) level pretty st))
      as Hloop.
    { intros st bound Hst Hbound.
      apply (serialize_array_loop_fails _ texts layouts level pretty m)
        with (j := j) (bound := bound); try done.
      - unfold texts. by rewrite !length_map.
      - lia.
      - apply children_layouts.
      - lia. }
    cbn [json_serialize_to_buffer_r]. unfold json_array_get_count.
    rewrite <- Hlen. rewrite APPEND_STRING_init, sink_APPEND_STRING_if.
    unfold sink.
    rewrite int_add_0 by (rewrite length_app; simpl length in *; lia).
    cbn [mbind option_bind].
    match goal with
    | |- context [serialize_array_loop _ _ _ _ _ _ ?st] =>
        destruct (Hloop st (written_total st)) as (st' & Hst' & Hblock);
          [split_and!; simpl; [done|done|lia]
          |simpl written_total; rewrite ?length_app; simpl length in *; lia|]
    end.
    rewrite Hst'. simpl. by rewrite Hblock.
Qed.

(** ** The text has no NUL *)

Lemma escaped_char_cstring parser c : cstring (escaped_char parser c).
Proof.
  unfold escaped_char, escape_sequence.
  destruct c as [[] [] [] [] [] [] [] []];
    try destruct (escape_slashes parser);
    repeat constructor; discriminate.
Qed.

Lemma string_text_cstring parser s : cstring (string_text parser s).
Proof.
  unfold string_text, cstring. constructor; [discriminate|].
  apply Forall_app. split; [|by repeat constructor].
  apply Forall_concat, Forall_forall. intros t Ht.
  apply list_elem_of_fmap in Ht as (c & -> & _). apply escaped_char_cstring.
Qed.

Lemma indent_text_cstring level : cstring (indent_text level).
Proof.
  unfold indent_text, cstring. apply Forall_concat, Forall_forall.
  intros t Ht. apply elem_of_replicate in Ht as [-> _].
  by repeat constructor.
Qed.

Lemma container_text_cstring open close pretty level elements :
  open ≠ NUL → close ≠ NUL → Forall cstring elements →
  cstring (container_text open close pretty level elements).
Proof.
  intros Hopen Hclose Helements. unfold container_text, cstring.
  repeat (apply Forall_app; split).
  - by repeat constructor.
  - destruct (_ && _); by repeat constructor.
  - apply Forall_concat, Forall_forall. intros t Ht.
    apply list_elem_of_lookup in Ht as [i Hi].
    rewrite list_lookup_imap in Hi.
    destruct (elements !! i) as [element|] eqn:Helement; [|done].
    injection Hi as <-. unfold element_text.
    repeat (apply Forall_app; split).
    + destruct pretty; [apply indent_text_cstring|constructor].
    + rewrite Forall_lookup in Helements. by apply (Helements i).
    + destruct (_ <? _); by repeat constructor.
    + destruct pretty; by repeat constructor.
  - destruct (_ && _); [apply indent_text_cstring|constructor].
  - by repeat constructor.
Qed.

Lemma value_text_cstring parser pretty value :
  (∀ x t, serialize_number parser x = Some t → cstring t) →
  ∀ level text,
    value_text parser pretty value level = Some text → cstring text.
Proof.
  intros Hnumbers.
  induction value as [chars|number|object IH|array IH|boolean|]
    using JSON_Value_ind; intros level text Htext; simpl in Htext.
  - injection Htext as <-. apply string_text_cstring.
  - by apply (Hnumbers number).
  - destruct (all_texts _) as [texts|] eqn:Htexts; [|done].
    injection Htext as <-.
    apply container_text_cstring; [done|done|].
    apply Forall_lookup. intros i element Hi.
    rewrite lookup_zip_with in Hi.
    destruct (names object !! i) as [key|]; [|done]. simpl in Hi.
    destruct (texts !! i) as [t|] eqn:Ht; [|done]. injection Hi as <-.
    unfold entry_text, cstring.
    repeat (apply Forall_app; split).
    + apply string_text_cstring.
    + by repeat constructor.
    + destruct pretty; by repeat constructor.
    + apply (all_texts_lookup _ _ i) in Htexts.
      rewrite list_lookup_fmap, Ht in Htexts.
      destruct (values object !! i) as [v|] eqn:Hv; [|done].
      simpl in Htexts. injection Htexts as Htext.
      rewrite Forall_lookup in IH. by apply (IH i v Hv (level + 1)).
  - destruct (all_texts _) as [texts|] eqn:Htexts; [|done].
    injection Htext as <-.
    apply container_text_cstring; [done|done|].
    apply Forall_lookup. intros i t Ht.
    apply (all_texts_lookup _ _ i) in Htexts.
    rewrite list_lookup_fmap, Ht in Htexts.
    destruct (items array !! i) as [v|] eqn:Hv; [|done].
    simpl in Htexts. injection Htexts as Htext.
    rewrite Forall_lookup in IH. by apply (IH i v Hv (level + 1)).
  - injection Htext as <-. destruct (boolean =? 0)%Z; by repeat constructor.
  - injection Htext as <-. by repeat constructor.
Qed.

Lemma strlen_app_NUL s : cstring s → strlen (s ++ [NUL]) = length s.
Proof.
  induction 1 as [|c s Hc _ IH]; simpl; [done|].
  destruct (Ascii.eqb_spec c NUL); [done|]. by rewrite IH.
Qed.

(** ** The public functions *)

Lemma store_whole mem text :
  length mem = length text → store mem 0 text = Some text.
Proof.
  intros Hlen. apply store_Some. split; [lia|].
  rewrite take_0, drop_ge by lia. by rewrite app_nil_r.
Qed.

Lemma serialization_size_of_length (text : list ascii) :
  serialization_size_of (Z.of_nat (length text)) = length text + 1.
Proof.
  unfold serialization_size_of.
  destruct (Z.ltb_spec (Z.of_nat (length text)) 0); [lia|].
  by rewrite Nat2Z.id.
Qed.

Lemma serialization_size_with_spec pretty parser value :
  value_wf value → serialization_fits parser pretty value →
  serialization_size_with pretty parser value
  = Some (from_option (λ text : list ascii, length text + 1) 0
            (value_text parser pretty value 0)).
Proof.
  intros Hwf [Hnum Hfit]. unfold serialization_size_with.
  rewrite (json_serialize_to_buffer_r_measures parser pretty value Hwf Hnum 0
             Hfit []).
  destruct (value_text parser pretty value 0) as [text|]; simpl; [|done].
  by rewrite serialization_size_of_length.
Qed.

Lemma serialization_size_spec (pretty : bool) parser value :
  value_wf value → serialization_fits parser pretty value →
  (if pretty then json_serialization_size_pretty parser value
   else json_serialization_size parser value)
  = Some (from_option (λ text : list ascii, length text + 1) 0
            (value_text parser pretty value 0)).
Proof.
  intros Hwf Hfits. rewrite <- (serialization_size_with_spec pretty) by done.
  by destruct pretty.
Qed.

(** The writing pass on a block of at least the size measured. *)
Lemma serialize_to_buffer_with_spec pretty parser value mem :
  value_wf value → serialization_fits parser pretty value →
  serialize_to_buffer_with pretty parser value mem
  = Some match value_text parser pretty value 0 with
         | Some text =>
             if length mem <? length text + 1 then (JSONFailure, mem)
             else (JSONSuccess, (text ++ [NUL]) ++ drop (length text + 1) mem)
         | None => (JSONFailure, mem)
         end.
Proof.
  intros Hwf Hfits. unfold serialize_to_buffer_with.
  rewrite serialization_size_with_spec by done. destruct Hfits as [Hnum Hfit].
  destruct (value_text parser pretty value 0) as [text|] eqn:Htext; simpl;
    [|done].
  destruct (Nat.eqb_spec (length text + 1) 0); [lia|]. simpl.
  destruct (Nat.ltb_spec (length mem) (length text + 1)); [done|].
  unfold counts_fit in Hfit. rewrite (value_text_layout _ _ _ _ _ Htext) in Hfit.
  rewrite (json_serialize_to_buffer_r_spec _ _ _ Hwf Hnum _ text)
    by (done || lia).
  unfold ser_result. rewrite int_add_0 by lia. simpl.
  destruct (store mem 0 (text ++ [NUL])) as [mem'|] eqn:Hstore.
  - apply store_Some in Hstore as [_ ->]. simpl.
    destruct (Z.ltb_spec (Z.of_nat (length text)) 0); [lia|].
    rewrite length_app. simpl. by rewrite <- app_assoc.
  - apply store_None in Hstore. rewrite length_app in Hstore.
    simpl in Hstore. lia.
Qed.

Lemma serialize_to_string_with_spec pretty parser value fresh :
  value_wf value → (∀ n, length (fresh n) = n) →
  serialization_fits parser pretty value →
  serialize_to_string_with pretty parser value fresh
  = Some ((λ text, text ++ [NUL]) <$> value_text parser pretty value 0).
Proof.
  intros Hwf Hfresh Hfits. unfold serialize_to_string_with.
  rewrite serialization_size_with_spec by done.
  destruct (value_text parser pretty value 0) as [text|] eqn:Htext; simpl;
    [|done].
  rewrite Hfresh.
  destruct (Nat.eqb_spec (length text + 1) 0); [lia|].
  rewrite Nat.eqb_refl. simpl.
  rewrite serialize_to_buffer_with_spec, Htext, Hfresh by done. simpl.
  destruct (Nat.ltb_spec (length text + 1) (length text + 1)); [lia|].
  simpl. rewrite drop_ge by (rewrite Hfresh; lia). by rewrite app_nil_r.
Qed.

End SerializerProofs.

(** ** The integer C library writes C strings *)

Lemma uint_chars_cstring u : cstring (uint_chars u).
Proof. induction u; simpl; by constructor. Qed.

Lemma integer_sprintf_cstring fmt x t :
  integer_sprintf fmt x = Some t → cstring t.
Proof.
  unfold integer_sprintf. destruct (Z.to_int x); intros [= <-].
  - apply uint_chars_cstring.
  - constructor; [done|apply uint_chars_cstring].
Qed.

Lemma integer_serialize_number_cstring x t :
  @serialize_number integer_ops json_get_default_parser x = Some t → cstring t.
Proof. apply integer_sprintf_cstring. Qed.

(** ** The size of a serialization *)

(** C3, as the code has it.  [json_serialization_size] (and
    [json_serialization_size_pretty]) is not the length of the string that
    [json_serialize_to_string] (and [json_serialize_to_string_pretty])
    returns: it is that length plus one, the terminating NUL counted, and
    the block that holds the string has exactly that size.  When the value
    cannot be serialized there is no string and the size is 0.  This holds
    for every value whose objects satisfy the invariant of the table, whose
    numbers fit into the [num_buf] of the measuring pass and whose text
    stays within [INT_MAX] characters, the range of the [int] counters,
    with an allocator that returns blocks of the size asked for and a
    number format that writes C strings. *)
Theorem serialization_size_counts_terminator (pretty : bool) `{FloatOps}
    (parser : JSON_Parser) (value : JSON_Value) (fresh : nat → list ascii) :
  value_wf value →
  serialization_fits parser pretty value →
  (∀ n, length (fresh n) = n) →
  (∀ x t, serialize_number parser x = Some t → cstring t) →
  ∃ r, serialize_to_string_with pretty parser value fresh = Some r ∧
       (if pretty then json_serialization_size_pretty parser value
        else json_serialization_size parser value)
       = Some (from_option (λ s, strlen s + 1) 0 r) ∧
       ∀ s, r = Some s → length s = strlen s + 1.
Proof.
  intros Hwf Hfits Hfresh Hnumbers.
  rewrite serialize_to_string_with_spec, serialization_size_spec by done.
  eexists. split; [done|].
  destruct (value_text parser pretty value 0) as [text|] eqn:Htext; simpl.
  - apply value_text_cstring in Htext; [|done].
    rewrite strlen_app_NUL by done. split; [done|].
    intros s [= <-]. rewrite strlen_app_NUL, length_app by done. done.
  - done.
Qed.

(** The example array can be serialized. *)
Lemma example_array_fits pretty :
  @serialization_fits integer_ops json_get_default_parser pretty example_array.
Proof.
  split.
  - simpl. repeat constructor.
  - by destruct pretty; vm_compute.
Qed.

Lemma serialization_size_counts_terminator_witness :
  ∃ r, serialize_to_string_with false json_get_default_parser example_array
         fresh_block = Some r ∧
       json_serialization_size json_get_default_parser example_array
       = Some (from_option (λ s, strlen s + 1) 0 r) ∧
       ∀ s, r = Some s → length s = strlen s + 1.
Proof.
  apply (serialization_size_counts_terminator false).
  - simpl. repeat first [done | by right | constructor].
  - apply example_array_fits.
  - intros n. apply length_replicate.
  - apply integer_serialize_number_cstring.
Defined.

(** C3, as the specification states it, fails on [null]: the string has 4
    characters and the size is 5. *)
Lemma serialization_size_is_not_the_length :
  ∃ s, @json_serialize_to_string integer_ops json_get_default_parser
         Value_Null fresh_block = Some (Some s) ∧
       strlen s = 4 ∧
       @json_serialization_size integer_ops json_get_default_parser Value_Null
       = Some 5.
Proof. eexists. split_and!; reflexivity. Qed.

(** * The order of the entries of an object *)

Section EntryOrder.
Context {V : Type}.
Implicit Types (o : JSON_Object V) (ops : list (table_op V)).

Lemma json_object_iterate_names o :
  length (names o) = count o →
  json_object_iterate o = map Some (names o).
Proof.
  intros Hlen. unfold json_object_iterate, json_object_get_count.
  apply list_eq. intros i. rewrite !list_lookup_fmap.
  destruct (decide (i < count o)) as [Hlt|Hge].
  - rewrite lookup_seq_lt by done. simpl. unfold json_object_get_name.
    destruct (Nat.leb_spec (count o) i); [lia|].
    destruct (lookup_lt_is_Some_2 (names o) i) as [key Hkey]; [lia|].
    by rewrite Hkey.
  - rewrite lookup_seq_ge by lia. rewrite lookup_ge_None_2 by lia. done.
Qed.

Lemma list_find_NoDup (keys : list (list ascii)) name i :
  NoDup keys → keys !! i = Some name →
  list_find (λ key, key = name) keys = Some (i, name).
Proof.
  intros Hnd Hi. apply list_find_Some. split_and!; [done..|].
  intros j key Hj Hlt ->.
  assert (j = i) by (by eapply NoDup_lookup). lia.
Qed.

Lemma list_find_absent (keys : list (list ascii)) name :
  name ∉ keys → list_find (λ key, key = name) keys = None.
Proof.
  intros Hnotin. apply list_find_None, Forall_forall. by intros key Hin ->.
Qed.

(** The entries after an operation. *)
Lemma run_op_names o (op : table_op V) :
  table_inv o → cstring (op_name op) →
  ∃ res o', run_op o op = Some (res, o') ∧ table_inv o' ∧
            names o' = entry_order_op (names o) op.
Proof.
  intros Hinv Hcs.
  destruct op as [name value|name value|name];
    cbn [run_op op_name entry_order_op] in *; unfold insert_key.
  - destruct (decide (name ∈ names o)) as [Hin|Hnotin].
    + apply list_elem_of_lookup in Hin as [i Hi].
      destruct (json_object_set_value_present o name value i)
        as (o' & Hrun & Hinv' & Hn & Hv); [done..|].
      by exists JSONSuccess, o'.
    + destruct (json_object_set_value_absent o name value)
        as (o' & Hrun & Hinv' & Hn & Hv); [done..|].
      by exists JSONSuccess, o'.
  - destruct (decide (name ∈ names o)) as [Hin|Hnotin].
    + rewrite json_object_add_present by done. by exists JSONFailure, o.
    + destruct (json_object_add_absent o name value)
        as (o' & Hrun & Hinv' & Hn & Hv); [done..|].
      by exists JSONSuccess, o'.
  - destruct (decide (name ∈ names o)) as [Hin|Hnotin].
    + apply list_elem_of_lookup in Hin as [i Hi].
      destruct (json_object_remove_present o name i)
        as (o' & Hrun & Hinv' & Hn & Hv); [done..|].
      exists JSONSuccess, o'. split_and!; [done..|].
      by rewrite (list_find_NoDup _ _ i) by (done || apply Hinv).
    + unfold json_object_remove. rewrite json_object_remove_absent by done.
      exists JSONFailure, o. split_and!; [done..|].
      by rewrite list_find_absent.
Qed.

Lemma run_ops_names ops : ∀ o,
  table_inv o → Forall (λ op, cstring (op_name op)) ops →
  ∃ o', run_ops ops o = Some o' ∧ table_inv o' ∧
        names o' = foldl entry_order_op (names o) ops.
Proof.
  induction ops as [|op ops IH]; intros o Hinv Hcs.
  - by exists o.
  - apply Forall_cons in Hcs as [Hc Hcs].
    destruct (run_op_names o op Hinv Hc) as (res & o1 & Hrun & Hinv1 & Hn1).
    destruct (IH o1 Hinv1 Hcs) as (o' & Hrun' & Hinv' & Hn').
    exists o'. split_and!; [|done|].
    + simpl. by rewrite Hrun.
    + simpl. by rewrite <- Hn1.
Qed.

Lemma entry_order_insertions ops : ∀ keys,
  forallb is_insert ops = true →
  foldl entry_order_op keys ops = foldl insertion_order_op keys ops.
Proof.
  induction ops as [|op ops IH]; intros keys Hins; [done|].
  simpl in *. apply andb_prop in Hins as [Hop Hins].
  rewrite <- IH by done. by destruct op.
Qed.

End EntryOrder.

Section EntryOrderValues.
Context `{FloatOps}.
Implicit Types (o : JSON_Object JSON_Value) (ops : list (table_op JSON_Value)).

(** The values of the map come from the operations. *)
Lemma model_ops_values (P : JSON_Value → Prop) ops : ∀ m,
  map_Forall (λ _ v, P v) m →
  Forall (λ op, from_option P True (op_value op)) ops →
  map_Forall (λ _ v, P v) (foldl model_op m ops).
Proof.
  induction ops as [|op ops IH]; intros m Hm Hops; [done|].
  apply Forall_cons in Hops as [Hop Hops]. simpl. apply IH; [|done].
  destruct op as [name value|name value|name]; simpl in *.
  - by apply map_Forall_insert_2.
  - destruct (m !! name); [done|]. by apply map_Forall_insert_2.
  - by apply map_Forall_delete.
Qed.

(** The entries of the table are the values that the map gives to the
    names, in the order of the names. *)
Lemma represents_values o (m : gmap (list ascii) JSON_Value) :
  table_inv o → represents o m →
  map Some (values o) = map (λ key, m !! key) (names o).
Proof.
  intros Hinv Hrep. apply list_eq. intros i. rewrite !list_lookup_fmap.
  destruct (names o !! i) as [key|] eqn:Hkey; simpl.
  - destruct (lookup_lt_is_Some_2 (values o) i) as [value Hv].
    { rewrite (inv_values_len _ Hinv), <- (inv_names_len _ Hinv).
      by eapply lookup_lt_Some. }
    rewrite Hv. simpl. f_equal. symmetry. apply Hrep. by exists i.
  - rewrite lookup_ge_None_2; [done|].
    apply lookup_ge_None_1 in Hkey.
    rewrite (inv_values_len _ Hinv), <- (inv_names_len _ Hinv). done.
Qed.

Lemma json_object_iterate_values_spec o :
  length (values o) = count o →
  json_object_iterate_values o = map Some (values o).
Proof.
  intros Hlen. unfold json_object_iterate_values, json_object_get_count.
  apply list_eq. intros i. rewrite !list_lookup_fmap.
  destruct (decide (i < count o)) as [Hlt|Hge].
  - rewrite lookup_seq_lt by done. simpl. unfold json_object_get_value_at.
    destruct (Nat.leb_spec (count o) i); [lia|].
    destruct (lookup_lt_is_Some_2 (values o) i) as [v Hv]; [lia|].
    by rewrite Hv.
  - rewrite lookup_seq_ge by lia. rewrite lookup_ge_None_2 by lia. done.
Qed.

(** The text of an object follows its entries. *)
Lemma value_text_entries (parser : JSON_Parser) (pretty : bool) o
    (m : gmap (list ascii) JSON_Value) (level : nat) :
  table_inv o → represents o m →
  value_text parser pretty (Value_Object o) level
  = entries_text parser pretty (names o) m level.
Proof.
  intros Hinv Hrep. cbn [value_text]. unfold entries_text.
  assert (map (λ x, value_text parser pretty x (level + 1)) (values o)
          = map (λ key, m !! key ≫=
                        λ v, value_text parser pretty v (level + 1))
              (names o)) as ->; [|done].
  pose proof (represents_values o m Hinv Hrep) as Hvalues.
  apply list_eq. intros i. rewrite !list_lookup_fmap.
  apply (f_equal (λ l, l !! i)) in Hvalues.
  rewrite !list_lookup_fmap in Hvalues.
  destruct (values o !! i) as [v|], (names o !! i) as [key|];
    simpl in *; try done.
  injection Hvalues as <-. done.
Qed.

(** C4, as the code has it.  Iteration by index and serialization follow
    the order of the entries: a new key is appended, a key that is set
    again keeps its place, and [json_object_remove] moves the last entry to
    the place of the entry it removes.  After any sequence of operations,
    [json_object_get_name] and [json_object_get_value_at] enumerate the
    keys in that order with the values they hold, and the serialized
    string lists the entries in that order (when the object can be
    serialized).  That is the order of insertion as long as nothing is
    removed. *)
Theorem iteration_order_after_mutation (pretty : bool) (parser : JSON_Parser)
    ops (fresh : nat → list ascii) :
  Forall (λ op, cstring (op_name op)) ops →
  Forall (λ op, from_option value_wf True (op_value op)) ops →
  (∀ n, length (fresh n) = n) →
  ∃ o, run_ops ops (json_object_init 0) = Some o ∧
       json_object_iterate o = map Some (entry_order ops) ∧
       json_object_iterate_values o
       = map (λ key, model_ops ops !! key) (entry_order ops) ∧
       (serialization_fits parser pretty (Value_Object o) →
        serialize_to_string_with pretty parser (Value_Object o) fresh
        = Some ((λ text, text ++ [NUL])
                  <$> entries_text parser pretty (entry_order ops)
                        (model_ops ops) 0)) ∧
       (forallb is_insert ops = true →
        entry_order ops = insertion_order ops).
Proof.
  intros Hcs Hwf Hfresh.
  destruct (run_ops_names ops (json_object_init 0)) as (o & Hrun & Hinv & Hn).
  { apply json_object_init_inv. by left. }
  { done. }
  destruct (run_ops_spec ops (json_object_init 0) ∅)
    as (o' & Hrun' & _ & Hrep).
  { apply json_object_init_inv. by left. }
  { apply represents_init. }
  { done. }
  assert (o' = o) as -> by congruence.
  change (foldl entry_order_op (names (json_object_init 0)) ops)
    with (entry_order ops) in Hn.
  change (foldl model_op ∅ ops) with (model_ops ops) in Hrep.
  exists o. split_and!; [done| | | |].
  - rewrite json_object_iterate_names by apply Hinv. by rewrite Hn.
  - rewrite json_object_iterate_values_spec by apply Hinv.
    by rewrite (represents_values o _ Hinv Hrep), Hn.
  - intros Hfits.
    rewrite serialize_to_string_with_spec; [|split; [done|]|done..].
    + by rewrite (value_text_entries _ _ _ _ _ Hinv Hrep), Hn.
    + apply Forall_fmap, Forall_lookup. intros i v Hv. simpl.
      destruct (lookup_lt_is_Some_2 (names o) i) as [key Hkey].
      { rewrite (inv_names_len _ Hinv), <- (inv_values_len _ Hinv).
        by eapply lookup_lt_Some. }
      assert (model_ops ops !! key = Some v) as Hm
        by (apply Hrep; by exists i).
      revert Hm. apply (model_ops_values value_wf ops ∅); [|done].
      apply map_Forall_empty.
  - intros Hins. unfold entry_order. by rewrite entry_order_insertions.
Qed.

End EntryOrderValues.

(** The object of the example can be serialized. *)
Lemma example_object_ba_run :
  run_ops example_ops_ba (json_object_init 0) = Some example_object_ba.
Proof. vm_cast_no_check (eq_refl (Some example_object_ba)). Qed.

Lemma example_object_ba_fits pretty :
  @serialization_fits integer_ops json_get_default_parser pretty
    (Value_Object example_object_ba).
Proof.
  split.
  - vm_compute. repeat constructor.
  - by destruct pretty; vm_compute.
Qed.

Lemma iteration_order_after_mutation_witness :
  ∃ o, run_ops example_ops_ba (json_object_init 0) = Some o ∧
       json_object_iterate o = map Some (entry_order example_ops_ba) ∧
       json_object_iterate_values o
       = map (λ key, model_ops example_ops_ba !! key)
           (entry_order example_ops_ba) ∧
       serialize_to_string_with false json_get_default_parser (Value_Object o)
         fresh_block
       = Some ((λ text, text ++ [NUL])
                 <$> entries_text json_get_default_parser false
                       (entry_order example_ops_ba)
                       (model_ops example_ops_ba) 0).
Proof.
  destruct (@iteration_order_after_mutation integer_ops false
              json_get_default_parser example_ops_ba fresh_block)
    as (o & Hrun & Hnames & Hvalues & Htext & _).
  - repeat constructor; simpl; discriminate.
  - simpl. repeat first [done | by right | constructor].
  - intros n. apply length_replicate.
  - exists o. split_and!; [done..|].
    apply Htext. rewrite example_object_ba_run in Hrun.
    injection Hrun as <-. apply example_object_ba_fits.
Defined.

(** C4, as the specification states it, fails: after the insertion of [a],
    [b] and [c] and the removal of [a], iteration and the serialized string
    give [c] before [b]. *)
Lemma removal_breaks_insertion_order :
  ∃ o, run_ops remove_first_ops (json_object_init 0) = Some o ∧
       json_object_iterate o = [Some ["c"]; Some ["b"]] ∧
       json_serialize_to_string json_get_default_parser (Value_Object o)
         fresh_block
       = Some (Some ["{"; QUOTE; "c"; QUOTE; ":"; "t"; "r"; "u"; "e"; ",";
                     QUOTE; "b"; QUOTE; ":"; "1"; "2"; "}"; NUL]) ∧
       insertion_order remove_first_ops = [["b"]; ["c"]].
Proof. eexists. split_and!; reflexivity. Qed.

(** * The nesting ceiling and the end of the input *)

Lemma nesting_ceiling_witness :
  @json_parse_string integer_ops (nested_arrays 2049)
    = Some (Some (nested_arrays_value 2048)) ∧
  @json_parse_string integer_ops (nested_arrays 2050) = Some None ∧
  @parse_value integer_ops 1 ["["; "]"] 2049 = Some None.
Proof.
  destruct (@nesting_ceiling integer_ops) as (Hfits & Hdeep & Habort).
  split_and!.
  - apply (Hfits 2049). unfold MAX_NESTING. lia.
  - apply (Hdeep 2050). unfold MAX_NESTING. lia.
  - apply Habort. unfold MAX_NESTING. lia.
Defined.

(** C6, as the specification states it, fails: 2049 nested brackets are
    parsed. *)
Lemma nested_2049_is_parsed :
  ∃ value, @json_parse_string integer_ops (nested_arrays 2049)
           = Some (Some value).
Proof.
  exists (nested_arrays_value 2048).
  rewrite json_parse_string_no_bom by done.
  pose proof (@parse_nested_arrays integer_ops 2048 (MAX_NESTING + 1) 0 [])
    as Hparse.
  rewrite app_nil_r in Hparse. rewrite Hparse; [done|..];
    unfold MAX_NESTING; lia.
Qed.

(** C5, as the specification states it, fails: what follows the top-level
    value is not read, and [null x] is parsed as [null]. *)
Lemma trailing_garbage_is_accepted :
  @json_parse_string integer_ops (list_ascii_of_string "null x")
  = Some (Some Value_Null).
Proof. reflexivity. Qed.

(** * The parent links *)

Section HeapProofs.
Context `{FloatOps}.
Implicit Types (h : Heap.heap) (v c a : Heap.addr) (n : Heap.node).

Lemma heap_eq h h' :
  Heap.nodes h = Heap.nodes h' → Heap.next h = Heap.next h' → h = h'.
Proof. destruct h, h'. simpl. by intros -> ->. Qed.

Lemma heap_wf_empty : Heap.heap_wf Heap.empty.
Proof.
  split.
  - by intros v c n (nc & Hc & _).
  - by intros v c (nc & Hc & _).
  - by intros a [n Hn].
  - by intros c n o Hc.
Qed.

(** ** Allocation *)

Lemma alloc_wf h val :
  Heap.heap_wf h → Heap.children (Heap.mkNode None val) = [] →
  (∀ o, val = Heap.NObject o → table_inv o) →
  Heap.heap_wf (Heap.alloc h val).2.
Proof.
  intros Hwf Hleaf Htable.
  assert (Heap.nodes h !! Heap.next h = None) as Hfresh.
  { apply eq_None_not_Some. intros Hsome.
    apply (Heap.wf_next _ Hwf) in Hsome. lia. }
  assert (∀ w c', Heap.child_of (Heap.alloc h val).2 w c' →
                  Heap.child_of h w c') as Hchild.
  { intros w c' (nc & Hc & Hw). simpl in Hc.
    destruct (decide (c' = Heap.next h)) as [->|Hne].
    - rewrite lookup_insert_eq in Hc. injection Hc as <-.
      rewrite Hleaf in Hw. by apply elem_of_nil in Hw.
    - rewrite lookup_insert_ne in Hc by done. by exists nc. }
  split.
  - intros w c' n Hw Hn. apply Hchild in Hw. simpl in Hn.
    destruct (decide (w = Heap.next h)) as [->|Hne].
    + apply (Heap.wf_child_next _ Hwf) in Hw. lia.
    + rewrite lookup_insert_ne in Hn by done.
      by apply (Heap.wf_parent _ Hwf w c').
  - intros w c' Hw. apply Hchild in Hw.
    apply (Heap.wf_child_next _ Hwf) in Hw. simpl. lia.
  - intros a Ha. simpl in *.
    destruct (decide (a = Heap.next h)) as [->|Hne]; [lia|].
    rewrite lookup_insert_ne in Ha by done.
    apply (Heap.wf_next _ Hwf) in Ha. lia.
  - intros c' n o Hc Ho. simpl in Hc.
    destruct (decide (c' = Heap.next h)) as [->|Hne].
    + rewrite lookup_insert_eq in Hc. injection Hc as <-. by apply Htable.
    + rewrite lookup_insert_ne in Hc by done.
      by apply (Heap.wf_table _ Hwf c' n).
Qed.

(** ** Release *)

Lemma submap_wf h h' :
  Heap.heap_wf h → Heap.nodes h' ⊆ Heap.nodes h → Heap.next h' = Heap.next h →
  Heap.heap_wf h'.
Proof.
  intros Hwf Hsub Hnext.
  assert (∀ w c', Heap.child_of h' w c' → Heap.child_of h w c') as Hchild.
  { intros w c' (nc & Hc & Hw). exists nc. split; [|done].
    by eapply lookup_weaken. }
  split.
  - intros w c' n Hw Hn. apply (Heap.wf_parent _ Hwf w c'); [by apply Hchild|].
    by eapply lookup_weaken.
  - intros w c' Hw. rewrite Hnext.
    by apply (Heap.wf_child_next _ Hwf w c'), Hchild.
  - intros a [n Hn]. rewrite Hnext. apply (Heap.wf_next _ Hwf).
    exists n. by eapply lookup_weaken.
  - intros c' n o Hc Ho. apply (Heap.wf_table _ Hwf c' n); [|done].
    by eapply lookup_weaken.
Qed.

Lemma foldl_option_None {A B} (f : option A → B → option A) (l : list B) :
  (∀ x, f None x = None) → foldl f None l = None.
Proof. intros Hf. induction l as [|x l IH]; simpl; [done|]. by rewrite Hf. Qed.

Lemma json_value_free_submap fuel : ∀ h v h',
  Heap.json_value_free fuel h v = Some h' →
  Heap.nodes h' ⊆ Heap.nodes h ∧ Heap.next h' = Heap.next h.
Proof.
  induction fuel as [|fuel IH]; intros h v h' Hfree; [done|].
  simpl in Hfree.
  destruct (Heap.nodes h !! v) as [n|]; [|done]. simpl in Hfree.
  assert (∀ l h0 h1,
            foldl (λ acc child, h ← acc; Heap.json_value_free fuel h child)
              (Some h0) l = Some h1 →
            Heap.nodes h1 ⊆ Heap.nodes h0 ∧ Heap.next h1 = Heap.next h0)
    as Hfold.
  { induction l as [|child l IHl]; intros h0 h1 Hl; simpl in Hl.
    - by injection Hl as <-.
    - destruct (Heap.json_value_free fuel h0 child) as [h2|] eqn:Hchild.
      + destruct (IH _ _ _ Hchild) as [Hsub2 Hnext2].
        destruct (IHl _ _ Hl) as [Hsub1 Hnext1].
        split; [by etrans|congruence].
      + by rewrite foldl_option_None in Hl. }
  destruct (foldl _ _ _) as [h1|] eqn:Hchildren; [|done]. simpl in Hfree.
  destruct (Heap.nodes h1 !! v); [|done]. simpl in Hfree.
  injection Hfree as <-. simpl.
  destruct (Hfold _ _ _ Hchildren) as [Hsub Hnext]. split; [|done].
  etrans; [apply delete_subseteq|done].
Qed.

Lemma json_value_free_wf fuel h v h' :
  Heap.heap_wf h → Heap.json_value_free fuel h v = Some h' → Heap.heap_wf h'.
Proof.
  intros Hwf Hfree. destruct (json_value_free_submap _ _ _ _ Hfree).
  by apply (submap_wf h).
Qed.

(** ** Stores *)

Lemma set_parent_Some h v p h' :
  Heap.set_parent h v p = Some h' →
  ∃ n, Heap.nodes h !! v = Some n ∧
       Heap.nodes h' = <[v := Heap.mkNode p (Heap.value n)]> (Heap.nodes h) ∧
       Heap.next h' = Heap.next h.
Proof.
  unfold Heap.set_parent. destruct (Heap.nodes h !! v) as [n|]; [|done].
  simpl. intros [= <-]. by exists n.
Qed.

Lemma set_value_Some h c val h' :
  Heap.set_value h c val = Some h' →
  ∃ n, Heap.nodes h !! c = Some n ∧
       Heap.nodes h' = <[c := Heap.mkNode (Heap.parent n) val]> (Heap.nodes h) ∧
       Heap.next h' = Heap.next h.
Proof.
  unfold Heap.set_value. destruct (Heap.nodes h !! c) as [n|]; [|done].
  simpl. intros [= <-]. by exists n.
Qed.

(** The store of a parent link that is already there. *)
Lemma set_parent_child h v c h' :
  Heap.heap_wf h → Heap.child_of h v c →
  Heap.set_parent h v (Some c) = Some h' → h' = h.
Proof.
  intros Hwf Hchild Hset.
  apply set_parent_Some in Hset as (n & Hn & Hnodes & Hnext).
  apply heap_eq; [|done]. rewrite Hnodes. apply insert_id.
  rewrite Hn. f_equal. pose proof (Heap.wf_parent _ Hwf v c n Hchild Hn).
  destruct n. simpl in *. by subst.
Qed.

Lemma set_parents_children h c vs h' :
  Heap.heap_wf h → (∀ v, v ∈ vs → Heap.child_of h v c) →
  Heap.set_parents h vs (Some c) = Some h' → h' = h.
Proof.
  intros Hwf. unfold Heap.set_parents.
  induction vs as [|v vs IH]; intros Hvs Hset; simpl in Hset.
  - by injection Hset.
  - destruct (Heap.set_parent h v (Some c)) as [h1|] eqn:Hv.
    + apply set_parent_child in Hv; [|done|apply Hvs; by left]. subst h1.
      apply IH; [|done]. intros w Hw. apply Hvs. by right.
    + by rewrite foldl_option_None in Hset.
Qed.

(** A container that gives up children. *)
Lemma detach_wf h c val h' :
  Heap.heap_wf h → Heap.set_value h c val = Some h' →
  (∀ w, w ∈ Heap.children (Heap.mkNode None val) → Heap.child_of h w c) →
  (∀ o, val = Heap.NObject o → table_inv o) →
  Heap.heap_wf h'.
Proof.
  intros Hwf Hset Hsub Htable.
  apply set_value_Some in Hset as (nc & Hc & Hnodes & Hnext).
  assert (∀ w c', Heap.child_of h' w c' → Heap.child_of h w c') as Hchild.
  { intros w c' (n & Hn & Hw). rewrite Hnodes in Hn.
    destruct (decide (c' = c)) as [->|Hne].
    - rewrite lookup_insert_eq in Hn. injection Hn as <-. by apply Hsub.
    - rewrite lookup_insert_ne in Hn by done. by exists n. }
  assert (∀ w n, Heap.nodes h' !! w = Some n →
            ∃ n0, Heap.nodes h !! w = Some n0 ∧
                  Heap.parent n0 = Heap.parent n ∧
                  (w ≠ c → n0 = n)) as Hnode.
  { intros w n Hn. rewrite Hnodes in Hn.
    destruct (decide (w = c)) as [->|Hne].
    - rewrite lookup_insert_eq in Hn. injection Hn as <-. by exists nc.
    - rewrite lookup_insert_ne in Hn by done. by exists n. }
  split.
  - intros w c' n Hw Hn. apply Hchild in Hw.
    apply Hnode in Hn as (n0 & Hn0 & <- & _).
    by apply (Heap.wf_parent _ Hwf w c').
  - intros w c' Hw. rewrite Hnext.
    by apply (Heap.wf_child_next _ Hwf w c'), Hchild.
  - intros a [n Hn]. rewrite Hnext. apply (Heap.wf_next _ Hwf).
    apply Hnode in Hn as (n0 & Hn0 & _). by exists n0.
  - intros c' n o Hn Ho. rewrite Hnodes in Hn.
    destruct (decide (c' = c)) as [->|Hne].
    + rewrite lookup_insert_eq in Hn. injection Hn as <-. by apply Htable.
    + rewrite lookup_insert_ne in Hn by done.
      by apply (Heap.wf_table _ Hwf c' n).
Qed.

(** A container that takes a value without parent. *)
Lemma attach_wf h v c nv val h1 h2 :
  Heap.heap_wf h →
  Heap.nodes h !! v = Some nv → Heap.parent nv = None →
  Heap.set_parent h v (Some c) = Some h1 →
  Heap.set_value h1 c val = Some h2 →
  (∀ w, w ∈ Heap.children (Heap.mkNode None val) →
        w = v ∨ Heap.child_of h w c) →
  (∀ o, val = Heap.NObject o → table_inv o) →
  Heap.heap_wf h2.
Proof.
  intros Hwf Hv Hnoparent Hset1 Hset2 Hsub Htable.
  apply set_parent_Some in Hset1 as (nv' & Hv' & Hnodes1 & Hnext1).
  assert (nv' = nv) as -> by congruence. clear Hv'.
  apply set_value_Some in Hset2 as (nc & Hc & Hnodes2 & Hnext2).
  assert (∀ c', ¬ Heap.child_of h v c') as Hroot.
  { intros c' Hchild.
    pose proof (Heap.wf_parent _ Hwf v c' nv Hchild Hv). congruence. }
  assert (Heap.parent nc = Some c ∧ c = v ∨
          Heap.nodes h !! c = Some nc ∧ c ≠ v) as Hnc.
  { rewrite Hnodes1 in Hc. destruct (decide (c = v)) as [->|Hne].
    - rewrite lookup_insert_eq in Hc. injection Hc as <-. by left.
    - rewrite lookup_insert_ne in Hc by done. by right. }
  assert (∀ w c', Heap.child_of h2 w c' →
            c' = c ∧ w = v ∨ w ≠ v ∧ Heap.child_of h w c') as Hchild.
  { intros w c' (n & Hn & Hw). rewrite Hnodes2 in Hn.
    destruct (decide (c' = c)) as [->|Hne].
    - rewrite lookup_insert_eq in Hn. injection Hn as <-.
      destruct (Hsub w Hw) as [->|Hold]; [by left|].
      right. split; [|done]. intros ->. by apply (Hroot c).
    - rewrite lookup_insert_ne in Hn by done. rewrite Hnodes1 in Hn.
      right. assert (Heap.child_of h w c') as Hold.
      { destruct (decide (c' = v)) as [->|Hne'].
        - rewrite lookup_insert_eq in Hn. injection Hn as <-. by exists nv.
        - rewrite lookup_insert_ne in Hn by done. by exists n. }
      split; [|done]. intros ->. by apply (Hroot c'). }
  assert (∀ w n, Heap.nodes h2 !! w = Some n →
            (w = v ∧ Heap.parent n = Some c) ∨
            (w ≠ v ∧ ∃ n0, Heap.nodes h !! w = Some n0 ∧
                           Heap.parent n0 = Heap.parent n ∧
                           (w ≠ c → n0 = n))) as Hnode.
  { intros w n Hn. rewrite Hnodes2 in Hn.
    destruct (decide (w = c)) as [->|Hne].
    - rewrite lookup_insert_eq in Hn. injection Hn as <-. simpl.
      destruct Hnc as [[Hp ->]|[Hc0 Hcv]]; [by left|].
      right. split; [done|]. by exists nc.
    - rewrite lookup_insert_ne in Hn by done. rewrite Hnodes1 in Hn.
      destruct (decide (w = v)) as [->|Hne'].
      + rewrite lookup_insert_eq in Hn. injection Hn as <-. by left.
      + rewrite lookup_insert_ne in Hn by done. right. split; [done|].
        by exists n. }
  split.
  - intros w c' n Hw Hn.
    destruct (Hchild w c' Hw) as [[-> ->]|[Hne Hold]];
      destruct (Hnode _ _ Hn) as [[? Hp]|(? & n0 & Hn0 & <- & _)]; try done.
    by apply (Heap.wf_parent _ Hwf w c').
  - intros w c' Hw. rewrite Hnext2, Hnext1.
    destruct (Hchild w c' Hw) as [[-> ->]|[Hne Hold]].
    + by apply (Heap.wf_next _ Hwf).
    + by apply (Heap.wf_child_next _ Hwf w c').
  - intros a [n Hn]. rewrite Hnext2, Hnext1. apply (Heap.wf_next _ Hwf).
    destruct (Hnode _ _ Hn) as [[-> _]|(_ & n0 & Hn0 & _)]; by eexists.
  - intros c' n o Hn Ho. rewrite Hnodes2 in Hn.
    destruct (decide (c' = c)) as [->|Hne].
    + rewrite lookup_insert_eq in Hn. injection Hn as <-. by apply Htable.
    + rewrite lookup_insert_ne in Hn by done. rewrite Hnodes1 in Hn.
      destruct (decide (c' = v)) as [->|Hne'].
      * rewrite lookup_insert_eq in Hn. injection Hn as <-.
        by apply (Heap.wf_table _ Hwf v nv).
      * rewrite lookup_insert_ne in Hn by done.
        by apply (Heap.wf_table _ Hwf c' n).
Qed.

(** ** The functions of the interface keep the invariant *)

#[local] Opaque Heap.free_fuel.

Lemma json_array_add_items {V} (arr : JSON_Array V) (v : V) arr' :
  json_array_add arr v = Some (JSONSuccess, arr') →
  items arr' = items arr ++ [v].
Proof.
  unfold json_array_add, json_array_resize.
  destruct (capacity arr <=? json_array_get_count arr); simpl.
  - destruct (_ =? 0); simpl; [done|].
    destruct (_ <? _); simpl; [done|]. by intros [= <-].
  - by intros [= <-].
Qed.

Lemma elem_of_insert_inv {A} (l : list A) i x y :
  y ∈ <[i := x]> l → y = x ∨ y ∈ l.
Proof.
  intros Hy. apply list_elem_of_lookup in Hy as [j Hj].
  apply list_lookup_insert_Some in Hj as [(_ & -> & _)|[_ Hj]]; [by left|].
  right. apply list_elem_of_lookup. by exists j.
Qed.

Lemma elem_of_swap_remove {A} (l : list A) i y :
  y ∈ swap_remove i l → y ∈ l.
Proof.
  unfold swap_remove.
  destruct (l !! (length l - 1)) as [x|] eqn:Hlast; [|done].
  intros Hy. apply elem_of_take in Hy as (j & Hj & _).
  assert (y ∈ <[i := x]> l) as Hin by (apply list_elem_of_lookup; by exists j).
  apply elem_of_insert_inv in Hin as [->|Hin]; [|done].
  apply list_elem_of_lookup. by eexists.
Qed.

Lemma parent_guard n :
  bool_decide (Heap.parent n ≠ None) = false → Heap.parent n = None.
Proof.
  intros Hguard. apply bool_decide_eq_false in Hguard.
  by destruct (Heap.parent n); [destruct Hguard|].
Qed.

Lemma json_array_append_value_wf h array value status h' :
  Heap.heap_wf h →
  Heap.json_array_append_value h array value = Some (status, h') →
  Heap.heap_wf h'.
Proof.
  intros Hwf. unfold Heap.json_array_append_value.
  destruct array as [a|], value as [v|]; try by intros [= _ <-].
  destruct (Heap.nodes h !! v) as [nv|] eqn:Hv; [|done]. simpl.
  destruct (bool_decide _) eqn:Hguard; [by intros [= _ <-]|].
  apply parent_guard in Hguard.
  destruct (Heap.nodes h !! a) as [na|] eqn:Ha; [|done]. simpl.
  destruct (Heap.value na) as [| | |arr| |] eqn:Hna; try done.
  destruct (json_array_add arr v) as [[[] arr']|] eqn:Hadd; simpl;
    [|by intros [= _ <-]|done].
  apply json_array_add_items in Hadd.
  destruct (Heap.set_parent h v (Some a)) as [h1|] eqn:Hset1; [|done]. simpl.
  destruct (Heap.set_value h1 a (Heap.NArray arr')) as [h2|] eqn:Hset2;
    [|done]. simpl.
  intros [= _ <-].
  apply (attach_wf h v a nv (Heap.NArray arr') h1 h2); try done.
  intros w Hw. simpl in Hw. unfold Heap.children in Hw. simpl in Hw.
  rewrite Hadd in Hw. apply elem_of_app in Hw as [Hw|Hw].
  - right. exists na. split; [done|]. unfold Heap.children. by rewrite Hna.
  - left. by apply list_elem_of_singleton in Hw.
Qed.

(** The container is still there, as it was, after a release that left a
    heap in which it can be stored to. *)
Lemma container_after_free h h1 h2 v c nv nc p :
  Heap.nodes h1 ⊆ Heap.nodes h →
  Heap.nodes h !! v = Some nv → Heap.nodes h !! c = Some nc →
  Heap.set_parent h1 v p = Some h2 →
  is_Some (Heap.nodes h2 !! c) →
  Heap.nodes h1 !! v = Some nv ∧ Heap.nodes h1 !! c = Some nc.
Proof.
  intros Hsub Hv Hc Hset [n Hn].
  apply set_parent_Some in Hset as (nv' & Hv' & Hnodes & _).
  assert (nv' = nv) as ->.
  { pose proof (lookup_weaken _ _ _ _ Hv' Hsub). congruence. }
  split; [done|]. rewrite Hnodes in Hn.
  destruct (decide (c = v)) as [->|Hne]; [congruence|].
  rewrite lookup_insert_ne in Hn by done.
  pose proof (lookup_weaken _ _ _ _ Hn Hsub). congruence.
Qed.

Lemma json_array_replace_value_wf h array ix value status h' :
  Heap.heap_wf h →
  Heap.json_array_replace_value h array ix value = Some (status, h') →
  Heap.heap_wf h'.
Proof.
  intros Hwf. unfold Heap.json_array_replace_value.
  destruct array as [a|], value as [v|]; try by intros [= _ <-].
  destruct (Heap.nodes h !! v) as [nv|] eqn:Hv; [|done]. simpl.
  destruct (bool_decide _) eqn:Hguard; [by intros [= _ <-]|].
  apply parent_guard in Hguard.
  destruct (Heap.nodes h !! a) as [na|] eqn:Ha; [|done]. simpl.
  destruct (Heap.value na) as [| | |arr| |] eqn:Hna; try done.
  destruct (json_array_get_count arr <=? ix); [by intros [= _ <-]|].
  destruct (json_array_get_value arr ix) as [old|]; [|done]. simpl.
  destruct (Heap.json_value_free (Heap.free_fuel h) h old) as [h1|] eqn:Hfree; [|done]. simpl.
  destruct (Heap.set_parent h1 v (Some a)) as [h2|] eqn:Hset1; [|done]. simpl.
  destruct (Heap.set_value h2 a _) as [h3|] eqn:Hset2; [|done]. simpl.
  intros [= _ <-].
  destruct (json_value_free_submap _ _ _ _ Hfree) as [Hsub _].
  destruct (container_after_free h h1 h2 v a nv na (Some a)) as [Hv1 Ha1];
    try done.
  { apply set_value_Some in Hset2 as (n & Hn & _). by exists n. }
  eapply (attach_wf h1 v a nv _ h2 h3); try done.
  - by apply (json_value_free_wf (Heap.free_fuel h) h old).
  - intros w Hw. unfold Heap.children in Hw. simpl in Hw.
    apply elem_of_insert_inv in Hw as [->|Hw]; [by left|].
    right. exists na. split; [done|]. unfold Heap.children. by rewrite Hna.
Qed.

Lemma json_array_remove_wf h array ix status h' :
  Heap.heap_wf h →
  Heap.json_array_remove h array ix = Some (status, h') →
  Heap.heap_wf h'.
Proof.
  intros Hwf. unfold Heap.json_array_remove.
  destruct array as [a|]; [|by intros [= _ <-]].
  destruct (Heap.nodes h !! a) as [na|] eqn:Ha; [|done]. simpl.
  destruct (Heap.value na) as [| | |arr| |] eqn:Hna; try done.
  destruct (json_array_get_count arr <=? ix); [by intros [= _ <-]|].
  destruct (json_array_get_value arr ix) as [old|]; [|done]. simpl.
  destruct (Heap.json_value_free (Heap.free_fuel h) h old) as [h1|] eqn:Hfree; [|done]. simpl.
  destruct (Heap.set_value h1 a _) as [h2|] eqn:Hset; [|done]. simpl.
  intros [= _ <-].
  destruct (json_value_free_submap _ _ _ _ Hfree) as [Hsub _].
  eapply (detach_wf h1 a _ h2); try done.
  - by apply (json_value_free_wf (Heap.free_fuel h) h old).
  - intros w Hw. unfold Heap.children in Hw. simpl in Hw.
    apply set_value_Some in Hset as (n & Hn & _).
    pose proof (lookup_weaken _ _ _ _ Hn Hsub).
    exists n. split; [done|]. assert (n = na) as -> by congruence.
    unfold Heap.children. rewrite Hna.
    eapply elem_of_sublist; [done|apply sublist_delete].
Qed.

Lemma json_object_set_value_wf h object name value status h' :
  Heap.heap_wf h → cstring name →
  Heap.json_object_set_value h object (Some name) value = Some (status, h') →
  Heap.heap_wf h'.
Proof.
  intros Hwf Hname. unfold Heap.json_object_set_value.
  destruct object as [ob|], value as [v|]; try by intros [= _ <-].
  destruct (Heap.nodes h !! v) as [nv|] eqn:Hv; [|done]. simpl.
  destruct (bool_decide _) eqn:Hguard; [by intros [= _ <-]|].
  apply parent_guard in Hguard.
  destruct (Heap.nodes h !! ob) as [no|] eqn:Hob; [|done]. simpl.
  destruct (Heap.value no) as [| |o| | |] eqn:Hno; try done.
  pose proof (Heap.wf_table _ Hwf ob no o Hob Hno) as Hinv.
  assert (∀ w, w ∈ values o → Heap.child_of h w ob) as Hchildren.
  { intros w Hw. exists no. split; [done|]. unfold Heap.children.
    by rewrite Hno. }
  assert (∃ o', json_object_set_value o name v = Some (JSONSuccess, o') ∧
                table_inv o' ∧ ∀ w, w ∈ values o' → w = v ∨ w ∈ values o)
    as (o' & Hset & Hinv' & Hvalues).
  { destruct (decide (name ∈ names o)) as [Hin|Hnotin].
    - apply list_elem_of_lookup in Hin as [i Hi].
      destruct (json_object_set_value_present o name v i)
        as (o' & Hrun & Hinv' & _ & Hvs); [done..|].
      exists o'. split_and!; [done..|]. rewrite Hvs.
      apply elem_of_insert_inv.
    - destruct (json_object_set_value_absent o name v)
        as (o' & Hrun & Hinv' & _ & Hvs); [done..|].
      exists o'. split_and!; [done..|]. rewrite Hvs. intros w Hw.
      apply elem_of_app in Hw as [Hw|Hw]; [by right|].
      left. by apply list_elem_of_singleton in Hw. }
  rewrite Hset.
  destruct (json_object_get_value o name) as [old_value|]; [|done]. simpl.
  match goal with
  | |- context [?m ≫= _] =>
      assert (∀ h1, m = Some h1 →
                Heap.heap_wf h1 ∧ Heap.nodes h1 ⊆ Heap.nodes h) as Hstep
  end.
  { intros h1 Hh1. destruct old_value as [old|].
    - destruct (json_value_free_submap _ _ _ _ Hh1) as [Hsub _].
      split; [|done]. by apply (json_value_free_wf (Heap.free_fuel h) h old).
    - destruct (item_capacity o <=? count o).
      + apply (set_parents_children h ob) in Hh1; [|done..]. by subst h1.
      + by injection Hh1 as <-. }
  match goal with
  | |- context [?m ≫= _] => destruct m as [h1|]; [|done]
  end.
  destruct (Hstep h1 eq_refl) as [Hwf1 Hsub]. simpl.
  destruct (Heap.set_parent h1 v (Some ob)) as [h2|] eqn:Hset1; [|done]. simpl.
  destruct (Heap.set_value h2 ob (Heap.NObject o')) as [h3|] eqn:Hset2;
    [|done]. simpl.
  intros [= _ <-].
  destruct (container_after_free h h1 h2 v ob nv no (Some ob)) as [Hv1 Hob1];
    try done.
  { apply set_value_Some in Hset2 as (n & Hn & _). by exists n. }
  apply (attach_wf h1 v ob nv (Heap.NObject o') h2 h3); try done.
  - intros w Hw. unfold Heap.children in Hw. simpl in Hw.
    destruct (Hvalues w Hw) as [->|Hold]; [by left|].
    right. exists no. split; [done|]. unfold Heap.children. by rewrite Hno.
  - by intros ? [= <-].
Qed.

Lemma json_object_remove_wf h object name status h' :
  Heap.heap_wf h → cstring name →
  Heap.json_object_remove h object name = Some (status, h') →
  Heap.heap_wf h'.
Proof.
  intros Hwf Hname. unfold Heap.json_object_remove.
  destruct object as [ob|]; [|by intros [= _ <-]].
  destruct (Heap.nodes h !! ob) as [no|] eqn:Hob; [|done]. simpl.
  destruct (Heap.value no) as [| |o| | |] eqn:Hno; try done.
  pose proof (Heap.wf_table _ Hwf ob no o Hob Hno) as Hinv.
  destruct (decide (name ∈ names o)) as [Hin|Hnotin].
  - apply list_elem_of_lookup in Hin as [i Hi].
    destruct (json_object_get_value_present o name i) as (old & _ & ->);
      [done..|].
    destruct (json_object_remove_present o name i)
      as (o' & -> & Hinv' & _ & Hvs); [done..|].
    simpl.
    destruct (Heap.json_value_free (Heap.free_fuel h) h old) as [h1|] eqn:Hfree;
      [|done]. simpl.
    destruct (Heap.set_value h1 ob (Heap.NObject o')) as [h2|] eqn:Hset;
      [|done]. simpl.
    intros [= _ <-].
    destruct (json_value_free_submap _ _ _ _ Hfree) as [Hsub _].
    apply (detach_wf h1 ob (Heap.NObject o') h2); try done.
    + by apply (json_value_free_wf (Heap.free_fuel h) h old).
    + intros w Hw. unfold Heap.children in Hw. simpl in Hw.
      apply set_value_Some in Hset as (n & Hn & _).
      pose proof (lookup_weaken _ _ _ _ Hn Hsub).
      exists n. split; [done|]. assert (n = no) as -> by congruence.
      unfold Heap.children. rewrite Hno. rewrite Hvs in Hw.
      by apply elem_of_swap_remove in Hw.
    + by intros ? [= <-].
  - rewrite json_object_get_value_absent by done. simpl. by intros [= _ <-].
Qed.

Lemma run_call_wf h call h' :
  Heap.heap_wf h → Heap.call_ok call → Heap.run_call h call = Some h' →
  Heap.heap_wf h'.
Proof.
  intros Hwf Hok.
  destruct call as [| |s|number|boolean| |array value|array ix value
                    |array ix|object name value|object name];
    cbn [Heap.run_call Heap.call_ok] in *.
  - intros [= <-]. apply alloc_wf; [done..|].
    intros o [= <-]. apply json_object_init_inv. by left.
  - intros [= <-]. by apply alloc_wf.
  - intros [= <-]. unfold Heap.json_value_init_string.
    destruct (is_valid_utf8 _ _); [by apply alloc_wf|done].
  - intros [= <-]. unfold Heap.json_value_init_number.
    destruct (IS_NUMBER_INVALID _); [done|by apply alloc_wf].
  - intros [= <-]. by apply alloc_wf.
  - intros [= <-]. by apply alloc_wf.
  - destruct (Heap.json_array_append_value _ _ _) as [[status h1]|] eqn:Hcall;
      [|done].
    intros [= <-]. by apply (json_array_append_value_wf h array value status).
  - destruct (Heap.json_array_replace_value _ _ _ _) as [[status h1]|]
      eqn:Hcall; [|done].
    intros [= <-].
    by apply (json_array_replace_value_wf h array ix value status).
  - destruct (Heap.json_array_remove _ _ _) as [[status h1]|] eqn:Hcall;
      [|done].
    intros [= <-]. by apply (json_array_remove_wf h array ix status).
  - destruct (Heap.json_object_set_value _ _ _ _) as [[status h1]|] eqn:Hcall;
      [|done].
    intros [= <-].
    by apply (json_object_set_value_wf h object name value status).
  - destruct (Heap.json_object_remove _ _ _) as [[status h1]|] eqn:Hcall;
      [|done].
    intros [= <-]. by apply (json_object_remove_wf h object name status).
Qed.

Lemma run_calls_wf calls : ∀ h h',
  Heap.heap_wf h → Forall Heap.call_ok calls →
  Heap.run_calls calls h = Some h' → Heap.heap_wf h'.
Proof.
  induction calls as [|call calls IH]; intros h h' Hwf Hok Hrun; simpl in Hrun.
  - by injection Hrun as <-.
  - apply Forall_cons in Hok as [Hcall Hok].
    destruct (Heap.run_call h call) as [h1|] eqn:Hh1; [|done].
    apply (IH h1); [|done..]. by apply (run_call_wf h call).
Qed.

(** C7.  In a heap that calls of the interface built, a value that is a
    child of a container is not attached again: [json_array_append_value],
    [json_array_replace_value] and [json_object_set_value] return
    [JSONFailure] on it, whatever the container they are given, and leave
    the heap, and with it both containers, as it was. *)
Theorem ownership_guard calls h v c :
  Forall Heap.call_ok calls → Heap.run_calls calls Heap.empty = Some h →
  Heap.child_of h v c → is_Some (Heap.nodes h !! v) →
  (∀ array,
     Heap.json_array_append_value h array (Some v) = Some (JSONFailure, h)) ∧
  (∀ array ix,
     Heap.json_array_replace_value h array ix (Some v)
     = Some (JSONFailure, h)) ∧
  (∀ object name,
     Heap.json_object_set_value h object name (Some v)
     = Some (JSONFailure, h)).
Proof.
  intros Hok Hrun Hchild [n Hn].
  assert (Heap.heap_wf h) as Hwf.
  { apply (run_calls_wf calls Heap.empty); [apply heap_wf_empty|done..]. }
  pose proof (Heap.wf_parent _ Hwf v c n Hchild Hn) as Hparent.
  assert (bool_decide (Heap.parent n ≠ None) = true) as Hguard.
  { apply bool_decide_eq_true. by rewrite Hparent. }
  split_and!.
  - intros [a|]; [|done]. unfold Heap.json_array_append_value.
    rewrite Hn. simpl. by rewrite Hguard.
  - intros [a|] ix; [|done]. unfold Heap.json_array_replace_value.
    rewrite Hn. simpl. by rewrite Hguard.
  - intros [ob|] [name|]; try done. unfold Heap.json_object_set_value.
    rewrite Hn. simpl. by rewrite Hguard.
Qed.

End HeapProofs.

Lemma ownership_guard_witness :
  Heap.run_calls attach_example_calls Heap.empty = Some attach_example_heap ∧
  Heap.child_of attach_example_heap 2 0 ∧
  Heap.json_array_append_value attach_example_heap (Some 1) (Some 2)
  = Some (JSONFailure, attach_example_heap) ∧
  Heap.json_array_replace_value attach_example_heap (Some 1) 0 (Some 2)
  = Some (JSONFailure, attach_example_heap) ∧
  Heap.json_object_set_value attach_example_heap (Some 1) (Some ["k"]) (Some 2)
  = Some (JSONFailure, attach_example_heap).
Proof.
  assert (Heap.run_calls attach_example_calls Heap.empty
          = Some attach_example_heap) as Hrun by (by vm_compute).
  assert (Heap.child_of attach_example_heap 2 0) as Hchild.
  { eexists. split; [by vm_compute|]. simpl. by left. }
  destruct (ownership_guard attach_example_calls attach_example_heap 2 0)
    as (Happend & Hreplace & Hset); [|exact Hrun|exact Hchild| |].
  - repeat constructor.
  - eexists. by vm_compute.
  - split_and!; [exact Hrun|exact Hchild|apply Happend|apply Hreplace
                 |apply Hset].
Defined.

(** * Parsing what the serializer writes *)

(** ** Strings *)

Section StringRoundTrip.
Context `{FloatOps}.

Lemma skip_quotes_loop_escaped_char parser c tail :
  skip_quotes_loop (escaped_char parser c ++ tail) = skip_quotes_loop tail.
Proof.
  unfold escaped_char, escape_sequence.
  destruct c as [[] [] [] [] [] [] [] []];
    try destruct (escape_slashes parser); reflexivity.
Qed.

Lemma skip_quotes_loop_escaped parser s rest :
  skip_quotes_loop (concat (map (escaped_char parser) s) ++ QUOTE :: rest)
  = Some rest.
Proof.
  induction s as [|c s IH]; [done|]. simpl.
  by rewrite <- app_assoc, skip_quotes_loop_escaped_char.
Qed.

Lemma process_string_loop_unfold fuel input_ptr consumed input_len output :
  process_string_loop (S fuel) input_ptr consumed input_len output =
  if negb (Ascii.eqb (peek input_ptr) NUL) && (consumed <? input_len) then
    if Ascii.eqb (peek input_ptr) "\" then
      let input_ptr' := tl input_ptr in
      let continue bytes rest :=
        process_string_loop fuel (tl rest)
          (consumed + (length input_ptr - length (tl rest))) input_len
          (output ++ bytes) in
      match peek input_ptr' with
      | "034" => continue [QUOTE] input_ptr'
      | "\" => continue ["\"] input_ptr'
      | "/" => continue ["/"] input_ptr'
      | "b" => continue ["008"] input_ptr'
      | "f" => continue ["012"] input_ptr'
      | "n" => continue ["010"] input_ptr'
      | "r" => continue ["013"] input_ptr'
      | "t" => continue ["009"] input_ptr'
      | "u" =>
          match parse_utf16 input_ptr' with
          | None => Some None
          | Some (bytes, rest) => continue bytes rest
          end
      | _ => Some None
      end
    else if (uchar (peek input_ptr) <? 32)%Z then Some None
    else
      process_string_loop fuel (tl input_ptr) (consumed + 1) input_len
        (output ++ [peek input_ptr])
  else Some (Some output).
Proof. reflexivity. Qed.

Lemma process_string_loop_escaped_char parser c tail fuel consumed input_len
    output :
  consumed < input_len →
  process_string_loop (S fuel) (escaped_char parser c ++ tail) consumed
    input_len output
  = process_string_loop fuel tail
      (consumed + length (escaped_char parser c)) input_len (output ++ [c]).
Proof.
  intros Hlt. rewrite process_string_loop_unfold.
  apply Nat.ltb_lt in Hlt.
  destruct (escape_slashes parser) eqn:Hslash;
    destruct c as [[] [] [] [] [] [] [] []];
    unfold escaped_char, escape_sequence; rewrite ?Hslash;
    cbn -[process_string_loop Nat.sub Nat.ltb]; rewrite Hlt;
    cbn -[process_string_loop Nat.sub Nat.ltb];
    try (match goal with
         | |- context [parse_utf16 ?l] =>
             let r := eval vm_compute in (parse_utf16 l) in
             replace (parse_utf16 l) with r by (vm_compute; reflexivity)
         end;
         cbn -[process_string_loop Nat.sub Nat.ltb]);
    (f_equal; lia).
Qed.

Lemma escaped_char_length parser c : 0 < length (escaped_char parser c).
Proof.
  unfold escaped_char, escape_sequence.
  destruct c as [[] [] [] [] [] [] [] []];
    try destruct (escape_slashes parser); simpl; lia.
Qed.

Lemma escaped_length parser s :
  length s ≤ length (concat (map (escaped_char parser) s)).
Proof.
  induction s as [|c s IH]; simpl; [done|].
  rewrite length_app. pose proof (escaped_char_length parser c). lia.
Qed.

Lemma process_string_loop_escaped parser s : ∀ fuel consumed input_len output rest,
  consumed + length (concat (map (escaped_char parser) s)) = input_len →
  length s ≤ fuel →
  process_string_loop fuel
    (concat (map (escaped_char parser) s) ++ QUOTE :: rest) consumed
    input_len output
  = Some (Some (output ++ s)).
Proof.
  induction s as [|c s IH]; intros fuel consumed input_len output rest Hlen Hfuel.
  - simpl in *. rewrite app_nil_r.
    destruct fuel; simpl;
      by destruct (Nat.ltb_spec consumed input_len); [lia|].
  - destruct fuel as [|fuel]; [simpl in Hfuel; lia|]. simpl in Hlen, Hfuel.
    rewrite length_app in Hlen.
    pose proof (escaped_char_length parser c).
    cbn [map concat]. rewrite <- app_assoc.
    rewrite process_string_loop_escaped_char by lia.
    rewrite IH by lia. by rewrite <- app_assoc.
Qed.

Lemma get_quoted_string_text parser s rest :
  get_quoted_string (string_text parser s ++ rest) = Some (Some (s, rest)).
Proof.
  unfold get_quoted_string, skip_quotes, string_text, process_string.
  cbn [app peek hd tl]. rewrite <- app_assoc. cbn [app].
  cbn [Ascii.eqb Bool.eqb QUOTE negb]. simpl negb. cbv iota.
  rewrite skip_quotes_loop_escaped.
  rewrite process_string_loop_escaped; [done| |].
  - simpl. rewrite !length_app. simpl. lia.
  - rewrite length_app. pose proof (escaped_length parser s). lia.
Qed.

Lemma parse_string_value_text parser s rest :
  parse_string_value (string_text parser s ++ rest)
  = Some (Some (Value_String s, rest)).
Proof.
  unfold parse_string_value. by rewrite get_quoted_string_text.
Qed.

End StringRoundTrip.

(** ** The start and the end of a text *)

Lemma value_start_spec c :
  value_start c = true →
  isspace c = false ∧ c ≠ NUL ∧ c ≠ "]" ∧ c ≠ "}" ∧ c ≠ ",".
Proof.
  destruct c as [[] [] [] [] [] [] [] []]; try discriminate; done.
Qed.

Lemma number_start_value_start c : number_start c = true → value_start c = true.
Proof.
  destruct c as [[] [] [] [] [] [] [] []]; try discriminate; done.
Qed.

Lemma value_end_comma rest : value_end ("," :: rest) = true.
Proof. reflexivity. Qed.

Lemma value_end_bracket rest : value_end ("]" :: rest) = true.
Proof. reflexivity. Qed.

Lemma value_end_brace rest : value_end ("}" :: rest) = true.
Proof. reflexivity. Qed.

Lemma skip_whitespaces_start c s :
  isspace c = false → skip_whitespaces (c :: s) = c :: s.
Proof. intros Hc. simpl. by rewrite Hc. Qed.

Lemma elements_text_cons (t t2 : list ascii) texts :
  elements_text (t :: t2 :: texts) = t ++ "," :: elements_text (t2 :: texts).
Proof. reflexivity. Qed.

(** The texts of the elements of a compact container. *)
Lemma concat_imap_elements level (texts : list (list ascii)) : ∀ k,
  concat (imap (λ i, element_text false level (k + length texts) (k + i)) texts)
  = elements_text texts.
Proof.
  induction texts as [|text texts IH]; intros k; [done|].
  rewrite imap_cons. cbn [concat].
  rewrite (imap_ext _ (λ i, element_text false level
                              (S k + length texts) (S k + i))).
  2:{ intros i t _. simpl. f_equal; lia. }
  rewrite IH. unfold element_text. simpl length.
  destruct texts as [|text' texts].
  - simpl. destruct (Nat.ltb_spec (k + 0) (k + 1 - 1)); [lia|].
    by rewrite !app_nil_r.
  - destruct (Nat.ltb_spec (k + 0) (k + S (length (text' :: texts)) - 1));
      [|simpl in *; lia].
    rewrite elements_text_cons. cbn [app]. by rewrite <- !app_assoc.
Qed.

Lemma container_text_compact open close level (texts : list (list ascii)) :
  container_text open close false level texts
  = open :: elements_text texts ++ [close].
Proof.
  unfold container_text. rewrite andb_false_r. simpl. f_equal. f_equal.
  apply (concat_imap_elements level texts 0).
Qed.

Lemma elements_text_start (texts : list (list ascii)) :
  texts ≠ [] →
  Forall (λ t, ∃ c t', t = c :: t' ∧ value_start c = true) texts →
  ∃ c s, elements_text texts = c :: s ∧ value_start c = true.
Proof.
  intros Hne Hstart. destruct texts as [|t texts]; [done|].
  apply Forall_cons in Hstart as [(c & t' & -> & Hc) _].
  destruct texts; simpl; by eexists _, _.
Qed.

Lemma elements_text_length (texts : list (list ascii)) :
  Forall (λ t, ∃ c t', t = c :: t' ∧ value_start c = true) texts →
  length texts ≤ length (elements_text texts).
Proof.
  induction 1 as [|t texts (c & t' & -> & _) _ IH]; [done|].
  destruct texts as [|t2 texts]; [simpl; lia|].
  rewrite elements_text_cons, length_app. cbn [length] in *. lia.
Qed.

(** ** Arrays *)

Section RoundTrip.
Context `{FloatOps}.

Lemma ends_value_end (v : JSON_Value) rest :
  value_end rest = true → ends_value v rest.
Proof. by destruct v. Qed.

Lemma peek_start (t : list ascii) c t' rest : t = c :: t' → peek (t ++ rest) = c.
Proof. by intros ->. Qed.

Lemma json_array_add_ok {V} (arr : JSON_Array V) (v : V) :
  length (items arr) ≤ capacity arr →
  ∃ arr', json_array_add arr v = Some (JSONSuccess, arr') ∧
          items arr' = items arr ++ [v] ∧
          length (items arr') ≤ capacity arr'.
Proof.
  intros Hcap. unfold json_array_add, json_array_resize, json_array_get_count.
  destruct (Nat.leb_spec (capacity arr) (length (items arr))); simpl.
  - destruct (Nat.eqb_spec (Nat.max (capacity arr * 2) STARTING_CAPACITY) 0).
    { unfold STARTING_CAPACITY in *. lia. }
    destruct (Nat.ltb_spec (Nat.max (capacity arr * 2) STARTING_CAPACITY)
                (length (items arr))).
    { unfold STARTING_CAPACITY in *. lia. }
    simpl. eexists. split; [done|]. simpl. split; [done|].
    rewrite length_app. simpl. unfold STARTING_CAPACITY. lia.
  - eexists. split; [done|]. simpl. split; [done|].
    rewrite length_app. simpl. lia.
Qed.

Lemma parse_array_loop_unfold rec fuel s nesting acc :
  parse_array_loop rec (S fuel) s nesting acc =
  if Ascii.eqb (peek s) NUL then Some (Some (acc, s))
  else
    new_array_value ← rec s nesting;
    match new_array_value with
    | None => Some None
    | Some (new_array_value, s) =>
        '(status, output_array) ← json_array_add acc new_array_value;
        match status with
        | JSONFailure => Some None
        | JSONSuccess =>
            let s := skip_whitespaces s in
            if negb (Ascii.eqb (peek s) ",") then Some (Some (output_array, s))
            else
              let s := skip_whitespaces (tl s) in
              if Ascii.eqb (peek s) "]" then Some (Some (output_array, s))
              else parse_array_loop rec fuel s nesting output_array
        end
    end.
Proof. reflexivity. Qed.

Lemma parse_array_loop_elements depth nesting vals texts :
  Forall2 (parses_back depth nesting) vals texts → vals ≠ [] →
  ∀ acc fuel rest,
    length vals ≤ fuel → length (items acc) ≤ capacity acc →
    ∃ ps acc',
      parse_array_loop (parse_value depth) fuel
        (elements_text texts ++ "]" :: rest) nesting acc
      = Some (Some (acc', "]" :: rest)) ∧
      items acc' = items acc ++ ps ∧
      length (items acc') ≤ capacity acc' ∧
      Forall2 (λ p v, json_value_equals_value p (Some v) = Some true) ps vals.
Proof.
  induction 1 as [|v t vals texts Hvt Hrest IH]; [done|].
  intros _ acc fuel rest Hfuel Hcap.
  destruct fuel as [|fuel]; [simpl in Hfuel; lia|].
  destruct Hvt as [(c & t' & Ht & Hc) Hparse].
  destruct (value_start_spec c Hc) as (Hsp & Hnul & Hbr & Hbrace & Hcomma).
  rewrite parse_array_loop_unfold.
  destruct Hrest as [|v2 t2 vals texts Hvt2 Hrest].
  - cbn [elements_text]. rewrite (peek_start t c t') by done.
    rewrite (proj2 (Ascii.eqb_neq c NUL)) by done.
    destruct (Hparse ("]" :: rest)) as (p & -> & Hp).
    { by apply ends_value_end. }
    destruct (json_array_add_ok acc p Hcap) as (acc' & Hadd & Hitems & Hcap').
    cbn [mbind option_bind]. rewrite Hadd. cbn.
    exists [p], acc'. split_and!; [done..|]. by repeat constructor.
  - rewrite elements_text_cons, <- app_assoc.
    rewrite (peek_start t c t') by done.
    rewrite (proj2 (Ascii.eqb_neq c NUL)) by done.
    destruct (Hparse (("," :: elements_text (t2 :: texts)) ++ "]" :: rest))
      as (p & -> & Hp).
    { by apply ends_value_end. }
    destruct (json_array_add_ok acc p Hcap) as (acc1 & Hadd & Hitems & Hcap1).
    cbn [mbind option_bind]. rewrite Hadd.
    destruct (IH ltac:(done) acc1 fuel rest) as (ps & acc' & Hloop & Hps & Hcap' & Heq);
      [simpl in *; lia|done|].
    destruct Hvt2 as [(c2 & t2' & Ht2 & Hc2) _].
    destruct (value_start_spec c2 Hc2) as (Hsp2 & _ & Hbr2 & _).
    assert (∃ s2, elements_text (t2 :: texts) ++ "]" :: rest = c2 :: s2)
      as [s2 Hs2].
    { destruct texts; [cbn [elements_text]|rewrite elements_text_cons];
        rewrite Ht2; by eexists. }
    cbn -[parse_array_loop elements_text]. rewrite Hs2.
    rewrite (skip_whitespaces_start c2) by done. cbn [peek hd].
    rewrite (proj2 (Ascii.eqb_neq c2 "]")) by done.
    rewrite <- Hs2, Hloop.
    exists (p :: ps), acc'. split_and!; [done| |done|by constructor].
    rewrite Hps, Hitems. by rewrite <- app_assoc.
Qed.

End RoundTrip.

Section RoundTripContainers.
Context `{FloatOps}.

Lemma parse_array_value_elements depth nesting vals texts rest :
  Forall2 (parses_back depth nesting) vals texts →
  ∃ ps cap,
    parse_array_value (parse_value depth)
      ("[" :: elements_text texts ++ "]" :: rest) nesting
    = Some (Some (Value_Array {| items := ps; capacity := cap |}, rest)) ∧
    Forall2 (λ p v, json_value_equals_value p (Some v) = Some true) ps vals.
Proof.
  intros Hvals. destruct (decide (vals = [])) as [->|Hne].
  - apply Forall2_nil_inv_l in Hvals as ->. exists [], 0. by split.
  - assert (Forall (λ t, ∃ c t', t = c :: t' ∧ value_start c = true) texts)
      as Hstart.
    { apply Forall_forall. intros t Ht.
      apply list_elem_of_lookup in Ht as [i Hi].
      destruct (Forall2_lookup_r _ _ _ _ _ Hvals Hi) as (v & _ & Hv & _).
      done. }
    assert (texts ≠ []) as Hne'.
    { intros ->. by apply Forall2_nil_inv_r in Hvals. }
    destruct (elements_text_start texts Hne' Hstart) as (c & s & Hs & Hc).
    destruct (value_start_spec c Hc) as (Hsp & _ & Hbr & _).
    unfold parse_array_value. cbn [peek hd tl Ascii.eqb Bool.eqb negb].
    set (body := elements_text texts ++ "]" :: rest).
    assert (skip_whitespaces body = body) as ->.
    { unfold body. rewrite Hs. by apply skip_whitespaces_start. }
    assert (peek body = c) as Hpeek by (unfold body; by rewrite Hs).
    rewrite Hpeek, (proj2 (Ascii.eqb_neq c "]")) by done.
    destruct (parse_array_loop_elements depth nesting vals texts Hvals Hne
                {| items := []; capacity := 0 |} (length body) rest)
      as (ps & acc' & Hloop & Hps & Hcap & Heq).
    { unfold body. rewrite length_app.
      pose proof (elements_text_length texts Hstart).
      apply Forall2_length in Hvals. lia. }
    { simpl. lia. }
    fold body in Hloop. rewrite Hloop. cbn [mbind option_bind].
    cbn [skip_whitespaces isspace peek hd tl Ascii.eqb Bool.eqb negb].
    unfold json_array_resize, json_array_get_count.
    simpl in Hps. rewrite Hps.
    assert (ps ≠ []) as Hps_ne.
    { intros ->. apply Forall2_nil_inv_l in Heq. done. }
    destruct (Nat.eqb_spec (length ps) 0) as [Hz|_].
    { by destruct ps. }
    destruct (Nat.ltb_spec (length ps) (length ps)); [lia|].
    cbn. by exists ps, (length ps).
Qed.

Lemma json_value_equals_array_loop_true ps (a_array b_array : JSON_Array JSON_Value) :
  items a_array = ps →
  Forall2 (λ p v, json_value_equals_value p (Some v) = Some true) ps
    (items b_array) →
  ∀ n i, i + n = length ps →
    json_value_equals_array_loop (map json_value_equals_value ps)
      a_array b_array i n = Some true.
Proof.
  intros Hitems Heq. induction n as [|n IH]; intros i Hi; [done|].
  cbn [json_value_equals_array_loop].
  unfold json_array_get_count, json_array_get_value, json_array_get_count.
  rewrite Hitems. rewrite <- (Forall2_length _ _ _ Heq).
  destruct (Nat.leb_spec (length ps) i); [lia|].
  destruct (lookup_lt_is_Some_2 ps i) as [p Hp]; [lia|].
  destruct (Forall2_lookup_l _ _ _ _ _ Heq Hp) as (v & Hv & Hpv).
  rewrite Hv. unfold json_value_equals_child.
  rewrite list_lookup_fmap, Hp. simpl. rewrite Hpv. simpl.
  apply IH. lia.
Qed.

Lemma json_value_equals_array ps cap (a : JSON_Array JSON_Value) :
  Forall2 (λ p v, json_value_equals_value p (Some v) = Some true) ps (items a) →
  json_value_equals_value (Value_Array {| items := ps; capacity := cap |})
    (Some (Value_Array a)) = Some true.
Proof.
  intros Heq. cbn [json_value_equals_value json_value_get_type].
  rewrite bool_decide_eq_true_2 by done. cbn.
  unfold json_array_get_count. cbn [items].
  rewrite (Forall2_length _ _ _ Heq), Nat.eqb_refl. cbn [negb].
  rewrite <- (Forall2_length _ _ _ Heq).
  by apply json_value_equals_array_loop_true.
Qed.

(** ** Objects *)

Lemma parse_object_loop_unfold rec fuel s nesting acc :
  parse_object_loop rec (S fuel) s nesting acc =
  if Ascii.eqb (peek s) NUL then Some (Some (acc, s))
  else
    new_key ← get_quoted_string s;
    match new_key with
    | None => Some None
    | Some (new_key, s) =>
        if negb (length new_key =? strlen new_key) then Some None
        else
          let s := skip_whitespaces s in
          if negb (Ascii.eqb (peek s) ":") then Some None
          else
            new_value ← rec (tl s) nesting;
            match new_value with
            | None => Some None
            | Some (new_value, s) =>
                '(status, output_object) ←
                  json_object_add acc new_key new_value;
                match status with
                | JSONFailure => Some None
                | JSONSuccess =>
                    let s := skip_whitespaces s in
                    if negb (Ascii.eqb (peek s) ",")
                    then Some (Some (output_object, s))
                    else
                      let s := skip_whitespaces (tl s) in
                      if Ascii.eqb (peek s) "}"
                      then Some (Some (output_object, s))
                      else parse_object_loop rec fuel s nesting output_object
                end
            end
    end.
Proof. reflexivity. Qed.

Lemma entry_text_compact parser key text :
  entry_text parser false key text = string_text parser key ++ ":" :: text.
Proof. done. Qed.

Lemma string_text_start parser s :
  ∃ s', string_text parser s = QUOTE :: s'.
Proof. by eexists. Qed.

Lemma parse_object_loop_entries parser depth nesting keys :
  ∀ vals texts acc fuel rest,
    Forall2 (parses_back depth nesting) vals texts →
    length keys = length vals → keys ≠ [] →
    Forall cstring keys → NoDup keys →
    table_inv acc → (∀ key, key ∈ keys → key ∉ names acc) →
    length keys ≤ fuel →
    ∃ ps acc',
      parse_object_loop (parse_value depth) fuel
        (elements_text (zip_with (entry_text parser false) keys texts)
           ++ "}" :: rest) nesting acc
      = Some (Some (acc', "}" :: rest)) ∧
      table_inv acc' ∧
      names acc' = names acc ++ keys ∧
      values acc' = values acc ++ ps ∧
      Forall2 (λ p v, json_value_equals_value p (Some v) = Some true) ps vals.
Proof.
  induction keys as [|key keys IH]; [done|].
  intros vals texts acc fuel rest Hvals Hlen _ Hcstr Hnodup Hinv Hfresh Hfuel.
  destruct Hvals as [|v t vals texts Hvt Hrest]; [done|].
  destruct fuel as [|fuel]; [simpl in Hfuel; lia|].
  apply Forall_cons in Hcstr as [Hkey Hcstr].
  apply NoDup_cons in Hnodup as [Hnotin Hnodup].
  destruct Hvt as [(c & t' & Ht & Hc) Hparse].
  rewrite parse_object_loop_unfold. cbn [zip_with].
  set (entries := zip_with (entry_text parser false) keys texts).
  assert (∀ tail,
            elements_text (entry_text parser false key t :: entries) ++ tail
            = string_text parser key ++ ":" :: t ++
                match entries with
                | [] => tail
                | _ => "," :: elements_text entries ++ tail
                end) as Hshape.
  { intros tail. rewrite entry_text_compact.
    destruct entries; [cbn [elements_text]|rewrite elements_text_cons];
      rewrite <- !app_assoc; cbn [app]; by rewrite <- ?app_assoc. }
  rewrite Hshape.
  destruct (string_text_start parser key) as [q Hq].
  rewrite (peek_start _ QUOTE q) by done.
  cbn [Ascii.eqb Bool.eqb QUOTE NUL]. simpl (_ && _). cbv iota.
  rewrite get_quoted_string_text. cbn [mbind option_bind].
  rewrite strlen_cstring, Nat.eqb_refl by done. cbn [negb].
  cbn [skip_whitespaces isspace peek hd tl Ascii.eqb Bool.eqb negb].
  destruct keys as [|key2 keys].
  - destruct vals; [|done]. apply Forall2_nil_inv_l in Hrest as ->.
    cbn [zip_with] in entries. subst entries. cbv iota.
    destruct (Hparse ("}" :: rest)) as (p & -> & Hp).
    { by apply ends_value_end. }
    destruct (json_object_add_absent acc key p)
      as (acc' & Hadd & Hinv' & Hkeys & Hvalues); [done|done| |].
    { apply Hfresh. by left. }
    cbn [mbind option_bind]. rewrite Hadd. cbn.
    exists [p], acc'. split_and!; [done..|]. by repeat constructor.
  - destruct Hrest as [|v2 t2 vals texts Hvt2 Hrest]; [done|].
    cbn [zip_with] in entries. subst entries. cbv iota.
    set (entries := entry_text parser false key2 t2
                      :: zip_with (entry_text parser false) keys texts) in *.
    destruct (Hparse ("," :: elements_text entries ++ "}" :: rest))
      as (p & -> & Hp).
    { by apply ends_value_end. }
    destruct (json_object_add_absent acc key p)
      as (acc1 & Hadd & Hinv1 & Hkeys1 & Hvalues1); [done|done| |].
    { apply Hfresh. by left. }
    cbn [mbind option_bind]. rewrite Hadd.
    destruct (IH (v2 :: vals) (t2 :: texts) acc1 fuel rest)
      as (ps & acc' & Hloop & Hinv' & Hkeys' & Hvalues' & Heq); try done.
    { by constructor. }
    { simpl in *. lia. }
    { intros k Hk. rewrite Hkeys1. intros Hin.
      apply elem_of_app in Hin as [Hin|Hin].
      - revert Hin. apply Hfresh. by right.
      - apply list_elem_of_singleton in Hin as ->. done. }
    { simpl in *. lia. }
    cbn [zip_with] in Hloop. fold entries in Hloop.
    assert (∃ s2, elements_text entries ++ "}" :: rest = QUOTE :: s2)
      as [s2 Hs2].
    { unfold entries.
      destruct (zip_with _ keys texts);
        [cbn [elements_text]|rewrite elements_text_cons];
        rewrite entry_text_compact; by eexists. }
    cbn -[parse_object_loop elements_text entries]. rewrite Hs2.
    cbn -[parse_object_loop elements_text entries].
    rewrite <- Hs2, Hloop.
    exists (p :: ps), acc'. split_and!; [done|done| | |by constructor].
    + rewrite Hkeys', Hkeys1. by rewrite <- app_assoc.
    + rewrite Hvalues', Hvalues1. by rewrite <- app_assoc.
Qed.

Lemma parse_object_value_entries parser depth nesting keys vals texts rest :
  Forall2 (parses_back depth nesting) vals texts →
  length keys = length vals → Forall cstring keys → NoDup keys →
  ∃ po,
    parse_object_value (parse_value depth)
      ("{" :: elements_text (zip_with (entry_text parser false) keys texts)
           ++ "}" :: rest) nesting
    = Some (Some (Value_Object po, rest)) ∧
    table_inv po ∧ names po = keys ∧
    Forall2 (λ p v, json_value_equals_value p (Some v) = Some true)
      (values po) vals.
Proof.
  intros Hvals Hlen Hcstr Hnodup.
  assert (table_inv (json_object_init (V := JSON_Value) 0)) as Hinit.
  { apply json_object_init_inv. by left. }
  destruct keys as [|key keys].
  - destruct vals; [|done]. apply Forall2_nil_inv_l in Hvals as ->.
    exists (json_object_init 0). by split_and!.
  - destruct (parse_object_loop_entries parser depth nesting (key :: keys)
                vals texts (json_object_init 0)
                (length (elements_text
                           (zip_with (entry_text parser false) (key :: keys)
                              texts) ++ "}" :: rest)) rest)
      as (ps & po & Hloop & Hinv & Hkeys & Hvalues & Heq); try done.
    { intros k _. apply not_elem_of_nil. }
    { destruct Hvals as [|v t vals texts _ Hvals]; [done|].
      cbn [zip_with]. rewrite length_app.
      assert (length (key :: keys)
              ≤ length (elements_text
                          (entry_text parser false key t
                           :: zip_with (entry_text parser false) keys texts)));
        [|lia].
      etrans; [|apply elements_text_length].
      - simpl. rewrite length_zip_with. apply Forall2_length in Hvals.
        simpl in Hlen. lia.
      - apply Forall_forall. intros e He.
        change (e ∈ zip_with (entry_text parser false) (key :: keys)
                      (t :: texts)) in He.
        apply elem_of_zip_with in He as (k & t0 & -> & _ & _).
        rewrite entry_text_compact. by eexists _, _. }
    unfold parse_object_value. cbn [peek hd tl Ascii.eqb Bool.eqb negb].
    set (body := elements_text
                   (zip_with (entry_text parser false) (key :: keys) texts)
                 ++ "}" :: rest) in *.
    assert (∃ s, body = QUOTE :: s) as [s Hs].
    { unfold body. destruct Hvals as [|v t vals texts _ _]; [done|].
      cbn [zip_with].
      destruct (zip_with _ keys texts);
        [cbn [elements_text]|rewrite elements_text_cons];
        rewrite entry_text_compact; by eexists. }
    assert (skip_whitespaces body = body) as -> by (by rewrite Hs).
    assert (Ascii.eqb (peek body) "}" = false) as -> by (by rewrite Hs).
    rewrite Hloop. cbn.
    exists po. split_and!; [done..|]. simpl in Hvalues. by rewrite Hvalues.
Qed.

Lemma json_value_equals_object_loop_true (po o : JSON_Object JSON_Value) :
  table_inv po → table_inv o → names po = names o →
  Forall2 (λ p v, json_value_equals_value p (Some v) = Some true)
    (values po) (values o) →
  ∀ n i, i + n = count po →
    json_value_equals_object_loop (map json_value_equals_value (values po))
      po o i n = Some true.
Proof.
  intros Hpo Ho Hnames Heq. induction n as [|n IH]; intros i Hi; [done|].
  cbn [json_value_equals_object_loop]. unfold json_object_get_name.
  destruct (Nat.leb_spec (count po) i); [lia|].
  destruct (lookup_lt_is_Some_2 (names po) i) as [key Hkey].
  { rewrite (inv_names_len _ Hpo). lia. }
  assert (cstring key) as Hcs.
  { pose proof (inv_cstring _ Hpo) as Hall. rewrite Forall_lookup in Hall.
    by apply (Hall i). }
  rewrite Hkey.
  rewrite (json_object_getn_item_present po key i) by done.
  destruct (json_object_get_value_present o key i) as (v & Hv & ->);
    [done|done|by rewrite <- Hnames|].
  cbn [mbind option_bind]. unfold json_value_equals_child.
  destruct (Forall2_lookup_r _ _ _ _ _ Heq Hv) as (p & Hp & Hpv).
  rewrite list_lookup_fmap, Hp. simpl. rewrite Hpv. simpl.
  apply IH. lia.
Qed.

Lemma json_value_equals_object (po o : JSON_Object JSON_Value) :
  table_inv po → table_inv o → names po = names o →
  Forall2 (λ p v, json_value_equals_value p (Some v) = Some true)
    (values po) (values o) →
  json_value_equals_value (Value_Object po) (Some (Value_Object o)) = Some true.
Proof.
  intros Hpo Ho Hnames Heq. cbn [json_value_equals_value json_value_get_type].
  rewrite bool_decide_eq_true_2 by done. cbn.
  unfold json_object_get_count.
  assert (count po = count o) as Hcount.
  { rewrite <- (inv_names_len _ Hpo), <- (inv_names_len _ Ho). by rewrite Hnames. }
  rewrite Hcount, Nat.eqb_refl. cbn [negb]. rewrite <- Hcount.
  by apply json_value_equals_object_loop_true.
Qed.

(** ** Values *)

Lemma parse_value_start depth c s nesting :
  value_start c = true → nesting ≤ MAX_NESTING →
  parse_value (S depth) (c :: s) nesting =
  match c with
  | "{" => parse_object_value (parse_value depth) (c :: s) (nesting + 1)
  | "[" => parse_array_value (parse_value depth) (c :: s) (nesting + 1)
  | "034" => parse_string_value (c :: s)
  | "f" | "t" => parse_boolean_value (c :: s)
  | "-" | "0" | "1" | "2" | "3" | "4" | "5" | "6" | "7" | "8" | "9" =>
      parse_number_value (c :: s)
  | "n" => parse_null_value (c :: s)
  | _ => Some None
  end.
Proof.
  intros Hc Hnesting. destruct (value_start_spec c Hc) as (Hsp & _).
  rewrite parse_value_unfold.
  destruct (Nat.ltb_spec MAX_NESTING nesting); [lia|].
  cbv zeta. by rewrite skip_whitespaces_start.
Qed.

Lemma parse_value_number depth c s nesting :
  number_start c = true → nesting ≤ MAX_NESTING →
  parse_value (S depth) (c :: s) nesting = parse_number_value (c :: s).
Proof.
  intros Hc Hnesting.
  rewrite parse_value_start by (done || by apply number_start_value_start).
  destruct c as [[] [] [] [] [] [] [] []]; try discriminate; reflexivity.
Qed.

Lemma all_texts_Forall2 {A} (f : A → option (list ascii)) l texts :
  all_texts (map f l) = Some texts →
  Forall2 (λ x t, f x = Some t) l texts.
Proof.
  revert texts. induction l as [|x l IH]; intros texts; simpl.
  - intros [= <-]. constructor.
  - destruct (f x) as [t|] eqn:Hx; [|done]. simpl.
    destruct (all_texts (map f l)) as [ts|]; [|done]. simpl.
    intros [= <-]. constructor; [done|]. by apply IH.
Qed.

Lemma nesting_fits_children (l : list JSON_Value) nesting i v :
  forallb id (map (λ x, nesting_fits x (S nesting)) l) = true →
  l !! i = Some v → nesting_fits v (nesting + 1) = true.
Proof.
  intros Hall Hv. rewrite forallb_forall in Hall.
  rewrite Nat.add_1_r. apply (Hall (nesting_fits v (S nesting))).
  apply in_map_iff. exists v. split; [done|].
  apply list_elem_of_In, list_elem_of_lookup. by exists i.
Qed.

(** The text of a value is read back as a value equal to it. *)
Lemma value_text_parses_back parser value :
  ∀ nesting depth level text,
    value_wf value → numbers_read_back parser value →
    nesting_fits value nesting = true → MAX_NESTING < depth + nesting →
    value_text parser false value level = Some text →
    parses_back depth nesting value text.
Proof.
  induction value as [chars|number|object IH|array IH|boolean|]
    using JSON_Value_ind;
    intros nesting depth level text Hwf Hnum Hfits Hdepth Htext;
    cbn [nesting_fits] in Hfits; apply andb_prop in Hfits as [Hnesting Hfits];
    apply Nat.leb_le in Hnesting;
    (destruct depth as [|depth]; [lia|]).
  - simpl in Htext. injection Htext as <-. split; [by eexists _, _|].
    intros rest _. exists (Value_String chars).
    destruct (string_text_start parser chars) as [q Hq].
    rewrite Hq. cbn [app]. rewrite parse_value_start by done. cbv iota.
    rewrite app_comm_cons, <- Hq, parse_string_value_text. split; [done|].
    cbn. rewrite bool_decide_eq_true_2 by done. cbn.
    rewrite Nat.eqb_refl. unfold memcmp_eq.
    by rewrite bool_decide_eq_true_2.
  - simpl in Htext, Hnum. destruct Hnum as (c & t & Hser & Hc & Hread).
    assert (text = c :: t) as -> by congruence.
    split; [exists c, t; split; [done|by apply number_start_value_start]|].
    intros rest Hend. simpl in Hend.
    destruct (Hread rest Hend) as (x' & Hparse & Hclose).
    exists (Value_Number x'). cbn [app].
    rewrite parse_value_number by done. split; [done|].
    cbn. rewrite bool_decide_eq_true_2 by done. cbn. by rewrite Hclose.
  - simpl in Htext, Hwf, Hnum. destruct Hwf as [Hinv Hwf].
    destruct (all_texts _) as [texts|] eqn:Htexts; [|done].
    simpl in Htext. injection Htext as <-.
    apply all_texts_Forall2 in Htexts.
    assert (Forall2 (parses_back depth (nesting + 1)) (values object) texts)
      as Hvals.
    { apply Forall2_same_length_lookup_2; [by eapply Forall2_length|].
      intros i v t Hv Ht.
      destruct (Forall2_lookup_l _ _ _ _ _ Htexts Hv) as (t0 & Ht0 & Hvt).
      assert (t0 = t) as -> by congruence.
      rewrite Forall_lookup in IH.
      apply (IH i v Hv (nesting + 1) depth (level + 1) t).
      - by apply (Forall_id_map_lookup value_wf (values object) i).
      - by apply (Forall_id_map_lookup (numbers_read_back parser)
                    (values object) i).
      - by apply (nesting_fits_children (values object) nesting i).
      - lia.
      - done. }
    rewrite container_text_compact. split; [by eexists _, _|].
    intros rest _.
    destruct (parse_object_value_entries parser depth (nesting + 1)
                (names object) (values object) texts rest)
      as (po & Hparse & Hpo & Hnames & Heq); try done.
    { by rewrite (inv_names_len _ Hinv), (inv_values_len _ Hinv). }
    { apply Hinv. }
    { apply Hinv. }
    exists (Value_Object po). cbn [app]. rewrite <- app_assoc. cbn [app].
    rewrite parse_value_start by done. cbv iota.
    split; [done|]. by apply json_value_equals_object.
  - simpl in Htext, Hwf, Hnum.
    destruct (all_texts _) as [texts|] eqn:Htexts; [|done].
    simpl in Htext. injection Htext as <-.
    apply all_texts_Forall2 in Htexts.
    assert (Forall2 (parses_back depth (nesting + 1)) (items array) texts)
      as Hvals.
    { apply Forall2_same_length_lookup_2; [by eapply Forall2_length|].
      intros i v t Hv Ht.
      destruct (Forall2_lookup_l _ _ _ _ _ Htexts Hv) as (t0 & Ht0 & Hvt).
      assert (t0 = t) as -> by congruence.
      rewrite Forall_lookup in IH.
      apply (IH i v Hv (nesting + 1) depth (level + 1) t).
      - by apply (Forall_id_map_lookup value_wf (items array) i).
      - by apply (Forall_id_map_lookup (numbers_read_back parser)
                    (items array) i).
      - by apply (nesting_fits_children (items array) nesting i).
      - lia.
      - done. }
    rewrite container_text_compact. split; [by eexists _, _|].
    intros rest _.
    destruct (parse_array_value_elements depth (nesting + 1)
                (items array) texts rest Hvals)
      as (ps & cap & Hparse & Heq).
    exists (Value_Array {| items := ps; capacity := cap |}).
    cbn [app]. rewrite <- app_assoc. cbn [app].
    rewrite parse_value_start by done. cbv iota.
    split; [done|]. by apply json_value_equals_array.
  - simpl in Htext, Hwf. injection Htext as <-.
    destruct Hwf as [->| ->]; (split; [by eexists _, _|]); intros rest _.
    + exists (Value_Boolean 0). cbn [Z.eqb list_ascii_of_string app].
      by rewrite parse_value_start.
    + exists (Value_Boolean 1). cbn [Z.eqb list_ascii_of_string app].
      by rewrite parse_value_start.
  - simpl in Htext. injection Htext as <-. split; [by eexists _, _|].
    intros rest _. exists Value_Null. cbn [list_ascii_of_string app].
    by rewrite parse_value_start.
Qed.

End RoundTripContainers.

(** * The round trip *)

Section RoundTripTheorems.
Context `{FloatOps}.

(** The constructors build values that satisfy the invariants. *)
Lemma built_wf value : built value → value_wf value.
Proof.
  induction 1 as [v Hv|v Hv|s v _ Hv|s n v _ Hv|x v Hv|b v Hv|v Hv
                  |array value array' _ IHarray _ IHvalue Hadd
                  |object name value object' _ IHobject _ IHvalue Hname Hset].
  - injection Hv as <-. split; [|constructor].
    apply json_object_init_inv. by left.
  - injection Hv as <-. constructor.
  - unfold json_value_init_string, json_value_init_string_with_len in Hv.
    destruct (is_valid_utf8 _ _); [|done]. by injection Hv as <-.
  - unfold json_value_init_string_with_len in Hv.
    destruct (is_valid_utf8 _ _); [|done]. by injection Hv as <-.
  - unfold json_value_init_number in Hv.
    destruct (IS_NUMBER_INVALID x) eqn:Hx; [done|]. by injection Hv as <-.
  - injection Hv as <-. simpl. destruct (b =? 0)%Z; auto.
  - by injection Hv as <-.
  - simpl in *. rewrite (json_array_add_items _ _ _ Hadd), map_app.
    apply Forall_app. split; [done|]. by repeat constructor.
  - simpl in *. destruct IHobject as [Hinv Hvalues].
    destruct (decide (name ∈ names object)) as [Hin|Hnotin].
    + apply list_elem_of_lookup in Hin as [i Hi].
      destruct (json_object_set_value_present object name value i)
        as (o' & Hrun & Hinv' & _ & Hvs); [done..|].
      assert (o' = object') as -> by congruence.
      split; [done|]. rewrite Hvs, list_fmap_insert.
      by apply Forall_insert.
    + destruct (json_object_set_value_absent object name value)
        as (o' & Hrun & Hinv' & _ & Hvs); [done..|].
      assert (o' = object') as -> by congruence.
      split; [done|]. rewrite Hvs, map_app.
      apply Forall_app. split; [done|]. by repeat constructor.
Qed.

Lemma all_texts_Some {A} (f : A → option (list ascii)) (l : list A) :
  Forall (λ x, is_Some (f x)) l → is_Some (all_texts (map f l)).
Proof.
  induction 1 as [|x l [t Ht] _ [ts IH]]; [by eexists|].
  simpl. rewrite Ht, IH. by eexists.
Qed.

(** A value whose numbers have a text has a text. *)
Lemma value_text_Some parser value :
  numbers_read_back parser value →
  ∀ level, is_Some (value_text parser false value level).
Proof.
  induction value as [chars|number|object IH|array IH|boolean|]
    using JSON_Value_ind; intros Hnum level; simpl in *; try by eexists.
  - destruct Hnum as (c & t & -> & _). by eexists.
  - destruct (all_texts_Some (λ x, value_text parser false x (level + 1))
                (values object)) as [texts ->]; [|by eexists].
    apply Forall_lookup. intros i v Hv. rewrite Forall_lookup in IH.
    apply (IH i v Hv).
    by apply (Forall_id_map_lookup (numbers_read_back parser) (values object) i).
  - destruct (all_texts_Some (λ x, value_text parser false x (level + 1))
                (items array)) as [texts ->]; [|by eexists].
    apply Forall_lookup. intros i v Hv. rewrite Forall_lookup in IH.
    apply (IH i v Hv).
    by apply (Forall_id_map_lookup (numbers_read_back parser) (items array) i).
Qed.

Lemma value_start_no_bom c : value_start c = true → c ≠ "239".
Proof.
  destruct c as [[] [] [] [] [] [] [] []]; try discriminate; done.
Qed.

(** [json_parse_string] on the text of a value, whatever follows it. *)
Lemma json_parse_string_text parser value text rest :
  value_wf value → numbers_read_back parser value →
  nesting_fits value 0 = true →
  value_text parser false value 0 = Some text →
  ends_value value rest →
  ∃ parsed, json_parse_string (text ++ rest) = Some (Some parsed) ∧
            json_value_equals (Some parsed) (Some value) = Some true.
Proof.
  intros Hwf Hnum Hfits Htext Hend.
  destruct (value_text_parses_back parser value 0 (MAX_NESTING + 1) 0 text)
    as [(c & t & -> & Hc) Hparse]; [done..|lia|done|].
  destruct (Hparse rest Hend) as (parsed & Hp & Heq).
  exists parsed. split; [|done].
  rewrite json_parse_string_no_bom by (by apply value_start_no_bom).
  by rewrite Hp.
Qed.

(** C1, as the code has it.  A value built by the constructors is
    serialized to a string that [json_parse_string] reads back as a value
    that [json_value_equals] finds equal to it, provided that no value of the
    tree is inside more than [MAX_NESTING] containers, which the parser
    refuses, that the numbers of the tree are read back from their texts
    by the C library, and that the serializer stays within its buffers and
    counters: the text of every number is shorter than the
    [PARSON_NUM_BUF_SIZE] bytes of [num_buf] and the text of the value has
    at most [INT_MAX] characters. *)
Theorem round_trip (parser : JSON_Parser) (value : JSON_Value)
    (fresh : nat → list ascii) :
  built value →
  nesting_fits value 0 = true →
  numbers_read_back parser value →
  serialization_fits parser false value →
  (∀ n, length (fresh n) = n) →
  ∃ s parsed,
    json_serialize_to_string parser value fresh = Some (Some s) ∧
    json_parse_string s = Some (Some parsed) ∧
    json_value_equals (Some parsed) (Some value) = Some true.
Proof.
  intros Hbuilt Hfits Hnum Hser Hfresh.
  pose proof (built_wf value Hbuilt) as Hwf.
  destruct (value_text_Some parser value Hnum 0) as [text Htext].
  destruct (json_parse_string_text parser value text [NUL])
    as (parsed & Hparse & Heq); try done.
  { by apply ends_value_end. }
  exists (text ++ [NUL]), parsed. split_and!; [|done..].
  unfold json_serialize_to_string.
  by rewrite serialize_to_string_with_spec, Htext.
Qed.

(** C5, as the code has it.  [json_parse_string] stops behind the
    top-level value and does not look at what follows it: the text of a
    value followed by anything (by something that does not continue the
    number, when the value is a number) is parsed as the value alone. *)
Theorem trailing_input_is_not_read (parser : JSON_Parser) (value : JSON_Value)
    (text garbage : list ascii) :
  built value →
  nesting_fits value 0 = true →
  numbers_read_back parser value →
  value_text parser false value 0 = Some text →
  ends_value value garbage →
  ∃ parsed, json_parse_string (text ++ garbage) = Some (Some parsed) ∧
            json_value_equals (Some parsed) (Some value) = Some true.
Proof.
  intros Hbuilt Hfits Hnum Htext Hend.
  apply (json_parse_string_text parser value); try done.
  by apply built_wf.
Qed.

End RoundTripTheorems.

(** ** Examples *)

Lemma read_uint_end rest :
  value_end rest = true → read_uint rest = (Decimal.Nil, 0).
Proof.
  destruct rest as [|c rest]; [done|]. unfold value_end. cbn [peek hd].
  destruct c as [[] [] [] [] [] [] [] []]; intros Hc;
    vm_compute in Hc; try discriminate; reflexivity.
Qed.

(** The integer 12 is written as [12] and read back. *)
Lemma integer_12_reads_back :
  @number_reads_back integer_ops json_get_default_parser 12%Z.
Proof.
  exists "1", ["2"]. split_and!; [done..|].
  intros rest Hend. exists 12%Z. split; [|done].
  unfold parse_number_value.
  assert (@strtod integer_ops ("1" :: ["2"] ++ rest) = (12%Z, 2, ENONE)) as ->.
  { cbn [strtod integer_ops integer_strtod app read_uint digit_of].
    by rewrite (read_uint_end rest Hend). }
  reflexivity.
Qed.

Lemma example_array_built : built example_array.
Proof.
  unfold example_array.
  apply (built_append
           {| items := [Value_Null; Value_Number (12%Z : @double integer_ops);
                        Value_String ["a"]];
              capacity := STARTING_CAPACITY |} (Value_Boolean 1));
    [|by apply (built_boolean 1)|done].
  apply (built_append
           {| items := [Value_Null; Value_Number (12%Z : @double integer_ops)];
              capacity := STARTING_CAPACITY |} (Value_String ["a"]));
    [|by apply (built_string ["a"]); [repeat constructor|]|done].
  apply (built_append
           {| items := [Value_Null]; capacity := STARTING_CAPACITY |}
           (Value_Number (12%Z : @double integer_ops)));
    [|by apply (built_number (12%Z : @double integer_ops))|done].
  apply (built_append {| items := []; capacity := 0 |} Value_Null);
    [by apply built_array|by apply built_null|done].
Qed.

Lemma example_object_set :
  json_object_set_value (json_object_init 0) ["k"] example_array
  = Some (JSONSuccess, example_object).
Proof. vm_cast_no_check (eq_refl (Some (JSONSuccess, example_object))). Qed.

Lemma example_object_values : values example_object = [example_array].
Proof. vm_cast_no_check (eq_refl [example_array]). Qed.

Lemma example_tree_built : built example_tree.
Proof.
  apply (built_set (json_object_init 0) ["k"] example_array example_object).
  - by apply built_object.
  - apply example_array_built.
  - by repeat constructor.
  - apply example_object_set.
Qed.

Lemma example_tree_numbers :
  numbers_read_back json_get_default_parser example_tree.
Proof.
  unfold example_tree. cbn [numbers_read_back].
  rewrite example_object_values.
  repeat constructor. unfold example_array. cbn [numbers_read_back items map].
  repeat constructor. apply integer_12_reads_back.
Qed.

Lemma example_tree_fits pretty :
  @serialization_fits integer_ops json_get_default_parser pretty example_tree.
Proof.
  split.
  - vm_compute. repeat constructor.
  - by destruct pretty; vm_compute.
Qed.

Lemma round_trip_witness :
  ∃ s parsed,
    json_serialize_to_string json_get_default_parser example_tree fresh_block
    = Some (Some s) ∧
    json_parse_string s = Some (Some parsed) ∧
    json_value_equals (Some parsed) (Some example_tree) = Some true.
Proof.
  apply round_trip.
  - apply example_tree_built.
  - vm_compute. reflexivity.
  - apply example_tree_numbers.
  - apply example_tree_fits.
  - intros n. apply length_replicate.
Defined.

Lemma trailing_input_is_not_read_witness :
  ∃ parsed,
    @json_parse_string integer_ops
      (list_ascii_of_string "{" ++ QUOTE :: list_ascii_of_string "k"
         ++ QUOTE :: list_ascii_of_string ":[null,12," ++ QUOTE
         :: list_ascii_of_string "a" ++ QUOTE :: list_ascii_of_string ",true]}"
         ++ list_ascii_of_string "} trailing") = Some (Some parsed) ∧
    json_value_equals (Some parsed) (Some example_tree) = Some true.
Proof.
  apply (trailing_input_is_not_read json_get_default_parser example_tree
           (list_ascii_of_string "{" ++ QUOTE :: list_ascii_of_string "k"
              ++ QUOTE :: list_ascii_of_string ":[null,12," ++ QUOTE
              :: list_ascii_of_string "a" ++ QUOTE
              :: list_ascii_of_string ",true]}")
           (list_ascii_of_string "} trailing")).
  - apply example_tree_built.
  - vm_compute. reflexivity.
  - apply example_tree_numbers.
  - vm_compute. reflexivity.
  - done.
Defined.

(** ** Trees too deep for the parser *)

Section DeepTrees.
Context `{FloatOps}.

Lemma deep_array_built n : built (deep_array n).
Proof.
  induction n as [|n IH]; [by apply built_array|].
  by apply (built_append {| items := []; capacity := 0 |} (deep_array n));
    [apply built_array| |].
Qed.

Lemma deep_array_text parser n : ∀ level,
  value_text parser false (deep_array n) level = Some (nested_arrays (S n)).
Proof.
  induction n as [|n IH]; intros level; [done|].
  cbn [deep_array value_text items map all_texts].
  rewrite IH. cbn [mbind option_bind mret option_ret].
  rewrite container_text_compact. cbn [elements_text].
  by rewrite (nested_arrays_S (S n)).
Qed.

Lemma nested_arrays_length n : length (nested_arrays n) = 2 * n.
Proof. unfold nested_arrays. rewrite length_app, !repeat_length. lia. Qed.

Lemma deep_array_fits parser n :
  (2 * Z.of_nat n + 2 ≤ INT_MAX)%Z →
  serialization_fits parser false (deep_array n).
Proof.
  intros Hn. split.
  - clear Hn. induction n as [|n IH]; simpl; by repeat constructor.
  - unfold counts_fit.
    rewrite (value_text_layout _ _ _ _ _ (deep_array_text parser n 0)).
    rewrite nested_arrays_length. lia.
Qed.

(** X3.  The serializer has no limit of depth,
    the parser has one: more than [MAX_NESTING + 1] arrays nested by the
    constructors are serialized to a string that [json_parse_string]
    refuses.  The string has [2 * n + 2] characters, which the [int]
    counters of the serializer hold up to [INT_MAX]. *)
Theorem deep_array_is_not_read_back parser n fresh :
  MAX_NESTING < n → (2 * Z.of_nat n + 2 ≤ INT_MAX)%Z →
  (∀ k, length (fresh k) = k) →
  built (deep_array n) ∧
  json_serialize_to_string parser (deep_array n) fresh
  = Some (Some (nested_arrays (S n) ++ [NUL])) ∧
  json_parse_string (nested_arrays (S n) ++ [NUL]) = Some None.
Proof.
  intros Hdeep Hint Hfresh. split_and!.
  - apply deep_array_built.
  - unfold json_serialize_to_string.
    rewrite serialize_to_string_with_spec, deep_array_text;
      [done|by apply built_wf, deep_array_built|done
      |by apply deep_array_fits].
  - rewrite json_parse_string_no_bom by (by rewrite nested_arrays_S).
    by rewrite parse_nested_arrays_too_deep by lia.
Qed.

End DeepTrees.

(** C1, as the specification states it, fails on a tree that the
    constructors build: 2050 arrays, each one the only element of the one
    around it, are serialized, and the parser refuses the string. *)
Lemma round_trip_fails_beyond_nesting :
  built (@deep_array integer_ops 2049) ∧
  ∃ s, json_serialize_to_string json_get_default_parser
         (@deep_array integer_ops 2049) fresh_block = Some (Some s) ∧
       @json_parse_string integer_ops s = Some None.
Proof.
  split; [apply deep_array_built|].
  exists (nested_arrays 2050 ++ [NUL]). split.
  - unfold json_serialize_to_string.
    rewrite serialize_to_string_with_spec, deep_array_text; [done|..].
    + apply built_wf, deep_array_built.
    + intros n. apply length_replicate.
    + apply deep_array_fits. unfold INT_MAX. lia.
  - rewrite json_parse_string_no_bom by (by rewrite nested_arrays_S).
    by rewrite parse_nested_arrays_too_deep by (unfold MAX_NESTING; lia).
Qed.

Lemma deep_array_is_not_read_back_witness :
  built (@deep_array integer_ops 2049) ∧
  json_serialize_to_string json_get_default_parser
    (@deep_array integer_ops 2049) fresh_block
  = Some (Some (nested_arrays 2050 ++ [NUL])) ∧
  @json_parse_string integer_ops (nested_arrays 2050 ++ [NUL]) = Some None.
Proof.
  apply (@deep_array_is_not_read_back integer_ops json_get_default_parser
           2049 fresh_block).
  - unfold MAX_NESTING. lia.
  - unfold INT_MAX. lia.
  - intros k. apply length_replicate.
Defined.

(** * The buffer of the serializer *)

Section BufferProofs.
Context `{FloatOps}.

(** X4.  [json_serialize_to_buffer] and
    [json_serialize_to_buffer_pretty] write nothing into a buffer that is
    shorter than [json_serialization_size] announces (or when the value
    cannot be serialized) and return [JSONFailure]; otherwise they return
    [JSONSuccess], the buffer starts with the string that
    [json_serialize_to_string] returns with its NUL, and the bytes behind
    stay as they were.  The value is one that the serializer handles within
    its buffers and counters: the text of every number is shorter than
    [num_buf] and the text of the value has at most [INT_MAX]
    characters. *)
Theorem serialize_to_buffer_bounds (pretty : bool) parser value mem fresh :
  value_wf value → serialization_fits parser pretty value →
  (∀ n, length (fresh n) = n) →
  ∃ size,
    (if pretty then json_serialization_size_pretty parser value
     else json_serialization_size parser value) = Some size ∧
    if (size =? 0) || (length mem <? size)
    then (if pretty then json_serialize_to_buffer_pretty parser value mem
          else json_serialize_to_buffer parser value mem)
         = Some (JSONFailure, mem)
    else ∃ s,
      (if pretty then json_serialize_to_string_pretty parser value fresh
       else json_serialize_to_string parser value fresh) = Some (Some s) ∧
      length s = size ∧
      (if pretty then json_serialize_to_buffer_pretty parser value mem
       else json_serialize_to_buffer parser value mem)
      = Some (JSONSuccess, s ++ drop size mem).
Proof.
  intros Hwf Hfits Hfresh.
  exists (from_option (λ text : list ascii, length text + 1) 0
            (value_text parser pretty value 0)).
  split; [by apply serialization_size_spec|].
  assert ((if pretty then json_serialize_to_buffer_pretty parser value mem
           else json_serialize_to_buffer parser value mem)
          = serialize_to_buffer_with pretty parser value mem) as ->
    by (by destruct pretty).
  assert ((if pretty then json_serialize_to_string_pretty parser value fresh
           else json_serialize_to_string parser value fresh)
          = serialize_to_string_with pretty parser value fresh) as ->
    by (by destruct pretty).
  rewrite serialize_to_buffer_with_spec, serialize_to_string_with_spec by done.
  destruct (value_text parser pretty value 0) as [text|]; simpl; [|done].
  destruct (Nat.eqb_spec (length text + 1) 0); [lia|]. simpl.
  destruct (Nat.ltb_spec (length mem) (length text + 1)); [done|].
  exists (text ++ [NUL]). split_and!; [done| |done].
  rewrite length_app. simpl. lia.
Qed.

(** X5.  [json_serialize_string] and [process_string]
    are inverse: the first [len] bytes of a buffer, whatever they are (NUL,
    quotes, control characters, bytes that are not UTF-8), are written as a
    text that [parse_string_value] reads back as the same bytes, stopping
    behind its closing quote, for both settings of [escape_slashes].  The
    text, with its quotes and escapes, has at most [INT_MAX] characters,
    which is what the [int] count of [json_serialize_string] holds. *)
Theorem string_round_trip parser s len mem rest text :
  len ≤ length s →
  text = string_text parser (take len s) →
  (Z.of_nat (length text) ≤ INT_MAX)%Z →
  json_serialize_string parser s len None mem
  = Some (Z.of_nat (length text), mem) ∧
  (length text < length mem →
   json_serialize_string parser s len (Some 0) mem
   = Some (Z.of_nat (length text),
           (text ++ [NUL]) ++ drop (length text + 1) mem)) ∧
  parse_string_value (text ++ rest)
  = Some (Some (Value_String (take len s), rest)).
Proof.
  intros Hlen -> Hint.
  rewrite !json_serialize_string_spec by done. split_and!.
  - by apply ser_result_None_fits.
  - generalize dependent (string_text parser (take len s)).
    intros text Hint Hroom.
    unfold ser_result. rewrite int_add_0 by done. simpl.
    destruct (store mem 0 (text ++ [NUL])) as [mem'|] eqn:Hstore.
    + apply store_Some in Hstore as [_ ->]. simpl.
      rewrite length_app. simpl. by rewrite <- app_assoc.
    + apply store_None in Hstore. rewrite length_app in Hstore.
      simpl in Hstore. lia.
  - apply parse_string_value_text.
Qed.

End BufferProofs.

Lemma serialize_to_buffer_bounds_witness :
  ∃ size,
    json_serialization_size json_get_default_parser example_tree = Some size ∧
    if (size =? 0) || (length (fresh_block 40) <? size)
    then json_serialize_to_buffer json_get_default_parser example_tree
           (fresh_block 40)
         = Some (JSONFailure, fresh_block 40)
    else ∃ s,
      json_serialize_to_string json_get_default_parser example_tree fresh_block
      = Some (Some s) ∧
      length s = size ∧
      json_serialize_to_buffer json_get_default_parser example_tree
        (fresh_block 40)
      = Some (JSONSuccess, s ++ drop size (fresh_block 40)).
Proof.
  apply (@serialize_to_buffer_bounds integer_ops false json_get_default_parser
           example_tree (fresh_block 40) fresh_block).
  - apply built_wf, example_tree_built.
  - apply example_tree_fits.
  - intros n. apply length_replicate.
Defined.

Lemma string_round_trip_witness :
  json_serialize_string (@json_get_default_parser integer_ops)
    ["a"; QUOTE; NUL; "/"; "255"; "z"] 5 None (fresh_block 30)
  = Some (14%Z, fresh_block 30) ∧
  (14 < length (fresh_block 30) →
   json_serialize_string (@json_get_default_parser integer_ops)
     ["a"; QUOTE; NUL; "/"; "255"; "z"] 5 (Some 0) (fresh_block 30)
   = Some (14%Z,
           (string_text (@json_get_default_parser integer_ops)
              ["a"; QUOTE; NUL; "/"; "255"]
            ++ [NUL]) ++ drop (14 + 1) (fresh_block 30))) ∧
  @parse_string_value integer_ops
    (string_text (@json_get_default_parser integer_ops)
       ["a"; QUOTE; NUL; "/"; "255"] ++ [","; "1"])
  = Some (Some (Value_String (take 5 ["a"; QUOTE; NUL; "/"; "255"; "z"]),
                [","; "1"])).
Proof.
  apply (@string_round_trip integer_ops json_get_default_parser
           ["a"; QUOTE; NUL; "/"; "255"; "z"] 5 (fresh_block 30) [","; "1"]
           (string_text (@json_get_default_parser integer_ops)
              ["a"; QUOTE; NUL; "/"; "255"])).
  - simpl. lia.
  - reflexivity.
  - by vm_compute.
Defined.

(** * The shape of a table *)

Section TableShape.
Context {V : Type}.
Implicit Types (o : JSON_Object V) (m : gmap (list ascii) V).

(** A table has as many entries as the map it represents has keys. *)
Lemma represents_size o m :
  table_inv o → represents o m → count o = size m.
Proof.
  intros Hinv Hrep.
  rewrite <- (inv_names_len _ Hinv).
  rewrite <- (size_list_to_set (C := gset (list ascii)) (names o))
    by apply (inv_nodup _ Hinv).
  rewrite <- size_dom. f_equal. apply set_eq. intros key.
  rewrite elem_of_list_to_set, elem_of_dom.
  by apply represents_elem_of.
Qed.

(** X6.  After any sequence of insertions and
    removals on an empty object, the number of cells is 0 or a power of
    two, the entries fill at most 70 % of the cells, no key is held twice,
    and [json_object_get_count] is the number of keys that were set and
    not removed since. *)
Theorem table_shape_after_mutation (ops : list (table_op V)) :
  Forall (λ op, cstring (op_name op)) ops →
  ∃ o, run_ops ops (json_object_init 0) = Some o ∧
       (cell_capacity o = 0 ∨ ∃ k, cell_capacity o = 2 ^ k) ∧
       item_capacity o = cell_capacity o * 7 / 10 ∧
       json_object_get_count o ≤ item_capacity o ∧
       NoDup (names o) ∧
       length (names o) = json_object_get_count o ∧
       length (values o) = json_object_get_count o ∧
       json_object_get_count o = size (model_ops ops).
Proof.
  intros Hcs.
  destruct (run_ops_spec ops (json_object_init 0) ∅) as (o & Hrun & Hinv & Hrep).
  - apply json_object_init_inv. by left.
  - apply represents_init.
  - done.
  - exists o. unfold json_object_get_count.
    split_and!; [done|apply Hinv..|by apply represents_size].
Qed.

End TableShape.

Lemma table_shape_after_mutation_witness :
  ∃ o, run_ops table_example_ops (json_object_init 0) = Some o ∧
       (cell_capacity o = 0 ∨ ∃ k, cell_capacity o = 2 ^ k) ∧
       item_capacity o = cell_capacity o * 7 / 10 ∧
       json_object_get_count o ≤ item_capacity o ∧
       NoDup (names o) ∧
       length (names o) = json_object_get_count o ∧
       length (values o) = json_object_get_count o ∧
       json_object_get_count o = size (model_ops table_example_ops).
Proof.
  apply (table_shape_after_mutation table_example_ops).
  repeat constructor; simpl; discriminate.
Defined.

(** * The parent of a child *)

Section ParentProofs.
Context `{FloatOps}.

(** X7.  In a heap that calls of the interface built,
    [json_value_get_parent] of a value that a container points to returns
    the wrapping value of that container, and no other container points to
    the value. *)
Theorem parent_of_child calls h v c :
  Forall Heap.call_ok calls → Heap.run_calls calls Heap.empty = Some h →
  Heap.child_of h v c → is_Some (Heap.nodes h !! v) →
  Heap.json_value_get_parent h (Some v) = Some (Some c) ∧
  ∀ c', Heap.child_of h v c' → c' = c.
Proof.
  intros Hok Hrun Hchild [n Hn].
  assert (Heap.heap_wf h) as Hwf.
  { apply (run_calls_wf calls Heap.empty); [apply heap_wf_empty|done..]. }
  pose proof (Heap.wf_parent _ Hwf v c n Hchild Hn) as Hparent.
  split.
  - unfold Heap.json_value_get_parent. rewrite Hn. simpl. by rewrite Hparent.
  - intros c' Hchild'.
    pose proof (Heap.wf_parent _ Hwf v c' n Hchild' Hn) as Hparent'.
    congruence.
Qed.

End ParentProofs.

Lemma attach_example_ok : Forall Heap.call_ok attach_example_calls.
Proof. repeat constructor. Qed.

Lemma attach_example_run :
  Heap.run_calls attach_example_calls Heap.empty = Some attach_example_heap.
Proof. vm_cast_no_check (eq_refl (Some attach_example_heap)). Qed.

Lemma attach_example_node :
  Heap.nodes attach_example_heap !! 2 = Some (Heap.mkNode (Some 0) Heap.NNull).
Proof.
  vm_cast_no_check (eq_refl (Some (@Heap.mkNode integer_ops (Some 0) Heap.NNull))).
Qed.

Lemma attach_example_container :
  Heap.nodes attach_example_heap !! 0
  = Some (Heap.mkNode None
            (Heap.NArray {| items := [2]; capacity := STARTING_CAPACITY |})).
Proof.
  vm_cast_no_check
    (eq_refl (Some (@Heap.mkNode integer_ops None
                      (Heap.NArray {| items := [2];
                                      capacity := STARTING_CAPACITY |})))).
Qed.

Lemma attach_example_child : Heap.child_of attach_example_heap 2 0.
Proof.
  eexists. split; [apply attach_example_container|]. simpl. left.
Qed.

Lemma parent_of_child_witness :
  Heap.json_value_get_parent attach_example_heap (Some 2) = Some (Some 0) ∧
  ∀ c', Heap.child_of attach_example_heap 2 c' → c' = 0.
Proof.
  exact (@parent_of_child integer_ops attach_example_calls
           attach_example_heap 2 0 attach_example_ok attach_example_run
           attach_example_child (mk_is_Some _ _ attach_example_node)).
Defined.

(** * Copies and equality *)

Lemma zip_eq_inv {A B} (l1 l2 : list A) (k1 k2 : list B) :
  length l1 = length k1 → length l2 = length k2 →
  zip l1 k1 = zip l2 k2 → l1 = l2 ∧ k1 = k2.
Proof.
  intros H1 H2 Hzip. split.
  - rewrite <- (fst_zip l1 k1), <- (fst_zip l2 k2) by lia. by rewrite Hzip.
  - rewrite <- (snd_zip l1 k1), <- (snd_zip l2 k2) by lia. by rewrite Hzip.
Qed.

Section CopyProofs.
Context `{FloatOps}.

Lemma memcmp_eq_refl s n : memcmp_eq s s n = true.
Proof. unfold memcmp_eq. by apply bool_decide_eq_true. Qed.

Lemma same_content_Forall2 (Q : JSON_Value → JSON_Value → Prop)
    (la lb : list JSON_Value) :
  Forall (λ a, ∀ b, value_wf a → value_wf b → content_of a = content_of b →
                    Q a b) la →
  Forall id (map value_wf la) → Forall id (map value_wf lb) →
  map content_of la = map content_of lb →
  Forall2 Q la lb.
Proof.
  revert lb. induction la as [|a la IH]; intros [|b lb] Hall Hwfa Hwfb Hmap;
    try discriminate.
  - constructor.
  - apply Forall_cons in Hall as [Ha Hall]. injection Hmap as Hab Hmap.
    simpl in Hwfa, Hwfb.
    apply Forall_cons in Hwfa as [Hwa Hwfa].
    apply Forall_cons in Hwfb as [Hwb Hwfb].
    constructor; [by apply Ha|by apply IH].
Qed.

(** Two well-formed values that hold the same content are equal for
    [json_value_equals], whatever the capacities of their arrays and the
    cells of their tables. *)
Lemma same_content_equals_value (a : JSON_Value) :
  number_equals_itself →
  ∀ b, value_wf a → value_wf b → content_of a = content_of b →
       json_value_equals_value a (Some b) = Some true.
Proof.
  intros Hnum.
  induction a as [chars|number|object IH|array IH|boolean|]
    using JSON_Value_ind; intros b Hwfa Hwfb Hc;
    destruct b as [chars'|number'|object'|array'|boolean'|]; try done;
    simpl in Hc.
  - injection Hc as <-. simpl. by rewrite Nat.eqb_refl, memcmp_eq_refl.
  - injection Hc as <-. simpl. f_equal. by apply Hnum.
  - injection Hc as Hc. destruct Hwfa as [Hinva Hwfa], Hwfb as [Hinvb Hwfb].
    apply zip_eq_inv in Hc as [Hnames Hvalues].
    + apply json_value_equals_object; [done..|].
      by apply same_content_Forall2.
    + rewrite length_map.
      by rewrite (inv_names_len _ Hinva), (inv_values_len _ Hinva).
    + rewrite length_map.
      by rewrite (inv_names_len _ Hinvb), (inv_values_len _ Hinvb).
  - injection Hc as Hc. destruct array as [ps cap].
    apply json_value_equals_array. simpl in *.
    by apply same_content_Forall2.
  - injection Hc as <-. simpl. f_equal. apply Z.eqb_refl.
Qed.

Lemma Forall2_map_eq {A B} (f : A → B) (la lb : list A) :
  Forall2 (λ a b, f a = f b) la lb → map f la = map f lb.
Proof. induction 1; simpl; congruence. Qed.

(** The text of a value is the text of its content. *)
Lemma value_text_content parser pretty (a : JSON_Value) :
  ∀ b level, value_wf a → value_wf b → content_of a = content_of b →
    value_text parser pretty a level = value_text parser pretty b level.
Proof.
  induction a as [chars|number|object IH|array IH|boolean|]
    using JSON_Value_ind; intros b level Hwfa Hwfb Hc;
    destruct b as [chars'|number'|object'|array'|boolean'|]; try done;
    simpl in Hc.
  - by injection Hc as <-.
  - by injection Hc as <-.
  - injection Hc as Hc. destruct Hwfa as [Hinva Hwfa], Hwfb as [Hinvb Hwfb].
    apply zip_eq_inv in Hc as [Hnames Hvalues].
    + cbn [value_text]. rewrite Hnames. f_equal. f_equal.
      apply Forall2_map_eq.
      apply same_content_Forall2; [|done..].
      eapply Forall_impl; [exact IH|]. intros x Hx y. apply Hx.
    + rewrite length_map.
      by rewrite (inv_names_len _ Hinva), (inv_values_len _ Hinva).
    + rewrite length_map.
      by rewrite (inv_names_len _ Hinvb), (inv_values_len _ Hinvb).
  - injection Hc as Hc. cbn [value_text]. f_equal. f_equal.
    apply Forall2_map_eq.
    apply same_content_Forall2; [|done..].
    eapply Forall_impl; [exact IH|]. intros x Hx y. apply Hx.
  - by injection Hc as <-.
Qed.

(** The serializer looks at the content of a value only, whatever it
    returns. *)
Lemma serialize_child_ext (calls calls' : list ser_call) count i :
  (∀ buf level pretty mem,
     from_option (λ call : ser_call, call buf level pretty mem) None
       (calls !! i)
     = from_option (λ call : ser_call, call buf level pretty mem) None
         (calls' !! i)) →
  is_Some (calls !! i) ↔ is_Some (calls' !! i) →
  ∀ buf level pretty mem,
    serialize_child calls count i buf level pretty mem
    = serialize_child calls' count i buf level pretty mem.
Proof.
  intros Hext Hsome buf level pretty mem. unfold serialize_child.
  destruct (count <=? i); [done|].
  specialize (Hext buf level pretty mem).
  destruct (calls !! i) as [call|], (calls' !! i) as [call'|]; simpl in *;
    try done.
  - destruct Hsome as [Hsome _]. by destruct Hsome.
  - destruct Hsome as [_ Hsome]. by destruct Hsome.
Qed.

Lemma serialize_array_loop_ext (calls calls' : list ser_call) count level
    pretty :
  (∀ i buf level pretty mem,
     serialize_child calls count i buf level pretty mem
     = serialize_child calls' count i buf level pretty mem) →
  ∀ n i st,
    serialize_array_loop calls count i n level pretty st
    = serialize_array_loop calls' count i n level pretty st.
Proof.
  intros Hext. induction n as [|n IH]; intros i st; [done|].
  cbn [serialize_array_loop].
  destruct (int_succ level) as [level1|]; [|done]. cbn [mbind option_bind].
  destruct (if pretty then APPEND_INDENT level1 st else Some st) as [st1|];
    [|done].
  cbn [mbind option_bind]. rewrite Hext.
  destruct (serialize_child calls' count i (buf st1) level1 pretty (block st1))
    as [[written mem]|]; [|done].
  cbn [mbind option_bind]. destruct (written <? 0)%Z; [done|].
  destruct (advance written mem st1) as [st2|]; [|done].
  cbn [mbind option_bind].
  destruct (if i <? count - 1 then APPEND_STRING [","] st2 else Some st2)
    as [st3|]; [|done].
  cbn [mbind option_bind].
  destruct (if pretty then APPEND_STRING ["010"] st3 else Some st3)
    as [st4|]; [|done].
  cbn [mbind option_bind]. apply IH.
Qed.

Lemma serialize_object_loop_ext parser (calls calls' : list ser_call)
    (o o' : JSON_Object JSON_Value) count level pretty :
  (∀ i, json_object_get_name o i = json_object_get_name o' i) →
  (∀ i buf level pretty mem,
     serialize_child calls count i buf level pretty mem
     = serialize_child calls' count i buf level pretty mem) →
  ∀ n i st,
    serialize_object_loop parser calls o count i n level pretty st
    = serialize_object_loop parser calls' o' count i n level pretty st.
Proof.
  intros Hnames Hext. induction n as [|n IH]; intros i st; [done|].
  cbn [serialize_object_loop]. rewrite Hnames.
  destruct (json_object_get_name o' i) as [key|]; [|done].
  destruct (int_succ level) as [level1|]; [|done]. cbn [mbind option_bind].
  destruct (if pretty then APPEND_INDENT level1 st else Some st) as [st1|];
    [|done].
  cbn [mbind option_bind].
  destruct (json_serialize_string parser key (strlen key) (buf st1) (block st1))
    as [[written mem]|]; [|done].
  cbn [mbind option_bind]. destruct (written <? 0)%Z; [done|].
  destruct (advance written mem st1) as [st2|]; [|done].
  cbn [mbind option_bind].
  destruct (APPEND_STRING [":"] st2) as [st3|]; [|done].
  cbn [mbind option_bind].
  destruct (if pretty then APPEND_STRING [" "] st3 else Some st3)
    as [st4|]; [|done].
  cbn [mbind option_bind]. rewrite Hext.
  destruct (serialize_child calls' count i (buf st4) level1 pretty (block st4))
    as [[written' mem']|]; [|done].
  cbn [mbind option_bind]. destruct (written' <? 0)%Z; [done|].
  destruct (advance written' mem' st4) as [st5|]; [|done].
  cbn [mbind option_bind].
  destruct (if i <? count - 1 then APPEND_STRING [","] st5 else Some st5)
    as [st6|]; [|done].
  cbn [mbind option_bind].
  destruct (if pretty then APPEND_STRING ["010"] st6 else Some st6)
    as [st7|]; [|done].
  cbn [mbind option_bind]. apply IH.
Qed.

Lemma children_calls_ext parser num_buf (la lb : list JSON_Value) count :
  Forall2 (λ a b, ∀ buf level pretty mem,
             json_serialize_to_buffer_r parser a buf level pretty num_buf mem
             = json_serialize_to_buffer_r parser b buf level pretty num_buf
                 mem) la lb →
  ∀ i buf level pretty mem,
    serialize_child
      (map (λ temp_value buf level is_pretty mem,
              json_serialize_to_buffer_r parser temp_value buf level is_pretty
                num_buf mem) la) count i buf level pretty mem
    = serialize_child
        (map (λ temp_value buf level is_pretty mem,
                json_serialize_to_buffer_r parser temp_value buf level
                  is_pretty num_buf mem) lb) count i buf level pretty mem.
Proof.
  intros Hall i. apply serialize_child_ext.
  - intros buf level pretty mem. rewrite !list_lookup_fmap.
    destruct (la !! i) as [a|] eqn:Ha, (lb !! i) as [b|] eqn:Hb; simpl;
      try done.
    + by apply (Forall2_lookup_lr _ _ _ i a b Hall).
    + apply lookup_lt_Some in Ha. apply lookup_ge_None_1 in Hb.
      apply Forall2_length in Hall. lia.
    + apply lookup_lt_Some in Hb. apply lookup_ge_None_1 in Ha.
      apply Forall2_length in Hall. lia.
  - rewrite !list_lookup_fmap, !fmap_is_Some, !lookup_lt_is_Some.
    apply Forall2_length in Hall. lia.
Qed.

Lemma json_serialize_to_buffer_r_content parser num_buf (a : JSON_Value) :
  ∀ b, value_wf a → value_wf b → content_of a = content_of b →
    ∀ buf level pretty mem,
      json_serialize_to_buffer_r parser a buf level pretty num_buf mem
      = json_serialize_to_buffer_r parser b buf level pretty num_buf mem.
Proof.
  induction a as [chars|number|object IH|array IH|boolean|]
    using JSON_Value_ind; intros b Hwfa Hwfb Hc buf0 level pretty mem;
    destruct b as [chars'|number'|object'|array'|boolean'|]; try done;
    simpl in Hc.
  - by injection Hc as <-.
  - by injection Hc as <-.
  - injection Hc as Hc. destruct Hwfa as [Hinva Hwfa], Hwfb as [Hinvb Hwfb].
    apply zip_eq_inv in Hc as [Hnames Hvalues].
    2:{ rewrite length_map.
        by rewrite (inv_names_len _ Hinva), (inv_values_len _ Hinva). }
    2:{ rewrite length_map.
        by rewrite (inv_names_len _ Hinvb), (inv_values_len _ Hinvb). }
    assert (count object = count object') as Hcount.
    { by rewrite <- (inv_names_len _ Hinva), <- (inv_names_len _ Hinvb),
        Hnames. }
    cbn [json_serialize_to_buffer_r]. unfold json_object_get_count.
    rewrite Hcount.
    destruct (APPEND_STRING ["{"] _) as [st1|]; [|done].
    cbn [mbind option_bind].
    destruct (if (0 <? count object') && pretty
              then APPEND_STRING ["010"] st1 else Some st1) as [st2|]; [|done].
    cbn [mbind option_bind].
    erewrite serialize_object_loop_ext; [done| |].
    + intros i. unfold json_object_get_name. by rewrite Hcount, Hnames.
    + apply children_calls_ext.
      apply same_content_Forall2; [|done..].
      eapply Forall_impl; [exact IH|]. intros x Hx y Hwx Hwy Hxy. by apply Hx.
  - injection Hc as Hc.
    assert (length (items array) = length (items array')) as Hcount.
    { apply (f_equal length) in Hc. by rewrite !length_map in Hc. }
    cbn [json_serialize_to_buffer_r]. unfold json_array_get_count.
    rewrite Hcount.
    destruct (APPEND_STRING ["["] _) as [st1|]; [|done].
    cbn [mbind option_bind].
    destruct (if (0 <? length (items array')) && pretty
              then APPEND_STRING ["010"] st1 else Some st1) as [st2|]; [|done].
    cbn [mbind option_bind].
    erewrite serialize_array_loop_ext; [done|].
    apply children_calls_ext.
    apply same_content_Forall2; [|done..].
    eapply Forall_impl; [exact IH|]. intros x Hx y Hwx Hwy Hxy. by apply Hx.
  - by injection Hc as <-.
Qed.

Lemma serialize_to_string_with_content pretty parser (a b : JSON_Value) fresh :
  value_wf a → value_wf b → content_of a = content_of b →
  serialize_to_string_with pretty parser a fresh
  = serialize_to_string_with pretty parser b fresh.
Proof.
  intros Hwfa Hwfb Hc.
  unfold serialize_to_string_with, serialize_to_buffer_with,
    serialization_size_with.
  rewrite (json_serialize_to_buffer_r_content parser _ a b) by done.
  destruct (json_serialize_to_buffer_r parser b None 0 pretty _ [])
    as [[res mem]|]; [|done].
  cbn [mbind option_bind].
  destruct (serialization_size_of res =? 0); [done|].
  destruct (negb _); [done|].
  destruct (_ || _); [done|].
  by rewrite (json_serialize_to_buffer_r_content parser _ a b).
Qed.

(** ** json_value_deep_copy *)

Lemma Forall_exists_Forall2 {A B} (R : A → B → Prop) (l : list A) :
  Forall (λ x, ∃ y, R x y) l → ∃ k, Forall2 R l k.
Proof.
  induction 1 as [|x l [y Hy] _ [k Hk]].
  - exists []. constructor.
  - exists (y :: k). by constructor.
Qed.

Lemma deep_copy_array_loop_spec (l cl : list JSON_Value) temp_array :
  items temp_array = l →
  Forall2 (λ v c, json_value_deep_copy_value v = Some (Some c)) l cl →
  ∀ n i acc, i + n = length l → length (items acc) ≤ capacity acc →
    ∃ acc',
      deep_copy_array_loop (map json_value_deep_copy_value l) temp_array i n acc
      = Some (Some acc') ∧
      items acc' = items acc ++ take n (drop i cl).
Proof.
  intros Hitems Hcopies. induction n as [|n IH]; intros i acc Hi Hcap.
  - exists acc. split; [done|]. by rewrite take_0, app_nil_r.
  - cbn [deep_copy_array_loop]. unfold json_array_get_count. rewrite Hitems.
    destruct (Nat.leb_spec (length l) i); [lia|].
    destruct (lookup_lt_is_Some_2 l i) as [v Hv]; [lia|].
    destruct (Forall2_lookup_l _ _ _ _ _ Hcopies Hv) as (c & Hc & Hvc).
    unfold deep_copy_child. rewrite list_lookup_fmap, Hv. simpl.
    rewrite Hvc. simpl.
    destruct (json_array_add_ok acc c Hcap) as (acc1 & -> & Hitems1 & Hcap1).
    simpl.
    destruct (IH (S i) acc1) as (acc' & -> & Hacc'); [lia|done|].
    exists acc'. split; [done|].
    rewrite Hacc', Hitems1, <- app_assoc. f_equal.
    by rewrite (drop_S _ _ _ Hc).
Qed.

Lemma deep_copy_object_loop_spec (o : JSON_Object JSON_Value) cl :
  table_inv o →
  Forall2 (λ v c, json_value_deep_copy_value v = Some (Some c)) (values o) cl →
  ∀ n i acc, i + n = count o → table_inv acc →
    names acc = take i (names o) → values acc = take i cl →
    ∃ acc',
      deep_copy_object_loop (map json_value_deep_copy_value (values o))
        o i n acc = Some (Some acc') ∧
      table_inv acc' ∧ names acc' = names o ∧ values acc' = cl.
Proof.
  intros Hinv Hcopies.
  pose proof (inv_names_len _ Hinv) as Hln.
  pose proof (inv_values_len _ Hinv) as Hlv.
  pose proof (Forall2_length _ _ _ Hcopies) as Hlc.
  induction n as [|n IH]; intros i acc Hi Hacc Hnames Hvalues.
  - exists acc. split_and!; [done..| |].
    + rewrite Hnames, take_ge; [done|lia].
    + rewrite Hvalues, take_ge; [done|lia].
  - cbn [deep_copy_object_loop]. unfold json_object_get_name.
    destruct (Nat.leb_spec (count o) i); [lia|].
    destruct (lookup_lt_is_Some_2 (names o) i) as [key Hkey]; [lia|].
    rewrite Hkey.
    assert (cstring key) as Hcs.
    { eapply Forall_lookup_1; [apply (inv_cstring _ Hinv)|done]. }
    rewrite (json_object_getn_item_present o key i) by done. simpl.
    destruct (lookup_lt_is_Some_2 (values o) i) as [v Hv]; [lia|].
    destruct (Forall2_lookup_l _ _ _ _ _ Hcopies Hv) as (c & Hc & Hvc).
    unfold deep_copy_child. rewrite list_lookup_fmap, Hv. simpl.
    rewrite Hvc. simpl. rewrite parson_strdup_cstring by done.
    destruct (json_object_add_absent acc key c) as (acc1 & -> & Hinv1 & Hn1 & Hv1);
      [done..| |].
    { rewrite Hnames. intros Hin.
      apply list_elem_of_lookup in Hin as [j Hj].
      apply lookup_take_Some in Hj as [Hj Hji].
      assert (j = i); [|lia].
      eapply NoDup_lookup; [apply (inv_nodup _ Hinv)|done..]. }
    simpl.
    destruct (IH (S i) acc1) as (acc' & -> & Hacc'); [lia|done| | |].
    + by rewrite Hn1, Hnames, (take_S_r _ _ _ Hkey).
    + by rewrite Hv1, Hvalues, (take_S_r _ _ _ Hc).
    + by exists acc'.
Qed.

Lemma json_value_deep_copy_value_spec (value : JSON_Value) :
  value_wf value →
  ∃ copy, json_value_deep_copy_value value = Some (Some copy) ∧
          value_wf copy ∧ content_of copy = content_of value.
Proof.
  induction value as [chars|number|object IH|array IH|boolean|]
    using JSON_Value_ind; intros Hwf.
  - exists (Value_String chars). simpl. unfold parson_strndup.
    by rewrite firstn_all.
  - exists (Value_Number number). simpl in *.
    unfold json_value_init_number. by rewrite Hwf.
  - destruct Hwf as [Hinv Hwf].
    destruct (Forall_exists_Forall2
                (λ v c, json_value_deep_copy_value v = Some (Some c) ∧
                        value_wf c ∧ content_of c = content_of v)
                (values object)) as [cl Hcl].
    { rewrite Forall_lookup in IH |- *. intros i v Hv.
      apply (IH i v Hv). by eapply Forall_id_map_lookup. }
    destruct (deep_copy_object_loop_spec object cl Hinv) with
      (n := count object) (i := 0) (acc := json_object_init (V:=JSON_Value) 0)
      as (acc & Hloop & Hinv' & Hnames & Hvalues); [| |by apply json_object_init_inv; left|done|done|].
    { eapply Forall2_impl; [exact Hcl|]. by intros v c (? & _). }
    { done. }
    exists (Value_Object acc). cbn [json_value_deep_copy_value].
    unfold json_object_get_count. rewrite Hloop. simpl.
    split_and!; [done|done| |].
    + rewrite Hvalues. clear -Hcl.
      induction Hcl as [|v c l k (_ & Hc & _) _ IHk]; simpl;
        constructor; done.
    + rewrite Hnames, Hvalues. do 2 f_equal. clear -Hcl.
      induction Hcl as [|v c l k (_ & _ & Hc) _ IHk]; simpl; [done|].
      by rewrite Hc, IHk.
  - simpl in Hwf.
    destruct (Forall_exists_Forall2
                (λ v c, json_value_deep_copy_value v = Some (Some c) ∧
                        value_wf c ∧ content_of c = content_of v)
                (items array)) as [cl Hcl].
    { rewrite Forall_lookup in IH |- *. intros i v Hv.
      apply (IH i v Hv). by eapply Forall_id_map_lookup. }
    destruct (deep_copy_array_loop_spec (items array) cl array) with
      (n := length (items array)) (i := 0)
      (acc := {| items := @nil JSON_Value; capacity := 0 |})
      as (acc & Hloop & Hitems); [done| |done|simpl; lia|].
    { eapply Forall2_impl; [exact Hcl|]. by intros v c (? & _). }
    exists (Value_Array acc). cbn [json_value_deep_copy_value].
    unfold json_array_get_count. rewrite Hloop. simpl.
    rewrite Hitems. simpl. rewrite drop_0, take_ge
      by (by rewrite (Forall2_length _ _ _ Hcl)).
    split_and!; [done| |].
    + clear -Hcl.
      induction Hcl as [|v c l k (_ & Hc & _) _ IHk]; simpl;
        constructor; done.
    + f_equal. clear -Hcl.
      induction Hcl as [|v c l k (_ & _ & Hc) _ IHk]; simpl; [done|].
      by rewrite Hc, IHk.
  - exists (Value_Boolean boolean). simpl in *.
    unfold json_value_init_boolean.
    by destruct Hwf as [-> | ->]; simpl; auto.
  - by exists Value_Null.
Qed.

(** X8.  [json_value_deep_copy] of a well-formed
    value succeeds; the copy is well-formed, holds the same content (the
    same elements, the same keys and values in the same order), and
    [json_value_equals] finds it equal to the original. *)
Theorem deep_copy_same_content (value : JSON_Value) :
  value_wf value → number_equals_itself →
  ∃ copy, json_value_deep_copy (Some value) = Some (Some copy) ∧
          value_wf copy ∧ content_of copy = content_of value ∧
          json_value_equals (Some copy) (Some value) = Some true.
Proof.
  intros Hwf Hnum.
  destruct (json_value_deep_copy_value_spec value Hwf) as (copy & Hcopy & Hwfc & Hc).
  exists copy. split_and!; [done..|].
  by apply same_content_equals_value.
Qed.

(** X9.  Equality and serialization look at the
    content of a value only: two well-formed values with the same content,
    whatever the capacities of their arrays and the cells of their tables,
    are equal for [json_value_equals] (so that a value is equal to itself)
    and are serialized to the same strings. *)
Theorem same_content_is_equal (a b : JSON_Value) parser fresh :
  value_wf a → value_wf b → number_equals_itself →
  (∀ n, length (fresh n) = n) →
  content_of a = content_of b →
  json_value_equals (Some a) (Some b) = Some true ∧
  json_serialize_to_string parser a fresh
  = json_serialize_to_string parser b fresh ∧
  json_serialize_to_string_pretty parser a fresh
  = json_serialize_to_string_pretty parser b fresh.
Proof.
  intros Hwfa Hwfb Hnum Hfresh Hc. split_and!.
  - by apply same_content_equals_value.
  - by apply serialize_to_string_with_content.
  - by apply serialize_to_string_with_content.
Qed.

(** ** Objects are compared as maps *)

Lemma json_value_equals_object_loop_lookup (po o : JSON_Object JSON_Value) :
  table_inv po →
  (∀ i key p, names po !! i = Some key → values po !! i = Some p →
     ∃ v, json_object_get_value o key = Some (Some v) ∧
          json_value_equals_value p (Some v) = Some true) →
  ∀ n i, i + n = count po →
    json_value_equals_object_loop (map json_value_equals_value (values po))
      po o i n = Some true.
Proof.
  intros Hpo Heq. induction n as [|n IH]; intros i Hi; [done|].
  cbn [json_value_equals_object_loop]. unfold json_object_get_name.
  destruct (Nat.leb_spec (count po) i); [lia|].
  destruct (lookup_lt_is_Some_2 (names po) i) as [key Hkey].
  { rewrite (inv_names_len _ Hpo). lia. }
  destruct (lookup_lt_is_Some_2 (values po) i) as [p Hp].
  { rewrite (inv_values_len _ Hpo). lia. }
  assert (cstring key) as Hcs.
  { eapply Forall_lookup_1; [apply (inv_cstring _ Hpo)|done]. }
  rewrite Hkey.
  rewrite (json_object_getn_item_present po key i) by done.
  destruct (Heq i key p Hkey Hp) as (v & -> & Hpv).
  cbn [mbind option_bind]. unfold json_value_equals_child.
  rewrite list_lookup_fmap, Hp. simpl. rewrite Hpv. simpl.
  apply IH. lia.
Qed.

(** X10.  [json_value_equals] compares objects
    as maps: two objects filled by different sequences of insertions and
    removals are equal when the sequences leave the same keys with the same
    values, in whatever order the entries are. *)
Theorem json_value_equals_any_order (ops1 ops2 : list (table_op JSON_Value)) :
  number_equals_itself →
  Forall (λ op, cstring (op_name op)) ops1 →
  Forall (λ op, cstring (op_name op)) ops2 →
  map_Forall (λ _ value, value_wf value) (model_ops ops1) →
  model_ops ops1 = model_ops ops2 →
  ∃ o1 o2,
    run_ops ops1 (json_object_init 0) = Some o1 ∧
    run_ops ops2 (json_object_init 0) = Some o2 ∧
    json_value_equals (Some (Value_Object o1)) (Some (Value_Object o2))
    = Some true.
Proof.
  intros Hnum Hcs1 Hcs2 Hwf Hmodel.
  destruct (run_ops_spec ops1 (json_object_init 0) ∅)
    as (o1 & Hrun1 & Hinv1 & Hrep1);
    [apply json_object_init_inv; by left|apply represents_init|done|].
  destruct (run_ops_spec ops2 (json_object_init 0) ∅)
    as (o2 & Hrun2 & Hinv2 & Hrep2);
    [apply json_object_init_inv; by left|apply represents_init|done|].
  fold (model_ops ops1) in Hrep1. fold (model_ops ops2) in Hrep2.
  exists o1, o2. split_and!; [done..|].
  cbn [json_value_equals json_value_equals_value json_value_get_type].
  rewrite bool_decide_eq_true_2 by done. cbn.
  unfold json_object_get_count.
  rewrite (represents_size o1 _ Hinv1 Hrep1), (represents_size o2 _ Hinv2 Hrep2).
  rewrite Hmodel, Nat.eqb_refl. cbn [negb].
  apply json_value_equals_object_loop_lookup; [done| |].
  - intros i key p Hkey Hp. exists p.
    assert (model_ops ops1 !! key = Some p) as Hm
      by (apply Hrep1; by exists i).
    split.
    + rewrite (json_object_get_value_represents o2 (model_ops ops2));
        [by rewrite <- Hmodel, Hm|done..|].
      eapply Forall_lookup_1; [apply (inv_cstring _ Hinv1)|done].
    + apply same_content_equals_value; [done| | |done];
        apply (Hwf key p Hm).
  - by rewrite (represents_size o1 _ Hinv1 Hrep1), Hmodel.
Qed.

End CopyProofs.

Lemma integer_number_equals_itself : @number_equals_itself integer_ops.
Proof. intros x _. apply Z.eqb_refl. Qed.

Lemma deep_copy_same_content_witness :
  ∃ copy, json_value_deep_copy (Some example_tree) = Some (Some copy) ∧
          value_wf copy ∧ content_of copy = content_of example_tree ∧
          json_value_equals (Some copy) (Some example_tree) = Some true.
Proof.
  apply (@deep_copy_same_content integer_ops example_tree).
  - apply built_wf, example_tree_built.
  - apply integer_number_equals_itself.
Defined.

Lemma same_content_is_equal_witness :
  json_value_equals (Some example_array) (Some example_array_parsed)
  = Some true ∧
  json_serialize_to_string json_get_default_parser example_array fresh_block
  = json_serialize_to_string json_get_default_parser example_array_parsed
      fresh_block ∧
  json_serialize_to_string_pretty json_get_default_parser example_array
    fresh_block
  = json_serialize_to_string_pretty json_get_default_parser
      example_array_parsed fresh_block.
Proof.
  apply (@same_content_is_equal integer_ops example_array example_array_parsed
           json_get_default_parser fresh_block).
  - apply built_wf, example_array_built.
  - simpl. repeat first [done | by right | constructor].
  - apply integer_number_equals_itself.
  - intros n. apply length_replicate.
  - reflexivity.
Defined.

Lemma json_value_equals_any_order_witness :
  ∃ o1 o2,
    run_ops example_ops_ab (json_object_init 0) = Some o1 ∧
    run_ops example_ops_ba (json_object_init 0) = Some o2 ∧
    json_value_equals (Some (Value_Object o1)) (Some (Value_Object o2))
    = Some true.
Proof.
  apply (@json_value_equals_any_order integer_ops example_ops_ab example_ops_ba).
  - apply integer_number_equals_itself.
  - repeat constructor; simpl; discriminate.
  - repeat constructor; simpl; discriminate.
  - unfold example_ops_ab, model_ops. simpl.
    repeat (apply map_Forall_insert_2; [simpl; auto|]).
    apply map_Forall_empty.
  - unfold example_ops_ab, example_ops_ba, model_ops. simpl.
    rewrite delete_insert_ne by done.
    rewrite delete_insert_eq, delete_empty.
    by rewrite insert_insert_ne.
Defined.

(** * What the parser returns *)

Lemma length_tl_le {A} (l : list A) : length (tl l) ≤ length l.
Proof. destruct l; simpl; lia. Qed.

Lemma peek_not_NUL_length (s : list ascii) :
  Ascii.eqb (peek s) NUL = false → length (tl s) < length s.
Proof. destruct s; [done|simpl; lia]. Qed.

Lemma peek_eq_length (s : list ascii) c :
  c ≠ NUL → Ascii.eqb (peek s) c = true → length (tl s) < length s.
Proof.
  intros Hc Hs. destruct s; [|simpl; lia].
  apply Ascii.eqb_eq in Hs. by destruct Hc.
Qed.

Lemma skip_whitespaces_length s : length (skip_whitespaces s) ≤ length s.
Proof.
  induction s as [|c s IH]; simpl; [done|].
  destruct (isspace c); simpl; lia.
Qed.

Lemma skip_quotes_loop_length s : ∀ rest,
  skip_quotes_loop s = Some rest → length rest < length s.
Proof.
  induction s as [s IH] using (induction_ltof1 _ (@length ascii)).
  unfold ltof in IH. intros rest.
  destruct s as [|c s]; simpl; [done|].
  destruct (Ascii.eqb c QUOTE); [intros [= <-]; lia|].
  destruct (Ascii.eqb c NUL); [done|].
  destruct (Ascii.eqb c "\").
  - destruct s as [|c' s]; [done|].
    destruct (Ascii.eqb c' NUL); [done|].
    intros Hs. apply IH in Hs; simpl in *; lia.
  - intros Hs. apply IH in Hs; simpl in *; lia.
Qed.

Lemma parse_utf16_length u bytes rest :
  parse_utf16 u = Some (bytes, rest) → length rest ≤ length (tl u).
Proof.
  unfold parse_utf16.
  pose proof (length_tl_le (tl (drop 4 (tl u)))).
  pose proof (length_tl_le (drop 4 (tl u))).
  pose proof (length_drop (tl u) 4).
  destruct (parse_utf16_hex (tl u)) as [cp|]; [|done].
  repeat match goal with
         | |- context [if ?b then _ else _] => destruct b
         | |- context [match ?x with Some _ => _ | None => _ end] => destruct x
         end;
    try done; intros [= <- <-]; rewrite !length_drop; lia.
Qed.

(** The loop of [process_string] ends within the fuel it is given. *)
Lemma process_string_loop_total fuel : ∀ input consumed input_len output,
  length input ≤ fuel →
  is_Some (process_string_loop fuel input consumed input_len output).
Proof.
  induction fuel as [|fuel IH]; intros input consumed input_len output Hfuel.
  - destruct input; [|simpl in Hfuel; lia]. by eexists.
  - rewrite process_string_loop_unfold.
    destruct (Ascii.eqb (peek input) NUL) eqn:Hnul; [by eexists|].
    apply peek_not_NUL_length in Hnul.
    destruct (consumed <? input_len); [|by eexists]. cbn [negb andb].
    pose proof (length_tl_le (tl input)).
    destruct (Ascii.eqb (peek input) "\").
    + cbv zeta.
      destruct (peek (tl input)) as [[] [] [] [] [] [] [] []];
        try (by eexists); try (apply IH; lia).
      destruct (parse_utf16 (tl input)) as [[bytes rest]|] eqn:Hutf;
        [|by eexists].
      apply parse_utf16_length in Hutf.
      pose proof (length_tl_le rest). apply IH. lia.
    + destruct (uchar (peek input) <? 32)%Z; [by eexists|]. apply IH. lia.
Qed.

Lemma get_quoted_string_total s :
  ∃ r, get_quoted_string s = Some r ∧
       ∀ str rest, r = Some (str, rest) → length rest < length s.
Proof.
  unfold get_quoted_string, skip_quotes.
  destruct (negb (Ascii.eqb (peek s) QUOTE)); [by exists None|].
  destruct (skip_quotes_loop (tl s)) as [rest|] eqn:Hskip; [|by exists None].
  apply skip_quotes_loop_length in Hskip.
  pose proof (length_tl_le s).
  unfold process_string.
  destruct (process_string_loop_total (length (tl s)) (tl s) 0
              (length s - length rest - 2) []) as [[out|] ->]; [done| |].
  - eexists. split; [done|]. intros str rest' [= _ <-]. lia.
  - by exists None.
Qed.

Lemma strlen_le s : strlen s ≤ length s.
Proof.
  induction s as [|c s IH]; simpl; [done|]. destruct (Ascii.eqb c NUL); lia.
Qed.

Lemma strlen_length_cstring s : length s = strlen s → cstring s.
Proof.
  induction s as [|c s IH]; simpl; [constructor|].
  destruct (Ascii.eqb_spec c NUL); [done|].
  intros [= Hlen]. constructor; [done|by apply IH].
Qed.

Section ParserResults.
Context `{FloatOps}.

Lemma nesting_fits_scalar (v : JSON_Value) nesting :
  nesting ≤ MAX_NESTING →
  match v with Value_Object _ | Value_Array _ => False | _ => True end →
  nesting_fits v nesting = true.
Proof.
  intros Hn Hv. destruct v; try done; simpl;
    by rewrite (proj2 (Nat.leb_le _ _) Hn).
Qed.

Lemma parse_string_value_good s nesting :
  nesting ≤ MAX_NESTING →
  ∃ r, parse_string_value s = Some r ∧ parse_result_ok nesting s r.
Proof.
  intros Hn. unfold parse_string_value.
  destruct (get_quoted_string_total s) as (r & -> & Hr).
  destruct r as [[str rest]|]; simpl; [|by exists None].
  eexists. split; [done|]. intros v rest' [= <- <-].
  split_and!; [done|by apply nesting_fits_scalar|].
  specialize (Hr str rest eq_refl). lia.
Qed.

Lemma parse_boolean_value_good s nesting :
  nesting ≤ MAX_NESTING →
  ∃ r, parse_boolean_value s = Some r ∧ parse_result_ok nesting s r.
Proof.
  intros Hn. unfold parse_boolean_value.
  destruct (strncmp_eq _ s 4); [|destruct (strncmp_eq _ s 5)];
    [| |by exists None];
    (eexists; split; [done|]; intros v rest [= <- <-];
     split_and!; [simpl; auto|by apply nesting_fits_scalar
                  |rewrite length_drop; lia]).
Qed.

Lemma parse_null_value_good s nesting :
  nesting ≤ MAX_NESTING →
  ∃ r, parse_null_value s = Some r ∧ parse_result_ok nesting s r.
Proof.
  intros Hn. unfold parse_null_value.
  destruct (strncmp_eq _ s 4); [|by exists None].
  eexists. split; [done|]. intros v rest [= <- <-].
  split_and!; [done|by apply nesting_fits_scalar|rewrite length_drop; lia].
Qed.

Lemma parse_number_value_good s nesting :
  nesting ≤ MAX_NESTING →
  ∃ r, parse_number_value s = Some r ∧ parse_result_ok nesting s r.
Proof.
  intros Hn. unfold parse_number_value.
  destruct (strtod s) as [[number consumed] errno].
  destruct (_ && _); [by exists None|].
  destruct (_ || _); [by exists None|].
  unfold json_value_init_number.
  destruct (IS_NUMBER_INVALID number) eqn:Hnumber; simpl; [by exists None|].
  eexists. split; [done|]. intros v rest [= <- <-].
  split_and!; [done|by apply nesting_fits_scalar|rewrite length_drop; lia].
Qed.

Section Loops.
Variable rec : list ascii → nat → option (parsed JSON_Value).
Variable nesting : nat.
Hypothesis rec_good : ∀ s, ∃ r, rec s nesting = Some r ∧ parse_result_ok nesting s r.

Lemma parse_array_loop_good fuel : ∀ s acc,
  length s ≤ fuel → length (items acc) ≤ capacity acc →
  Forall (λ x, value_wf x ∧ nesting_fits x nesting = true) (items acc) →
  ∃ r, parse_array_loop rec fuel s nesting acc = Some r ∧
       ∀ acc' rest, r = Some (acc', rest) →
         length rest ≤ length s ∧ length (items acc') ≤ capacity acc' ∧
         Forall (λ x, value_wf x ∧ nesting_fits x nesting = true) (items acc').
Proof.
  induction fuel as [|fuel IH]; intros s acc Hfuel Hcap Hacc.
  - destruct s; [|simpl in Hfuel; lia].
    eexists. split; [done|]. by intros acc' rest [= <- <-].
  - rewrite parse_array_loop_unfold.
    destruct (Ascii.eqb (peek s) NUL) eqn:Hnul.
    { eexists. split; [done|]. by intros acc' rest [= <- <-]. }
    destruct (rec_good s) as (r & -> & Hr).
    destruct r as [[v s1]|]; cbn [mbind option_bind]; [|by exists None].
    destruct (Hr v s1 eq_refl) as (Hwf & Hfits & Hlen1).
    destruct (json_array_add_ok acc v Hcap) as (acc1 & -> & Hitems1 & Hcap1).
    cbn [mbind option_bind]. cbv beta iota zeta.
    assert (Forall (λ x, value_wf x ∧ nesting_fits x nesting = true)
              (items acc1)) as Hacc1.
    { rewrite Hitems1. apply Forall_app. split; [done|]. by repeat constructor. }
    pose proof (skip_whitespaces_length s1) as Hlen2.
    destruct (Ascii.eqb (peek (skip_whitespaces s1)) ",") eqn:Hcomma;
      cbn [negb].
    + apply peek_eq_length in Hcomma; [|done].
      pose proof (skip_whitespaces_length (tl (skip_whitespaces s1))) as Hlen3.
      destruct (Ascii.eqb _ "]").
      * eexists. split; [done|]. intros acc' rest [= <- <-].
        split_and!; [lia|done..].
      * destruct (IH (skip_whitespaces (tl (skip_whitespaces s1))) acc1)
          as (r & -> & Hres); [lia|done..|].
        exists r. split; [done|]. intros acc' rest ->.
        destruct (Hres acc' rest eq_refl) as (? & ? & ?).
        split_and!; [lia|done..].
    + eexists. split; [done|]. intros acc' rest [= <- <-].
      split_and!; [lia|done..].
Qed.

Lemma json_object_add_total (o : JSON_Object JSON_Value) key value :
  table_inv o → cstring key →
  ∃ status o', json_object_add o key value = Some (status, o') ∧
    (status = JSONSuccess → table_inv o' ∧ values o' = values o ++ [value]).
Proof.
  intros Hinv Hkey. destruct (decide (key ∈ names o)) as [Hin|Hnotin].
  - exists JSONFailure, o. split; [|done]. by apply json_object_add_present.
  - destruct (json_object_add_absent o key value)
      as (o' & Hadd & Hinv' & _ & Hvalues); [done..|].
    by exists JSONSuccess, o'.
Qed.

Lemma parse_object_loop_good fuel : ∀ s acc,
  length s ≤ fuel → table_inv acc →
  Forall (λ x, value_wf x ∧ nesting_fits x nesting = true) (values acc) →
  ∃ r, parse_object_loop rec fuel s nesting acc = Some r ∧
       ∀ acc' rest, r = Some (acc', rest) →
         length rest ≤ length s ∧ table_inv acc' ∧
         Forall (λ x, value_wf x ∧ nesting_fits x nesting = true) (values acc').
Proof.
  induction fuel as [|fuel IH]; intros s acc Hfuel Hinv Hacc.
  - destruct s; [|simpl in Hfuel; lia].
    eexists. split; [done|]. by intros acc' rest [= <- <-].
  - rewrite parse_object_loop_unfold.
    destruct (Ascii.eqb (peek s) NUL) eqn:Hnul.
    { eexists. split; [done|]. by intros acc' rest [= <- <-]. }
    destruct (get_quoted_string_total s) as (k & -> & Hk).
    destruct k as [[key s1]|]; cbn [mbind option_bind]; [|by exists None].
    specialize (Hk key s1 eq_refl).
    destruct (Nat.eqb_spec (length key) (strlen key)) as [Hlen|];
      cbn [negb]; [|by exists None].
    apply strlen_length_cstring in Hlen.
    cbv zeta.
    pose proof (skip_whitespaces_length s1) as Hlen1.
    destruct (Ascii.eqb (peek (skip_whitespaces s1)) ":") eqn:Hcolon;
      cbn [negb]; [|by exists None].
    apply peek_eq_length in Hcolon; [|done].
    destruct (rec_good (tl (skip_whitespaces s1))) as (r & -> & Hr).
    destruct r as [[v s2]|]; cbn [mbind option_bind]; [|by exists None].
    destruct (Hr v s2 eq_refl) as (Hwf & Hfits & Hlen2).
    destruct (json_object_add_total acc key v Hinv Hlen)
      as (status & acc1 & -> & Hadd).
    cbn [mbind option_bind]. cbv beta iota zeta.
    destruct status; [|by exists None].
    destruct (Hadd eq_refl) as [Hinv1 Hvalues1].
    assert (Forall (λ x, value_wf x ∧ nesting_fits x nesting = true)
              (values acc1)) as Hacc1.
    { rewrite Hvalues1. apply Forall_app. split; [done|]. by repeat constructor. }
    pose proof (skip_whitespaces_length s2) as Hlen3.
    destruct (Ascii.eqb (peek (skip_whitespaces s2)) ",") eqn:Hcomma;
      cbn [negb].
    + apply peek_eq_length in Hcomma; [|done].
      pose proof (skip_whitespaces_length (tl (skip_whitespaces s2))) as Hlen4.
      destruct (Ascii.eqb _ "}").
      * eexists. split; [done|]. intros acc' rest [= <- <-].
        split_and!; [lia|done..].
      * destruct (IH (skip_whitespaces (tl (skip_whitespaces s2))) acc1)
          as (r & -> & Hres); [lia|done..|].
        exists r. split; [done|]. intros acc' rest ->.
        destruct (Hres acc' rest eq_refl) as (? & ? & ?).
        split_and!; [lia|done..].
    + eexists. split; [done|]. intros acc' rest [= <- <-].
      split_and!; [lia|done..].
Qed.

End Loops.

Lemma children_fit (l : list JSON_Value) n :
  Forall (λ x, value_wf x ∧ nesting_fits x (n + 1) = true) l →
  Forall id (map value_wf l) ∧
  forallb id (map (λ x, nesting_fits x (S n)) l) = true.
Proof.
  rewrite <- (Nat.add_1_r n).
  induction 1 as [|x l [Hwf Hfits] _ [IHwf IHfits]]; [by split|].
  simpl. split; [by constructor|].
  by rewrite Hfits, IHfits.
Qed.

Lemma parse_array_value_good rec n s :
  n ≤ MAX_NESTING →
  (∀ s, ∃ r, rec s (n + 1) = Some r ∧ parse_result_ok (n + 1) s r) →
  ∃ r, parse_array_value rec s (n + 1) = Some r ∧ parse_result_ok n s r.
Proof.
  intros Hn Hrec. unfold parse_array_value.
  destruct (Ascii.eqb (peek s) "[") eqn:Hopen; cbn [negb]; [|by exists None].
  apply peek_eq_length in Hopen; [|done]. cbv zeta.
  pose proof (skip_whitespaces_length (tl s)) as Hlen1.
  set (s1 := skip_whitespaces (tl s)) in *.
  pose proof (length_tl_le s1).
  destruct (Ascii.eqb (peek s1) "]").
  { eexists. split; [done|]. intros v rest [= <- <-].
    split_and!; [constructor| |lia].
    simpl. by rewrite (proj2 (Nat.leb_le _ _) Hn). }
  destruct (parse_array_loop_good rec (n + 1) Hrec (length s1) s1
              {| items := []; capacity := 0 |})
    as (r & -> & Hr); [done|simpl; lia|constructor|].
  destruct r as [[acc s2]|]; cbn [mbind option_bind]; [|by exists None].
  destruct (Hr acc s2 eq_refl) as (Hlen2 & Hcap & Hacc).
  cbv zeta. pose proof (skip_whitespaces_length s2) as Hlen3.
  destruct (Ascii.eqb (peek (skip_whitespaces s2)) "]"); cbn [negb];
    [|by exists None].
  unfold json_array_resize, json_array_get_count.
  destruct (length (items acc) =? 0); cbn [mbind option_bind];
    [by exists None|].
  rewrite Nat.ltb_irrefl. cbn [mbind option_bind]. cbv beta iota.
  eexists. split; [done|]. intros v rest [= <- <-].
  pose proof (length_tl_le (skip_whitespaces s2)).
  destruct (children_fit (items acc) n Hacc) as [Hwf Hfits].
  split_and!; [done| |lia].
  simpl. by rewrite (proj2 (Nat.leb_le _ _) Hn), Hfits.
Qed.

Lemma parse_object_value_good rec n s :
  n ≤ MAX_NESTING →
  (∀ s, ∃ r, rec s (n + 1) = Some r ∧ parse_result_ok (n + 1) s r) →
  ∃ r, parse_object_value rec s (n + 1) = Some r ∧ parse_result_ok n s r.
Proof.
  intros Hn Hrec. unfold parse_object_value.
  destruct (Ascii.eqb (peek s) "{") eqn:Hopen; cbn [negb]; [|by exists None].
  apply peek_eq_length in Hopen; [|done]. cbv zeta.
  pose proof (skip_whitespaces_length (tl s)) as Hlen1.
  set (s1 := skip_whitespaces (tl s)) in *.
  pose proof (length_tl_le s1).
  assert (table_inv (json_object_init (V:=JSON_Value) 0)) as Hinit
    by (apply json_object_init_inv; by left).
  destruct (Ascii.eqb (peek s1) "}").
  { eexists. split; [done|]. intros v rest [= <- <-].
    split_and!; [by split; [|constructor]| |lia].
    simpl. by rewrite (proj2 (Nat.leb_le _ _) Hn). }
  destruct (parse_object_loop_good rec (n + 1) Hrec (length s1) s1
              (json_object_init 0))
    as (r & -> & Hr); [done|done|constructor|].
  destruct r as [[acc s2]|]; cbn [mbind option_bind]; [|by exists None].
  destruct (Hr acc s2 eq_refl) as (Hlen2 & Hinv & Hacc).
  cbv zeta. pose proof (skip_whitespaces_length s2) as Hlen3.
  destruct (Ascii.eqb (peek (skip_whitespaces s2)) "}"); cbn [negb];
    [|by exists None].
  eexists. split; [done|]. intros v rest [= <- <-].
  pose proof (length_tl_le (skip_whitespaces s2)).
  destruct (children_fit (values acc) n Hacc) as [Hwf Hfits].
  split_and!; [done| |lia].
  simpl. by rewrite (proj2 (Nat.leb_le _ _) Hn), Hfits.
Qed.

(** [parse_value] returns within the depth that the test of [nesting]
    leaves it, and what it returns is well-formed. *)
Lemma parse_value_good depth : ∀ nesting s,
  MAX_NESTING < nesting + depth →
  ∃ r, parse_value depth s nesting = Some r ∧ parse_result_ok nesting s r.
Proof.
  induction depth as [|depth IH]; intros nesting s Hdepth.
  - cbn [parse_value].
    destruct (Nat.ltb_spec MAX_NESTING nesting); [by exists None|lia].
  - rewrite parse_value_unfold.
    destruct (Nat.ltb_spec MAX_NESTING nesting); [by exists None|].
    cbv zeta. pose proof (skip_whitespaces_length s) as Hlen.
    set (s' := skip_whitespaces s) in *.
    assert (∀ f : option (parsed JSON_Value),
              (∃ r, f = Some r ∧ parse_result_ok nesting s' r) →
              ∃ r, f = Some r ∧ parse_result_ok nesting s r) as Hweaken.
    { intros f (r & -> & Hr). exists r. split; [done|].
      intros v rest ->. destruct (Hr v rest eq_refl) as (? & ? & ?).
      split_and!; [done..|lia]. }
    assert (∀ s0, ∃ r, parse_value depth s0 (nesting + 1) = Some r ∧
                       parse_result_ok (nesting + 1) s0 r) as Hrec.
    { intros s0. apply IH. lia. }
    apply Hweaken.
    destruct (peek s') as [[] [] [] [] [] [] [] []]; cbv beta iota;
      first [ by exists None
            | by apply parse_string_value_good
            | by apply parse_boolean_value_good
            | by apply parse_null_value_good
            | by apply parse_number_value_good
            | by apply parse_array_value_good
            | by apply parse_object_value_good ].
Qed.

(** X11.  On every input [json_parse_string] returns
    NULL or a value, and a value it returns is well-formed (no key is held
    twice in an object and every key is found by lookup, numbers are
    finite, booleans are 0 or 1) and has no value inside more than
    [MAX_NESTING] containers. *)
Theorem json_parse_string_wf (s : list ascii) :
  ∃ r, json_parse_string s = Some r ∧
       ∀ value, r = Some value →
         value_wf value ∧ nesting_fits value 0 = true.
Proof.
  unfold json_parse_string.
  match goal with
  | |- context [parse_value _ ?s0 0] =>
      destruct (parse_value_good (MAX_NESTING + 1) 0 s0) as (r & -> & Hr);
        [lia|]
  end.
  destruct r as [[value rest]|]; [|by exists None].
  exists (Some value). split; [done|]. intros v [= <-].
  by destruct (Hr value rest eq_refl) as (? & ? & _).
Qed.

(** X12.  What the parser accepts, the
    serializer writes back in a form that the parser reads as an equal
    value: a value that [json_parse_string] returned is serialized to a
    string whose parse is equal to it for [json_value_equals], provided
    that its numbers are read back from their texts by the C library and
    that the serializer stays within its buffers and counters: the text of
    every number is shorter than [num_buf] and the text of the value has
    at most [INT_MAX] characters. *)
Theorem parsed_value_is_written_back parser (s : list ascii) value fresh :
  json_parse_string s = Some (Some value) →
  numbers_read_back parser value →
  serialization_fits parser false value →
  (∀ n, length (fresh n) = n) →
  ∃ text parsed,
    json_serialize_to_string parser value fresh = Some (Some text) ∧
    json_parse_string text = Some (Some parsed) ∧
    json_value_equals (Some parsed) (Some value) = Some true.
Proof.
  intros Hparse Hnum Hser Hfresh.
  destruct (json_parse_string_wf s) as (r & Hr & Hgood).
  rewrite Hparse in Hr. injection Hr as <-.
  destruct (Hgood value eq_refl) as [Hwf Hfits].
  destruct (value_text_Some parser value Hnum 0) as [text Htext].
  destruct (json_parse_string_text parser value text [NUL])
    as (parsed & Hp & Heq); try done.
  { by apply ends_value_end. }
  exists (text ++ [NUL]), parsed. split_and!; [|done..].
  unfold json_serialize_to_string.
  by rewrite serialize_to_string_with_spec, Htext.
Qed.

(** ** Repeated keys *)

Lemma parse_object_loop_repeated parser depth nesting keys :
  ∀ vals texts acc fuel rest,
    Forall2 (parses_back depth nesting) vals texts →
    length keys = length vals →
    Forall cstring keys → table_inv acc →
    ¬ NoDup (names acc ++ keys) →
    length keys ≤ fuel →
    parse_object_loop (parse_value depth) fuel
      (elements_text (zip_with (entry_text parser false) keys texts)
         ++ "}" :: rest) nesting acc
    = Some None.
Proof.
  induction keys as [|key keys IH];
    intros vals texts acc fuel rest Hvals Hlen Hcstr Hinv Hdup Hfuel.
  { destruct Hdup. rewrite app_nil_r. apply (inv_nodup _ Hinv). }
  destruct Hvals as [|v t vals texts Hvt Hrest]; [done|].
  destruct fuel as [|fuel]; [simpl in Hfuel; lia|].
  apply Forall_cons in Hcstr as [Hkey Hcstr].
  destruct Hvt as [(c & t' & Ht & Hc) Hparse].
  rewrite parse_object_loop_unfold. cbn [zip_with].
  set (entries := zip_with (entry_text parser false) keys texts).
  assert (∀ tail,
            elements_text (entry_text parser false key t :: entries) ++ tail
            = string_text parser key ++ ":" :: t ++
                match entries with
                | [] => tail
                | _ => "," :: elements_text entries ++ tail
                end) as Hshape.
  { intros tail. rewrite entry_text_compact.
    destruct entries; [cbn [elements_text]|rewrite elements_text_cons];
      rewrite <- !app_assoc; cbn [app]; by rewrite <- ?app_assoc. }
  rewrite Hshape.
  destruct (string_text_start parser key) as [q Hq].
  rewrite (peek_start _ QUOTE q) by done.
  cbn [Ascii.eqb Bool.eqb QUOTE NUL]. simpl (_ && _). cbv iota.
  rewrite get_quoted_string_text. cbn [mbind option_bind].
  rewrite strlen_cstring, Nat.eqb_refl by done. cbn [negb].
  cbn [skip_whitespaces isspace peek hd tl Ascii.eqb Bool.eqb negb].
  destruct (Hparse (match entries with
                    | [] => "}" :: rest
                    | _ => "," :: elements_text entries ++ "}" :: rest
                    end)) as (p & -> & Hp).
  { apply ends_value_end. by destruct entries. }
  cbn [mbind option_bind].
  destruct (decide (key ∈ names acc)) as [Hin|Hnotin].
  { by rewrite json_object_add_present. }
  destruct (json_object_add_absent acc key p)
    as (acc1 & -> & Hinv1 & Hkeys1 & Hvalues1); [done..|].
  cbn [mbind option_bind]. cbv beta iota zeta.
  destruct keys as [|key2 keys].
  { destruct Hdup. rewrite <- Hkeys1. apply (inv_nodup _ Hinv1). }
  destruct Hrest as [|v2 t2 vals texts Hvt2 Hrest]; [done|].
  cbn [zip_with] in entries. subst entries. cbv iota.
  set (entries := entry_text parser false key2 t2
                    :: zip_with (entry_text parser false) keys texts) in *.
  assert (∃ s2, elements_text entries ++ "}" :: rest = QUOTE :: s2)
    as [s2 Hs2].
  { unfold entries.
    destruct (zip_with _ keys texts);
      [cbn [elements_text]|rewrite elements_text_cons];
      rewrite entry_text_compact; by eexists. }
  cbn -[parse_object_loop elements_text entries]. rewrite Hs2.
  cbn -[parse_object_loop elements_text entries].
  rewrite <- Hs2.
  apply (IH (v2 :: vals) (t2 :: texts) acc1 fuel rest); try done.
  - by constructor.
  - simpl in *. lia.
  - by rewrite Hkeys1, <- app_assoc.
  - simpl in *. lia.
Qed.

(** X13.  The parser refuses an object in which a
    key is repeated: the text of an object whose keys are not all
    different is parsed to NULL, whatever the values are. *)
Theorem repeated_key_is_refused parser keys (vals : list JSON_Value) texts rest :
  Forall cstring keys → ¬ NoDup keys →
  Forall (λ v, value_wf v ∧ numbers_read_back parser v
               ∧ nesting_fits v 1 = true) vals →
  Forall2 (λ v t, value_text parser false v 1 = Some t) vals texts →
  length keys = length vals →
  json_parse_string
    (container_text "{" "}" false 0
       (zip_with (entry_text parser false) keys texts) ++ rest)
  = Some None.
Proof.
  intros Hcstr Hdup Hvals Htexts Hlen.
  assert (Forall2 (parses_back MAX_NESTING 1) vals texts) as Hback.
  { apply Forall2_same_length_lookup_2; [by eapply Forall2_length|].
    intros i v t Hv Ht.
    destruct (Forall2_lookup_l _ _ _ _ _ Htexts Hv) as (t0 & Ht0 & Hvt).
    assert (t0 = t) as -> by congruence.
    destruct (Forall_lookup_1 _ _ _ _ Hvals Hv) as (Hwf & Hnum & Hfits).
    apply (value_text_parses_back parser v 1 MAX_NESTING 1 t); try done.
    unfold MAX_NESTING. lia. }
  rewrite container_text_compact.
  rewrite json_parse_string_no_bom by done.
  replace (MAX_NESTING + 1) with (S MAX_NESTING) by lia.
  cbn [app]. rewrite parse_value_start by (done || lia). cbv iota.
  destruct keys as [|key keys]; [destruct Hdup; constructor|].
  assert (table_inv (json_object_init (V := JSON_Value) 0)) as Hinit.
  { apply json_object_init_inv. by left. }
  rewrite <- app_assoc. cbn [app].
  unfold parse_object_value. cbn [peek hd tl Ascii.eqb Bool.eqb negb].
  set (body := elements_text
                 (zip_with (entry_text parser false) (key :: keys) texts)
               ++ "}" :: rest) in *.
  assert (∃ s, body = QUOTE :: s) as [s Hs].
  { unfold body. destruct Hback as [|v t vals texts _ _]; [done|].
    cbn [zip_with].
    destruct (zip_with _ keys texts);
      [cbn [elements_text]|rewrite elements_text_cons];
      rewrite entry_text_compact; by eexists. }
  assert (skip_whitespaces body = body) as -> by (by rewrite Hs).
  assert (Ascii.eqb (peek body) "}" = false) as -> by (by rewrite Hs).
  unfold body.
  rewrite (parse_object_loop_repeated parser MAX_NESTING (0 + 1) (key :: keys)
             vals texts); try done.
  destruct Hback as [|v t vals texts _ Hback]; [done|].
  cbn [zip_with]. rewrite length_app.
  assert (length (key :: keys)
          ≤ length (elements_text
                      (entry_text parser false key t
                       :: zip_with (entry_text parser false) keys texts)));
    [|fold body; lia].
  etrans; [|apply elements_text_length].
  - simpl. rewrite length_zip_with. apply Forall2_length in Hback.
    simpl in Hlen. lia.
  - apply Forall_forall. intros e He.
    change (e ∈ zip_with (entry_text parser false) (key :: keys)
                  (t :: texts)) in He.
    apply elem_of_zip_with in He as (k & t0 & -> & _ & _).
    rewrite entry_text_compact. by eexists _, _.
Qed.

End ParserResults.

Lemma repeated_key_is_refused_witness :
  @json_parse_string integer_ops
    (container_text "{" "}" false 0
       (zip_with (entry_text (@json_get_default_parser integer_ops) false)
          [["a"]; ["b"]; ["a"]]
          [list_ascii_of_string "null"; list_ascii_of_string "true";
           list_ascii_of_string "null"]) ++ [NUL])
  = Some None.
Proof.
  apply (@repeated_key_is_refused integer_ops json_get_default_parser
           [["a"]; ["b"]; ["a"]]
           [@Value_Null integer_ops; Value_Boolean 1; Value_Null]).
  - repeat constructor; discriminate.
  - intros Hnodup. apply NoDup_cons in Hnodup as [Hnotin _].
    apply Hnotin. right. left.
  - repeat first [done | by right | constructor].
  - repeat constructor.
  - reflexivity.
Defined.

Lemma example_array_source_parsed :
  @json_parse_string integer_ops example_array_source
  = Some (Some example_array_parsed).
Proof. vm_cast_no_check (eq_refl (Some (Some example_array_parsed))). Qed.

Lemma example_array_parsed_numbers :
  numbers_read_back json_get_default_parser example_array_parsed.
Proof.
  unfold example_array_parsed. cbn [numbers_read_back items map].
  repeat constructor. apply integer_12_reads_back.
Qed.

Lemma example_array_parsed_fits :
  @serialization_fits integer_ops json_get_default_parser false
    example_array_parsed.
Proof. split; [vm_compute; repeat constructor|by vm_compute]. Qed.

Lemma parsed_value_is_written_back_witness :
  ∃ text parsed,
    json_serialize_to_string json_get_default_parser example_array_parsed
      fresh_block = Some (Some text) ∧
    json_parse_string text = Some (Some parsed) ∧
    json_value_equals (Some parsed) (Some example_array_parsed) = Some true.
Proof.
  apply (@parsed_value_is_written_back integer_ops json_get_default_parser
           example_array_source example_array_parsed fresh_block).
  - apply example_array_source_parsed.
  - apply example_array_parsed_numbers.
  - apply example_array_parsed_fits.
  - intros n. apply length_replicate.
Defined.

(** ** Surrogates *)

Section Surrogates.
Context `{FloatOps}.

Lemma parse_utf16_lone_surrogate digits lead :
  parse_utf16_hex digits = Some lead → (55296 ≤ lead ≤ 56319)%Z →
  ¬ low_surrogate_escape (drop 4 digits) →
  parse_utf16 ("u" :: digits) = None.
Proof.
  intros Hhex Hlead Hlow. unfold parse_utf16. cbn [tl]. rewrite Hhex.
  destruct (Z.ltb_spec lead 128); [lia|].
  destruct (Z.ltb_spec lead 2048); [lia|].
  destruct (Z.ltb_spec lead 55296); [lia|].
  destruct (Z.ltb_spec 57343 lead); [lia|].
  destruct (Z.leb_spec 55296 lead); [|lia].
  destruct (Z.leb_spec lead 56319); [|lia].
  cbn [orb andb].
  destruct (Ascii.eqb_spec (peek (drop 4 digits)) "\") as [Hb|]; [|done].
  destruct (Ascii.eqb_spec (peek (tl (drop 4 digits))) "u") as [Hu|]; [|done].
  cbn [negb].
  destruct (parse_utf16_hex (tl (tl (drop 4 digits)))) as [trail|] eqn:Htrail;
    [|done].
  destruct (Z.ltb_spec trail 56320); [done|].
  destruct (Z.ltb_spec 57343 trail); [done|].
  destruct Hlow. split_and!; [done..|]. exists trail. split; [done|lia].
Qed.

Lemma process_string_loop_lone_surrogate digits input_len plain :
  parse_utf16 ("u" :: digits) = None →
  ∀ fuel consumed output,
    Forall (λ c, c ≠ QUOTE ∧ c ≠ "\" ∧ c ≠ NUL) plain →
    length plain < fuel → consumed + length plain < input_len →
    process_string_loop fuel (plain ++ "\" :: "u" :: digits) consumed
      input_len output
    = Some None.
Proof.
  intros Hutf16.
  induction plain as [|c plain IH]; intros fuel consumed output Hplain Hfuel Hlen;
    (destruct fuel as [|fuel]; [simpl in Hfuel; lia|]);
    rewrite process_string_loop_unfold; simpl in Hlen.
  - cbn [app peek hd tl].
    destruct (Nat.ltb_spec consumed input_len); [|lia].
    by rewrite Hutf16.
  - apply Forall_cons in Hplain as [(_ & Hb & Hn) Hplain].
    cbn [app peek hd tl].
    destruct (Ascii.eqb_spec c NUL); [done|].
    destruct (Nat.ltb_spec consumed input_len); [|lia].
    destruct (Ascii.eqb_spec c "\"); [done|]. cbn [negb andb].
    destruct (uchar c <? 32)%Z; [done|].
    apply IH; [done|simpl in Hfuel; lia|lia].
Qed.

Lemma skip_quotes_loop_plain plain rest :
  Forall (λ c, c ≠ QUOTE ∧ c ≠ "\" ∧ c ≠ NUL) plain →
  skip_quotes_loop (plain ++ rest) = skip_quotes_loop rest.
Proof.
  induction 1 as [|c plain (Hq & Hb & Hn) _ IH]; [done|]. simpl.
  destruct (Ascii.eqb_spec c QUOTE); [done|].
  destruct (Ascii.eqb_spec c NUL); [done|].
  by destruct (Ascii.eqb_spec c "\").
Qed.

Lemma get_quoted_string_lone_surrogate plain digits :
  Forall (λ c, c ≠ QUOTE ∧ c ≠ "\" ∧ c ≠ NUL) plain →
  parse_utf16 ("u" :: digits) = None →
  get_quoted_string (QUOTE :: plain ++ "\" :: "u" :: digits) = Some None.
Proof.
  intros Hplain Hutf16. unfold get_quoted_string, skip_quotes.
  cbn [peek hd tl negb]. rewrite Ascii.eqb_refl. cbn [negb].
  rewrite skip_quotes_loop_plain by done.
  change (skip_quotes_loop ("\" :: "u" :: digits))
    with (skip_quotes_loop digits).
  destruct (skip_quotes_loop digits) as [rest|] eqn:Hskip; [|done].
  apply skip_quotes_loop_length in Hskip.
  unfold process_string.
  rewrite (process_string_loop_lone_surrogate digits _ plain Hutf16);
    [done|done|..]; cbn [length]; rewrite ?length_app; simpl; lia.
Qed.

(** C8.  The escapes of a surrogate pair, [\uD83D\uDE00], are read as the
    code point U+1F600 and stored as its four UTF-8 bytes.  A high
    surrogate alone makes the parser fail: a string in which the escape of
    a number in 0xD800 .. 0xDBFF is not followed at once by the escape of a
    number in 0xDC00 .. 0xDFFF is refused, whatever follows the high
    surrogate instead (the end of the string, other characters, the escape
    of a number outside that range) and whatever plain characters stand
    before it. *)
Theorem surrogate_pairs (plain digits : list ascii) (lead : Z) :
  Forall (λ c, c ≠ QUOTE ∧ c ≠ "\" ∧ c ≠ NUL) plain →
  parse_utf16_hex digits = Some lead → (55296 ≤ lead ≤ 56319)%Z →
  ¬ low_surrogate_escape (drop 4 digits) →
  json_parse_string (QUOTE :: list_ascii_of_string "\uD83D\uDE00" ++ [QUOTE])
    = Some (Some (Value_String (utf8_encode 0x1F600))) ∧
  length (utf8_encode 0x1F600) = 4 ∧
  json_parse_string (QUOTE :: plain ++ "\" :: "u" :: digits) = Some None.
Proof.
  intros Hplain Hhex Hlead Hlow. split_and!; [reflexivity..|].
  rewrite json_parse_string_no_bom by done.
  replace (MAX_NESTING + 1) with (S MAX_NESTING) by lia.
  rewrite (parse_value_start MAX_NESTING QUOTE) by (done || lia).
  unfold parse_string_value.
  rewrite get_quoted_string_lone_surrogate; [done|done|].
  by apply (parse_utf16_lone_surrogate digits lead).
Qed.

End Surrogates.

Lemma surrogate_pairs_witness :
  @json_parse_string integer_ops
    (QUOTE :: list_ascii_of_string "\uD83D\uDE00" ++ [QUOTE])
    = Some (Some (Value_String (utf8_encode 0x1F600))) ∧
  length (utf8_encode 0x1F600) = 4 ∧
  @json_parse_string integer_ops
    (QUOTE :: ["a"] ++ "\" :: "u" :: example_lone_surrogate) = Some None.
Proof.
  apply (@surrogate_pairs integer_ops ["a"] example_lone_surrogate 55296).
  - by repeat constructor.
  - reflexivity.
  - lia.
  - intros (_ & _ & trail & Htrail & Hrange).
    vm_compute in Htrail. injection Htrail as <-. lia.
Defined.

(** * The round trip of the pretty text *)

Lemma skip_whitespaces_app ws s :
  Forall (λ c, isspace c = true) ws →
  skip_whitespaces (ws ++ s) = skip_whitespaces s.
Proof. induction 1 as [|c ws Hc _ IH]; [done|]. simpl. by rewrite Hc. Qed.

Lemma indent_text_space level :
  Forall (λ c, isspace c = true) (indent_text level).
Proof.
  unfold indent_text. induction level as [|level IH]; [constructor|].
  simpl. by repeat constructor.
Qed.

Lemma isspace_number_char c : isspace c = true → number_char c = false.
Proof. destruct c as [[] [] [] [] [] [] [] []]; try discriminate; done. Qed.

Lemma value_end_app ws tail :
  Forall (λ c, isspace c = true) ws → value_end tail = true →
  value_end (ws ++ tail) = true.
Proof.
  intros [|c ws' Hc _] Htail; [done|]. unfold value_end. simpl.
  by rewrite isspace_number_char.
Qed.

Lemma separated_text_cons sep last (t t2 : list ascii) texts :
  separated_text sep last (t :: t2 :: texts)
  = t ++ "," :: sep ++ separated_text sep last (t2 :: texts).
Proof. reflexivity. Qed.

Lemma separated_text_start sep last (texts : list (list ascii)) :
  texts ≠ [] →
  Forall (λ t, ∃ c t', t = c :: t' ∧ value_start c = true) texts →
  ∃ c s, separated_text sep last texts = c :: s ∧ value_start c = true.
Proof.
  intros Hne Hstart. destruct texts as [|t texts]; [done|].
  apply Forall_cons in Hstart as [(c & t' & -> & Hc) _].
  destruct texts; simpl; by eexists _, _.
Qed.

Lemma separated_text_length sep last (texts : list (list ascii)) :
  Forall (λ t, ∃ c t', t = c :: t' ∧ value_start c = true) texts →
  length texts ≤ length (separated_text sep last texts).
Proof.
  induction 1 as [|t texts (c & t' & -> & _) _ IH]; [done|].
  destruct texts as [|t2 texts]; [simpl; lia|].
  rewrite separated_text_cons, !length_app. cbn [length] in *.
  rewrite length_app. lia.
Qed.

Section PrettyRoundTrip.
Context `{FloatOps}.

Lemma parse_value_skip depth ws s nesting :
  Forall (λ c, isspace c = true) ws →
  parse_value depth (ws ++ s) nesting = parse_value depth s nesting.
Proof.
  intros Hws. destruct depth as [|depth]; [done|].
  rewrite !parse_value_unfold. cbv zeta. by rewrite skip_whitespaces_app.
Qed.

Lemma parses_back_start depth nesting (v : JSON_Value) t tail :
  parses_back depth nesting v t →
  ∃ c s, t ++ tail = c :: s ∧ value_start c = true.
Proof. intros [(c & t' & -> & Hc) _]. by exists c, (t' ++ tail). Qed.

Lemma parse_array_loop_separated depth nesting sep last vals texts :
  Forall (λ c, isspace c = true) sep → Forall (λ c, isspace c = true) last →
  Forall2 (parses_back depth nesting) vals texts → vals ≠ [] →
  ∀ acc fuel rest,
    length vals ≤ fuel → length (items acc) ≤ capacity acc →
    ∃ ps acc',
      parse_array_loop (parse_value depth) fuel
        (separated_text sep last texts ++ "]" :: rest) nesting acc
      = Some (Some (acc', "]" :: rest)) ∧
      items acc' = items acc ++ ps ∧
      length (items acc') ≤ capacity acc' ∧
      Forall2 (λ p v, json_value_equals_value p (Some v) = Some true) ps vals.
Proof.
  intros Hsep Hlast.
  induction 1 as [|v t vals texts Hvt Hrest IH]; [done|].
  intros _ acc fuel rest Hfuel Hcap.
  destruct fuel as [|fuel]; [simpl in Hfuel; lia|].
  destruct (parses_back_start _ _ _ _ [] Hvt) as (c & t' & Ht & Hc).
  rewrite app_nil_r in Ht.
  destruct Hvt as [_ Hparse].
  destruct (value_start_spec c Hc) as (Hsp & Hnul & Hbr & Hbrace & Hcomma).
  rewrite parse_array_loop_unfold.
  destruct Hrest as [|v2 t2 vals texts Hvt2 Hrest].
  - cbn [separated_text]. rewrite <- app_assoc.
    rewrite (peek_start t c t') by done.
    rewrite (proj2 (Ascii.eqb_neq c NUL)) by done.
    destruct (Hparse (last ++ "]" :: rest)) as (p & -> & Hp).
    { apply ends_value_end. by apply value_end_app. }
    destruct (json_array_add_ok acc p Hcap) as (acc' & Hadd & Hitems & Hcap').
    cbn [mbind option_bind]. rewrite Hadd. cbn [mbind option_bind].
    cbv beta iota zeta.
    rewrite skip_whitespaces_app by done.
    cbn [skip_whitespaces isspace peek hd Ascii.eqb Bool.eqb negb].
    exists [p], acc'. split_and!; [done..|]. by repeat constructor.
  - rewrite separated_text_cons, <- app_assoc. cbn [app].
    rewrite <- app_assoc.
    set (X := separated_text sep last (t2 :: texts) ++ "]" :: rest).
    rewrite (peek_start t c t') by done.
    rewrite (proj2 (Ascii.eqb_neq c NUL)) by done.
    destruct (Hparse ("," :: sep ++ X)) as (p & -> & Hp).
    { by apply ends_value_end. }
    destruct (json_array_add_ok acc p Hcap) as (acc1 & Hadd & Hitems & Hcap1).
    cbn [mbind option_bind]. rewrite Hadd. cbn [mbind option_bind].
    cbv beta iota zeta.
    destruct (IH ltac:(done) acc1 fuel rest) as (ps & acc' & Hloop & Hps & Hcap' & Heq);
      [simpl in *; lia|done|].
    fold X in Hloop.
    assert (∃ c2 s2, X = c2 :: s2 ∧ value_start c2 = true)
      as (c2 & s2 & Hs2 & Hc2).
    { unfold X.
      destruct (separated_text_start sep last (t2 :: texts)) as (c2 & s2 & Hs2 & ?);
        [done| |rewrite Hs2; by eexists _, _].
      assert (Forall2 (parses_back depth nesting) (v2 :: vals) (t2 :: texts))
        as Hall by (by constructor).
      apply Forall_forall. intros e He.
      apply list_elem_of_lookup in He as [i Hi].
      destruct (Forall2_lookup_r _ _ _ _ _ Hall Hi) as (v0 & _ & Hv0 & _).
      done. }
    destruct (value_start_spec c2 Hc2) as (Hsp2 & _ & Hbr2 & _).
    cbn [skip_whitespaces isspace peek hd tl Ascii.eqb Bool.eqb negb].
    rewrite skip_whitespaces_app by done.
    rewrite Hs2, (skip_whitespaces_start c2) by done. cbn [peek hd].
    rewrite (proj2 (Ascii.eqb_neq c2 "]")) by done.
    rewrite <- Hs2, Hloop.
    exists (p :: ps), acc'. split_and!; [done| |done|by constructor].
    rewrite Hps, Hitems. by rewrite <- app_assoc.
Qed.

Lemma parse_array_value_separated depth nesting ws0 sep last vals texts rest :
  Forall (λ c, isspace c = true) ws0 →
  Forall (λ c, isspace c = true) sep → Forall (λ c, isspace c = true) last →
  Forall2 (parses_back depth nesting) vals texts → vals ≠ [] →
  ∃ ps cap,
    parse_array_value (parse_value depth)
      ("[" :: ws0 ++ separated_text sep last texts ++ "]" :: rest) nesting
    = Some (Some (Value_Array {| items := ps; capacity := cap |}, rest)) ∧
    Forall2 (λ p v, json_value_equals_value p (Some v) = Some true) ps vals.
Proof.
  intros Hws0 Hsep Hlast Hvals Hne.
  assert (Forall (λ t, ∃ c t', t = c :: t' ∧ value_start c = true) texts)
    as Hstart.
  { apply Forall_forall. intros t Ht.
    apply list_elem_of_lookup in Ht as [i Hi].
    destruct (Forall2_lookup_r _ _ _ _ _ Hvals Hi) as (v & _ & Hv & _).
    done. }
  assert (texts ≠ []) as Hne'.
  { intros ->. by apply Forall2_nil_inv_r in Hvals. }
  destruct (separated_text_start sep last texts Hne' Hstart)
    as (c & s & Hs & Hc).
  destruct (value_start_spec c Hc) as (Hsp & _ & Hbr & _).
  unfold parse_array_value. cbn [peek hd tl Ascii.eqb Bool.eqb negb].
  rewrite skip_whitespaces_app by done.
  set (body := separated_text sep last texts ++ "]" :: rest).
  assert (skip_whitespaces body = body) as ->.
  { unfold body. rewrite Hs. by apply skip_whitespaces_start. }
  assert (peek body = c) as Hpeek by (unfold body; by rewrite Hs).
  rewrite Hpeek, (proj2 (Ascii.eqb_neq c "]")) by done.
  destruct (parse_array_loop_separated depth nesting sep last vals texts
              Hsep Hlast Hvals Hne
              {| items := []; capacity := 0 |} (length body) rest)
    as (ps & acc' & Hloop & Hps & Hcap & Heq).
  { unfold body. rewrite length_app.
    pose proof (separated_text_length sep last texts Hstart).
    apply Forall2_length in Hvals. lia. }
  { simpl. lia. }
  fold body in Hloop. rewrite Hloop. cbn [mbind option_bind].
  cbn [skip_whitespaces isspace peek hd tl Ascii.eqb Bool.eqb negb].
  unfold json_array_resize, json_array_get_count.
  simpl in Hps. rewrite Hps.
  assert (ps ≠ []) as Hps_ne.
  { intros ->. apply Forall2_nil_inv_l in Heq. done. }
  destruct (Nat.eqb_spec (length ps) 0) as [Hz|_].
  { by destruct ps. }
  destruct (Nat.ltb_spec (length ps) (length ps)); [lia|].
  cbn. by exists ps, (length ps).
Qed.

Lemma parse_object_loop_separated parser depth nesting cws sep last keys :
  Forall (λ c, isspace c = true) cws →
  Forall (λ c, isspace c = true) sep → Forall (λ c, isspace c = true) last →
  ∀ vals texts acc fuel rest,
    Forall2 (parses_back depth nesting) vals texts →
    length keys = length vals → keys ≠ [] →
    Forall cstring keys → NoDup keys →
    table_inv acc → (∀ key, key ∈ keys → key ∉ names acc) →
    length keys ≤ fuel →
    ∃ ps acc',
      parse_object_loop (parse_value depth) fuel
        (separated_text sep last
           (zip_with (λ key text, string_text parser key ++ ":" :: cws ++ text)
              keys texts)
           ++ "}" :: rest) nesting acc
      = Some (Some (acc', "}" :: rest)) ∧
      table_inv acc' ∧
      names acc' = names acc ++ keys ∧
      values acc' = values acc ++ ps ∧
      Forall2 (λ p v, json_value_equals_value p (Some v) = Some true) ps vals.
Proof.
  intros Hcws Hsep Hlast.
  induction keys as [|key keys IH]; [done|].
  intros vals texts acc fuel rest Hvals Hlen _ Hcstr Hnodup Hinv Hfresh Hfuel.
  destruct Hvals as [|v t vals texts Hvt Hrest]; [done|].
  destruct fuel as [|fuel]; [simpl in Hfuel; lia|].
  apply Forall_cons in Hcstr as [Hkey Hcstr].
  apply NoDup_cons in Hnodup as [Hnotin Hnodup].
  destruct Hvt as [(c & t' & Ht & Hc) Hparse].
  rewrite parse_object_loop_unfold. cbn [zip_with].
  set (entry := λ key text : list ascii,
                  string_text parser key ++ ":" :: cws ++ text) in *.
  set (entries := zip_with entry keys texts).
  assert (∀ tail,
            separated_text sep last (entry key t :: entries) ++ tail
            = string_text parser key ++ ":" :: cws ++ t ++
                match entries with
                | [] => last ++ tail
                | _ => "," :: sep ++ separated_text sep last entries ++ tail
                end) as Hshape.
  { intros tail. unfold entry at 1.
    destruct entries; [cbn [separated_text]|rewrite separated_text_cons];
      rewrite <- !app_assoc; cbn [app]; by rewrite <- ?app_assoc. }
  rewrite Hshape.
  destruct (string_text_start parser key) as [q Hq].
  rewrite (peek_start _ QUOTE q) by done.
  cbn [Ascii.eqb Bool.eqb QUOTE NUL]. simpl (_ && _). cbv iota.
  rewrite get_quoted_string_text. cbn [mbind option_bind].
  rewrite strlen_cstring, Nat.eqb_refl by done. cbn [negb].
  cbn [skip_whitespaces isspace peek hd tl Ascii.eqb Bool.eqb negb].
  rewrite parse_value_skip by done.
  destruct keys as [|key2 keys].
  - destruct vals; [|done]. apply Forall2_nil_inv_l in Hrest as ->.
    cbn [zip_with] in entries. subst entries. cbv iota.
    destruct (Hparse (last ++ "}" :: rest)) as (p & -> & Hp).
    { apply ends_value_end. by apply value_end_app. }
    destruct (json_object_add_absent acc key p)
      as (acc' & Hadd & Hinv' & Hkeys & Hvalues); [done|done| |].
    { apply Hfresh. by left. }
    cbn [mbind option_bind]. rewrite Hadd. cbn [mbind option_bind].
    cbv beta iota zeta. rewrite skip_whitespaces_app by done.
    cbn [skip_whitespaces isspace peek hd Ascii.eqb Bool.eqb negb].
    exists [p], acc'. split_and!; [done..|]. by repeat constructor.
  - destruct Hrest as [|v2 t2 vals texts Hvt2 Hrest]; [done|].
    cbn [zip_with] in entries. subst entries. cbv iota.
    set (entries := entry key2 t2 :: zip_with entry keys texts) in *.
    set (X := separated_text sep last entries ++ "}" :: rest).
    destruct (Hparse ("," :: sep ++ X)) as (p & -> & Hp).
    { by apply ends_value_end. }
    destruct (json_object_add_absent acc key p)
      as (acc1 & Hadd & Hinv1 & Hkeys1 & Hvalues1); [done|done| |].
    { apply Hfresh. by left. }
    cbn [mbind option_bind]. rewrite Hadd. cbn [mbind option_bind].
    cbv beta iota zeta.
    destruct (IH (v2 :: vals) (t2 :: texts) acc1 fuel rest)
      as (ps & acc' & Hloop & Hinv' & Hkeys' & Hvalues' & Heq); try done.
    { by constructor. }
    { simpl in *. lia. }
    { intros k Hk. rewrite Hkeys1. intros Hin.
      apply elem_of_app in Hin as [Hin|Hin].
      - revert Hin. apply Hfresh. by right.
      - apply list_elem_of_singleton in Hin as ->. done. }
    { simpl in *. lia. }
    cbn [zip_with] in Hloop. fold entries in Hloop. fold X in Hloop.
    assert (∃ s2, X = QUOTE :: s2) as [s2 Hs2].
    { unfold X, entries.
      destruct (zip_with _ keys texts);
        [cbn [separated_text]|rewrite separated_text_cons];
        unfold entry; by eexists. }
    cbn [skip_whitespaces isspace peek hd tl Ascii.eqb Bool.eqb negb].
    rewrite skip_whitespaces_app by done.
    rewrite Hs2.
    cbn [skip_whitespaces isspace QUOTE peek hd tl Ascii.eqb Bool.eqb negb].
    rewrite <- Hs2, Hloop.
    exists (p :: ps), acc'. split_and!; [done|done| | |by constructor].
    + rewrite Hkeys', Hkeys1. by rewrite <- app_assoc.
    + rewrite Hvalues', Hvalues1. by rewrite <- app_assoc.
Qed.

Lemma parse_object_value_separated parser depth nesting ws0 cws sep last
    keys vals texts rest :
  Forall (λ c, isspace c = true) ws0 → Forall (λ c, isspace c = true) cws →
  Forall (λ c, isspace c = true) sep → Forall (λ c, isspace c = true) last →
  Forall2 (parses_back depth nesting) vals texts →
  length keys = length vals → keys ≠ [] → Forall cstring keys → NoDup keys →
  ∃ po,
    parse_object_value (parse_value depth)
      ("{" :: ws0 ++
         separated_text sep last
           (zip_with (λ key text, string_text parser key ++ ":" :: cws ++ text)
              keys texts)
         ++ "}" :: rest) nesting
    = Some (Some (Value_Object po, rest)) ∧
    table_inv po ∧ names po = keys ∧
    Forall2 (λ p v, json_value_equals_value p (Some v) = Some true)
      (values po) vals.
Proof.
  intros Hws0 Hcws Hsep Hlast Hvals Hlen Hne Hcstr Hnodup.
  assert (table_inv (json_object_init (V := JSON_Value) 0)) as Hinit.
  { apply json_object_init_inv. by left. }
  set (entry := λ key text : list ascii,
                  string_text parser key ++ ":" :: cws ++ text) in *.
  set (body := separated_text sep last (zip_with entry keys texts)
               ++ "}" :: rest).
  assert (∃ s, body = QUOTE :: s) as [s Hs].
  { unfold body. destruct keys as [|key keys]; [done|].
    destruct Hvals as [|v t vals texts _ _]; [done|].
    cbn [zip_with].
    destruct (zip_with _ keys texts);
      [cbn [separated_text]|rewrite separated_text_cons];
      unfold entry; by eexists. }
  destruct (parse_object_loop_separated parser depth nesting cws sep last keys
              Hcws Hsep Hlast vals texts (json_object_init 0)
              (length body) rest)
    as (ps & po & Hloop & Hinv & Hkeys & Hvalues & Heq); try done.
  { intros k _. apply not_elem_of_nil. }
  { unfold body. rewrite length_app.
    assert (length keys
            ≤ length (separated_text sep last (zip_with entry keys texts)));
      [|lia].
    etrans; [|apply separated_text_length].
    - rewrite length_zip_with. apply Forall2_length in Hvals. lia.
    - apply Forall_forall. intros e He.
      apply elem_of_zip_with in He as (k & t0 & -> & _ & _).
      unfold entry. by eexists _, _. }
  fold entry in Hloop. fold body in Hloop.
  unfold parse_object_value. cbn [peek hd tl Ascii.eqb Bool.eqb negb].
  rewrite skip_whitespaces_app by done. fold entry. fold body.
  assert (skip_whitespaces body = body) as -> by (by rewrite Hs).
  assert (Ascii.eqb (peek body) "}" = false) as -> by (by rewrite Hs).
  rewrite Hloop. cbn.
  exists po. split_and!; [done..|]. simpl in Hvalues. by rewrite Hvalues.
Qed.

(** The text of a container in pretty mode. *)
Lemma concat_imap_pretty level (texts : list (list ascii)) : ∀ k,
  texts ≠ [] →
  concat (imap (λ i, element_text true level (k + length texts) (k + i)) texts)
    ++ indent_text level
  = indent_text (level + 1)
    ++ separated_text ("010" :: indent_text (level + 1))
         ("010" :: indent_text level) texts.
Proof.
  induction texts as [|text texts IH]; intros k Hne; [done|].
  rewrite imap_cons. cbn [concat].
  rewrite (imap_ext _ (λ i, element_text true level
                              (S k + length texts) (S k + i))).
  2:{ intros i t _. simpl. f_equal; lia. }
  unfold element_text at 1. simpl length.
  destruct texts as [|text' texts].
  - simpl. destruct (Nat.ltb_spec (k + 0) (k + 1 - 1)); [lia|].
    by rewrite <- !app_assoc.
  - destruct (Nat.ltb_spec (k + 0) (k + S (length (text' :: texts)) - 1));
      [|simpl in *; lia].
    rewrite separated_text_cons, <- ?app_assoc.
    by rewrite (IH (S k)) by done.
Qed.

Lemma container_text_pretty open close level (texts : list (list ascii)) :
  container_text open close true level texts
  = match texts with
    | [] => [open; close]
    | _ => open :: ("010" :: indent_text (level + 1))
             ++ separated_text ("010" :: indent_text (level + 1))
                  ("010" :: indent_text level) texts
             ++ [close]
    end.
Proof.
  unfold container_text. destruct texts as [|text texts]; [done|].
  set (l := text :: texts). assert (l ≠ []) as Hne by done.
  assert ((0 <? length l) = true) as -> by (by apply Nat.ltb_lt; simpl; lia).
  cbn [andb app]. f_equal. f_equal.
  rewrite app_assoc.
  etrans; [apply (f_equal (λ x, x ++ [close])
                    (concat_imap_pretty level l 0 Hne))|].
  by rewrite <- app_assoc.
Qed.

Lemma entry_text_pretty parser key text :
  entry_text parser true key text = string_text parser key ++ ":" :: [" "] ++ text.
Proof. done. Qed.

Lemma newline_indent_space level :
  Forall (λ c, isspace c = true) ("010" :: indent_text level).
Proof. constructor; [done|apply indent_text_space]. Qed.

(** The pretty text of a value is read back. *)
Lemma value_text_pretty_parses_back parser value :
  ∀ nesting depth level text,
    value_wf value → numbers_read_back parser value →
    nesting_fits value nesting = true → MAX_NESTING < depth + nesting →
    value_text parser true value level = Some text →
    parses_back depth nesting value text.
Proof.
  induction value as [chars|number|object IH|array IH|boolean|]
    using JSON_Value_ind;
    intros nesting depth level text Hwf Hnum Hfits Hdepth Htext;
    try (by apply (value_text_parses_back parser _ nesting depth level text));
    cbn [nesting_fits] in Hfits; apply andb_prop in Hfits as [Hnesting Hfits];
    apply Nat.leb_le in Hnesting;
    (destruct depth as [|depth]; [lia|]).
  - simpl in Htext, Hwf, Hnum. destruct Hwf as [Hinv Hwf].
    destruct (all_texts _) as [texts|] eqn:Htexts; [|done].
    simpl in Htext. injection Htext as <-.
    apply all_texts_Forall2 in Htexts.
    assert (Forall2 (parses_back depth (nesting + 1)) (values object) texts)
      as Hvals.
    { apply Forall2_same_length_lookup_2; [by eapply Forall2_length|].
      intros i v t Hv Ht.
      destruct (Forall2_lookup_l _ _ _ _ _ Htexts Hv) as (t0 & Ht0 & Hvt).
      assert (t0 = t) as -> by congruence.
      rewrite Forall_lookup in IH.
      apply (IH i v Hv (nesting + 1) depth (level + 1) t).
      - by apply (Forall_id_map_lookup value_wf (values object) i).
      - by apply (Forall_id_map_lookup (numbers_read_back parser)
                    (values object) i).
      - by apply (nesting_fits_children (values object) nesting i).
      - lia.
      - done. }
    rewrite container_text_pretty. split; [by destruct (zip_with _ _ _); eexists _, _|].
    intros rest _.
    pose proof (inv_names_len _ Hinv) as Hln.
    pose proof (inv_values_len _ Hinv) as Hlv.
    pose proof (Forall2_length _ _ _ Hvals) as Hlt.
    destruct (names object) as [|key keys] eqn:Hnames.
    { destruct texts; [|simpl in *; lia]. cbn [zip_with app].
      exists (Value_Object (json_object_init 0)).
      rewrite parse_value_start by done. cbv iota. split; [done|].
      apply json_value_equals_object; [apply json_object_init_inv; by left
                                      |done|by rewrite Hnames|].
      destruct (values object); [constructor|simpl in *; lia]. }
    destruct texts as [|t texts]; [simpl in *; lia|].
    cbn [zip_with].
    change (entry_text parser true key t :: zip_with (entry_text parser true) keys texts)
      with (zip_with (λ key text, string_text parser key ++ ":" :: [" "] ++ text)
              (key :: keys) (t :: texts)).
    cbv iota.
    destruct (parse_object_value_separated parser depth (nesting + 1)
                ("010" :: indent_text (level + 1)) [" "]
                ("010" :: indent_text (level + 1)) ("010" :: indent_text level)
                (key :: keys) (values object) (t :: texts) rest)
      as (po & Hparse & Hpo & Hnames' & Heq);
      try done; try apply newline_indent_space.
    { by repeat constructor. }
    { lia. }
    { rewrite <- Hnames. apply Hinv. }
    { rewrite <- Hnames. apply Hinv. }
    exists (Value_Object po). cbn [app]. rewrite <- !app_assoc. cbn [app].
    rewrite parse_value_start by done. cbv iota.
    split; [exact Hparse|].
    apply json_value_equals_object; [done..|by rewrite Hnames|done].
  - simpl in Htext, Hwf, Hnum.
    destruct (all_texts _) as [texts|] eqn:Htexts; [|done].
    simpl in Htext. injection Htext as <-.
    apply all_texts_Forall2 in Htexts.
    assert (Forall2 (parses_back depth (nesting + 1)) (items array) texts)
      as Hvals.
    { apply Forall2_same_length_lookup_2; [by eapply Forall2_length|].
      intros i v t Hv Ht.
      destruct (Forall2_lookup_l _ _ _ _ _ Htexts Hv) as (t0 & Ht0 & Hvt).
      assert (t0 = t) as -> by congruence.
      rewrite Forall_lookup in IH.
      apply (IH i v Hv (nesting + 1) depth (level + 1) t).
      - by apply (Forall_id_map_lookup value_wf (items array) i).
      - by apply (Forall_id_map_lookup (numbers_read_back parser)
                    (items array) i).
      - by apply (nesting_fits_children (items array) nesting i).
      - lia.
      - done. }
    rewrite container_text_pretty. split; [by destruct texts; eexists _, _|].
    intros rest _.
    destruct texts as [|t texts].
    { apply Forall2_nil_inv_r in Hvals.
      exists (Value_Array {| items := []; capacity := 0 |}).
      cbn [app]. rewrite parse_value_start by done. cbv iota. split; [done|].
      apply json_value_equals_array. rewrite Hvals. constructor. }
    destruct (parse_array_value_separated depth (nesting + 1)
                ("010" :: indent_text (level + 1))
                ("010" :: indent_text (level + 1)) ("010" :: indent_text level)
                (items array) (t :: texts) rest)
      as (ps & cap & Hparse & Heq);
      try done; try apply newline_indent_space.
    { intros Hnil. rewrite Hnil in Hvals. by apply Forall2_nil_inv_l in Hvals. }
    exists (Value_Array {| items := ps; capacity := cap |}).
    cbn [app]. rewrite <- !app_assoc. cbn [app].
    rewrite parse_value_start by done. cbv iota.
    split; [exact Hparse|]. by apply json_value_equals_array.
Qed.

Lemma value_text_pretty_Some parser value :
  numbers_read_back parser value →
  ∀ level, is_Some (value_text parser true value level).
Proof.
  induction value as [chars|number|object IH|array IH|boolean|]
    using JSON_Value_ind; intros Hnum level; simpl in *; try by eexists.
  - destruct Hnum as (c & t & -> & _). by eexists.
  - destruct (all_texts_Some (λ x, value_text parser true x (level + 1))
                (values object)) as [texts ->]; [|by eexists].
    apply Forall_lookup. intros i v Hv. rewrite Forall_lookup in IH.
    apply (IH i v Hv).
    by apply (Forall_id_map_lookup (numbers_read_back parser) (values object) i).
  - destruct (all_texts_Some (λ x, value_text parser true x (level + 1))
                (items array)) as [texts ->]; [|by eexists].
    apply Forall_lookup. intros i v Hv. rewrite Forall_lookup in IH.
    apply (IH i v Hv).
    by apply (Forall_id_map_lookup (numbers_read_back parser) (items array) i).
Qed.

(** X14.  The round trip holds for the pretty text as
    well: a well-formed value within the limit of nesting is serialized by
    [json_serialize_to_string_pretty] to a string, with its line breaks
    and indentation, that [json_parse_string] reads back as a value equal
    to it for [json_value_equals], provided that its numbers are read back
    from their texts by the C library and that the serializer stays within
    its buffers and counters: the text of every number is shorter than
    [num_buf] and the pretty text of the value has at most [INT_MAX]
    characters. *)
Theorem round_trip_pretty (parser : JSON_Parser) (value : JSON_Value)
    (fresh : nat → list ascii) :
  value_wf value →
  nesting_fits value 0 = true →
  numbers_read_back parser value →
  serialization_fits parser true value →
  (∀ n, length (fresh n) = n) →
  ∃ s parsed,
    json_serialize_to_string_pretty parser value fresh = Some (Some s) ∧
    json_parse_string s = Some (Some parsed) ∧
    json_value_equals (Some parsed) (Some value) = Some true.
Proof.
  intros Hwf Hfits Hnum Hser Hfresh.
  destruct (value_text_pretty_Some parser value Hnum 0) as [text Htext].
  destruct (value_text_pretty_parses_back parser value 0 (MAX_NESTING + 1) 0 text)
    as [(c & t & -> & Hc) Hparse]; [done..|lia|done|].
  destruct (Hparse [NUL]) as (parsed & Hp & Heq).
  { by apply ends_value_end. }
  exists ((c :: t) ++ [NUL]), parsed. split_and!; [| |done].
  - unfold json_serialize_to_string_pretty.
    by rewrite serialize_to_string_with_spec, Htext.
  - rewrite json_parse_string_no_bom by (by apply value_start_no_bom).
    by rewrite Hp.
Qed.

End PrettyRoundTrip.

Lemma round_trip_pretty_witness :
  ∃ s parsed,
    json_serialize_to_string_pretty json_get_default_parser example_tree
      fresh_block = Some (Some s) ∧
    json_parse_string s = Some (Some parsed) ∧
    json_value_equals (Some parsed) (Some example_tree) = Some true.
Proof.
  apply round_trip_pretty.
  - apply built_wf, example_tree_built.
  - vm_compute. reflexivity.
  - apply example_tree_numbers.
  - apply example_tree_fits.
  - intros n. apply length_replicate.
Defined.

(** * Unicode *)

(** ** Bytes and bit operations *)

(** A property of the numbers below [n] that is checked by running it. *)
Lemma forallb_seq_Z (f : Z → bool) n :
  forallb (λ a, f (Z.of_nat a)) (seq 0 n) = true →
  ∀ x, (0 ≤ x < Z.of_nat n)%Z → f x = true.
Proof.
  intros Hall x Hx. rewrite forallb_forall in Hall.
  specialize (Hall (Z.to_nat x)). rewrite Z2Nat.id in Hall by lia.
  apply Hall, in_seq. lia.
Qed.

Lemma uchar_range c : (0 ≤ uchar c < 256)%Z.
Proof. unfold uchar. pose proof (nat_ascii_bounded c). lia. Qed.

Lemma char_of_uchar c : char_of (uchar c) = c.
Proof.
  unfold char_of, uchar. pose proof (nat_ascii_bounded c).
  rewrite Z.mod_small by lia. by rewrite Nat2Z.id, ascii_nat_embedding.
Qed.

Lemma uchar_char_of x : (0 ≤ x < 256)%Z → uchar (char_of x) = x.
Proof.
  intros Hx. unfold char_of, uchar. rewrite Z.mod_small by lia.
  rewrite nat_ascii_embedding by lia. lia.
Qed.

Lemma land_shiftl_small a n m :
  (0 ≤ n)%Z → (0 ≤ m < 2 ^ n)%Z → Z.land (Z.shiftl a n) m = 0%Z.
Proof.
  intros Hn Hm. apply Z.bits_inj'. intros i Hi.
  rewrite Z.land_spec, Z.bits_0.
  destruct (Z.lt_ge_cases i n).
  - by rewrite Z.shiftl_spec_low by lia.
  - destruct (Z.eq_dec m 0%Z) as [->|Hm0].
    + by rewrite Z.bits_0, andb_false_r.
    + rewrite (Z.bits_above_log2 m i); [apply andb_false_r|lia|].
      assert (Z.log2 m < n)%Z by (apply Z.log2_lt_pow2; lia). lia.
Qed.

(** [a << n | m] for [m] below [2^n]. *)
Lemma lor_shiftl a n m :
  (0 ≤ n)%Z → (0 ≤ m < 2 ^ n)%Z →
  Z.lor (Z.shiftl a n) m = (a * 2 ^ n + m)%Z.
Proof.
  intros Hn Hm. pose proof (Z.add_lor_land (Z.shiftl a n) m) as Hadd.
  rewrite (land_shiftl_small a n m Hn Hm) in Hadd.
  pose proof (Z.shiftl_mul_pow2 a n Hn) as Hmul.
  generalize dependent (Z.lor (Z.shiftl a n) m).
  generalize dependent (Z.shiftl a n). generalize dependent (2 ^ n)%Z.
  intros. lia.
Qed.

(** [m | mask] for a byte [mask] whose low [n] bits are 0. *)
Lemma lor_mask m a n :
  (0 ≤ n)%Z → (0 ≤ m < 2 ^ n)%Z →
  Z.lor m (a * 2 ^ n) = (a * 2 ^ n + m)%Z.
Proof.
  intros Hn Hm. rewrite Z.lor_comm, <- (lor_shiftl a n m Hn Hm).
  by rewrite (Z.shiftl_mul_pow2 a n Hn).
Qed.

Lemma land_low x n :
  (0 ≤ n)%Z → Z.land x (2 ^ n - 1) = (x mod 2 ^ n)%Z.
Proof.
  intros Hn. rewrite <- Z.land_ones by lia.
  by rewrite Z.ones_equiv, <- Z.sub_1_r.
Qed.

Ltac bits :=
  repeat first
    [ rewrite Z.shiftr_div_pow2 by lia
    | rewrite (land_low _ 6) by lia
    | rewrite (land_low _ 5) by lia
    | rewrite (land_low _ 4) by lia
    | rewrite (land_low _ 3) by lia
    | rewrite (land_low _ 10) by lia ].

Lemma hex_char_to_int_range c :
  hex_char_to_int c = (-1)%Z ∨ (0 ≤ hex_char_to_int c < 16)%Z.
Proof.
  destruct c as [[] [] [] [] [] [] [] []]; vm_compute; intuition congruence.
Qed.

Lemma parse_utf16_hex_range s cp :
  parse_utf16_hex s = Some cp → (0 ≤ cp < 65536)%Z.
Proof.
  unfold parse_utf16_hex. destruct (_ || _); [done|]. cbv zeta.
  destruct (hex_char_to_int_range (char_at s 0)) as [->|H0]; [done|].
  destruct (hex_char_to_int_range (char_at s 1)) as [->|H1];
    [by rewrite orb_true_r|].
  destruct (hex_char_to_int_range (char_at s 2)) as [->|H2];
    [by rewrite !orb_true_r|].
  destruct (hex_char_to_int_range (char_at s 3)) as [->|H3];
    [by rewrite !orb_true_r|].
  destruct (_ || _); [done|]. intros [= <-].
  generalize dependent (hex_char_to_int (char_at s 0)).
  generalize dependent (hex_char_to_int (char_at s 1)).
  generalize dependent (hex_char_to_int (char_at s 2)).
  generalize dependent (hex_char_to_int (char_at s 3)).
  intros x4 H4 x3 H3 x2 H2 x1 H1.
  replace (Z.shiftl x2 8) with (Z.shiftl (Z.shiftl x2 4) 4)
    by (rewrite Z.shiftl_shiftl by lia; done).
  replace (Z.shiftl x1 12) with (Z.shiftl (Z.shiftl (Z.shiftl x1 4) 4) 4)
    by (rewrite !Z.shiftl_shiftl by lia; done).
  rewrite <- !Z.shiftl_lor.
  rewrite !lor_shiftl by lia. lia.
Qed.

Lemma land_63 x : Z.land x 63 = (x mod 64)%Z.
Proof. exact (land_low x 6 ltac:(lia)). Qed.
Lemma land_31 x : Z.land x 31 = (x mod 32)%Z.
Proof. exact (land_low x 5 ltac:(lia)). Qed.
Lemma land_15 x : Z.land x 15 = (x mod 16)%Z.
Proof. exact (land_low x 4 ltac:(lia)). Qed.
Lemma land_7 x : Z.land x 7 = (x mod 8)%Z.
Proof. exact (land_low x 3 ltac:(lia)). Qed.
Lemma land_1023 x : Z.land x 1023 = (x mod 1024)%Z.
Proof. exact (land_low x 10 ltac:(lia)). Qed.

Lemma lor_128 m : (0 ≤ m < 64)%Z → Z.lor m 128 = (128 + m)%Z.
Proof.
  intros Hm. etrans; [exact (lor_mask m 2 6 ltac:(lia) ltac:(lia))|lia].
Qed.
Lemma lor_192 m : (0 ≤ m < 32)%Z → Z.lor m 192 = (192 + m)%Z.
Proof.
  intros Hm. etrans; [exact (lor_mask m 6 5 ltac:(lia) ltac:(lia))|lia].
Qed.
Lemma lor_224 m : (0 ≤ m < 16)%Z → Z.lor m 224 = (224 + m)%Z.
Proof.
  intros Hm. etrans; [exact (lor_mask m 14 4 ltac:(lia) ltac:(lia))|lia].
Qed.
Lemma lor_240 m : (0 ≤ m < 8)%Z → Z.lor m 240 = (240 + m)%Z.
Proof.
  intros Hm. etrans; [exact (lor_mask m 30 3 ltac:(lia) ltac:(lia))|lia].
Qed.

Lemma shiftr_6 x : Z.shiftr x 6 = (x / 64)%Z.
Proof. by rewrite Z.shiftr_div_pow2 by lia. Qed.
Lemma shiftr_12 x : Z.shiftr x 12 = (x / 4096)%Z.
Proof. by rewrite Z.shiftr_div_pow2 by lia. Qed.
Lemma shiftr_18 x : Z.shiftr x 18 = (x / 262144)%Z.
Proof. by rewrite Z.shiftr_div_pow2 by lia. Qed.

Lemma mod_64_range x : (0 ≤ x mod 64 < 64)%Z.
Proof. apply Z.mod_pos_bound. lia. Qed.

(** The bytes that [parse_utf16] stores are those of [utf8_encode]. *)
Lemma utf16_two_bytes cp :
  (128 ≤ cp < 2048)%Z →
  [char_of (Z.lor (Z.land (Z.shiftr cp 6) 31) 192);
   char_of (Z.lor (Z.land cp 63) 128)] = utf8_encode cp.
Proof.
  intros Hcp. unfold utf8_encode.
  destruct (Z.ltb_spec cp 128); [lia|].
  destruct (Z.ltb_spec cp 2048); [|lia].
  rewrite shiftr_6, land_31, land_63.
  assert (0 ≤ cp / 64 < 32)%Z
    by (split; [apply Z.div_pos; lia|apply Z.div_lt_upper_bound; lia]).
  rewrite (Z.mod_small (cp / 64)) by lia.
  by rewrite lor_192, lor_128 by (lia || apply mod_64_range).
Qed.

Lemma utf16_three_bytes cp :
  (2048 ≤ cp < 65536)%Z →
  [char_of (Z.lor (Z.land (Z.shiftr cp 12) 15) 224);
   char_of (Z.lor (Z.land (Z.shiftr cp 6) 63) 128);
   char_of (Z.lor (Z.land cp 63) 128)] = utf8_encode cp.
Proof.
  intros Hcp. unfold utf8_encode.
  destruct (Z.ltb_spec cp 128); [lia|].
  destruct (Z.ltb_spec cp 2048); [lia|].
  destruct (Z.ltb_spec cp 65536); [|lia].
  rewrite shiftr_6, shiftr_12, land_15, !land_63.
  assert (0 ≤ cp / 4096 < 16)%Z
    by (split; [apply Z.div_pos; lia|apply Z.div_lt_upper_bound; lia]).
  rewrite (Z.mod_small (cp / 4096)) by lia.
  by rewrite lor_224, !lor_128 by (lia || apply mod_64_range).
Qed.

Lemma utf16_four_bytes cp :
  (65536 ≤ cp < 2097152)%Z →
  [char_of (Z.lor (Z.land (Z.shiftr cp 18) 7) 240);
   char_of (Z.lor (Z.land (Z.shiftr cp 12) 63) 128);
   char_of (Z.lor (Z.land (Z.shiftr cp 6) 63) 128);
   char_of (Z.lor (Z.land cp 63) 128)] = utf8_encode cp.
Proof.
  intros Hcp. unfold utf8_encode.
  destruct (Z.ltb_spec cp 128); [lia|].
  destruct (Z.ltb_spec cp 2048); [lia|].
  destruct (Z.ltb_spec cp 65536); [lia|].
  rewrite shiftr_6, shiftr_12, shiftr_18, land_7, !land_63.
  assert (0 ≤ cp / 262144 < 8)%Z
    by (split; [apply Z.div_pos; lia|apply Z.div_lt_upper_bound; lia]).
  rewrite (Z.mod_small (cp / 262144)) by lia.
  by rewrite lor_240, !lor_128 by (lia || apply mod_64_range).
Qed.

Lemma surrogate_pair_bits lead trail :
  (55296 ≤ lead ≤ 56319)%Z → (56320 ≤ trail ≤ 57343)%Z →
  (Z.lor (Z.shiftl (Z.land (lead - 55296) 1023) 10)
     (Z.land (trail - 56320) 1023) + 65536)%Z
  = surrogate_pair lead trail.
Proof.
  intros Hlead Htrail. unfold surrogate_pair.
  rewrite !land_1023, !Z.mod_small by lia.
  rewrite lor_shiftl by lia. lia.
Qed.

Lemma peek_drop (s : list ascii) n : peek (drop n s) = char_at s n.
Proof.
  unfold peek, char_at. revert s. induction n as [|n IH]; intros [|c s];
    try done. simpl. apply IH.
Qed.

Lemma tl_drop {A} (s : list A) n : tl (drop n s) = drop (S n) s.
Proof.
  revert s. induction n as [|n IH]; intros [|c s]; try done.
  apply (IH s).
Qed.

(** X15.  A [\u] escape is decoded as UTF-16 requires:
    a code unit outside the surrogate range is stored as its UTF-8
    encoding; a high surrogate followed by the escape of a low surrogate is
    stored as the encoding of the code point of the pair; a low surrogate
    on its own, and a high surrogate that no escaped low surrogate
    follows, are errors.  The bytes stored always encode a Unicode scalar
    value. *)
Theorem parse_utf16_decodes (s : list ascii) (cp : Z) :
  parse_utf16_hex s = Some cp →
  if (cp <? 55296)%Z || (57343 <? cp)%Z then
    parse_utf16 ("u" :: s) = Some (utf8_encode cp, drop 3 s) ∧ scalar_value cp
  else if (cp <=? 56319)%Z then
    if Ascii.eqb (char_at s 4) "\" && Ascii.eqb (char_at s 5) "u" then
      match parse_utf16_hex (drop 6 s) with
      | Some trail =>
          if (56320 <=? trail)%Z && (trail <=? 57343)%Z then
            parse_utf16 ("u" :: s)
            = Some (utf8_encode (surrogate_pair cp trail), drop 9 s) ∧
            scalar_value (surrogate_pair cp trail)
          else parse_utf16 ("u" :: s) = None
      | None => parse_utf16 ("u" :: s) = None
      end
    else parse_utf16 ("u" :: s) = None
  else parse_utf16 ("u" :: s) = None.
Proof.
  intros Hhex. pose proof (parse_utf16_hex_range s cp Hhex) as Hrange.
  unfold parse_utf16. cbn [tl]. rewrite Hhex.
  rewrite !peek_drop, !tl_drop, peek_drop, !drop_drop. simpl (_ + _).
  destruct (Z.ltb_spec cp 55296); cbn [orb].
  - destruct (Z.ltb_spec cp 128).
    { split; [|unfold scalar_value; lia].
      unfold utf8_encode. by destruct (Z.ltb_spec cp 128); [|lia]. }
    destruct (Z.ltb_spec cp 2048).
    { split; [|unfold scalar_value; lia]. by rewrite utf16_two_bytes by lia. }
    cbn [orb].
    split; [|unfold scalar_value; lia]. by rewrite utf16_three_bytes by lia.
  - destruct (Z.ltb_spec cp 128); [lia|].
    destruct (Z.ltb_spec cp 2048); [lia|].
    destruct (Z.ltb_spec 57343 cp); cbn [orb].
    { split; [|unfold scalar_value; lia]. by rewrite utf16_three_bytes by lia. }
    destruct (Z.leb_spec 55296 cp); [|lia].
    destruct (Z.leb_spec cp 56319); cbn [andb]; [|done].
    destruct (Ascii.eqb (char_at s 4) "\"); cbn [negb andb]; [|done].
    destruct (Ascii.eqb (char_at s 5) "u"); cbn [negb]; [|done].
    destruct (parse_utf16_hex (drop 6 s)) as [trail|]; [|done].
    destruct (Z.ltb_spec trail 56320); cbn [orb].
    { by destruct (Z.leb_spec 56320 trail); [lia|]. }
    destruct (Z.leb_spec 56320 trail); [|lia]. cbn [andb].
    destruct (Z.ltb_spec 57343 trail).
    { by destruct (Z.leb_spec trail 57343); [lia|]. }
    destruct (Z.leb_spec trail 57343); [|lia].
    rewrite surrogate_pair_bits by lia.
    assert (65536 ≤ surrogate_pair cp trail ≤ 1114111)%Z
      by (unfold surrogate_pair; lia).
    split; [|unfold scalar_value; lia].
    by rewrite utf16_four_bytes by lia.
Qed.

Lemma parse_utf16_decodes_witness :
  parse_utf16 ("u" :: example_surrogate_escapes)
  = Some (utf8_encode (surrogate_pair 55357 56832), ["0"; QUOTE]) ∧
  scalar_value (surrogate_pair 55357 56832).
Proof.
  exact (parse_utf16_decodes example_surrogate_escapes 55357 eq_refl).
Defined.

(** ** UTF-8 *)

Lemma num_bytes_spec x :
  (0 ≤ x < 256)%Z →
  num_bytes_in_utf8_sequence (char_of x)
  = if (x <? 128)%Z then 1 else if (x <? 194)%Z then 0
    else if (x <? 224)%Z then 2 else if (x <? 240)%Z then 3
    else if (x <? 245)%Z then 4 else 0.
Proof.
  intros Hx. apply Nat.eqb_eq.
  apply (forallb_seq_Z
           (λ x, num_bytes_in_utf8_sequence (char_of x)
                 =? (if (x <? 128)%Z then 1 else if (x <? 194)%Z then 0
                     else if (x <? 224)%Z then 2 else if (x <? 240)%Z then 3
                     else if (x <? 245)%Z then 4 else 0)) 256);
    [vm_compute; reflexivity|lia].
Qed.

Lemma IS_CONT_spec x :
  (0 ≤ x < 256)%Z → IS_CONT (char_of x) = (128 <=? x)%Z && (x <? 192)%Z.
Proof.
  intros Hx. apply eqb_true_iff.
  apply (forallb_seq_Z
           (λ x, Bool.eqb (IS_CONT (char_of x)) ((128 <=? x)%Z && (x <? 192)%Z))
           256);
    [vm_compute; reflexivity|lia].
Qed.

Lemma mod_lead_2 x : (192 ≤ x < 224)%Z → (x mod 32 = x - 192)%Z.
Proof. intros. Z.to_euclidean_division_equations. lia. Qed.
Lemma mod_lead_3 x : (224 ≤ x < 240)%Z → (x mod 16 = x - 224)%Z.
Proof. intros. Z.to_euclidean_division_equations. lia. Qed.
Lemma mod_lead_4 x : (240 ≤ x < 248)%Z → (x mod 8 = x - 240)%Z.
Proof. intros. Z.to_euclidean_division_equations. lia. Qed.
Lemma mod_cont x : (128 ≤ x < 192)%Z → (x mod 64 = x - 128)%Z.
Proof. intros. Z.to_euclidean_division_equations. lia. Qed.

Lemma step_bits cp x :
  (128 ≤ x < 192)%Z →
  Z.lor (Z.shiftl cp 6) (Z.land x 63) = (cp * 64 + (x - 128))%Z.
Proof.
  intros Hx. rewrite land_63, mod_cont by done.
  rewrite lor_shiftl by lia. lia.
Qed.

Lemma encode_1 x : (0 ≤ x < 128)%Z → utf8_encode x = [char_of x].
Proof. intros. unfold utf8_encode. by destruct (Z.ltb_spec x 128); [|lia]. Qed.

Lemma encode_2 k m :
  (2 ≤ k < 32)%Z → (0 ≤ m < 64)%Z →
  utf8_encode (k * 64 + m) = [char_of (192 + k); char_of (128 + m)].
Proof.
  intros Hk Hm. unfold utf8_encode.
  destruct (Z.ltb_spec (k * 64 + m) 128); [lia|].
  destruct (Z.ltb_spec (k * 64 + m) 2048); [|lia].
  assert ((k * 64 + m) / 64 = k ∧ (k * 64 + m) mod 64 = m)%Z as [-> ->]; [|done].
  Z.to_euclidean_division_equations. lia.
Qed.

Lemma encode_3 k m1 m2 :
  (0 ≤ k < 16)%Z → (0 ≤ m1 < 64)%Z → (0 ≤ m2 < 64)%Z →
  (2048 ≤ (k * 64 + m1) * 64 + m2)%Z →
  utf8_encode ((k * 64 + m1) * 64 + m2)
  = [char_of (224 + k); char_of (128 + m1); char_of (128 + m2)].
Proof.
  intros Hk Hm1 Hm2 Hcp. unfold utf8_encode.
  set (cp := ((k * 64 + m1) * 64 + m2)%Z) in *.
  destruct (Z.ltb_spec cp 128); [lia|].
  destruct (Z.ltb_spec cp 2048); [lia|].
  destruct (Z.ltb_spec cp 65536); [|lia].
  assert (cp / 4096 = k ∧ (cp / 64) mod 64 = m1 ∧ cp mod 64 = m2)%Z
    as (-> & -> & ->); [|done].
  subst cp. Z.to_euclidean_division_equations. lia.
Qed.

Lemma encode_4 k m1 m2 m3 :
  (0 ≤ k < 8)%Z → (0 ≤ m1 < 64)%Z → (0 ≤ m2 < 64)%Z → (0 ≤ m3 < 64)%Z →
  (65536 ≤ ((k * 64 + m1) * 64 + m2) * 64 + m3)%Z →
  utf8_encode (((k * 64 + m1) * 64 + m2) * 64 + m3)
  = [char_of (240 + k); char_of (128 + m1); char_of (128 + m2);
     char_of (128 + m3)].
Proof.
  intros Hk Hm1 Hm2 Hm3 Hcp. unfold utf8_encode.
  set (cp := (((k * 64 + m1) * 64 + m2) * 64 + m3)%Z) in *.
  destruct (Z.ltb_spec cp 128); [lia|].
  destruct (Z.ltb_spec cp 2048); [lia|].
  destruct (Z.ltb_spec cp 65536); [lia|].
  assert (cp / 262144 = k ∧ (cp / 4096) mod 64 = m1 ∧ (cp / 64) mod 64 = m2
          ∧ cp mod 64 = m3)%Z
    as (-> & -> & -> & ->); [|done].
  subst cp. Z.to_euclidean_division_equations. lia.
Qed.

Ltac zcases :=
  repeat (match goal with
          | |- context [(?a <? ?b)%Z] => destruct (Z.ltb_spec a b); try lia
          | |- context [(?a <=? ?b)%Z] => destruct (Z.leb_spec a b); try lia
          end; cbn [andb orb negb Nat.eqb Nat.ltb Nat.leb]).

(** What [verify_utf8_sequence] accepts is the encoding of a scalar value. *)
Lemma verify4_decodes x0 x1 x2 x3 len :
  (0 ≤ x0 < 256)%Z → (0 ≤ x1 < 256)%Z → (0 ≤ x2 < 256)%Z → (0 ≤ x3 < 256)%Z →
  verify_utf8_sequence [char_of x0; char_of x1; char_of x2; char_of x3]
  = (JSONSuccess, len) →
  ∃ cp, scalar_value cp ∧
        utf8_encode cp
        = take len [char_of x0; char_of x1; char_of x2; char_of x3] ∧
        1 ≤ len ≤ 4 ∧
        (1 < len → (128 ≤ x1)%Z) ∧ (2 < len → (128 ≤ x2)%Z) ∧
        (3 < len → (128 ≤ x3)%Z).
Proof.
  intros H0 H1 H2 H3. unfold verify_utf8_sequence. cbn [char_at nth].
  rewrite !uchar_char_of, num_bytes_spec, !IS_CONT_spec by lia.
  destruct (Z.ltb_spec x0 128).
  { cbn [Nat.eqb Nat.ltb Nat.leb andb orb]. zcases. intros [= <-].
    exists x0. rewrite encode_1 by lia.
    split_and!; [unfold scalar_value; lia|done|lia..]. }
  destruct (Z.ltb_spec x0 194).
  { cbn [Nat.eqb Nat.ltb Nat.leb andb orb]. discriminate. }
  destruct (Z.ltb_spec x0 224).
  { cbn [Nat.eqb Nat.ltb Nat.leb andb orb].
    destruct (Z.leb_spec 128 x1); cbn [andb]; [|discriminate].
    destruct (Z.ltb_spec x1 192); cbn [andb]; [|discriminate].
    rewrite land_31, mod_lead_2, step_bits by lia.
    zcases. intros [= <-].
    exists ((x0 - 192) * 64 + (x1 - 128))%Z.
    rewrite encode_2 by lia.
    split_and!; [unfold scalar_value; lia| |lia..].
    cbn [take]. repeat f_equal; lia. }
  destruct (Z.ltb_spec x0 240).
  { cbn [Nat.eqb Nat.ltb Nat.leb andb orb].
    destruct (Z.leb_spec 128 x1); cbn [andb]; [|discriminate].
    destruct (Z.ltb_spec x1 192); cbn [andb]; [|discriminate].
    destruct (Z.leb_spec 128 x2); cbn [andb]; [|discriminate].
    destruct (Z.ltb_spec x2 192); cbn [andb]; [|discriminate].
    rewrite land_15, mod_lead_3, !step_bits by lia.
    zcases; try discriminate; intros [= <-];
      (exists (((x0 - 224) * 64 + (x1 - 128)) * 64 + (x2 - 128))%Z;
       rewrite encode_3 by lia;
       split_and!; [unfold scalar_value; lia| |lia..];
       cbn [take]; repeat f_equal; lia). }
  destruct (Z.ltb_spec x0 245).
  { cbn [Nat.eqb Nat.ltb Nat.leb andb orb].
    destruct (Z.leb_spec 128 x1); cbn [andb]; [|discriminate].
    destruct (Z.ltb_spec x1 192); cbn [andb]; [|discriminate].
    destruct (Z.leb_spec 128 x2); cbn [andb]; [|discriminate].
    destruct (Z.ltb_spec x2 192); cbn [andb]; [|discriminate].
    destruct (Z.leb_spec 128 x3); cbn [andb]; [|discriminate].
    destruct (Z.ltb_spec x3 192); cbn [andb]; [|discriminate].
    rewrite land_7, mod_lead_4, !step_bits by lia.
    zcases; try discriminate; intros [= <-];
      (exists ((((x0 - 240) * 64 + (x1 - 128)) * 64 + (x2 - 128)) * 64
               + (x3 - 128))%Z;
       rewrite encode_4 by lia;
       split_and!; [unfold scalar_value; lia| |lia..];
       cbn [take]; repeat f_equal; lia). }
  cbn [Nat.eqb Nat.ltb Nat.leb andb orb]. discriminate.
Qed.

Lemma verify_first_four s :
  verify_utf8_sequence s
  = verify_utf8_sequence
      [char_of (uchar (char_at s 0)); char_of (uchar (char_at s 1));
       char_of (uchar (char_at s 2)); char_of (uchar (char_at s 3))].
Proof. by rewrite !char_of_uchar. Qed.

Lemma char_at_lt s i : (128 ≤ uchar (char_at s i))%Z → i < length s.
Proof.
  intros Hc. destruct (Nat.lt_ge_cases i (length s)) as [|Hge]; [done|].
  unfold char_at in Hc. rewrite nth_overflow in Hc by done.
  vm_compute in Hc. by destruct Hc.
Qed.

Lemma take_first_four s len :
  len ≤ 4 → len ≤ length s →
  take len s
  = take len [char_at s 0; char_at s 1; char_at s 2; char_at s 3].
Proof.
  intros H4 Hlen.
  destruct s as [|a [|b [|c [|d s]]]]; do 5 (try destruct len as [|len]);
    simpl in *; done || lia.
Qed.

Lemma verify_decodes s len :
  s ≠ [] → verify_utf8_sequence s = (JSONSuccess, len) →
  ∃ cp, scalar_value cp ∧ take len s = utf8_encode cp ∧ 1 ≤ len ≤ length s.
Proof.
  intros Hs. rewrite verify_first_four. intros Hverify.
  apply verify4_decodes in Hverify
      as (cp & Hcp & Henc & Hlen & Hc1 & Hc2 & Hc3);
    try apply uchar_range.
  rewrite !char_of_uchar in Henc.
  assert (len ≤ length s) as Hle.
  { destruct s as [|c s]; [done|].
    destruct (decide (1 < len)) as [H1|]; [|simpl; lia].
    pose proof (char_at_lt _ _ (Hc1 H1)).
    destruct (decide (2 < len)) as [H2|]; [|lia].
    pose proof (char_at_lt _ _ (Hc2 H2)).
    destruct (decide (3 < len)) as [H3|]; [|lia].
    pose proof (char_at_lt _ _ (Hc3 H3)). lia. }
  exists cp. split_and!; [done| |lia..].
  by rewrite take_first_four by lia.
Qed.

Lemma utf8_encode_length cp : 1 ≤ length (utf8_encode cp) ≤ 4.
Proof. unfold utf8_encode. repeat case_match; simpl; lia. Qed.

(** [verify_utf8_sequence] accepts the encoding of a scalar value, whatever
    follows it. *)
Lemma verify_encoded cp rest :
  scalar_value cp →
  verify_utf8_sequence (utf8_encode cp ++ rest)
  = (JSONSuccess, length (utf8_encode cp)).
Proof.
  intros [Hrange Hsurrogate]. unfold utf8_encode.
  destruct (Z.ltb_spec cp 128).
  { unfold verify_utf8_sequence. cbn [app char_at nth length].
    rewrite !uchar_char_of, num_bytes_spec by lia.
    destruct (Z.ltb_spec cp 128); [|lia].
    cbn [Nat.eqb Nat.ltb Nat.leb andb orb]. by zcases. }
  destruct (Z.ltb_spec cp 2048).
  { assert (2 ≤ cp / 64 < 32)%Z by (Z.to_euclidean_division_equations; lia).
    pose proof (mod_64_range cp).
    assert (cp = cp / 64 * 64 + cp mod 64)%Z as Hcp
      by (Z.to_euclidean_division_equations; lia).
    generalize dependent (cp / 64)%Z. generalize dependent (cp mod 64)%Z.
    intros m Hm k Hk Hcp.
    unfold verify_utf8_sequence. cbn [app char_at nth length].
    rewrite !uchar_char_of, num_bytes_spec, !IS_CONT_spec by lia.
    rewrite land_31, mod_lead_2, !(step_bits _ (128 + m)) by lia. by zcases. }
  destruct (Z.ltb_spec cp 65536).
  { assert (0 ≤ cp / 4096 < 16)%Z by (Z.to_euclidean_division_equations; lia).
    pose proof (mod_64_range cp). pose proof (mod_64_range (cp / 64)).
    assert (cp = (cp / 4096 * 64 + (cp / 64) mod 64) * 64 + cp mod 64)%Z
      as Hcp by (Z.to_euclidean_division_equations; lia).
    generalize dependent (cp / 4096)%Z.
    generalize dependent ((cp / 64) mod 64)%Z.
    generalize dependent (cp mod 64)%Z.
    intros m2 Hm2 m1 Hm1 k Hk Hcp.
    unfold verify_utf8_sequence. cbn [app char_at nth length].
    rewrite !uchar_char_of, num_bytes_spec, !IS_CONT_spec by lia.
    rewrite land_15, mod_lead_3, !(step_bits _ (128 + m1)),
      !(step_bits _ (128 + m2)) by lia.
    by zcases. }
  assert (0 ≤ cp / 262144 < 5)%Z by (Z.to_euclidean_division_equations; lia).
  pose proof (mod_64_range cp). pose proof (mod_64_range (cp / 64)).
  pose proof (mod_64_range (cp / 4096)).
  assert (cp = ((cp / 262144 * 64 + (cp / 4096) mod 64) * 64
                + (cp / 64) mod 64) * 64 + cp mod 64)%Z
    as Hcp by (Z.to_euclidean_division_equations; lia).
  generalize dependent (cp / 262144)%Z.
  generalize dependent ((cp / 4096) mod 64)%Z.
  generalize dependent ((cp / 64) mod 64)%Z.
  generalize dependent (cp mod 64)%Z.
  intros m3 Hm3 m2 Hm2 m1 Hm1 k Hk Hcp.
  unfold verify_utf8_sequence. cbn [app char_at nth length].
  rewrite !uchar_char_of, num_bytes_spec, !IS_CONT_spec by lia.
  rewrite land_7, mod_lead_4, !(step_bits _ (128 + m1)),
    !(step_bits _ (128 + m2)), !(step_bits _ (128 + m3)) by lia.
  by zcases.
Qed.

Lemma is_valid_utf8_loop_decodes fuel : ∀ s,
  length s ≤ fuel → is_valid_utf8_loop fuel s (length s) = true →
  ∃ cps, Forall scalar_value cps ∧ s = utf8_text cps.
Proof.
  induction fuel as [|fuel IH]; intros s Hfuel Hvalid.
  { destruct s; [|simpl in Hfuel; lia]. by exists []. }
  destruct s as [|c s]; [by exists []|].
  cbn [length is_valid_utf8_loop] in Hvalid.
  destruct (verify_utf8_sequence (c :: s)) as [[] len] eqn:Hverify; [|done].
  apply verify_decodes in Hverify as (cp & Hcp & Htake & Hlen); [|done].
  change (S (length s)) with (length (c :: s)) in Hvalid.
  rewrite <- length_drop in Hvalid.
  apply IH in Hvalid as (cps & Hcps & Hdrop).
  - exists (cp :: cps). split; [by constructor|].
    unfold utf8_text in *. cbn [map concat].
    by rewrite <- Htake, <- Hdrop, take_drop.
  - rewrite length_drop. simpl in *. lia.
Qed.

Lemma is_valid_utf8_loop_encodes cps : ∀ fuel,
  Forall scalar_value cps → length (utf8_text cps) ≤ fuel →
  is_valid_utf8_loop fuel (utf8_text cps) (length (utf8_text cps)) = true.
Proof.
  induction cps as [|cp cps IH]; intros fuel Hcps Hfuel; [by destruct fuel|].
  apply Forall_cons in Hcps as [Hcp Hcps].
  unfold utf8_text in *. cbn [map concat] in *.
  pose proof (utf8_encode_length cp) as Hlen.
  rewrite length_app in *.
  destruct fuel as [|fuel]; [lia|].
  destruct (length (utf8_encode cp) + length (concat (map utf8_encode cps)))
    as [|n] eqn:Hn; [lia|].
  cbn [is_valid_utf8_loop]. rewrite verify_encoded by done.
  rewrite drop_app_length.
  replace (S n - length (utf8_encode cp))
    with (length (concat (map utf8_encode cps))) by lia.
  apply IH; [done|lia].
Qed.

(** X16.  [is_valid_utf8] accepts the strings that are
    well-formed UTF-8 and no others: a buffer of [n] bytes passes if and
    only if it is the concatenation of the shortest encodings of Unicode
    scalar values (code points up to U+10FFFF that are not surrogates). *)
Theorem is_valid_utf8_spec (s : list ascii) :
  is_valid_utf8 s (length s) = true ↔
  ∃ cps, Forall scalar_value cps ∧ s = utf8_text cps.
Proof.
  unfold is_valid_utf8. split.
  - by apply is_valid_utf8_loop_decodes.
  - intros (cps & Hcps & ->). by apply is_valid_utf8_loop_encodes.
Qed.

(** * json_object_clear *)

Section ClearProofs.
Context {V : Type}.
Implicit Types (o : JSON_Object V).

Lemma json_object_clear_inv o :
  table_inv o →
  ∃ o', json_object_clear o = Some (JSONSuccess, o') ∧
        table_inv o' ∧ represents o' ∅ ∧
        count o' = 0 ∧ cell_capacity o' = cell_capacity o.
Proof.
  intros Hinv. unfold json_object_clear.
  rewrite (inv_cells_len _ Hinv), Nat.ltb_irrefl.
  rewrite drop_ge, app_nil_r by (by rewrite (inv_cells_len _ Hinv)).
  eexists. split; [done|]. split_and!; [|by intros key value; rewrite lookup_empty; split; [|intros (i & Hi & _)]|done..].
  split; simpl; try done; try apply Hinv; try lia; try constructor.
  - apply length_replicate.
  - intros c i Hc. apply lookup_replicate in Hc as [Hc _]. done.
Qed.

(** X17.  [json_object_clear] leaves an object
    that behaves as a new one: it has no entry, it keeps its cells, and
    after any further insertions and removals lookup returns the value of
    every key set since and NULL for every other key, the keys it held
    before included. *)
Theorem json_object_clear_empties (ops ops' : list (table_op V)) o :
  Forall (λ op, cstring (op_name op)) ops →
  Forall (λ op, cstring (op_name op)) ops' →
  run_ops ops (json_object_init 0) = Some o →
  ∃ o0 o',
    json_object_clear o = Some (JSONSuccess, o0) ∧
    json_object_get_count o0 = 0 ∧
    cell_capacity o0 = cell_capacity o ∧
    run_ops ops' o0 = Some o' ∧
    ∀ key, cstring key →
      json_object_get_value o' key = Some (model_ops ops' !! key).
Proof.
  intros Hcs Hcs' Hrun.
  destruct (run_ops_spec ops (json_object_init 0) ∅)
    as (o1 & Hrun1 & Hinv & _);
    [apply json_object_init_inv; by left|apply represents_init|done|].
  assert (o1 = o) as -> by congruence.
  destruct (json_object_clear_inv o Hinv)
    as (o0 & Hclear & Hinv0 & Hrep0 & Hcount & Hcap).
  destruct (run_ops_spec ops' o0 ∅ Hinv0 Hrep0 Hcs')
    as (o' & Hrun' & Hinv' & Hrep').
  exists o0, o'. split_and!; [done..|].
  intros key Hkey. by apply json_object_get_value_represents.
Qed.

End ClearProofs.

Lemma json_object_clear_empties_witness :
  ∃ o0 o',
    json_object_clear example_table = Some (JSONSuccess, o0) ∧
    json_object_get_count o0 = 0 ∧
    cell_capacity o0 = cell_capacity example_table ∧
    run_ops insert_only_ops o0 = Some o' ∧
    ∀ key, cstring key →
      json_object_get_value o' key = Some (model_ops insert_only_ops !! key).
Proof.
  apply (json_object_clear_empties table_example_ops insert_only_ops
           example_table).
  - repeat constructor; simpl; discriminate.
  - repeat constructor; simpl; discriminate.
  - vm_cast_no_check (eq_refl (Some example_table)).
Defined.

(** * Comments *)

Lemma remove_comments_loop_unfold fuel string start_token end_token
    in_string escaped :
  remove_comments_loop (S fuel) string start_token end_token in_string escaped
  = let current_char := peek string in
    let start_token_len := strlen start_token in
    let end_token_len := strlen end_token in
    if Ascii.eqb current_char NUL then string
    else if Ascii.eqb current_char "\" && negb escaped then
      current_char
      :: remove_comments_loop fuel (tl string) start_token end_token
           in_string true
    else if Ascii.eqb current_char QUOTE && negb escaped then
      current_char
      :: remove_comments_loop fuel (tl string) start_token end_token
           (negb in_string) false
    else if negb in_string && strncmp_eq string start_token start_token_len
    then
      let string := drop start_token_len string in
      match strstr string end_token with
      | None => replicate start_token_len " " ++ string
      | Some offset =>
          replicate start_token_len " "
          ++ replicate (offset + end_token_len) " "
          ++ remove_comments_loop fuel (drop (offset + end_token_len) string)
               start_token end_token in_string false
      end
    else
      current_char
      :: remove_comments_loop fuel (tl string) start_token end_token
           in_string false.
Proof. reflexivity. Qed.

(** The loop does not depend on the fuel, once there is enough of it. *)
Lemma remove_comments_loop_fuel start_token end_token :
  0 < strlen start_token →
  ∀ f1 f2 string in_string escaped,
    length string ≤ f1 → length string ≤ f2 →
    remove_comments_loop f1 string start_token end_token in_string escaped
    = remove_comments_loop f2 string start_token end_token in_string escaped.
Proof.
  intros Hstart. induction f1 as [|f1 IH];
    intros f2 string in_string escaped H1 H2.
  { destruct string; [|simpl in H1; lia]. by destruct f2. }
  destruct f2 as [|f2].
  { destruct string; [|simpl in H2; lia]. done. }
  rewrite !remove_comments_loop_unfold. cbv zeta.
  destruct (Ascii.eqb (peek string) NUL) eqn:Hnul; [done|].
  apply peek_not_NUL_length in Hnul.
  destruct (_ && _); [f_equal; apply IH; lia|].
  destruct (_ && _); [f_equal; apply IH; lia|].
  destruct (_ && _); [|f_equal; apply IH; lia].
  destruct (strstr _ _) as [offset|]; [|done].
  do 2 f_equal. apply IH; rewrite !length_drop; lia.
Qed.

Lemma strlen_two t0 t1 : t0 ≠ NUL → t1 ≠ NUL → strlen [t0; t1] = 2.
Proof.
  intros H0 H1. simpl.
  by rewrite (proj2 (Ascii.eqb_neq t0 NUL)), (proj2 (Ascii.eqb_neq t1 NUL)).
Qed.

(** [strncmp(s, token, 2) == 0] for a token of two characters. *)
Lemma strncmp_eq_two (s : list ascii) t0 t1 :
  t0 ≠ NUL → t1 ≠ NUL →
  strncmp_eq s [t0; t1] 2 = Ascii.eqb (peek s) t0 && Ascii.eqb (peek (tl s)) t1.
Proof.
  intros H0 H1. cbn [strncmp_eq peek hd tl].
  destruct (Ascii.eqb_spec (peek s) t0) as [->|]; [|done]. cbn [negb andb].
  rewrite (proj2 (Ascii.eqb_neq t0 NUL)) by done.
  by destruct (Ascii.eqb (peek (tl s)) t1), (Ascii.eqb (peek (tl s)) NUL).
Qed.

(** Characters that are no part of a comment are left as they are. *)
Lemma remove_comments_loop_copy t0 t1 end_token (a : list ascii) :
  t0 ≠ NUL → t1 ≠ NUL →
  ∀ x rest fuel in_string,
    Forall (λ c, c ≠ t1 ∧ c ≠ NUL ∧ c ≠ "\" ∧ c ≠ QUOTE) a →
    x ≠ t0 → x ≠ t1 → x ≠ NUL → x ≠ "\" → x ≠ QUOTE →
    length (a ++ x :: rest) ≤ fuel →
    remove_comments_loop fuel (a ++ x :: rest) [t0; t1] end_token
      in_string false
    = a ++ x :: remove_comments_loop (length rest) rest [t0; t1] end_token
                  in_string false.
Proof.
  intros Ht0 Ht1. induction a as [|c a IH];
    intros x rest fuel in_string Ha Hx0 Hx1 Hxnul Hxb Hxq Hfuel.
  - destruct fuel as [|fuel]; [simpl in Hfuel; lia|].
    cbn [app]. rewrite remove_comments_loop_unfold. cbv zeta.
    cbn [peek hd tl]. rewrite strlen_two, strncmp_eq_two by done.
    cbn [peek hd tl].
    rewrite (proj2 (Ascii.eqb_neq x NUL)), (proj2 (Ascii.eqb_neq x "\")),
      (proj2 (Ascii.eqb_neq x QUOTE)), (proj2 (Ascii.eqb_neq x t0)) by done.
    cbn [andb]. rewrite andb_false_r. f_equal.
    apply remove_comments_loop_fuel;
      [rewrite strlen_two by done; lia|simpl in *; lia..].
  - apply Forall_cons in Ha as [(Hc1 & Hcnul & Hcb & Hcq) Ha].
    destruct fuel as [|fuel]; [simpl in Hfuel; lia|].
    cbn [app]. rewrite remove_comments_loop_unfold. cbv zeta.
    cbn [peek hd tl]. rewrite strlen_two, strncmp_eq_two by done.
    cbn [peek hd tl].
    rewrite (proj2 (Ascii.eqb_neq c NUL)), (proj2 (Ascii.eqb_neq c "\")),
      (proj2 (Ascii.eqb_neq c QUOTE)) by done.
    cbn [andb].
    assert (Ascii.eqb (peek (a ++ x :: rest)) t1 = false) as ->.
    { apply Ascii.eqb_neq. destruct a as [|c2 a]; [done|].
      apply Forall_cons in Ha as [(? & _) _]. done. }
    rewrite !andb_false_r. f_equal.
    apply IH; try done. simpl in *. lia.
Qed.

Lemma strncmp_eq_first c s t0 t :
  c ≠ t0 → t0 ≠ NUL → strncmp_eq (c :: s) (t0 :: t) (strlen (t0 :: t)) = false.
Proof.
  intros Hc Ht0. cbn [strlen].
  rewrite (proj2 (Ascii.eqb_neq t0 NUL)) by done.
  cbn [strncmp_eq peek hd]. by rewrite (proj2 (Ascii.eqb_neq c t0)).
Qed.

(** The end of a comment is found behind a text that does not hold the
    first character of the end token. *)
Lemma strstr_end e0 e (c rest : list ascii) :
  e0 ≠ NUL →
  Forall (λ x, x ≠ e0 ∧ x ≠ NUL) c →
  strncmp_eq ((e0 :: e) ++ rest) (e0 :: e) (strlen (e0 :: e)) = true →
  strstr (c ++ (e0 :: e) ++ rest) (e0 :: e) = Some (length c).
Proof.
  intros He0 Hc Hend. induction c as [|x c IH].
  - cbn [app length] in *. destruct e; cbn [strstr]; by rewrite Hend.
  - apply Forall_cons in Hc as [[Hx Hxnul] Hc].
    cbn [app length strstr].
    rewrite strncmp_eq_first by done.
    rewrite (proj2 (Ascii.eqb_neq x NUL)) by done.
    change (c ++ e0 :: e ++ rest) with (c ++ (e0 :: e) ++ rest).
    by rewrite IH.
Qed.

(** The step of the loop at the start of a comment whose end is found. *)
Lemma remove_comments_loop_comment t0 t1 end_token fuel body offset :
  t0 ≠ NUL → t1 ≠ NUL → t0 ≠ "\" → t0 ≠ QUOTE →
  strstr body end_token = Some offset →
  remove_comments_loop (S fuel) (t0 :: t1 :: body) [t0; t1] end_token
    false false
  = replicate (2 + (offset + strlen end_token)) " "
    ++ remove_comments_loop fuel (drop (offset + strlen end_token) body)
         [t0; t1] end_token false false.
Proof.
  intros Ht0 Ht1 Hb Hq Hstr.
  rewrite remove_comments_loop_unfold. cbv zeta. cbn [peek hd].
  rewrite (proj2 (Ascii.eqb_neq t0 NUL)), (proj2 (Ascii.eqb_neq t0 "\")),
    (proj2 (Ascii.eqb_neq t0 QUOTE)) by done.
  rewrite strlen_two, strncmp_eq_two by done. cbn [peek hd tl].
  rewrite !Ascii.eqb_refl. cbn [andb negb].
  change (drop 2 (t0 :: t1 :: body)) with body. rewrite Hstr.
  by rewrite (replicate_add 2), <- app_assoc.
Qed.

Lemma remove_comments_two s t0 t1 e0 e :
  t0 ≠ NUL → t1 ≠ NUL → e0 ≠ NUL →
  remove_comments s [t0; t1] (e0 :: e)
  = remove_comments_loop (length s) s [t0; t1] (e0 :: e) false false.
Proof.
  intros Ht0 Ht1 He0. unfold remove_comments.
  rewrite strlen_two by done. cbn [strlen].
  by rewrite (proj2 (Ascii.eqb_neq e0 NUL)) by done.
Qed.

Lemma strlen_block_end : strlen ["*"; "/"] = 2.
Proof. done. Qed.

Lemma strlen_line_end : strlen ["010"] = 1.
Proof. done. Qed.

Section CommentProofs.
Context `{FloatOps}.

Lemma spaces_space n : Forall (λ c, isspace c = true) (replicate n " ").
Proof. apply Forall_replicate. done. Qed.

Lemma remove_line_comments_spaces n (s : list ascii) :
  remove_comments (replicate n " " ++ s) ["/"; "/"] ["010"]
  = replicate n " " ++ remove_comments s ["/"; "/"] ["010"].
Proof.
  rewrite !remove_comments_two by done.
  destruct n as [|n]; [done|].
  replace (replicate (S n) " ") with (replicate n " " ++ [" "])
    by (by rewrite <- replicate_S_end).
  rewrite <- !app_assoc. cbn [app].
  rewrite remove_comments_loop_copy; try done.
  by apply Forall_replicate.
Qed.

(** X18.  [json_parse_string_with_comments] ignores
    a comment in front of a text: the result for a block comment
    [/* ... */] or a line comment [// ...] followed by a text is the
    result for the text alone. *)
Theorem comments_are_ignored (block line text : list ascii) :
  Forall (λ x, x ≠ "*" ∧ x ≠ NUL) block →
  Forall (λ x, x ≠ "010" ∧ x ≠ NUL ∧ x ≠ "*" ∧ x ≠ "\" ∧ x ≠ QUOTE) line →
  cstring text →
  json_parse_string_with_comments ("/" :: "*" :: block ++ "*" :: "/" :: text)
  = json_parse_string_with_comments text ∧
  json_parse_string_with_comments ("/" :: "/" :: line ++ "010" :: text)
  = json_parse_string_with_comments text.
Proof.
  intros Hblock Hline Htext. unfold json_parse_string_with_comments.
  rewrite !parson_strdup_cstring; try done.
  2:{ repeat constructor; try done. apply Forall_app. split.
      - eapply Forall_impl; [exact Hline|]. by intros x (_ & ? & _).
      - by constructor. }
  2:{ repeat constructor; try done. apply Forall_app. split.
      - eapply Forall_impl; [exact Hblock|]. by intros x (_ & ?).
      - by repeat constructor. }
  cbv zeta. split.
  - assert (remove_comments ("/" :: "*" :: block ++ "*" :: "/" :: text)
              ["/"; "*"] ["*"; "/"]
            = replicate (2 + (length block + 2)) " "
              ++ remove_comments text ["/"; "*"] ["*"; "/"]) as ->.
    { rewrite !remove_comments_two by done. cbn [length].
      rewrite (remove_comments_loop_comment "/" "*" ["*"; "/"] _ _
                 (length block)); try done.
      2:{ change ("*" :: "/" :: text) with (["*"; "/"] ++ text).
          by apply strstr_end. }
      rewrite strlen_block_end. f_equal.
      change ("*" :: "/" :: text) with (["*"; "/"] ++ text).
      rewrite app_assoc, drop_app_length'
        by (rewrite length_app; simpl; lia).
      apply remove_comments_loop_fuel; [vm_compute; lia| |done].
      rewrite !length_app. simpl. lia. }
    rewrite remove_line_comments_spaces.
    by rewrite parse_value_skip by apply spaces_space.
  - assert (remove_comments ("/" :: "/" :: line ++ "010" :: text)
              ["/"; "*"] ["*"; "/"]
            = "/" :: "/" :: line ++ "010"
              :: remove_comments text ["/"; "*"] ["*"; "/"]) as ->.
    { rewrite !remove_comments_two by done.
      rewrite (remove_comments_loop_copy "/" "*" ["*"; "/"]
                 ("/" :: "/" :: line) ltac:(done) ltac:(done) "010" text);
        try done.
      repeat constructor; try done.
      eapply Forall_impl; [exact Hline|]. by intros x (_ & ? & ? & ? & ?). }
    set (text' := remove_comments text ["/"; "*"] ["*"; "/"]).
    assert (remove_comments ("/" :: "/" :: line ++ "010" :: text')
              ["/"; "/"] ["010"]
            = replicate (2 + (length line + 1)) " "
              ++ remove_comments text' ["/"; "/"] ["010"]) as ->.
    { rewrite !remove_comments_two by done. cbn [length].
      rewrite (remove_comments_loop_comment "/" "/" ["010"] _ _
                 (length line)); try done.
      2:{ change ("010" :: text') with (["010"] ++ text').
          apply strstr_end; [done| |done].
          eapply Forall_impl; [exact Hline|]. by intros x (? & ? & _). }
      rewrite strlen_line_end. f_equal.
      change ("010" :: text') with (["010"] ++ text').
      rewrite app_assoc, drop_app_length'
        by (rewrite length_app; simpl; lia).
      apply remove_comments_loop_fuel; [vm_compute; lia| |done].
      rewrite !length_app. simpl. lia. }
    by rewrite parse_value_skip by apply spaces_space.
Qed.

End CommentProofs.

Lemma comments_are_ignored_witness :
  @json_parse_string_with_comments integer_ops
    ("/" :: "*" :: [" "; "a"; " "; QUOTE] ++ "*" :: "/" :: ["["; "1"; "]"])
  = json_parse_string_with_comments ["["; "1"; "]"] ∧
  @json_parse_string_with_comments integer_ops
    ("/" :: "/" :: [" "; "b"] ++ "010" :: ["["; "1"; "]"])
  = json_parse_string_with_comments ["["; "1"; "]"].
Proof.
  apply (@comments_are_ignored integer_ops [" "; "a"; " "; QUOTE] [" "; "b"]
           ["["; "1"; "]"]).
  - repeat constructor; discriminate.
  - repeat constructor; discriminate.
  - repeat constructor; discriminate.
Defined.

(** * Equality is symmetric *)

Section EqualsSymmetric.
Context `{FloatOps}.

Lemma json_value_equals_array_loop_inv calls (a b : JSON_Array JSON_Value) n :
  ∀ i, json_value_equals_array_loop calls a b i n = Some true →
  ∀ j, i ≤ j < i + n →
    json_value_equals_child calls
      (if json_array_get_count a <=? j then None else Some j)
      (json_array_get_value b j) = Some true.
Proof.
  induction n as [|n IH]; intros i Hloop j Hj; [lia|].
  cbn [json_value_equals_array_loop] in Hloop.
  destruct (json_value_equals_child calls _ (json_array_get_value b i))
    as [[]|] eqn:Hi; try done. cbn in Hloop.
  destruct (decide (j = i)) as [->|]; [done|].
  apply (IH (S i)); [done|lia].
Qed.

Lemma json_value_equals_value_None (x : JSON_Value) :
  json_value_equals_value x None ≠ Some true.
Proof. by destruct x. Qed.

Lemma json_value_equals_array_inv (a : JSON_Array JSON_Value) (b : JSON_Value) :
  json_value_equals_value (Value_Array a) (Some b) = Some true →
  ∃ b_array, b = Value_Array b_array ∧
    length (items a) = length (items b_array) ∧
    ∀ j x, items a !! j = Some x →
      ∃ y, items b_array !! j = Some y ∧
           json_value_equals_value x (Some y) = Some true.
Proof.
  destruct b as [| | |b_array| |]; try done.
  cbn [json_value_equals_value json_value_get_type].
  rewrite bool_decide_eq_true_2 by done. cbn.
  unfold json_array_get_count.
  destruct (Nat.eqb_spec (length (items a)) (length (items b_array)))
    as [Hlen|]; [|done].
  cbn [negb]. intros Hloop. exists b_array. split_and!; [done..|].
  intros j x Hx. pose proof (lookup_lt_Some _ _ _ Hx) as Hj.
  pose proof (json_value_equals_array_loop_inv _ _ _ _ 0 Hloop j
                ltac:(lia)) as Hchild.
  unfold json_array_get_value, json_array_get_count in Hchild.
  destruct (Nat.leb_spec (length (items a)) j); [lia|].
  destruct (Nat.leb_spec (length (items b_array)) j); [lia|].
  unfold json_value_equals_child in Hchild.
  rewrite list_lookup_fmap, Hx in Hchild. simpl in Hchild.
  destruct (items b_array !! j) as [y|] eqn:Hy.
  - by exists y.
  - by apply json_value_equals_value_None in Hchild.
Qed.

Lemma json_value_equals_object_loop_inv calls
    (a b : JSON_Object JSON_Value) n :
  table_inv a →
  ∀ i, json_value_equals_object_loop calls a b i n = Some true →
  ∀ j key, i ≤ j < i + n → names a !! j = Some key →
    ∃ r, json_object_get_value b key = Some r ∧
         json_value_equals_child calls (Some j) r = Some true.
Proof.
  intros Hinv. induction n as [|n IH]; intros i Hloop j key Hj Hkey; [lia|].
  cbn [json_value_equals_object_loop] in Hloop.
  destruct (decide (j = i)) as [->|].
  - unfold json_object_get_name in Hloop.
    pose proof (lookup_lt_Some _ _ _ Hkey) as Hlt.
    rewrite (inv_names_len _ Hinv) in Hlt.
    destruct (Nat.leb_spec (count a) i); [lia|].
    rewrite Hkey in Hloop.
    assert (cstring key) as Hcs.
    { eapply Forall_lookup_1; [apply (inv_cstring _ Hinv)|done]. }
    rewrite (json_object_getn_item_present a key i) in Hloop by done.
    cbn [mbind option_bind] in Hloop.
    destruct (json_object_get_value b key) as [r|]; [|done].
    cbn [mbind option_bind] in Hloop. exists r. split; [done|].
    by destruct (json_value_equals_child calls (Some i) r) as [[]|].
  - apply (IH (S i)); [|lia|done].
    destruct (match json_object_get_name a i with
              | Some key0 => _
              | None => _
              end) as [[a_index b_value]|]; [|done].
    cbn [mbind option_bind] in Hloop.
    by destruct (json_value_equals_child calls a_index b_value) as [[]|].
Qed.

Lemma json_value_equals_object_inv (a : JSON_Object JSON_Value)
    (b : JSON_Value) :
  table_inv a →
  json_value_equals_value (Value_Object a) (Some b) = Some true →
  ∃ b_object, b = Value_Object b_object ∧
    count a = count b_object ∧
    ∀ j key x, names a !! j = Some key → values a !! j = Some x →
      ∃ y, json_object_get_value b_object key = Some (Some y) ∧
           json_value_equals_value x (Some y) = Some true.
Proof.
  intros Hinv. destruct b as [| |b_object| | |]; try done.
  cbn [json_value_equals_value json_value_get_type].
  rewrite bool_decide_eq_true_2 by done. cbn.
  unfold json_object_get_count.
  destruct (Nat.eqb_spec (count a) (count b_object)) as [Hlen|]; [|done].
  cbn [negb]. intros Hloop. exists b_object. split_and!; [done..|].
  intros j key x Hkey Hx. pose proof (lookup_lt_Some _ _ _ Hkey) as Hj.
  rewrite (inv_names_len _ Hinv) in Hj.
  destruct (json_value_equals_object_loop_inv _ a b_object _ Hinv 0 Hloop
              j key ltac:(lia) Hkey) as (r & Hr & Hchild).
  unfold json_value_equals_child in Hchild.
  rewrite list_lookup_fmap, Hx in Hchild. simpl in Hchild.
  destruct r as [y|].
  - by exists y.
  - by apply json_value_equals_value_None in Hchild.
Qed.

Lemma json_value_equals_value_symmetric (a : JSON_Value) :
  number_equality_symmetric →
  ∀ b, value_wf a → value_wf b →
    json_value_equals_value a (Some b) = Some true →
    json_value_equals_value b (Some a) = Some true.
Proof.
  intros Hnum.
  induction a as [chars|number|object IH|array IH|boolean|]
    using JSON_Value_ind; intros b Hwfa Hwfb Heq.
  - destruct b as [chars'| | | | |]; try done. simpl in *.
    injection Heq as Heq. apply andb_prop in Heq as [Hlen Hcmp].
    apply Nat.eqb_eq in Hlen. unfold memcmp_eq in *.
    apply bool_decide_eq_true in Hcmp. f_equal.
    rewrite <- Hlen, Nat.eqb_refl. cbn [andb].
    by apply bool_decide_eq_true.
  - destruct b as [|number'| | | |]; try done. simpl in *.
    by rewrite Hnum.
  - destruct Hwfa as [Hinva Hwfa].
    apply json_value_equals_object_inv in Heq
        as (b_object & -> & Hcount & Hall); [|done].
    destruct Hwfb as [Hinvb Hwfb].
    assert (∀ key, key ∈ names object → key ∈ names b_object) as Hsub.
    { intros key Hin. apply list_elem_of_lookup in Hin as [j Hj].
      destruct (lookup_lt_is_Some_2 (values object) j) as [x Hx].
      { rewrite (inv_values_len _ Hinva), <- (inv_names_len _ Hinva).
        by eapply lookup_lt_Some. }
      destruct (Hall j key x Hj Hx) as (y & Hy & _).
      destruct (decide (key ∈ names b_object)) as [|Hnotin]; [done|].
      assert (cstring key) as Hcs.
      { eapply Forall_lookup_1; [apply (inv_cstring _ Hinva)|done]. }
      by rewrite json_object_get_value_absent in Hy. }
    assert (names object ≡ₚ names b_object) as Hperm.
    { apply submseteq_length_Permutation.
      - apply NoDup_submseteq; [apply (inv_nodup _ Hinva)|done].
      - rewrite (inv_names_len _ Hinva), (inv_names_len _ Hinvb). lia. }
    cbn [json_value_equals_value json_value_get_type].
    rewrite bool_decide_eq_true_2 by done. cbn.
    unfold json_object_get_count. rewrite Hcount, Nat.eqb_refl. cbn [negb].
    rewrite <- Hcount at 1. rewrite Hcount.
    apply json_value_equals_object_loop_lookup; [done| |lia].
    intros i key p Hkey Hp.
    assert (key ∈ names object) as Hin.
    { rewrite Hperm. apply list_elem_of_lookup. by exists i. }
    assert (cstring key) as Hcs.
    { eapply Forall_lookup_1; [apply (inv_cstring _ Hinvb)|done]. }
    apply list_elem_of_lookup in Hin as [j Hj].
    destruct (json_object_get_value_present object key j)
      as (x & Hx & Hget); [done..|].
    exists x. split; [done|].
    destruct (Hall j key x Hj Hx) as (y & Hy & Hxy).
    destruct (json_object_get_value_present b_object key i)
      as (p' & Hp' & Hget'); [done..|].
    assert (y = p) as -> by congruence.
    rewrite Forall_lookup in IH. apply (IH j x Hx p); [| |done].
    + by apply (Forall_id_map_lookup value_wf (values object) j).
    + by apply (Forall_id_map_lookup value_wf (values b_object) i).
  - apply json_value_equals_array_inv in Heq
        as (b_array & -> & Hlen & Hall).
    destruct b_array as [ps cap]. apply json_value_equals_array.
    simpl in *.
    apply Forall2_same_length_lookup_2; [done|].
    intros j y x Hy Hx.
    destruct (Hall j x Hx) as (y' & Hy' & Hxy).
    assert (y' = y) as -> by congruence.
    rewrite Forall_lookup in IH. apply (IH j x Hx y); [| |done].
    + by apply (Forall_id_map_lookup value_wf (items array) j).
    + by apply (Forall_id_map_lookup value_wf ps j).
  - destruct b as [| | | |boolean'|]; try done. simpl in *.
    injection Heq as Heq. apply Z.eqb_eq in Heq as ->.
    by rewrite Z.eqb_refl.
  - by destruct b.
Qed.

(** X19.  [json_value_equals] is symmetric on
    well-formed values: when it finds [a] equal to [b], it finds [b] equal
    to [a], although it walks the entries of its first argument and looks
    them up in the second. *)
Theorem json_value_equals_symmetric (a b : JSON_Value) :
  value_wf a → value_wf b → number_equality_symmetric →
  json_value_equals (Some a) (Some b) = Some true →
  json_value_equals (Some b) (Some a) = Some true.
Proof.
  intros Hwfa Hwfb Hnum. by apply json_value_equals_value_symmetric.
Qed.

End EqualsSymmetric.

Lemma json_value_equals_symmetric_witness :
  json_value_equals (Some example_array_parsed) (Some example_array)
  = Some true.
Proof.
  apply (@json_value_equals_symmetric integer_ops example_array
           example_array_parsed).
  - apply built_wf, example_array_built.
  - simpl. repeat first [done | by right | constructor].
  - intros x y. apply Z.eqb_sym.
  - vm_compute. reflexivity.
Defined.
